(** * The client idle filter, the wakeup-fd factory and the task service of gRPC

    A shallow embedding of
    - [src/core/ext/filters/client_idle/client_idle_filter.cc]: the lock-free
      idle tracker ([ChannelData::IncreaseCallCount],
      [ChannelData::DecreaseCallCount], [ChannelData::IdleTimerCallback],
      [ChannelData::StartTransportOp], [GetClientIdleTimeout],
      [MaybeAddClientIdleFilter]);
    - [src/core/lib/event_engine/iomgr_engine/wakeup_fd_posix.cc] with the
      pipe factory of [wakeup_fd_pipe.cc] and
      [ConfigureDefaultWakeupFdFactories];
    - the [EventEngine::RunAt] / [EventEngine::Cancel] contract.

    The functions of the idle tracker run concurrently.  Every access to
    shared memory (an atomic load, store, fetch-and-add or compare-exchange,
    the write of [last_idle_time_], a timer call, the transport op sent by
    [EnterIdle]) is one atomic step of the thread that performs it, and an
    execution is an interleaving of such steps chosen by a schedule.  Atomics
    are sequentially consistent in the model; the [std::memory_order] that the
    source passes is kept as a label on the step. *)

From Stdlib Require Import ZArith Lia Bool List.
From stdpp Require Import base option list gmap strings.

Local Open Scope Z_scope.

(* ===================================================================== *)
(** * Part I: definitions *)
(* ===================================================================== *)

Module IdleFilter.

(** ** Data of [ChannelData] *)

(** [enum ChannelState]. *)
Inductive ChannelState : Type :=
  | IDLE
  | CALLS_ACTIVE
  | TIMER_PENDING
  | TIMER_PENDING_CALLS_ACTIVE
  | TIMER_PENDING_CALLS_SEEN_SINCE_TIMER_START
  | PROCESSING.

#[global] Instance ChannelState_eq_dec : EqDecision ChannelState.
Proof. solve_decision. Defined.

(** The [std::memory_order] arguments that occur in the filter. *)
Inductive memory_order : Type :=
  | memory_order_relaxed
  | memory_order_acquire
  | memory_order_release.

(** [call_count_] is a [std::atomic<intptr_t>]: [fetch_add] and [fetch_sub]
    wrap around in two's complement (64-bit [intptr_t]). *)
Definition INTPTR_BITS : Z := 64.
Definition INTPTR_MAX : Z := 2 ^ (INTPTR_BITS - 1) - 1.
Definition INTPTR_MIN : Z := - 2 ^ (INTPTR_BITS - 1).

Definition wrap_intptr (z : Z) : Z :=
  (z - INTPTR_MIN) mod 2 ^ INTPTR_BITS + INTPTR_MIN.

(** The members of [ChannelData] that track the state of the channel.
    [idle_timer_] is [Some deadline] while the timer is pending and [None]
    when it is unset, has fired or was cancelled.  Tracing and the reference
    counts taken on the channel stack are not part of the model. *)
Record ChannelData : Type := mkChannelData {
  client_idle_timeout_ : Z;
  last_idle_time_ : Z;
  call_count_ : Z;
  state_ : ChannelState;
  idle_timer_ : option Z
}.

Definition set_call_count (v : Z) (d : ChannelData) : ChannelData :=
  mkChannelData (client_idle_timeout_ d) (last_idle_time_ d) v (state_ d)
                (idle_timer_ d).

Definition set_state (v : ChannelState) (d : ChannelData) : ChannelData :=
  mkChannelData (client_idle_timeout_ d) (last_idle_time_ d) (call_count_ d) v
                (idle_timer_ d).

Definition set_last_idle_time (v : Z) (d : ChannelData) : ChannelData :=
  mkChannelData (client_idle_timeout_ d) v (call_count_ d) (state_ d)
                (idle_timer_ d).

Definition set_idle_timer (v : option Z) (d : ChannelData) : ChannelData :=
  mkChannelData (client_idle_timeout_ d) (last_idle_time_ d) (call_count_ d)
                (state_ d) v.

(** The constructor: [call_count_{0}], [state_{IDLE}],
    [grpc_timer_init_unset(&idle_timer_)].  [last_idle_time_] is not
    initialised by the source; the model starts it at 0. *)
Definition ChannelData_ctor (timeout : Z) : ChannelData :=
  mkChannelData timeout 0 0 IDLE None.

(** ** Observable actions

    What one atomic step does to shared memory or to the outside. *)
Inductive action : Type :=
  | AFetchAdd (previous_value : Z)
  | AFetchSub (previous_value : Z)
  | ALoad (observed : ChannelState)
  | AStore (desired : ChannelState) (mo : memory_order)
  | ACasOk (expected desired : ChannelState) (success : memory_order)
  | ACasFail (expected observed : ChannelState) (failure : memory_order)
  | ASetLastIdleTime (now : Z)
  | ATimerInit (deadline : Z)
  | ATimerCancel (was_pending : bool)
  | AEnterIdle
  | ANextOp (disconnect : bool).

#[global] Instance memory_order_eq_dec : EqDecision memory_order.
Proof. solve_decision. Defined.

#[global] Instance action_eq_dec : EqDecision action.
Proof. solve_decision. Defined.

(** A step that writes shared memory or reaches the outside; loads and failed
    compare-exchanges are not effects. *)
Definition is_effect (a : action) : bool :=
  match a with
  | ALoad _ | ACasFail _ _ _ => false
  | _ => true
  end.

Definition effects (tr : list action) : list action := List.filter is_effect tr.

(** [state_.compare_exchange_weak(expected, desired, success, failure)]:
    succeeds when the value is the expected one and the attempt does not fail
    spuriously; on failure the local [expected] receives the value read. *)
Definition compare_exchange_weak (spurious : bool)
    (expected desired : ChannelState) (success failure : memory_order)
    (d : ChannelData) : ChannelData * bool * ChannelState * list action :=
  if bool_decide (state_ d = expected) && negb spurious
  then (set_state desired d, true, expected, [ACasOk expected desired success])
  else (d, false, state_ d, [ACasFail expected (state_ d) failure]).

(** [grpc_millis] is [int64_t].  The sum of two of them is computed in 64
    bits and wraps around in two's complement. *)
Definition INT64_MAX : Z := 2 ^ 63 - 1.
Definition INT64_MIN : Z := - 2 ^ 63.

Definition wrap_int64 (z : Z) : Z := (z - INT64_MIN) mod 2 ^ 64 + INT64_MIN.

(** [StartIdleTimer]:
    [grpc_timer_init(&idle_timer_, last_idle_time_ + client_idle_timeout_, ..)],
    the sum being one of [grpc_millis]. *)
Definition StartIdleTimer (d : ChannelData) : ChannelData * list action :=
  let deadline := wrap_int64 (last_idle_time_ d + client_idle_timeout_ d) in
  (set_idle_timer (Some deadline) d, [ATimerInit deadline]).

(** ** [IncreaseCallCount] *)

(** Control points of [IncreaseCallCount]; [IncSwitch state] is the head of
    the [while (true)] loop with the value of the local variable [state]. *)
Inductive inc_pc : Type :=
  | IncFetch
  | IncLoad
  | IncSwitch (state : ChannelState)
  | IncRet.

Definition IncreaseCallCount (spurious : bool) (d : ChannelData) (pc : inc_pc)
    : ChannelData * inc_pc * list action :=
  match pc with
  | IncFetch =>
      let previous_value := call_count_ d in
      (set_call_count (wrap_intptr (previous_value + 1)) d,
       if previous_value =? 0 then IncLoad else IncRet,
       [AFetchAdd previous_value])
  | IncLoad => (d, IncSwitch (state_ d), [ALoad (state_ d)])
  | IncSwitch state =>
      match state with
      | IDLE =>
          (set_state CALLS_ACTIVE d, IncRet,
           [AStore CALLS_ACTIVE memory_order_relaxed])
      | TIMER_PENDING | TIMER_PENDING_CALLS_SEEN_SINCE_TIMER_START =>
          let '(d', ok, state', acts) :=
            compare_exchange_weak spurious state TIMER_PENDING_CALLS_ACTIVE
              memory_order_acquire memory_order_relaxed d in
          (d', if ok then IncRet else IncSwitch state', acts)
      | _ => (d, IncSwitch (state_ d), [ALoad (state_ d)])
      end
  | IncRet => (d, IncRet, [])
  end.

(** ** [DecreaseCallCount] *)

Inductive dec_pc : Type :=
  | DecFetch
  | DecSetTime
  | DecLoad
  | DecSwitch (state : ChannelState)
  | DecStore
  | DecRet.

(** [now] is the value of [ExecCtx::Get()->Now()]. *)
Definition DecreaseCallCount (spurious : bool) (now : Z) (d : ChannelData)
    (pc : dec_pc) : ChannelData * dec_pc * list action :=
  match pc with
  | DecFetch =>
      let previous_value := call_count_ d in
      (set_call_count (wrap_intptr (previous_value - 1)) d,
       if previous_value =? 1 then DecSetTime else DecRet,
       [AFetchSub previous_value])
  | DecSetTime => (set_last_idle_time now d, DecLoad, [ASetLastIdleTime now])
  | DecLoad => (d, DecSwitch (state_ d), [ALoad (state_ d)])
  | DecSwitch state =>
      match state with
      | CALLS_ACTIVE =>
          let '(d', acts) := StartIdleTimer d in (d', DecStore, acts)
      | TIMER_PENDING_CALLS_ACTIVE =>
          let '(d', ok, state', acts) :=
            compare_exchange_weak spurious state
              TIMER_PENDING_CALLS_SEEN_SINCE_TIMER_START
              memory_order_release memory_order_relaxed d in
          (d', if ok then DecRet else DecSwitch state', acts)
      | _ => (d, DecSwitch (state_ d), [ALoad (state_ d)])
      end
  | DecStore =>
      (set_state TIMER_PENDING d, DecRet,
       [AStore TIMER_PENDING memory_order_release])
  | DecRet => (d, DecRet, [])
  end.

(** ** [IdleTimerCallback] *)

(** [TcEntry cancelled]: the closure was scheduled, with
    [error != GRPC_ERROR_NONE] when [cancelled].  [TcEnterIdle] and
    [TcStoreIdle] follow the successful exchange out of [TIMER_PENDING],
    [TcStartTimer] and [TcStoreTimerPending] the one out of
    [TIMER_PENDING_CALLS_SEEN_SINCE_TIMER_START]. *)
Inductive tc_pc : Type :=
  | TcEntry (cancelled : bool)
  | TcSwitch (state : ChannelState)
  | TcEnterIdle
  | TcStoreIdle
  | TcStartTimer
  | TcStoreTimerPending
  | TcRet.

Definition IdleTimerCallback (spurious : bool) (d : ChannelData) (pc : tc_pc)
    : ChannelData * tc_pc * list action :=
  match pc with
  | TcEntry cancelled =>
      if cancelled then (d, TcRet, [])
      else (d, TcSwitch (state_ d), [ALoad (state_ d)])
  | TcSwitch state =>
      match state with
      | TIMER_PENDING =>
          let '(d', finished, state', acts) :=
            compare_exchange_weak spurious state PROCESSING
              memory_order_acquire memory_order_relaxed d in
          (d', if finished then TcEnterIdle else TcSwitch state', acts)
      | TIMER_PENDING_CALLS_ACTIVE =>
          let '(d', finished, state', acts) :=
            compare_exchange_weak spurious state CALLS_ACTIVE
              memory_order_relaxed memory_order_relaxed d in
          (d', if finished then TcRet else TcSwitch state', acts)
      | TIMER_PENDING_CALLS_SEEN_SINCE_TIMER_START =>
          let '(d', finished, state', acts) :=
            compare_exchange_weak spurious state PROCESSING
              memory_order_acquire memory_order_relaxed d in
          (d', if finished then TcStartTimer else TcSwitch state', acts)
      | _ => (d, TcSwitch (state_ d), [ALoad (state_ d)])
      end
  | TcEnterIdle => (d, TcStoreIdle, [AEnterIdle])
  | TcStoreIdle =>
      (set_state IDLE d, TcRet, [AStore IDLE memory_order_relaxed])
  | TcStartTimer =>
      let '(d', acts) := StartIdleTimer d in (d', TcStoreTimerPending, acts)
  | TcStoreTimerPending =>
      (set_state TIMER_PENDING d, TcRet,
       [AStore TIMER_PENDING memory_order_relaxed])
  | TcRet => (d, TcRet, [])
  end.

(** ** The timer *)

(** Modelled from the spec: [grpc_timer] (src/core/lib/iomgr/timer.h) is not
    part of the sources at hand.  It is the single-shot timer of the spec:
    once armed it fires when the clock reaches its deadline and its closure is
    then scheduled without error; [grpc_timer_cancel] on a pending timer
    schedules the closure with a cancellation error, and on a timer that is
    unset or has already fired it does nothing. *)
Definition grpc_timer_cancel (d : ChannelData)
    : ChannelData * list action * list tc_pc :=
  match idle_timer_ d with
  | Some _ => (set_idle_timer None d, [ATimerCancel true], [TcEntry true])
  | None => (d, [ATimerCancel false], [])
  end.

(** Modelled from the spec: the expiry of a pending [grpc_timer], as
    above. *)
Definition grpc_timer_expire (clock : Z) (d : ChannelData)
    : option (ChannelData * list tc_pc) :=
  match idle_timer_ d with
  | Some deadline =>
      if deadline <=? clock
      then Some (set_idle_timer None d, [TcEntry false])
      else None
  | None => None
  end.

(** ** Threads *)

(** [StartTransportOp]: with [disconnect_with_error] set it runs
    [IncreaseCallCount] and then [grpc_timer_cancel]; it always ends by
    passing the op to the next filter.  [disconnect] records whether the op
    carried [disconnect_with_error]. *)
Inductive top_pc : Type :=
  | TopIncrease (pc : inc_pc)
  | TopNextOp (disconnect : bool)
  | TopRet (disconnect : bool).

(** A thread is inside [CallData::Init] (that is [IncreaseCallCount]; the
    call is live once it is at [IncRet]), inside [CallData::Destroy] (that is
    [DecreaseCallCount]), inside [StartTransportOp], or runs the timer
    closure. *)
Inductive thread : Type :=
  | CallInit (pc : inc_pc)
  | CallDestroy (pc : dec_pc)
  | TransportOp (pc : top_pc)
  | TimerClosure (pc : tc_pc).

Definition StartTransportOp_entry (disconnect : bool) : thread :=
  TransportOp (if disconnect then TopIncrease IncFetch else TopNextOp false).

(** One atomic step of a thread: the new shared data, the new control point,
    the actions performed and the closures scheduled. *)
Definition thread_step (spurious : bool) (now : Z) (d : ChannelData)
    (th : thread) : ChannelData * thread * list action * list thread :=
  match th with
  | CallInit pc =>
      let '(d', pc', acts) := IncreaseCallCount spurious d pc in
      (d', CallInit pc', acts, [])
  | CallDestroy pc =>
      let '(d', pc', acts) := DecreaseCallCount spurious now d pc in
      (d', CallDestroy pc', acts, [])
  | TransportOp (TopIncrease IncRet) =>
      let '(d', acts, closures) := grpc_timer_cancel d in
      (d', TransportOp (TopNextOp true), acts, TimerClosure <$> closures)
  | TransportOp (TopIncrease pc) =>
      let '(d', pc', acts) := IncreaseCallCount spurious d pc in
      (d', TransportOp (TopIncrease pc'), acts, [])
  | TransportOp (TopNextOp disconnect) =>
      (d, TransportOp (TopRet disconnect), [ANextOp disconnect], [])
  | TransportOp (TopRet _) => (d, th, [], [])
  | TimerClosure pc =>
      let '(d', pc', acts) := IdleTimerCallback spurious d pc in
      (d', TimerClosure pc', acts, [])
  end.

(** ** Executions *)

Record config : Type := mkConfig {
  chand : ChannelData;
  clock : Z;
  threads : list thread
}.

Definition init (timeout : Z) : config :=
  mkConfig (ChannelData_ctor timeout) 0 [].

(** What the environment and the scheduler can do: a new call enters
    [CallData::Init]; a live call enters [CallData::Destroy]; a transport op
    arrives; time passes; the pending timer expires; a thread performs its
    next atomic step. *)
Inductive event : Type :=
  | EvCallInit
  | EvCallDestroy (i : nat)
  | EvTransportOp (disconnect : bool)
  | EvTick (dt : Z)
  | EvTimerExpire
  | EvStep (i : nat) (spurious : bool).

(** [None] when the event is not enabled in the configuration. *)
Definition step (c : config) (ev : event) : option (config * list action) :=
  match ev with
  | EvCallInit =>
      Some (mkConfig (chand c) (clock c) (threads c ++ [CallInit IncFetch]), [])
  | EvCallDestroy i =>
      match threads c !! i with
      | Some (CallInit IncRet) =>
          Some (mkConfig (chand c) (clock c)
                  (<[i := CallDestroy DecFetch]> (threads c)), [])
      | _ => None
      end
  | EvTransportOp disconnect =>
      Some (mkConfig (chand c) (clock c)
              (threads c ++ [StartTransportOp_entry disconnect]), [])
  | EvTick dt =>
      if 0 <=? dt then Some (mkConfig (chand c) (clock c + dt) (threads c), [])
      else None
  | EvTimerExpire =>
      match grpc_timer_expire (clock c) (chand c) with
      | Some (d', closures) =>
          Some (mkConfig d' (clock c) (threads c ++ (TimerClosure <$> closures)),
                [])
      | None => None
      end
  | EvStep i spurious =>
      match threads c !! i with
      | Some th =>
          let '(d', th', acts, spawned) :=
            thread_step spurious (clock c) (chand c) th in
          Some (mkConfig d' (clock c) (<[i := th']> (threads c) ++ spawned),
                acts)
      | None => None
      end
  end.

Fixpoint exec (c : config) (evs : list event)
    : option (config * list action) :=
  match evs with
  | [] => Some (c, [])
  | ev :: evs' =>
      match step c ev with
      | Some (c', acts) =>
          match exec c' evs' with
          | Some (c'', tr) => Some (c'', acts ++ tr)
          | None => None
          end
      | None => None
      end
  end.

(** A thread run alone: one step per entry of [spurious], the actions
    concatenated.  No other thread touches the channel data in between. *)
Fixpoint run_alone (spurious : list bool) (now : Z) (d : ChannelData)
    (th : thread) : ChannelData * thread * list action :=
  match spurious with
  | [] => (d, th, [])
  | b :: rest =>
      let '(d', th', acts, _) := thread_step b now d th in
      let '(d'', th'', tr) := run_alone rest now d' th' in
      (d'', th'', acts ++ tr)
  end.

(** The flags of a compare-exchange loop that fails spuriously [k] times and
    then makes an attempt that does not. *)
Definition cas_attempts (k : nat) : list bool := repeat true k ++ [false].

(** A thread at the head of its loop, with the local [state] equal to
    [state_], where the switch reaches a compare-exchange. *)
Definition at_cas (d : ChannelData) (th : thread) : Prop :=
  match th with
  | CallInit (IncSwitch s) | TransportOp (TopIncrease (IncSwitch s)) =>
      s = state_ d /\
      (s = TIMER_PENDING \/ s = TIMER_PENDING_CALLS_SEEN_SINCE_TIMER_START)
  | CallDestroy (DecSwitch s) =>
      s = state_ d /\ s = TIMER_PENDING_CALLS_ACTIVE
  | TimerClosure (TcSwitch s) =>
      s = state_ d /\
      (s = TIMER_PENDING \/ s = TIMER_PENDING_CALLS_ACTIVE \/
       s = TIMER_PENDING_CALLS_SEEN_SINCE_TIMER_START)
  | _ => False
  end.

(** ** Reading a configuration *)

(** The thread is inside [IncreaseCallCount]: called and not yet returned. *)
Definition in_IncreaseCallCount (th : thread) : bool :=
  match th with
  | CallInit IncRet => false
  | CallInit _ => true
  | TransportOp (TopIncrease IncRet) => false
  | TransportOp (TopIncrease _) => true
  | _ => false
  end.

Definition in_DecreaseCallCount (th : thread) : bool :=
  match th with
  | CallDestroy DecRet => false
  | CallDestroy _ => true
  | _ => false
  end.

(** No call of [IncreaseCallCount] or [DecreaseCallCount] is in flight. *)
Definition quiescent (c : config) : Prop :=
  Forall (fun th => in_IncreaseCallCount th = false /\
                    in_DecreaseCallCount th = false) (threads c).

(** The thread incremented [call_count_] from 0 and is still inside
    [IncreaseCallCount], looping until it has moved [state_]. *)
Definition raising_from_zero (th : thread) : bool :=
  match th with
  | CallInit (IncLoad | IncSwitch _) => true
  | TransportOp (TopIncrease (IncLoad | IncSwitch _)) => true
  | _ => false
  end.

(** The calls of [IncreaseCallCount] and of [DecreaseCallCount] that a
    schedule starts. *)
Definition starts_increase (ev : event) : bool :=
  match ev with
  | EvCallInit | EvTransportOp true => true
  | _ => false
  end.

Definition starts_decrease (ev : event) : bool :=
  match ev with
  | EvCallDestroy _ => true
  | _ => false
  end.

Definition increases (evs : list event) : Z :=
  Z.of_nat (length (List.filter starts_increase evs)).

Definition decreases (evs : list event) : Z :=
  Z.of_nat (length (List.filter starts_decrease evs)).

(** ** Accounting *)

(** The part a thread plays at its control point.  A [Settled] thread is
    counted in [call_count_] and is not about to touch [state_]; a [Raising]
    thread has raised the counter from 0 and still has to move [state_]
    ([RaisingStore]: it has read [IDLE] and will store [CALLS_ACTIVE]); a
    [Lowering] thread has lowered the counter from 1 and still has to move
    [state_] ([LoweringStore]: it has read [CALLS_ACTIVE] and will arm the
    timer and store [TIMER_PENDING]); a [Holding] thread is a timer closure
    that has put [state_] into [PROCESSING]. *)
Inductive role : Type :=
  | Neutral
  | Settled
  | Raising
  | RaisingStore
  | Lowering
  | LoweringStore
  | Holding.

Definition inc_role (pc : inc_pc) : role :=
  match pc with
  | IncFetch => Neutral
  | IncLoad => Raising
  | IncSwitch IDLE => RaisingStore
  | IncSwitch _ => Raising
  | IncRet => Settled
  end.

Definition dec_role (pc : dec_pc) : role :=
  match pc with
  | DecFetch => Settled
  | DecSetTime | DecLoad => Lowering
  | DecSwitch CALLS_ACTIVE | DecStore => LoweringStore
  | DecSwitch _ => Lowering
  | DecRet => Neutral
  end.

Definition tc_role (pc : tc_pc) : role :=
  match pc with
  | TcEnterIdle | TcStoreIdle | TcStartTimer | TcStoreTimerPending => Holding
  | _ => Neutral
  end.

Definition role_of (th : thread) : role :=
  match th with
  | CallInit pc => inc_role pc
  | CallDestroy pc => dec_role pc
  | TransportOp (TopIncrease pc) => inc_role pc
  | TransportOp (TopNextOp disconnect | TopRet disconnect) =>
      if disconnect then Settled else Neutral
  | TimerClosure pc => tc_role pc
  end.

Definition counts (r : role) : bool :=
  match r with Settled | Raising | RaisingStore => true | _ => false end.
Definition settles (r : role) : bool :=
  match r with Settled => true | _ => false end.
Definition raises (r : role) : bool :=
  match r with Raising | RaisingStore => true | _ => false end.
Definition stores_active (r : role) : bool :=
  match r with RaisingStore => true | _ => false end.
Definition lowers (r : role) : bool :=
  match r with Lowering | LoweringStore => true | _ => false end.
Definition stores_pending (r : role) : bool :=
  match r with LoweringStore => true | _ => false end.
Definition holds (r : role) : bool :=
  match r with Holding => true | _ => false end.

(** The number of threads whose role satisfies [p]. *)
Fixpoint tally (p : role -> bool) (l : list thread) : Z :=
  match l with
  | [] => 0
  | th :: l' => Z.b2z (p (role_of th)) + tally p l'
  end.

Definition busy_state (s : ChannelState) : bool :=
  match s with
  | CALLS_ACTIVE | TIMER_PENDING_CALLS_ACTIVE => true
  | _ => false
  end.

(** The invariant of the tracker. *)
Record Inv (c : config) : Prop := mkInv {
  inv_count : call_count_ (chand c) = tally counts (threads c);
  inv_raising : tally raises (threads c) <= 1;
  inv_lowering : tally lowers (threads c) <= 1;
  inv_holding : tally holds (threads c) <= 1;
  inv_lowered : 1 <= tally lowers (threads c) ->
                tally raises (threads c) = 0 ->
                tally settles (threads c) = 0;
  inv_busy : busy_state (state_ (chand c)) = true <->
             (1 <= tally lowers (threads c) \/
              (tally raises (threads c) = 0 /\
               1 <= tally settles (threads c)));
  inv_store_active : 1 <= tally stores_active (threads c) ->
                     state_ (chand c) = IDLE;
  inv_store_pending : 1 <= tally stores_pending (threads c) ->
                      state_ (chand c) = CALLS_ACTIVE;
  inv_processing : 1 <= tally holds (threads c) ->
                   state_ (chand c) = PROCESSING
}.

(** What one step of a thread does to its role, to [call_count_] and to
    [state_]. *)
Inductive protocol (cc : Z) (st : ChannelState)
    : role -> role -> Z -> ChannelState -> Prop :=
  | proto_same r : protocol cc st r r cc st
  | proto_first_call :
      cc = 0 -> protocol cc st Neutral Raising (wrap_intptr (cc + 1)) st
  | proto_other_call :
      cc <> 0 -> protocol cc st Neutral Settled (wrap_intptr (cc + 1)) st
  | proto_raise_load :
      protocol cc st Raising
        (match st with IDLE => RaisingStore | _ => Raising end) cc st
  | proto_raise_store : protocol cc st RaisingStore Settled cc CALLS_ACTIVE
  | proto_raise_cas :
      st = TIMER_PENDING \/ st = TIMER_PENDING_CALLS_SEEN_SINCE_TIMER_START ->
      protocol cc st Raising Settled cc TIMER_PENDING_CALLS_ACTIVE
  | proto_last_call :
      cc = 1 -> protocol cc st Settled Lowering (wrap_intptr (cc - 1)) st
  | proto_other_end :
      cc <> 1 -> protocol cc st Settled Neutral (wrap_intptr (cc - 1)) st
  | proto_lower_load :
      protocol cc st Lowering
        (match st with CALLS_ACTIVE => LoweringStore | _ => Lowering end) cc st
  | proto_lower_store : protocol cc st LoweringStore Neutral cc TIMER_PENDING
  | proto_lower_cas :
      st = TIMER_PENDING_CALLS_ACTIVE ->
      protocol cc st Lowering Neutral cc
        TIMER_PENDING_CALLS_SEEN_SINCE_TIMER_START
  | proto_timer_hold :
      st = TIMER_PENDING \/ st = TIMER_PENDING_CALLS_SEEN_SINCE_TIMER_START ->
      protocol cc st Neutral Holding cc PROCESSING
  | proto_timer_drop :
      st = TIMER_PENDING_CALLS_ACTIVE ->
      protocol cc st Neutral Neutral cc CALLS_ACTIVE
  | proto_timer_release st' :
      st' = IDLE \/ st' = TIMER_PENDING ->
      protocol cc st Holding Neutral cc st'.

(** The thread stands for a call of [IncreaseCallCount] that has been made
    and that no call of [DecreaseCallCount] has matched yet: a call that is
    being created or is live, or a disconnecting transport op. *)
Definition open_call (th : thread) : bool :=
  match th with
  | CallInit _ => true
  | TransportOp (TopIncrease _ | TopNextOp true | TopRet true) => true
  | _ => false
  end.

Fixpoint open_calls (l : list thread) : Z :=
  match l with
  | [] => 0
  | th :: l' => Z.b2z (open_call th) + open_calls l'
  end.

(** ** Increments that overtake

    A call of [IncreaseCallCount] whose [fetch_add] finds [call_count_]
    other than 0 returns at once.  It overtakes when it does so while the
    thread that raised the counter from 0 is still inside
    [IncreaseCallCount] and has not moved [state_] yet. *)

(** The next step of the thread is the [fetch_add] of [IncreaseCallCount]. *)
Definition at_fetch_add (th : thread) : bool :=
  match th with
  | CallInit IncFetch | TransportOp (TopIncrease IncFetch) => true
  | _ => false
  end.

Definition overtakes (c : config) (ev : event) : bool :=
  match ev with
  | EvStep i _ =>
      match threads c !! i with
      | Some th =>
          at_fetch_add th && negb (call_count_ (chand c) =? 0)
          && existsb raising_from_zero (threads c)
      | None => false
      end
  | _ => false
  end.

(** No event of the schedule overtakes, when run from [c]. *)
Fixpoint no_overtaking (c : config) (evs : list event) : bool :=
  match evs with
  | [] => true
  | ev :: evs' =>
      negb (overtakes c ev)
      && match step c ev with
         | Some (c', _) => no_overtaking c' evs'
         | None => true
         end
  end.

(** The call has returned from [CallData::Init] and [CallData::Destroy]
    has not been entered: the call is live. *)
Definition live_call (th : thread) : bool :=
  match th with
  | CallInit IncRet => true
  | _ => false
  end.

(** While a thread that raised the counter from 0 is inside
    [IncreaseCallCount], no other thread is counted. *)
Definition alone_when_raising (c : config) : Prop :=
  1 <= tally raises (threads c) -> tally settles (threads c) = 0.

(** ** Two schedules

    Both start with one call that comes and goes, so that the timer is armed
    and [state_] is [TIMER_PENDING], and let the timer expire. *)

(** Thread 0: a call is created and destroyed; then the idle timeout passes
    and the timer expires, which schedules the closure as thread 1. *)
Definition one_call_then_timeout (timeout : Z) : list event :=
  [ EvCallInit;
    EvStep 0 false;      (* fetch_add, previous value 0 *)
    EvStep 0 false;      (* load IDLE *)
    EvStep 0 false;      (* store CALLS_ACTIVE *)
    EvCallDestroy 0;
    EvStep 0 false;      (* fetch_sub, previous value 1 *)
    EvStep 0 false;      (* last_idle_time_ = Now() *)
    EvStep 0 false;      (* load CALLS_ACTIVE *)
    EvStep 0 false;      (* StartIdleTimer *)
    EvStep 0 false;      (* store TIMER_PENDING *)
    EvTick timeout;
    EvTimerExpire ].

(** The closure (thread 1) moves [state_] to [PROCESSING]; a second call
    (thread 2) increments the counter and then has to wait; the closure is
    about to call [EnterIdle]. *)
Definition enter_idle_race : list event :=
  one_call_then_timeout 1000 ++
  [ EvStep 1 false;      (* load TIMER_PENDING *)
    EvStep 1 false;      (* TIMER_PENDING -> PROCESSING *)
    EvCallInit;
    EvStep 2 false ].    (* fetch_add, previous value 0 *)

(** A second call (thread 2) increments the counter from 0 and is preempted
    before it reads [state_]; a disconnecting transport op (thread 3) then
    runs to completion: its increment sees the previous value 1, and the
    timer it cancels has already fired. *)
Definition disconnect_race_prefix : list event :=
  one_call_then_timeout 1000 ++
  [ EvCallInit;
    EvStep 2 false;      (* fetch_add, previous value 0 *)
    EvTransportOp true;
    EvStep 3 false;      (* fetch_add, previous value 1: returns *)
    EvStep 3 false;      (* grpc_timer_cancel: nothing pending *)
    EvStep 3 false ].    (* grpc_channel_next_op *)

(** After the disconnect the closure (thread 1) runs. *)
Definition disconnect_race_suffix : list event :=
  [ EvStep 1 false;      (* load TIMER_PENDING *)
    EvStep 1 false;      (* TIMER_PENDING -> PROCESSING *)
    EvStep 1 false ].    (* EnterIdle *)

(** Where [one_call_then_timeout 1000] leads, and its trace. *)
Definition after_one_call : config :=
  mkConfig (mkChannelData 1000 0 0 TIMER_PENDING None) 1000
    [CallDestroy DecRet; TimerClosure (TcEntry false)].

Definition trace_of_one_call : list action :=
  [AFetchAdd 0; ALoad IDLE; AStore CALLS_ACTIVE memory_order_relaxed;
   AFetchSub 1; ASetLastIdleTime 0; ALoad CALLS_ACTIVE;
   ATimerInit 1000; AStore TIMER_PENDING memory_order_release].

(** The configurations that the two schedules reach. *)
Definition enter_idle_race_config : config :=
  mkConfig (mkChannelData 1000 0 1 PROCESSING None) 1000
    [CallDestroy DecRet; TimerClosure TcEnterIdle; CallInit IncLoad].

Definition after_disconnect_race : config :=
  mkConfig (mkChannelData 1000 0 2 TIMER_PENDING None) 1000
    [CallDestroy DecRet; TimerClosure (TcEntry false); CallInit IncLoad;
     TransportOp (TopRet true)].

(** After [enter_idle_race] a third call (thread 3) overtakes: its
    increment sees the previous value 1 and returns, and the call is live
    when the closure calls [EnterIdle]. *)
Definition overtaking_race : list event :=
  enter_idle_race ++
  [ EvCallInit;
    EvStep 3 false ].    (* fetch_add, previous value 1: returns *)

Definition overtaking_race_config : config :=
  mkConfig (mkChannelData 1000 0 2 PROCESSING None) 1000
    [CallDestroy DecRet; TimerClosure TcEnterIdle; CallInit IncLoad;
     CallInit IncRet].

(** The transport op has finished [IncreaseCallCount] and
    [grpc_timer_cancel]: the disconnect is done. *)
Definition disconnected (th : thread) : bool :=
  match th with
  | TransportOp (TopNextOp true | TopRet true) => true
  | _ => false
  end.

End IdleFilter.
Module IdleTimer.
Import IdleFilter.

(** ** The timer of [ChannelData] and the closures it schedules *)

(** Where a thread stands with respect to [idle_timer_].  A [Fired] thread is
    a timer closure that was scheduled without error and has not yet moved
    [state_]; an [Armed] thread has called [StartIdleTimer] and is about to
    store [TIMER_PENDING]; an [Entering] thread is the closure just before
    [EnterIdle]. *)
Inductive phase : Type :=
  | Away
  | Fired
  | Armed
  | Entering.

#[global] Instance phase_eq_dec : EqDecision phase.
Proof. solve_decision. Defined.

Definition phase_of (th : thread) : phase :=
  match th with
  | TimerClosure (TcEntry false) | TimerClosure (TcSwitch _) => Fired
  | CallDestroy DecStore | TimerClosure TcStoreTimerPending => Armed
  | TimerClosure TcEnterIdle => Entering
  | _ => Away
  end.

(** The number of threads in phase [p]. *)
Fixpoint in_phase (p : phase) (l : list thread) : Z :=
  match l with
  | [] => 0
  | th :: l' => Z.b2z (bool_decide (phase_of th = p)) + in_phase p l'
  end.

Definition timer_pending (d : ChannelData) : Z :=
  match idle_timer_ d with Some _ => 1 | None => 0 end.

(** The timer when it is pending, and after it the closure it has scheduled
    until that closure has moved [state_]. *)
Definition timer_tokens (c : config) : Z :=
  timer_pending (chand c) + in_phase Fired (threads c).

Definition timer_state (s : ChannelState) : bool :=
  match s with
  | TIMER_PENDING | TIMER_PENDING_CALLS_ACTIVE
  | TIMER_PENDING_CALLS_SEEN_SINCE_TIMER_START => true
  | _ => false
  end.

(** [last_idle_time_ + client_idle_timeout_] as a [grpc_millis], the
    deadline that [StartIdleTimer] passes to [grpc_timer_init]. *)
Definition idle_deadline (d : ChannelData) : Z :=
  wrap_int64 (last_idle_time_ d + client_idle_timeout_ d).

(** [state_] is [TIMER_PENDING], or some thread is between [StartIdleTimer]
    and its store of [TIMER_PENDING]. *)
Definition timer_current (c : config) : Prop :=
  state_ (chand c) = TIMER_PENDING \/ 1 <= in_phase Armed (threads c).

(** The invariant that links [idle_timer_] to [state_] and to the clock. *)
Record TimerInv (c : config) : Prop := mkTimerInv {
  tinv_one : timer_tokens c <= 1;
  tinv_none : timer_state (state_ (chand c)) = false ->
              in_phase Armed (threads c) = 0 ->
              timer_tokens c = 0;
  tinv_deadline : timer_current c ->
                  forall deadline, idle_timer_ (chand c) = Some deadline ->
                                   deadline = idle_deadline (chand c);
  tinv_fired : timer_current c -> 1 <= in_phase Fired (threads c) ->
               idle_deadline (chand c) <= clock c;
  tinv_entering : 1 <= in_phase Entering (threads c) ->
                  idle_deadline (chand c) <= clock c
}.

(** [state_] stays where it is, or moves between the states in which the
    timer is pending without reaching [TIMER_PENDING]. *)
Definition state_kept (s s' : ChannelState) : Prop :=
  s' = s \/
  (timer_state s = true /\ timer_state s' = true /\ s' <> TIMER_PENDING).

(** What one step of a thread does to the timer, to [state_] and to
    [last_idle_time_], by the kind of the step: a step that leaves the timer
    alone; the store that ends a wait in [IDLE] or the closure's hold of
    [PROCESSING]; [last_idle_time_ = Now()]; [StartIdleTimer]; the store of
    [TIMER_PENDING] after it; the closure's successful exchange; [EnterIdle];
    [grpc_timer_cancel]. *)
Inductive timer_step (d : ChannelData) (th : thread)
    (d' : ChannelData) (th' : thread) (spawned : list thread) : Prop :=
  | ts_quiet :
      idle_timer_ d' = idle_timer_ d ->
      last_idle_time_ d' = last_idle_time_ d ->
      phase_of th' = phase_of th -> spawned = [] ->
      state_kept (state_ d) (state_ d') ->
      timer_step d th d' th' spawned
  | ts_leave :
      idle_timer_ d' = idle_timer_ d ->
      last_idle_time_ d' = last_idle_time_ d ->
      phase_of th = Away -> phase_of th' = Away -> spawned = [] ->
      stores_active (role_of th) || holds (role_of th) = true ->
      state_ d' = IDLE \/ state_ d' = CALLS_ACTIVE ->
      timer_step d th d' th' spawned
  | ts_set_time :
      idle_timer_ d' = idle_timer_ d ->
      phase_of th = Away -> phase_of th' = Away -> spawned = [] ->
      lowers (role_of th) = true ->
      state_ d' = state_ d ->
      timer_step d th d' th' spawned
  | ts_arm :
      idle_timer_ d' = Some (idle_deadline d) ->
      last_idle_time_ d' = last_idle_time_ d ->
      phase_of th = Away -> phase_of th' = Armed -> spawned = [] ->
      stores_pending (role_of th) || holds (role_of th) = true ->
      state_ d' = state_ d ->
      timer_step d th d' th' spawned
  | ts_armed_store :
      idle_timer_ d' = idle_timer_ d ->
      last_idle_time_ d' = last_idle_time_ d ->
      phase_of th = Armed -> phase_of th' = Away -> spawned = [] ->
      state_ d' = TIMER_PENDING ->
      timer_step d th d' th' spawned
  | ts_commit :
      idle_timer_ d' = idle_timer_ d ->
      last_idle_time_ d' = last_idle_time_ d ->
      phase_of th = Fired -> spawned = [] ->
      (phase_of th' = Away /\ timer_state (state_ d) = true) \/
      (phase_of th' = Entering /\ state_ d = TIMER_PENDING) ->
      state_ d' = PROCESSING \/ state_ d' = CALLS_ACTIVE ->
      timer_step d th d' th' spawned
  | ts_entered :
      idle_timer_ d' = idle_timer_ d ->
      last_idle_time_ d' = last_idle_time_ d ->
      phase_of th = Entering -> phase_of th' = Away -> spawned = [] ->
      state_ d' = state_ d ->
      timer_step d th d' th' spawned
  | ts_cancel :
      idle_timer_ d' = None ->
      last_idle_time_ d' = last_idle_time_ d ->
      phase_of th = Away -> phase_of th' = Away ->
      Forall (fun t => phase_of t = Away) spawned ->
      state_ d' = state_ d ->
      timer_step d th d' th' spawned.

(** Some transport op has completed its disconnect, and no thread that
    raised [call_count_] from 0 is still inside [IncreaseCallCount]. *)
Definition parked (c : config) : Prop :=
  (exists j th, threads c !! j = Some th /\ disconnected th = true) /\
  tally raises (threads c) = 0.

(** A schedule that ends with the closure about to call [EnterIdle]: after
    [one_call_then_timeout] the closure reads [state_] and moves it to
    [PROCESSING]. *)
Definition timeout_then_closure (timeout : Z) : list event :=
  one_call_then_timeout timeout ++ [EvStep 1 false; EvStep 1 false].

(** The closure then sends [EnterIdle] and stores [IDLE]. *)
Definition one_call_to_idle (timeout : Z) : list event :=
  timeout_then_closure timeout ++ [EvStep 1 false; EvStep 1 false].

(** A call that is destroyed 10 ms before the largest [grpc_millis]: the
    schedule up to the store of [TIMER_PENDING]. *)
Definition call_ends_late : list event :=
  [ EvTick (INT64_MAX - 10);
    EvCallInit;
    EvStep 0 false;      (* fetch_add, previous value 0 *)
    EvStep 0 false;      (* load IDLE *)
    EvStep 0 false;      (* store CALLS_ACTIVE *)
    EvCallDestroy 0;
    EvStep 0 false;      (* fetch_sub, previous value 1 *)
    EvStep 0 false;      (* last_idle_time_ = Now() *)
    EvStep 0 false;      (* load CALLS_ACTIVE *)
    EvStep 0 false;      (* StartIdleTimer *)
    EvStep 0 false ].    (* store TIMER_PENDING *)

(** Where that schedule leads once the timer has expired and its closure
    has moved [state_] to [PROCESSING]. *)
Definition ended_late : config :=
  mkConfig (mkChannelData 1000 (INT64_MAX - 10) 0 PROCESSING None)
    (INT64_MAX - 10) [CallDestroy DecRet; TimerClosure TcEnterIdle].

Definition idle_again : config :=
  mkConfig (mkChannelData 1000 0 0 IDLE None) 1000
    [CallDestroy DecRet; TimerClosure TcRet].

(** A disconnecting transport op on a fresh channel, up to and including
    [grpc_timer_cancel]; and what may follow: the op is passed on, a call
    comes and goes. *)
Definition disconnect_alone : list event :=
  [ EvTransportOp true;
    EvStep 0 false;      (* fetch_add, previous value 0 *)
    EvStep 0 false;      (* load IDLE *)
    EvStep 0 false;      (* store CALLS_ACTIVE *)
    EvStep 0 false ].    (* grpc_timer_cancel *)

Definition after_disconnect : config :=
  mkConfig (mkChannelData 1000 0 1 CALLS_ACTIVE None) 0
    [TransportOp (TopNextOp true)].

Definition call_after_disconnect : list event :=
  [ EvStep 0 false;      (* grpc_channel_next_op *)
    EvCallInit;
    EvStep 1 false;      (* fetch_add, previous value 1 *)
    EvCallDestroy 1;
    EvStep 1 false ].    (* fetch_sub, previous value 2 *)

End IdleTimer.

Module ClientIdleArgs.

(** ** [GetClientIdleTimeout] and [MaybeAddClientIdleFilter] *)

Definition INT_MAX : Z := 2147483647.

(** [#define DEFAULT_IDLE_TIMEOUT_MS INT_MAX] *)
Definition DEFAULT_IDLE_TIMEOUT_MS : Z := INT_MAX.

(** [#define MIN_IDLE_TIMEOUT_MS (1 /*second*/ * 1000)] *)
Definition MIN_IDLE_TIMEOUT_MS : Z := 1 * 1000.

(** Modelled from the spec: the macro [GRPC_ARG_CLIENT_IDLE_TIMEOUT_MS] and
    the type [grpc_channel_args] are declared in headers that are not part of
    the sources at hand.  The spec describes the configuration as an opaque
    key-to-value map and names the key. *)
Definition GRPC_ARG_CLIENT_IDLE_TIMEOUT_MS : string := "client_idle_timeout_ms".

Inductive grpc_arg_value : Type :=
  | ArgInteger (i : Z)
  | ArgString (s : string)
  | ArgPointer.

Abbreviation grpc_channel_args := (gmap string grpc_arg_value).

(** [grpc_channel_args_find]: the arg stored under the key, [nullptr] when
    there is none. *)
Definition grpc_channel_args_find (args : grpc_channel_args) (name : string)
    : option grpc_arg_value :=
  args !! name.

(** [grpc_integer_options]: the triple written [{default, min, max}] in the
    source. *)
Record grpc_integer_options : Type := mk_integer_options {
  default_value : Z;
  min_value : Z;
  max_value : Z
}.

(** Modelled from the spec: [grpc_channel_arg_get_integer]
    (src/core/lib/channel/channel_args.cc) is not part of the sources at
    hand.  The spec gives the key a default, and [GetClientIdleTimeout]
    passes that default together with the smallest and the largest value
    that is accepted.  An integer arg within these bounds is returned as it
    is; a missing arg, an arg that is no integer and an integer outside the
    bounds give the default. *)
Definition grpc_channel_arg_get_integer (arg : option grpc_arg_value)
    (options : grpc_integer_options) : Z :=
  match arg with
  | None => default_value options
  | Some (ArgInteger i) =>
      if i <? min_value options then default_value options
      else if max_value options <? i then default_value options
      else i
  | Some _ => default_value options
  end.

Definition GetClientIdleTimeout (args : grpc_channel_args) : Z :=
  Z.max
    (grpc_channel_arg_get_integer
       (grpc_channel_args_find args GRPC_ARG_CLIENT_IDLE_TIMEOUT_MS)
       (mk_integer_options DEFAULT_IDLE_TIMEOUT_MS 0 INT_MAX))
    MIN_IDLE_TIMEOUT_MS.

(** The name of [grpc_client_idle_filter]. *)
Definition grpc_client_idle_filter : string := "client_idle".

Section Filter.
(** Functions of the channel library that the filter calls and whose code
    is not part of the sources at hand. *)
Variable grpc_channel_args_want_minimal_stack : grpc_channel_args -> bool.
Variable grpc_channel_stack_builder : Type.
Variable grpc_channel_stack_builder_get_channel_arguments :
  grpc_channel_stack_builder -> grpc_channel_args.
Variable grpc_channel_stack_builder_prepend_filter :
  grpc_channel_stack_builder -> string -> grpc_channel_stack_builder * bool.

(** The builder after the stage, and the stage's result. *)
Definition MaybeAddClientIdleFilter (builder : grpc_channel_stack_builder)
    : grpc_channel_stack_builder * bool :=
  let channel_args :=
    grpc_channel_stack_builder_get_channel_arguments builder in
  if negb (grpc_channel_args_want_minimal_stack channel_args) &&
     negb (GetClientIdleTimeout channel_args =? INT_MAX)
  then grpc_channel_stack_builder_prepend_filter builder
         grpc_client_idle_filter
  else (builder, true).
End Filter.

(** A stack builder to run the stage on: its channel args and its list of
    filters. *)
Definition list_builder : Type := grpc_channel_args * list string.

Definition list_builder_prepend (b : list_builder) (f : string)
    : list_builder * bool :=
  ((fst b, f :: snd b), true).

(** Channel args that configure an idle timeout of -5 ms. *)
Definition negative_timeout : grpc_channel_args :=
  {[ GRPC_ARG_CLIENT_IDLE_TIMEOUT_MS := ArgInteger (-5) ]}.

End ClientIdleArgs.

Module WakeupFd.

(** ** The wakeup-fd factory ([wakeup_fd_posix.cc], [wakeup_fd_pipe.cc],
       [wakeup_fd_posix_default.cc]) *)

(** [absl::Status] and [absl::StatusOr], with the codes that occur. *)
Inductive StatusCode : Type :=
  | kOk
  | kInternal
  | kNotFound.

Record Status : Type := mkStatus {
  code : StatusCode;
  message : string
}.

Definition OkStatus : Status := mkStatus kOk "".
Definition NotFoundError (msg : string) : Status := mkStatus kNotFound msg.
Definition ok (s : Status) : bool :=
  match code s with kOk => true | _ => false end.

Inductive StatusOr (A : Type) : Type :=
  | Value (a : A)
  | Error (s : Status).
Arguments Value {A} a.
Arguments Error {A} s.

(** A [PipeWakeupFd] object: its two descriptors. *)
Record PipeWakeupFd : Type := mkPipeWakeupFd {
  read_fd_ : Z;
  write_fd_ : Z
}.

(** The answers of the operating system to the calls that
    [wakeup_fd_pipe.cc] makes: [pipe()] gives two descriptors or fails;
    [fcntl(fd, F_GETFL, 0)] gives the flags or a negative number;
    [fcntl(fd, F_SETFL, flags)] gives 0 or fails; [strerror(errno)] is the
    text of the current error. *)
Record posix : Type := mkPosix {
  sys_pipe : option (Z * Z);
  sys_fcntl_getfl : Z -> Z;
  sys_fcntl_setfl : Z -> Z -> Z;
  O_NONBLOCK : Z;
  strerror_errno : string
}.

Definition SetSocketNonBlocking (os : posix) (fd : Z) : Status :=
  let oldflags := sys_fcntl_getfl os fd in
  if oldflags <? 0
  then mkStatus kInternal ("fcntl: " ++ strerror_errno os)
  else
    let oldflags := Z.lor oldflags (O_NONBLOCK os) in
    if negb (sys_fcntl_setfl os fd oldflags =? 0)
    then mkStatus kInternal ("fcntl: " ++ strerror_errno os)
    else OkStatus.

(** [PipeWakeupFd::Init] on a fresh object (both descriptors 0). *)
Definition PipeWakeupFd_Init (os : posix) : Status * PipeWakeupFd :=
  match sys_pipe os with
  | None =>
      (mkStatus kInternal ("pipe: " ++ strerror_errno os), mkPipeWakeupFd 0 0)
  | Some (fd0, fd1) =>
      let status := SetSocketNonBlocking os fd0 in
      if negb (ok status) then (status, mkPipeWakeupFd 0 0)
      else
        let status := SetSocketNonBlocking os fd1 in
        if negb (ok status) then (status, mkPipeWakeupFd 0 0)
        else (OkStatus, mkPipeWakeupFd fd0 fd1)
  end.

Definition PipeWakeupFd_IsSupported (os : posix) : bool :=
  ok (fst (PipeWakeupFd_Init os)).

(** The process: the operating system, the function-local
    [static bool kIsPipeWakeupFdSupported] of [CreatePipeWakeupFd] ([None]
    until the first call initialises it), and the wakeup fds created. *)
Record process : Type := mkProcess {
  os_ : posix;
  kIsPipeWakeupFdSupported : option bool
}.

(** A factory is a [std::function<absl::StatusOr<std::unique_ptr<WakeupFd>>()>];
    calling it can change the process. *)
Definition factory_fn : Type :=
  process -> StatusOr PipeWakeupFd * process.

Definition CreatePipeWakeupFd : factory_fn :=
  fun p =>
    let supported :=
      match kIsPipeWakeupFdSupported p with
      | Some b => b
      | None => PipeWakeupFd_IsSupported (os_ p)
      end in
    let p' := mkProcess (os_ p) (Some supported) in
    if supported
    then
      let '(status, pipe_wakeup_fd) := PipeWakeupFd_Init (os_ p) in
      if ok status then (Value pipe_wakeup_fd, p') else (Error status, p')
    else (Error (NotFoundError "Pipe wakeup fd is not supported"), p').

(** [g_wakeup_fd_fn]: [None] is the empty [std::function] ([nullptr]).  Each
    function below runs under [g_mu], or reads [g_wakeup_fd_fn] once it is
    known to be set. *)
Definition SetDefaultWakeupFdFactoryIfUnset (factory : option factory_fn)
    (g_wakeup_fd_fn : option factory_fn) : option factory_fn :=
  match g_wakeup_fd_fn with
  | None => factory
  | Some _ => g_wakeup_fd_fn
  end.

Definition SupportsWakeupFd (g_wakeup_fd_fn : option factory_fn) : bool :=
  match g_wakeup_fd_fn with
  | None => false
  | Some _ => true
  end.

(** Calling [g_wakeup_fd_fn()]; an empty [std::function] would throw
    [std::bad_function_call], which [CreateWakeupFd] rules out by its test. *)
Definition call (f : option factory_fn) (p : process)
    : StatusOr PipeWakeupFd * process :=
  match f with
  | Some factory => factory p
  | None => (Error (mkStatus kInternal "bad_function_call"), p)
  end.

Definition CreateWakeupFd (g_wakeup_fd_fn : option factory_fn) (p : process)
    : StatusOr PipeWakeupFd * process :=
  if SupportsWakeupFd g_wakeup_fd_fn then call g_wakeup_fd_fn p
  else (Error (NotFoundError "Wakeup-fd is not supported on this system"), p).

Section Default.
(** [EventFdWakeupFd] is not part of the sources at hand. *)
Variable EventFdWakeupFd_IsSupported : posix -> bool.
Variable CreateEventFdWakeupFd : factory_fn.

(** [ConfigureDefaultWakeupFdFactories], without
    [GRPC_POSIX_NO_SPECIAL_WAKEUP_FD]. *)
Definition ConfigureDefaultWakeupFdFactories (os : posix)
    (g_wakeup_fd_fn : option factory_fn) : option factory_fn :=
  if EventFdWakeupFd_IsSupported os
  then SetDefaultWakeupFdFactoryIfUnset (Some CreateEventFdWakeupFd)
         g_wakeup_fd_fn
  else if PipeWakeupFd_IsSupported os
  then SetDefaultWakeupFdFactoryIfUnset (Some CreatePipeWakeupFd)
         g_wakeup_fd_fn
  else g_wakeup_fd_fn.
End Default.

(** Two states of a system without eventfd: one in which [pipe()] and
    [fcntl()] succeed, and one in which [pipe()] fails because the process
    has no descriptors left. *)
Definition pipes_work : posix :=
  mkPosix (Some (3, 4)) (fun _ => 0) (fun _ _ => 0) 2048 "".

Definition no_descriptors_left : posix :=
  mkPosix None (fun _ => 0) (fun _ _ => 0) 2048 "Too many open files".

Definition no_eventfd : factory_fn :=
  fun p => (Error (mkStatus kInternal "eventfd"), p).

End WakeupFd.
Module PipeWakeupFdOps.
Import WakeupFd.

(** ** The other operations of [PipeWakeupFd] ([wakeup_fd_pipe.cc]) *)

(** What one call of [read()] or [write()] gives back: the value returned
    and, for a call that failed, [errno] and the text [strerror] has for
    it. *)
Record syscall : Type := mkSyscall {
  ret : Z;
  errno : Z;
  strerror : string
}.

Section Errno.
(** The error numbers of [<errno.h>]; their values differ between
    systems. *)
Variable EAGAIN : Z.
Variable EINTR : Z.

(** [PipeWakeupFd::ConsumeWakeup].  [reads] is what the successive calls
    [read(read_fd_, buf, sizeof(buf))] return.  The result is the status
    returned and the answers that were not asked for; [None] when every
    answer has been used and the loop goes on reading. *)
Fixpoint ConsumeWakeup (reads : list syscall)
    : option (Status * list syscall) :=
  match reads with
  | [] => None
  | r :: rest =>
      if 0 <? ret r then ConsumeWakeup rest
      else if ret r =? 0 then Some (OkStatus, rest)
      else if errno r =? EAGAIN then Some (OkStatus, rest)
      else if errno r =? EINTR then ConsumeWakeup rest
      else Some (mkStatus kInternal ("read: " ++ strerror r), rest)
  end.

(** [PipeWakeupFd::Wakeup]:
    [while (write(write_fd_, &c, 1) != 1 && errno == EINTR) {}], then
    [return absl::OkStatus()].  [writes] is what the successive calls of
    [write] return. *)
Fixpoint Wakeup (writes : list syscall) : option (Status * list syscall) :=
  match writes with
  | [] => None
  | w :: rest =>
      if negb (ret w =? 1) && (errno w =? EINTR) then Wakeup rest
      else Some (OkStatus, rest)
  end.

(** A [read] after which [ConsumeWakeup] reads again: it returned data, or
    it was interrupted. *)
Definition reads_again (r : syscall) : bool :=
  (0 <? ret r) || ((ret r <? 0) && (errno r =? EINTR)).

(** A [write] after which [Wakeup] writes again. *)
Definition writes_again (w : syscall) : bool :=
  negb (ret w =? 1) && (errno w =? EINTR).
End Errno.

(** [PipeWakeupFd::Destroy]: the object afterwards and the descriptors
    passed to [close()], in order. *)
Definition Destroy (w : PipeWakeupFd) : PipeWakeupFd * list Z :=
  let '(read_fd, closed1) :=
    if negb (read_fd_ w =? 0) then (0, [read_fd_ w]) else (read_fd_ w, []) in
  let '(write_fd, closed2) :=
    if negb (write_fd_ w =? 0) then (0, [write_fd_ w])
    else (write_fd_ w, []) in
  (mkPipeWakeupFd read_fd write_fd, closed1 ++ closed2).

(** The values of the two error numbers on Linux, and a pipe that holds 130
    bytes when [ConsumeWakeup] is called, the first [read] being
    interrupted. *)
Definition linux_EAGAIN : Z := 11.
Definition linux_EINTR : Z := 4.

Definition two_reads_then_empty : list syscall :=
  [ mkSyscall (-1) linux_EINTR "Interrupted system call";
    mkSyscall 128 0 "";
    mkSyscall 2 0 "" ].

Definition pipe_is_empty : syscall :=
  mkSyscall (-1) linux_EAGAIN "Resource temporarily unavailable".

(** A [write] that fails because the pipe is full. *)
Definition pipe_is_full : syscall :=
  mkSyscall (-1) linux_EAGAIN "Resource temporarily unavailable".

End PipeWakeupFdOps.

Module TaskService.

(** ** The task and timer service *)

(** [struct TaskHandle { intptr_t keys[2]; }]: slot and generation. *)
Definition TaskHandle : Type := nat * nat.

Record task : Type := mkTask {
  deadline : Z;
  closure : nat
}.

(** [known_handles_]: the tasks scheduled and neither dispatched nor
    cancelled; [aba_token_]: the generation counter; the ready queue: the
    dispatched closures that wait for a worker; [issued_]: the handles
    returned so far, which are the only ones a caller can pass to [cancel]. *)
Record engine : Type := mkEngine {
  known_handles_ : gmap (nat * nat) task;
  aba_token_ : nat;
  ready_queue_ : list ((nat * nat) * nat);
  issued_ : list (nat * nat);
  now_ : Z
}.

Definition empty_engine : engine := mkEngine ∅ 0 [] [] 0.

Inductive observation : Type :=
  | Returned (h : TaskHandle)
  | CancelReturned (h : TaskHandle) (result : bool)
  | Invoked (h : TaskHandle) (closure : nat).

(** What happens to the engine: a caller schedules a closure (the slot is
    the allocator's choice) or cancels a handle it holds; time passes; the
    timer manager dispatches a task whose deadline has come; a worker runs
    the closure at the head of the ready queue. *)
Inductive operation : Type :=
  | RunAt (slot : nat) (when : Z) (closure : nat)
  | Cancel (h : TaskHandle)
  | Tick (dt : Z)
  | Dispatch (h : TaskHandle)
  | Execute.

(** Modelled from the spec: the code of [EventEngine::RunAt] and
    [EventEngine::Cancel] is not part of the sources at hand, which hold the
    interface ([event_engine.h], where both are pure virtual) and the
    declaration of [PosixEventEngine] with its members [known_handles_],
    [aba_token_] and [mu_].  The model follows the spec: [run_at] schedules
    a closure and returns a handle made of a slot and a generation counter;
    [cancel] returns true when the closure has not yet been dispatched, and
    then the closure will not run; it returns false when the closure has
    been dispatched or the handle is stale; a dispatched closure goes through
    the ready queue and is run by a worker; the bookkeeping is done under one
    mutex, so each operation is atomic. *)
Definition step (e : engine) (op : operation)
    : option (engine * list observation) :=
  match op with
  | RunAt slot when closure =>
      let h := (slot, aba_token_ e) in
      Some (mkEngine (<[h := mkTask when closure]> (known_handles_ e))
              (S (aba_token_ e)) (ready_queue_ e) (h :: issued_ e) (now_ e),
            [Returned h])
  | Cancel h =>
      if bool_decide (h ∈ issued_ e) then
        match known_handles_ e !! h with
        | Some _ =>
            Some (mkEngine (delete h (known_handles_ e)) (aba_token_ e)
                    (ready_queue_ e) (issued_ e) (now_ e),
                  [CancelReturned h true])
        | None => Some (e, [CancelReturned h false])
        end
      else None
  | Tick dt =>
      if 0 <=? dt
      then Some (mkEngine (known_handles_ e) (aba_token_ e) (ready_queue_ e)
                   (issued_ e) (now_ e + dt), [])
      else None
  | Dispatch h =>
      match known_handles_ e !! h with
      | Some t =>
          if deadline t <=? now_ e
          then Some (mkEngine (delete h (known_handles_ e)) (aba_token_ e)
                       (ready_queue_ e ++ [(h, closure t)]) (issued_ e)
                       (now_ e), [])
          else None
      | None => None
      end
  | Execute =>
      match ready_queue_ e with
      | (h, c) :: rest =>
          Some (mkEngine (known_handles_ e) (aba_token_ e) rest (issued_ e)
                  (now_ e), [Invoked h c])
      | [] => None
      end
  end.

(** The engine and the observations made, after the operations. *)
Fixpoint run (e : engine) (history : list observation)
    (ops : list operation) : option (engine * list observation) :=
  match ops with
  | [] => Some (e, history)
  | op :: ops' =>
      match step e op with
      | Some (e', obs) => run e' (history ++ obs) ops'
      | None => None
      end
  end.

Definition is_invocation (h : TaskHandle) (o : observation) : bool :=
  match o with
  | Invoked h' _ => bool_decide (h' = h)
  | _ => false
  end.

Definition is_cancelled (h : TaskHandle) (o : observation) : bool :=
  match o with
  | CancelReturned h' true => bool_decide (h' = h)
  | _ => false
  end.

Definition is_not_cancelled (h : TaskHandle) (o : observation) : bool :=
  match o with
  | CancelReturned h' false => bool_decide (h' = h)
  | _ => false
  end.

Definition is_queued (h : TaskHandle) (q : (nat * nat) * nat) : bool :=
  bool_decide (fst q = h).

(** How often the closure of [h] was invoked; how often [cancel h] returned
    true. *)
Definition invocations (h : TaskHandle) (history : list observation) : nat :=
  length (List.filter (is_invocation h) history).

Definition cancellations (h : TaskHandle) (history : list observation) : nat :=
  length (List.filter (is_cancelled h) history).

Definition refusals (h : TaskHandle) (history : list observation) : nat :=
  length (List.filter (is_not_cancelled h) history).

Definition queued (h : TaskHandle) (e : engine) : nat :=
  length (List.filter (is_queued h) (ready_queue_ e)).

Definition pending (h : TaskHandle) (e : engine) : nat :=
  match known_handles_ e !! h with Some _ => 1 | None => 0 end.

(** What links the engine to the observations made so far. *)
Record consistent (e : engine) (history : list observation) : Prop := {
  issued_generation :
    forall h, h ∈ issued_ e -> (snd h < aba_token_ e)%nat;
  issued_once :
    forall h, h ∈ issued_ e ->
      (pending h e + queued h e + invocations h history
       + cancellations h history = 1)%nat;
  unissued_nothing :
    forall h, h ∉ issued_ e ->
      (pending h e + queued h e + invocations h history
       + cancellations h history + refusals h history = 0)%nat;
  issued_returned :
    forall h, In (Returned h) history <-> h ∈ issued_ e;
  refused_not_pending :
    forall h, (1 <= refusals h history)%nat -> pending h e = 0%nat
}.

(** A run: two closures are scheduled; the first is cancelled in time; the
    second is dispatched when its deadline has come, after which its
    cancellation is refused, and a worker runs it. *)
Definition sample_run : list operation :=
  [ RunAt 0 10 7; RunAt 1 10 8; Cancel (0, 0)%nat; Tick 10;
    Dispatch (1, 1)%nat; Cancel (1, 1)%nat; Execute ].

Definition sample_history : list observation :=
  [ Returned (0, 0)%nat; Returned (1, 1)%nat; CancelReturned (0, 0)%nat true;
    CancelReturned (1, 1)%nat false; Invoked (1, 1)%nat 8 ].

End TaskService.
Module MetadataBatch.

(** ** [MetadataMap] ([metadata_batch.h]) *)

(** What the header takes from [metadata.h], [static_metadata.h], [slice.h]
    and [exec_ctx.h], none of which is part of the sources at hand: the types
    of slices and of metadata elements, the macros that read an element, the
    table of callouts and the constant [GRPC_MILLIS_INF_FUTURE].
    [GRPC_BATCH_INDEX_OF] gives [GRPC_BATCH_CALLOUTS_COUNT] for a key that
    has no callout.  [same_payload a b] is [a.payload == b.payload].
    [grpc_slice_intern] gives the interned slice of the same content. *)
Class Metadata : Type := {
  grpc_slice : Type;
  grpc_mdelem : Type;
  GRPC_MDISNULL : grpc_mdelem -> bool;
  GRPC_MDKEY : grpc_mdelem -> grpc_slice;
  GRPC_MDVALUE : grpc_mdelem -> grpc_slice;
  GRPC_MDELEM_LENGTH : grpc_mdelem -> Z;
  same_payload : grpc_mdelem -> grpc_mdelem -> bool;
  grpc_slice_eq : grpc_slice -> grpc_slice -> bool;
  grpc_slice_intern : grpc_slice -> grpc_slice;
  StringViewFromSlice : grpc_slice -> string;
  grpc_mdelem_from_slices : grpc_slice -> grpc_slice -> grpc_mdelem;
  GRPC_BATCH_CALLOUTS_COUNT : nat;
  GRPC_BATCH_INDEX_OF : grpc_slice -> nat;
  GRPC_MILLIS_INF_FUTURE : Z
}.

(** The address of a [grpc_linked_mdelem]; a pointer is [None] when it is
    [nullptr]. *)
Definition loc : Type := positive.

(** [size_t] arithmetic. *)
Definition size_t_wrap (z : Z) : Z := z mod 2 ^ 64.

(** How a call ends when assertions are compiled in: it returns, or a
    [GPR_ASSERT] fails and the process aborts. *)
Inductive outcome (A : Type) : Type :=
  | Returns (a : A)
  | Aborts.

Arguments Returns {A} a.
Arguments Aborts {A}.

(** [GPR_ASSERT(check)] followed by [rest]; [None] when the check itself
    reads outside the memory. *)
Definition asserting {A : Type} (check : option bool)
    (rest : option (outcome A)) : option (outcome A) :=
  ok ← check; if ok : bool then rest else Some Aborts.

Section Batch.
Context `{Metadata}.

(** [grpc_error_handle], as the term that builds the error; [None] is
    [GRPC_ERROR_NONE]. *)
Inductive grpc_error : Type :=
  | GRPC_ERROR_CREATE_FROM_STATIC_STRING (msg : string)
  | GRPC_ERROR_CREATE_FROM_COPIED_STRING (msg : string)
  | grpc_attach_md_to_error (src : grpc_error) (md : grpc_mdelem)
  | grpc_error_add_child (src child : grpc_error).

Definition grpc_error_handle : Type := option grpc_error.

(** [struct grpc_linked_mdelem]. *)
Record grpc_linked_mdelem : Type := mk_linked {
  md : grpc_mdelem;
  next : option loc;
  prev : option loc;
  reserved : option loc
}.

(** [struct grpc_mdelem_list]. *)
Record grpc_mdelem_list : Type := mk_list {
  count : Z;
  default_count : Z;
  head : option loc;
  tail : option loc
}.

(** The members of [MetadataMap]; [idx_.array[i]] is [idx_ !! i], absent
    when it is [nullptr]. *)
Record MetadataMap : Type := mk_map {
  list_ : grpc_mdelem_list;
  idx_ : gmap nat loc;
  deadline_ : Z
}.

(** The memory in which the callers keep their [grpc_linked_mdelem]
    objects.  Reading or writing through a pointer to none of them is
    undefined; the functions below then give [None].  The reference counts of
    the elements ([GRPC_MDELEM_UNREF]) are not part of the model. *)
#[local] Abbreviation heap := (gmap loc grpc_linked_mdelem).

Definition set_md (v : grpc_mdelem) (n : grpc_linked_mdelem) :=
  mk_linked v (next n) (prev n) (reserved n).
Definition set_next (v : option loc) (n : grpc_linked_mdelem) :=
  mk_linked (md n) v (prev n) (reserved n).
Definition set_prev (v : option loc) (n : grpc_linked_mdelem) :=
  mk_linked (md n) (next n) v (reserved n).

(** [p->field = v] for an object in memory. *)
Definition write (p : loc) (f : grpc_linked_mdelem -> grpc_linked_mdelem)
    (h : heap) : option heap :=
  n ← h !! p; Some (<[p := f n]> h).

Definition set_count (v : Z) (l : grpc_mdelem_list) :=
  mk_list v (default_count l) (head l) (tail l).
Definition set_default_count (v : Z) (l : grpc_mdelem_list) :=
  mk_list (count l) v (head l) (tail l).
Definition set_head (v : option loc) (l : grpc_mdelem_list) :=
  mk_list (count l) (default_count l) v (tail l).
Definition set_tail (v : option loc) (l : grpc_mdelem_list) :=
  mk_list (count l) (default_count l) (head l) v.

(** *** The list *)

(** [static void link_head(list, storage)], without the assertions of debug
    builds. *)
Definition link_head (list : grpc_mdelem_list) (storage : loc) (h : heap)
    : option (grpc_mdelem_list * heap) :=
  h ← write storage (fun n => mk_linked (md n) (head list) None None) h;
  '(list, h) ← match head list with
               | Some first =>
                   h ← write first (set_prev (Some storage)) h;
                   Some (list, h)
               | None => Some (set_tail (Some storage) list, h)
               end;
  let list := set_head (Some storage) list in
  Some (set_count (size_t_wrap (count list + 1)) list, h).

(** [static void link_tail(list, storage)]. *)
Definition link_tail (list : grpc_mdelem_list) (storage : loc) (h : heap)
    : option (grpc_mdelem_list * heap) :=
  h ← write storage (fun n => mk_linked (md n) None (tail list) None) h;
  '(list, h) ← match tail list with
               | Some final =>
                   h ← write final (set_next (Some storage)) h;
                   Some (list, h)
               | None => Some (set_head (Some storage) list, h)
               end;
  let list := set_tail (Some storage) list in
  Some (set_count (size_t_wrap (count list + 1)) list, h).

(** [static void unlink_storage(list, storage)]. *)
Definition unlink_storage (list : grpc_mdelem_list) (storage : loc) (h : heap)
    : option (grpc_mdelem_list * heap) :=
  s ← h !! storage;
  '(list, h) ← match prev s with
               | Some before =>
                   h ← write before (set_next (next s)) h;
                   Some (list, h)
               | None => Some (set_head (next s) list, h)
               end;
  s ← h !! storage;
  '(list, h) ← match next s with
               | Some after =>
                   h ← write after (set_prev (prev s)) h;
                   Some (list, h)
               | None => Some (set_tail (prev s) list, h)
               end;
  Some (set_count (size_t_wrap (count list - 1)) list, h).

(** The loop of [assert_valid_list], from [l] on: [Some true] when every
    assertion holds, [Some false] when one fails, [None] when a pointer leads
    out of the memory or the loop has not ended after [fuel] rounds.  The
    result carries [verified_count]. *)
Fixpoint assert_valid_loop (fuel : nat) (h : heap) (list : grpc_mdelem_list)
    (l : option loc) (verified_count : Z) : option (bool * Z) :=
  match l with
  | None => Some (true, verified_count)
  | Some p =>
      match fuel with
      | O => None
      | S fuel' =>
          n ← h !! p;
          if GRPC_MDISNULL (md n) then Some (false, verified_count)
          else if negb (bool_decide ((prev n = None) <-> (l = head list)))
          then Some (false, verified_count)
          else if negb (bool_decide ((next n = None) <-> (l = tail list)))
          then Some (false, verified_count)
          else
            ok_next ← match next n with
                      | Some q => m ← h !! q; Some (bool_decide (prev m = l))
                      | None => Some true
                      end;
            if negb ok_next then Some (false, verified_count)
            else
              ok_prev ← match prev n with
                        | Some q => m ← h !! q; Some (bool_decide (next m = l))
                        | None => Some true
                        end;
              if negb ok_prev then Some (false, verified_count)
              else assert_valid_loop fuel' h list (next n)
                     (size_t_wrap (verified_count + 1))
      end
  end.

(** [static void assert_valid_list(list)] of debug builds. *)
Definition assert_valid_list (fuel : nat) (h : heap) (list : grpc_mdelem_list)
    : option bool :=
  if negb (bool_decide ((head list = None) <-> (tail list = None)))
  then Some false
  else
    match head list, tail list with
    | None, _ => Some true
    | Some first, Some final =>
        f ← h !! first;
        if negb (bool_decide (prev f = None)) then Some false
        else
          t ← h !! final;
          if negb (bool_decide (next t = None)) then Some false
          else if negb (bool_decide ((head list = tail list)
                                     <-> (next f = None)))
          then Some false
          else
            '(ok, verified_count) ←
              assert_valid_loop fuel h list (head list) 0;
            Some (ok && bool_decide (count list = verified_count))
    | Some _, None => Some false
    end.

(** *** The callouts *)

Definition error_with_md (elem : grpc_mdelem) : grpc_error :=
  grpc_attach_md_to_error
    (GRPC_ERROR_CREATE_FROM_STATIC_STRING "Unallowed duplicate metadata")
    elem.

(** [MetadataMap::LinkCallout]. *)
Definition LinkCallout (storage : loc) (idx : nat) (m : MetadataMap)
    (h : heap) : option (grpc_error_handle * MetadataMap) :=
  match idx_ m !! idx with
  | None =>
      let list := set_default_count
                    (size_t_wrap (default_count (list_ m) + 1)) (list_ m) in
      Some (None, mk_map list (<[idx := storage]> (idx_ m)) (deadline_ m))
  | Some _ =>
      s ← h !! storage; Some (Some (error_with_md (md s)), m)
  end.

(** [MetadataMap::MaybeLinkCallout]. *)
Definition MaybeLinkCallout (storage : loc) (m : MetadataMap) (h : heap)
    : option (grpc_error_handle * MetadataMap) :=
  s ← h !! storage;
  let idx := GRPC_BATCH_INDEX_OF (GRPC_MDKEY (md s)) in
  if bool_decide (idx = GRPC_BATCH_CALLOUTS_COUNT) then Some (None, m)
  else LinkCallout storage idx m h.

(** [MetadataMap::MaybeUnlinkCallout]. *)
Definition MaybeUnlinkCallout (storage : loc) (m : MetadataMap) (h : heap)
    : option MetadataMap :=
  s ← h !! storage;
  let idx := GRPC_BATCH_INDEX_OF (GRPC_MDKEY (md s)) in
  if bool_decide (idx = GRPC_BATCH_CALLOUTS_COUNT) then Some m
  else
    let list := set_default_count
                  (size_t_wrap (default_count (list_ m) - 1)) (list_ m) in
    Some (mk_map list (delete idx (idx_ m)) (deadline_ m)).

(** *** Adding and removing *)

(** [MetadataMap::MetadataMap()]. *)
Definition MetadataMap_ctor : MetadataMap :=
  mk_map (mk_list 0 0 None None) ∅ GRPC_MILLIS_INF_FUTURE.


Definition LinkHead_idx (storage : loc) (idx : nat) (m : MetadataMap)
    (h : heap) : option (grpc_error_handle * MetadataMap * heap) :=
  '(err, m) ← LinkCallout storage idx m h;
  match err with
  | Some _ => Some (err, m, h)
  | None =>
      '(list, h) ← link_head (list_ m) storage h;
      Some (None, mk_map list (idx_ m) (deadline_ m), h)
  end.


Definition LinkTail_idx (storage : loc) (idx : nat) (m : MetadataMap)
    (h : heap) : option (grpc_error_handle * MetadataMap * heap) :=
  '(err, m) ← LinkCallout storage idx m h;
  match err with
  | Some _ => Some (err, m, h)
  | None =>
      '(list, h) ← link_tail (list_ m) storage h;
      Some (None, mk_map list (idx_ m) (deadline_ m), h)
  end.



(** [Remove(storage)] for a pointer to an object. *)
Definition Remove (storage : loc) (m : MetadataMap) (h : heap)
    : option (MetadataMap * heap) :=
  m ← MaybeUnlinkCallout storage m h;
  '(list, h) ← unlink_storage (list_ m) storage h;
  Some (mk_map list (idx_ m) (deadline_ m), h).

(** [Remove(grpc_metadata_batch_callouts_index idx)]. *)
Definition Remove_idx (idx : nat) (m : MetadataMap) (h : heap)
    : option (MetadataMap * heap) :=
  match idx_ m !! idx with
  | None => Some (m, h)
  | Some storage =>
      let list := set_default_count
                    (size_t_wrap (default_count (list_ m) - 1)) (list_ m) in
      '(list, h) ← unlink_storage list storage h;
      Some (mk_map list (delete idx (idx_ m)) (deadline_ m), h)
  end.

(** *** With the assertions of a debug build

    [AssertValidCallouts] is empty when [NDEBUG] is defined.  [Substitute]
    and [Filter] are modelled for both kinds of build: [NDEBUG] tells which,
    and [fuel] bounds the rounds of the loop of [AssertValidCallouts]. *)

(** The loop of [AssertValidCallouts], from [l] on: [Some false] when an
    assertion fails. *)
Fixpoint AssertValidCallouts_loop (fuel : nat) (m : MetadataMap) (h : heap)
    (l : option loc) : option bool :=
  match l with
  | None => Some true
  | Some p =>
      match fuel with
      | O => None
      | S fuel' =>
          n ← h !! p;
          let key_interned := grpc_slice_intern (GRPC_MDKEY (md n)) in
          let callout_idx := GRPC_BATCH_INDEX_OF key_interned in
          if negb (bool_decide (callout_idx = GRPC_BATCH_CALLOUTS_COUNT))
             && negb (bool_decide (idx_ m !! callout_idx = Some p))
          then Some false
          else AssertValidCallouts_loop fuel' m h (next n)
      end
  end.

Definition AssertValidCallouts (NDEBUG : bool) (fuel : nat) (m : MetadataMap)
    (h : heap) : option bool :=
  if NDEBUG then Some true
  else AssertValidCallouts_loop fuel m h (head (list_ m)).

(** [LinkCallout] with its calls of [AssertValidCallouts]: one on entry and
    one before either return. *)
Definition LinkCallout_checked (NDEBUG : bool) (fuel : nat) (storage : loc)
    (idx : nat) (m : MetadataMap) (h : heap)
    : option (outcome (grpc_error_handle * MetadataMap)) :=
  asserting (AssertValidCallouts NDEBUG fuel m h)
    ('(err, m') ← LinkCallout storage idx m h;
     asserting (AssertValidCallouts NDEBUG fuel m' h)
       (Some (Returns (err, m')))).

Definition MaybeLinkCallout_checked (NDEBUG : bool) (fuel : nat)
    (storage : loc) (m : MetadataMap) (h : heap)
    : option (outcome (grpc_error_handle * MetadataMap)) :=
  s ← h !! storage;
  let idx := GRPC_BATCH_INDEX_OF (GRPC_MDKEY (md s)) in
  if bool_decide (idx = GRPC_BATCH_CALLOUTS_COUNT)
  then Some (Returns (None, m))
  else LinkCallout_checked NDEBUG fuel storage idx m h.

(** [Remove(storage)] with its calls of [AssertValidCallouts], on entry and
    before it returns. *)
Definition Remove_checked (NDEBUG : bool) (fuel : nat) (storage : loc)
    (m : MetadataMap) (h : heap) : option (outcome (MetadataMap * heap)) :=
  asserting (AssertValidCallouts NDEBUG fuel m h)
    ('(m, h) ← Remove storage m h;
     asserting (AssertValidCallouts NDEBUG fuel m h)
       (Some (Returns (m, h)))).

(** [Substitute(storage, new_mdelem)]. *)
Definition Substitute (NDEBUG : bool) (fuel : nat) (storage : loc)
    (new_mdelem : grpc_mdelem) (m : MetadataMap) (h : heap)
    : option (outcome (grpc_error_handle * MetadataMap * heap)) :=
  asserting (AssertValidCallouts NDEBUG fuel m h)
    (s ← h !! storage;
     let old_mdelem := md s in
     if negb (grpc_slice_eq (GRPC_MDKEY new_mdelem) (GRPC_MDKEY old_mdelem))
     then
       m ← MaybeUnlinkCallout storage m h;
       h ← write storage (set_md new_mdelem) h;
       r ← MaybeLinkCallout_checked NDEBUG fuel storage m h;
       match r with
       | Aborts => Some Aborts
       | Returns (error, m) =>
           '(m, h) ← match error with
                     | Some _ =>
                         '(list, h) ← unlink_storage (list_ m) storage h;
                         Some (mk_map list (idx_ m) (deadline_ m), h)
                     | None => Some (m, h)
                     end;
           asserting (AssertValidCallouts NDEBUG fuel m h)
             (Some (Returns (error, m, h)))
       end
     else
       h ← write storage (set_md new_mdelem) h;
       asserting (AssertValidCallouts NDEBUG fuel m h)
         (Some (Returns (None, m, h)))).

(** [struct grpc_filtered_mdelem]: what the function given to [Filter]
    returns. *)
Record grpc_filtered_mdelem : Type := mk_filtered {
  filtered_error : grpc_error_handle;
  filtered_md : grpc_mdelem
}.

(** The lambda [add_error] of [Filter]; the result is the new value of
    [error]. *)
Definition add_error (composite_error_string : string)
    (error new_error : grpc_error_handle) : grpc_error_handle :=
  match new_error with
  | None => error
  | Some child =>
      let error :=
        match error with
        | None => GRPC_ERROR_CREATE_FROM_COPIED_STRING composite_error_string
        | Some e => e
        end in
      Some (grpc_error_add_child error child)
  end.

(** The loop of [Filter(f, composite_error_string)], from [l] on, for a
    function [f] without effects.  [afuel] is the fuel of the assertions. *)
Fixpoint Filter_loop (NDEBUG : bool) (afuel fuel : nat)
    (f : grpc_mdelem -> grpc_filtered_mdelem)
    (composite_error_string : string) (l : option loc)
    (error : grpc_error_handle) (m : MetadataMap) (h : heap)
    : option (outcome (grpc_error_handle * MetadataMap * heap)) :=
  match l with
  | None => Some (Returns (error, m, h))
  | Some p =>
      match fuel with
      | O => None
      | S fuel' =>
          n ← h !! p;
          let next_l := next n in
          let new_mdelem := f (md n) in
          let error :=
            add_error composite_error_string error
              (filtered_error new_mdelem) in
          if GRPC_MDISNULL (filtered_md new_mdelem)
          then
            r ← Remove_checked NDEBUG afuel p m h;
            match r with
            | Aborts => Some Aborts
            | Returns (m, h) =>
                Filter_loop NDEBUG afuel fuel' f composite_error_string
                  next_l error m h
            end
          else if negb (same_payload (filtered_md new_mdelem) (md n))
          then
            r ← Substitute NDEBUG afuel p (filtered_md new_mdelem) m h;
            match r with
            | Aborts => Some Aborts
            | Returns (err, m, h) =>
                Filter_loop NDEBUG afuel fuel' f composite_error_string
                  next_l (add_error composite_error_string error err) m h
            end
          else Filter_loop NDEBUG afuel fuel' f composite_error_string
                 next_l error m h
      end
  end.

Definition Filter (NDEBUG : bool) (fuel : nat)
    (f : grpc_mdelem -> grpc_filtered_mdelem)
    (composite_error_string : string) (m : MetadataMap) (h : heap)
    : option (outcome (grpc_error_handle * MetadataMap * heap)) :=
  Filter_loop NDEBUG fuel fuel f composite_error_string (head (list_ m))
    None m h.

(** The loop of [Remove(grpc_slice key)], from [l] on. *)
Fixpoint Remove_key_loop (fuel : nat) (key : grpc_slice) (l : option loc)
    (m : MetadataMap) (h : heap)
    : option (option grpc_slice * MetadataMap * heap) :=
  match l with
  | None => Some (None, m, h)
  | Some p =>
      match fuel with
      | O => None
      | S fuel' =>
          n ← h !! p;
          if grpc_slice_eq (GRPC_MDKEY (md n)) key
          then
            let out := GRPC_MDVALUE (md n) in
            '(m, h) ← Remove p m h;
            Some (Some out, m, h)
          else Remove_key_loop fuel' key (next n) m h
      end
  end.

(** [absl::optional<grpc_slice> Remove(grpc_slice key)]. *)
Definition Remove_key (fuel : nat) (key : grpc_slice) (m : MetadataMap)
    (h : heap) : option (option grpc_slice * MetadataMap * heap) :=
  Remove_key_loop fuel key (head (list_ m)) m h.

(** *** Reading *)

(** [count()], [non_deadline_count()], [default_count()], [empty()]. *)
Definition MetadataMap_count (m : MetadataMap) : Z :=
  size_t_wrap
    (count (list_ m)
     + (if bool_decide (deadline_ m = GRPC_MILLIS_INF_FUTURE) then 0 else 1)).

Definition non_deadline_count (m : MetadataMap) : Z := count (list_ m).

Definition empty (m : MetadataMap) : bool :=
  bool_decide (MetadataMap_count m = 0).

(** [SetDeadline] and [ClearDeadline]. *)
Definition SetDeadline (deadline : Z) (m : MetadataMap) : MetadataMap :=
  mk_map (list_ m) (idx_ m) deadline.

Definition ClearDeadline (m : MetadataMap) : MetadataMap :=
  SetDeadline GRPC_MILLIS_INF_FUTURE m.

(** The loop of [GetValue]: the values pushed to [values], from [l] on. *)
Fixpoint GetValue_loop (fuel : nat) (target_key : string) (h : heap)
    (l : option loc) (values : list string) : option (list string) :=
  match l with
  | None => Some values
  | Some p =>
      match fuel with
      | O => None
      | S fuel' =>
          n ← h !! p;
          let key := StringViewFromSlice (GRPC_MDKEY (md n)) in
          let value := StringViewFromSlice (GRPC_MDVALUE (md n)) in
          GetValue_loop fuel' target_key h (next n)
            (if bool_decide (target_key = key) then values ++ [value]
             else values)
      end
  end.

(** [absl::StrJoin(values, ",")]. *)
Fixpoint StrJoin (values : list string) (sep : string) : string :=
  match values with
  | [] => ""
  | [v] => v
  | v :: rest => v ++ sep ++ StrJoin rest sep
  end.

(** [GetValue(target_key, concatenated_value)]: the value returned. *)
Definition GetValue (fuel : nat) (target_key : string) (m : MetadataMap)
    (h : heap) : option (option string) :=
  values ← GetValue_loop fuel target_key h (head (list_ m)) [];
  match values with
  | [] => Some None
  | [v] => Some (Some v)
  | _ => Some (Some (StrJoin values ","))
  end.

(** The loop of [TransportSize], from [elem] on. *)
Fixpoint TransportSize_loop (fuel : nat) (h : heap) (elem : option loc)
    (size : Z) : option Z :=
  match elem with
  | None => Some size
  | Some p =>
      match fuel with
      | O => None
      | S fuel' =>
          n ← h !! p;
          TransportSize_loop fuel' h (next n)
            (size_t_wrap (size + GRPC_MDELEM_LENGTH (md n)))
      end
  end.

Definition TransportSize (fuel : nat) (m : MetadataMap) (h : heap)
    : option Z :=
  TransportSize_loop fuel h (head (list_ m)) 0.

(** The loop of [ReplaceIfExists], from [l] on. *)
Fixpoint ReplaceIfExists_loop (fuel : nat) (key value : grpc_slice)
    (l : option loc) (h : heap) : option (bool * heap) :=
  match l with
  | None => Some (false, h)
  | Some p =>
      match fuel with
      | O => None
      | S fuel' =>
          n ← h !! p;
          if grpc_slice_eq (GRPC_MDKEY (md n)) key
          then
            let new_mdelem := grpc_mdelem_from_slices key value in
            h ← write p (set_md new_mdelem) h;
            Some (true, h)
          else ReplaceIfExists_loop fuel' key value (next n) h
      end
  end.

Definition ReplaceIfExists (fuel : nat) (key value : grpc_slice)
    (m : MetadataMap) (h : heap) : option (bool * heap) :=
  ReplaceIfExists_loop fuel key value (head (list_ m)) h.

(** *** What the assertions say *)

(** The objects at [ps], in this order, are a doubly linked list. *)
Definition linked (h : heap) (ps : list loc) : Prop :=
  NoDup ps /\
  forall i p, ps !! i = Some p ->
    exists n, h !! p = Some n /\
              next n = ps !! S i /\
              prev n = match i with O => None | S j => ps !! j end.

(** The object at [ps !! i] has the pointers [nexts i] and [prevs i], for
    every [i]. *)
Definition pointers (h : heap) (ps : list loc)
    (nexts prevs : nat -> option loc) : Prop :=
  forall i p, ps !! i = Some p ->
    exists n, h !! p = Some n /\ next n = nexts i /\ prev n = prevs i.

(** Following [next] from the pointer [l] leads through the objects at
    [ps] and then to [nullptr]. *)
Fixpoint chain (h : heap) (l : option loc) (ps : list loc) : Prop :=
  match ps with
  | [] => l = None
  | p :: ps' => l = Some p /\ exists n, h !! p = Some n /\ chain h (next n) ps'
  end.

(** [l] is the list of the objects at [ps]. *)
Definition is_list (h : heap) (l : grpc_mdelem_list) (ps : list loc)
    : Prop :=
  linked h ps /\
  head l = ps !! 0%nat /\
  tail l = last ps /\
  count l = Z.of_nat (length ps).

(** The element stored at [p]. *)
Definition element (h : heap) (p : loc) : option grpc_mdelem :=
  md <$> h !! p.

(** The elements of the list, in order. *)
Definition contents (h : heap) (ps : list loc) : list grpc_mdelem :=
  omap (element h) ps.

(** The values, as [GetValue] sees them, of the elements whose key is
    [target_key]. *)
Definition values_for (target_key : string) (elems : list grpc_mdelem)
    : list string :=
  (fun e => StringViewFromSlice (GRPC_MDVALUE e)) <$>
  List.filter
    (fun e => bool_decide (target_key = StringViewFromSlice (GRPC_MDKEY e)))
    elems.

(** The sum of the [GRPC_MDELEM_LENGTH] of the elements. *)
Definition total_length (elems : list grpc_mdelem) : Z :=
  foldr (fun e acc => GRPC_MDELEM_LENGTH e + acc) 0 elems.

(** No element of [elems] has the key [key]. *)
Definition key_absent (key : grpc_slice) (elems : list grpc_mdelem) : Prop :=
  Forall (fun e => grpc_slice_eq (GRPC_MDKEY e) key = false) elems.

(** No object at [ps] holds a null element. *)
Definition no_null (h : heap) (ps : list loc) : Prop :=
  Forall (fun e => GRPC_MDISNULL e = false) (contents h ps).

(** What one round of the loop of [assert_valid_list] asserts of the object
    at [p]. *)
Definition node_ok (h : heap) (l : grpc_mdelem_list) (p : loc) : Prop :=
  exists n,
    h !! p = Some n /\
    GRPC_MDISNULL (md n) = false /\
    (prev n = None <-> Some p = head l) /\
    (next n = None <-> Some p = tail l) /\
    (forall q, next n = Some q ->
               exists m, h !! q = Some m /\ prev m = Some p) /\
    (forall q, prev n = Some q ->
               exists m, h !! q = Some m /\ next m = Some p).

(** The callout of the element at [p]; [None] when it has none. *)
Definition callout_of (h : heap) (p : loc) : option nat :=
  n ← h !! p;
  let idx := GRPC_BATCH_INDEX_OF (GRPC_MDKEY (md n)) in
  if bool_decide (idx = GRPC_BATCH_CALLOUTS_COUNT) then None else Some idx.

(** [idx_] and [default_count] agree with the elements of the objects at
    [ps]: an element with a callout is the one recorded for it, and nothing
    else is recorded.  ([AssertValidCallouts] asserts the first part, for
    the interned key.) *)
Definition callouts (h : heap) (m : MetadataMap) (ps : list loc) : Prop :=
  (forall p idx, p ∈ ps -> callout_of h p = Some idx ->
                 idx_ m !! idx = Some p) /\
  (forall idx p, idx_ m !! idx = Some p ->
                 p ∈ ps /\ callout_of h p = Some idx) /\
  default_count (list_ m) = Z.of_nat (size (idx_ m)).

(** What [Filter] makes of an element when nothing fails: nothing when [f]
    gives a null element, the element itself when [f] gives one with the same
    payload, and otherwise what [f] gives. *)
Definition filtered (f : grpc_mdelem -> grpc_filtered_mdelem)
    (e : grpc_mdelem) : option grpc_mdelem :=
  let new_mdelem := filtered_md (f e) in
  if GRPC_MDISNULL new_mdelem then None
  else if same_payload new_mdelem e then Some e else Some new_mdelem.

(** [f] gives the element a key that differs from its own and that has a
    callout; [Filter] then calls [Substitute], which calls [LinkCallout]. *)
Definition rekeys_to_callout (f : grpc_mdelem -> grpc_filtered_mdelem)
    (e : grpc_mdelem) : bool :=
  let new_mdelem := filtered_md (f e) in
  negb (GRPC_MDISNULL new_mdelem)
  && negb (same_payload new_mdelem e)
  && negb (grpc_slice_eq (GRPC_MDKEY new_mdelem) (GRPC_MDKEY e))
  && negb (bool_decide (GRPC_BATCH_INDEX_OF (GRPC_MDKEY new_mdelem)
                        = GRPC_BATCH_CALLOUTS_COUNT)).

(** Interning the key of [e] does not change its callout: the key is an
    interned slice already, or no key of its content has a callout. *)
Definition interned_key (e : grpc_mdelem) : Prop :=
  GRPC_BATCH_INDEX_OF (grpc_slice_intern (GRPC_MDKEY e))
  = GRPC_BATCH_INDEX_OF (GRPC_MDKEY e).

(** If the key of [new_mdelem] equals the key of [old_mdelem] as a slice,
    the two keys have the same callout. *)
Definition keeps_callout (new_mdelem old_mdelem : grpc_mdelem) : Prop :=
  grpc_slice_eq (GRPC_MDKEY new_mdelem) (GRPC_MDKEY old_mdelem) = true ->
  GRPC_BATCH_INDEX_OF (GRPC_MDKEY new_mdelem)
  = GRPC_BATCH_INDEX_OF (GRPC_MDKEY old_mdelem).

(** [m] is a well-formed map of the objects at [ps]. *)
Definition valid_map (h : heap) (m : MetadataMap) (ps : list loc) : Prop :=
  is_list h (list_ m) ps /\ callouts h m ps.

End Batch.

Abbreviation heap := (gmap loc grpc_linked_mdelem).

(** An instance to run the functions on: slices and elements are strings
    and pairs of strings, an element is null when its key is empty, the
    callouts are [":path"] and [":method"]. *)
Definition sample_index_of (key : string) : nat :=
  if bool_decide (key = ":path") then 0
  else if bool_decide (key = ":method") then 1 else 2.

Definition sample_metadata : Metadata := {|
  grpc_slice := string;
  grpc_mdelem := string * string;
  GRPC_MDISNULL := fun e => bool_decide (fst e = "");
  GRPC_MDKEY := fst;
  GRPC_MDVALUE := snd;
  GRPC_MDELEM_LENGTH := fun e =>
    Z.of_nat (String.length (fst e) + String.length (snd e)) + 32;
  same_payload := fun a b => bool_decide (a = b);
  grpc_slice_eq := fun a b => bool_decide (a = b);
  grpc_slice_intern := fun s => s;
  StringViewFromSlice := fun s => s;
  grpc_mdelem_from_slices := fun k v => (k, v);
  GRPC_BATCH_CALLOUTS_COUNT := 2;
  GRPC_BATCH_INDEX_OF := sample_index_of;
  GRPC_MILLIS_INF_FUTURE := 9223372036854775807
|}.

Section Sample.
#[local] Existing Instance sample_metadata.

(** Three objects: the first two are linked into a list, the third is
    not; and the map of the first two, in which [":path"] has a callout. *)
Definition sample_heap : heap :=
  {[ 1%positive := mk_linked (":path", "/a") (Some 2%positive) None None;
     2%positive := mk_linked ("te", "trailers") None (Some 1%positive) None;
     3%positive := mk_linked ("te", "gzip") None None None ]}.

Definition sample_map : MetadataMap :=
  mk_map (mk_list 2 1 (Some 1%positive) (Some 2%positive))
         {[ 0%nat := 1%positive ]} GRPC_MILLIS_INF_FUTURE.

(** A map without elements on which a deadline has been set. *)
Definition deadline_only : MetadataMap := SetDeadline 5000 MetadataMap_ctor.

(** Functions for [Filter]: the first gives the elements with the key
    ["te"] the key ["x-te"], which has no callout; the second gives them the
    key [":method"], which has one.  Other elements are kept. *)
Definition rename_te (e : grpc_mdelem) : grpc_filtered_mdelem :=
  mk_filtered None (if bool_decide (fst e = "te") then ("x-te", snd e) else e).

Definition te_to_method (e : grpc_mdelem) : grpc_filtered_mdelem :=
  mk_filtered None
    (if bool_decide (fst e = "te") then (":method", snd e) else e).
End Sample.

End MetadataBatch.

(* ===================================================================== *)
(** * Part II: theorems *)
(* ===================================================================== *)

Import IdleFilter.

(** ** The invariant of the idle tracker *)

Lemma wrap_intptr_small z : INTPTR_MIN <= z <= INTPTR_MAX -> wrap_intptr z = z.
Proof.
  unfold wrap_intptr, INTPTR_MIN, INTPTR_MAX, INTPTR_BITS. intros H.
  rewrite Z.mod_small; lia.
Qed.

Section Tally.
Variable p : role -> bool.

Lemma tally_app l1 l2 : tally p (l1 ++ l2) = tally p l1 + tally p l2.
Proof. induction l1 as [|a l1 IH]; simpl; [lia | rewrite IH; lia]. Qed.

Lemma tally_range l : 0 <= tally p l <= Z.of_nat (length l).
Proof.
  induction l as [|a l IH]; simpl; [lia|].
  destruct (p (role_of a)); simpl; lia.
Qed.

Lemma tally_insert (l : list thread) i a b :
  l !! i = Some a ->
  tally p (<[i := b]> l)
  = tally p l - Z.b2z (p (role_of a)) + Z.b2z (p (role_of b)).
Proof.
  revert i. induction l as [|x l IH]; intros [|i] H; simpl in *;
    try discriminate.
  - injection H as ->. lia.
  - rewrite (IH i H). lia.
Qed.

Lemma tally_at (l : list thread) i a :
  l !! i = Some a ->
  Z.b2z (p (role_of a)) <= tally p l
  <= Z.of_nat (length l) - 1 + Z.b2z (p (role_of a)).
Proof.
  revert i. induction l as [|x l IH]; intros [|i] H; simpl in *;
    try discriminate.
  - injection H as ->. pose proof (tally_range l). lia.
  - specialize (IH i H). destruct (p (role_of x)); simpl; lia.
Qed.

Lemma tally_neutral l :
  p Neutral = false -> Forall (fun th => role_of th = Neutral) l ->
  tally p l = 0.
Proof.
  intros Hp. induction 1 as [|a l Ha _ IH]; simpl; [reflexivity|].
  rewrite Ha, Hp, IH. reflexivity.
Qed.
End Tally.

Lemma tally_le p q l :
  (forall r, p r = true -> q r = true) -> tally p l <= tally q l.
Proof.
  intros Hpq. induction l as [|a l IH]; simpl; [lia|].
  specialize (Hpq (role_of a)).
  destruct (p (role_of a)), (q (role_of a)); simpl; try lia.
  all: try (discriminate Hpq; reflexivity).
Qed.

Lemma tally_counts l : tally counts l = tally raises l + tally settles l.
Proof.
  induction l as [|a l IH]; simpl; [lia|]. rewrite IH.
  destruct (role_of a); simpl; lia.
Qed.

(** The tallies of the thread list after thread [i] moved from role [ra] to
    role [rb] and neutral threads were added. *)
Lemma tally_update p (l : list thread) i a b sp ra rb :
  l !! i = Some a -> role_of a = ra -> role_of b = rb ->
  p Neutral = false -> Forall (fun th => role_of th = Neutral) sp ->
  tally p (<[i := b]> l ++ sp) = tally p l - Z.b2z (p ra) + Z.b2z (p rb) /\
  Z.b2z (p ra) <= tally p l <= Z.of_nat (length l) - 1 + Z.b2z (p ra).
Proof.
  intros H <- <- Hp Hsp. split; [|exact (tally_at p l i a H)].
  rewrite tally_app, (tally_insert _ _ _ _ _ H), (tally_neutral p sp Hp Hsp).
  lia.
Qed.

Ltac dec_hyp H :=
  cbn [busy_state] in H;
  lazymatch type of H with
  | _ -> ?s = ?s => clear H
  | ?A -> _ = _ =>
      assert (~ A) by (let X := fresh in intro X; apply H in X; discriminate X);
      clear H
  | (true = true) <-> ?P => assert P by (apply H; reflexivity); clear H
  | (false = true) <-> ?P =>
      assert (~ P) by (let X := fresh in intro X; apply H in X; discriminate X);
      clear H
  end.

Ltac solve_inv_goal :=
  cbn [busy_state];
  lazymatch goal with
  | |- (true = true) <-> _ => split; [intros _; lia | reflexivity]
  | |- (false = true) <-> _ => split; [discriminate | intros ?; exfalso; lia]
  | |- _ -> ?s = ?s => reflexivity
  | |- _ -> @eq ChannelState _ _ => intros; exfalso; lia
  | |- _ => intros; lia
  end.

Lemma protocol_preserves d clk (l : list thread) i a b sp d' :
  l !! i = Some a ->
  Forall (fun th => role_of th = Neutral) sp ->
  protocol (call_count_ d) (state_ d) (role_of a) (role_of b)
           (call_count_ d') (state_ d') ->
  Z.of_nat (length (<[i := b]> l ++ sp)) <= INTPTR_MAX ->
  Inv (mkConfig d clk l) -> Inv (mkConfig d' clk (<[i := b]> l ++ sp)).
Proof.
  intros Hlook Hsp Hproto Hlen [Hc Hr Hl Hh Hld Hb Hsa Hsp' Hp].
  cbn [chand threads] in *.
  rewrite length_app, length_insert in Hlen.
  remember (role_of a) as ra eqn:Era. remember (role_of b) as rb eqn:Erb.
  symmetry in Era, Erb.
  destruct (tally_update counts l i a b sp ra rb Hlook Era Erb eq_refl Hsp)
    as [Uc Ac].
  destruct (tally_update settles l i a b sp ra rb Hlook Era Erb eq_refl Hsp)
    as [Us As].
  destruct (tally_update raises l i a b sp ra rb Hlook Era Erb eq_refl Hsp)
    as [Ur Ar].
  destruct (tally_update stores_active l i a b sp ra rb Hlook Era Erb eq_refl Hsp)
    as [Usa Asa].
  destruct (tally_update lowers l i a b sp ra rb Hlook Era Erb eq_refl Hsp)
    as [Ul Al].
  destruct (tally_update stores_pending l i a b sp ra rb Hlook Era Erb eq_refl Hsp)
    as [Usp Asp].
  destruct (tally_update holds l i a b sp ra rb Hlook Era Erb eq_refl Hsp)
    as [Uh Ah].
  pose proof (tally_counts l) as Hsum.
  pose proof (tally_le stores_active raises l) as Hle1.
  pose proof (tally_le stores_pending lowers l) as Hle2.
  assert (HMAX : INTPTR_MAX = 9223372036854775807) by reflexivity.
  assert (HMIN : INTPTR_MIN = -9223372036854775808) by reflexivity.
  assert (Hlen' : Z.of_nat (length l) <= 9223372036854775807) by lia.
  clear Hlen Hlook Hsp Era Erb.
  specialize (Hle1 ltac:(intros []; simpl; congruence)).
  specialize (Hle2 ltac:(intros []; simpl; congruence)).
  set (l' := <[i := b]> l ++ sp) in *. clearbody l'.
  destruct d as [tmo lit cc st tm], d' as [tmo' lit' cc' st' tm'].
  cbn [call_count_ state_] in *.
  destruct st; inversion Hproto; subst; clear Hproto;
    try (exfalso; match goal with
                  | H : _ \/ _ |- _ => destruct H; discriminate
                  | H : @eq ChannelState _ _ |- _ => discriminate H
                  end);
    try match goal with H : _ \/ _ |- _ => destruct H; subst end;
    cbn in *;
    dec_hyp Hb; dec_hyp Hsa; dec_hyp Hsp'; dec_hyp Hp;
    constructor; cbn [chand threads call_count_ state_];
    rewrite ?wrap_intptr_small by lia; solve_inv_goal.
Qed.

Lemma compare_exchange_weak_cases spurious expected desired mo1 mo2 d :
  (state_ d = expected /\
   compare_exchange_weak spurious expected desired mo1 mo2 d
   = (set_state desired d, true, expected, [ACasOk expected desired mo1])) \/
  compare_exchange_weak spurious expected desired mo1 mo2 d
  = (d, false, state_ d, [ACasFail expected (state_ d) mo2]).
Proof.
  unfold compare_exchange_weak. destruct spurious.
  - right. rewrite andb_false_r. reflexivity.
  - destruct (bool_decide_reflect (state_ d = expected)); [left | right]; auto.
Qed.

Lemma compare_exchange_weak_success e t m1 m2 d :
  state_ d = e ->
  compare_exchange_weak false e t m1 m2 d
  = (set_state t d, true, e, [ACasOk e t m1]).
Proof.
  intros H. unfold compare_exchange_weak.
  rewrite bool_decide_eq_true_2 by exact H. reflexivity.
Qed.

Lemma compare_exchange_weak_failure spurious e t m1 m2 d :
  state_ d <> e ->
  compare_exchange_weak spurious e t m1 m2 d
  = (d, false, state_ d, [ACasFail e (state_ d) m2]).
Proof.
  intros H. unfold compare_exchange_weak.
  rewrite bool_decide_eq_false_2 by exact H. reflexivity.
Qed.

Create HintDb proto.
#[local] Hint Constructors protocol : proto.

Lemma IncreaseCallCount_protocol spurious d pc d' pc' acts :
  IncreaseCallCount spurious d pc = (d', pc', acts) ->
  protocol (call_count_ d) (state_ d) (inc_role pc) (inc_role pc')
           (call_count_ d') (state_ d').
Proof.
  destruct pc as [| |s|]; cbn [IncreaseCallCount].
  - destruct (Z.eqb_spec (call_count_ d) 0); intros [= <- <- <-]; cbn;
      auto with proto.
  - intros [= <- <- <-]. apply (proto_raise_load _ (state_ d)).
  - destruct s;
      try (intros [= <- <- <-]; cbn;
           first [ apply proto_raise_store
                 | apply (proto_raise_load _ (state_ d)) ]).
    all: match goal with
         | |- context [compare_exchange_weak ?sp ?e ?t ?m1 ?m2 ?d] =>
             destruct (compare_exchange_weak_cases sp e t m1 m2 d)
               as [[Hst ->] | ->]
         end; intros [= <- <- <-]; cbn;
         first [ apply proto_raise_cas; auto
               | apply (proto_raise_load _ (state_ d)) ].
  - intros [= <- <- <-]. apply proto_same.
Qed.

Lemma DecreaseCallCount_protocol spurious now d pc d' pc' acts :
  DecreaseCallCount spurious now d pc = (d', pc', acts) ->
  protocol (call_count_ d) (state_ d) (dec_role pc) (dec_role pc')
           (call_count_ d') (state_ d').
Proof.
  destruct pc as [| | |s| |]; cbn [DecreaseCallCount].
  - destruct (Z.eqb_spec (call_count_ d) 1); intros [= <- <- <-]; cbn;
      auto with proto.
  - intros [= <- <- <-]. apply proto_same.
  - intros [= <- <- <-]. apply (proto_lower_load _ (state_ d)).
  - destruct s;
      try (intros [= <- <- <-]; cbn;
           first [ apply proto_same
                 | apply (proto_lower_load _ (state_ d)) ]).
    match goal with
    | |- context [compare_exchange_weak ?sp ?e ?t ?m1 ?m2 ?d] =>
        destruct (compare_exchange_weak_cases sp e t m1 m2 d)
          as [[Hst ->] | ->]
    end; intros [= <- <- <-]; cbn;
    first [ apply proto_lower_cas; auto
          | apply (proto_lower_load _ (state_ d)) ].
  - intros [= <- <- <-]. apply proto_lower_store.
  - intros [= <- <- <-]. apply proto_same.
Qed.

Lemma IdleTimerCallback_protocol spurious d pc d' pc' acts :
  IdleTimerCallback spurious d pc = (d', pc', acts) ->
  protocol (call_count_ d) (state_ d) (tc_role pc) (tc_role pc')
           (call_count_ d') (state_ d').
Proof.
  destruct pc as [cancelled|s| | | | |]; cbn [IdleTimerCallback].
  - destruct cancelled; intros [= <- <- <-]; apply proto_same.
  - destruct s; try (intros [= <- <- <-]; apply proto_same).
    all: match goal with
         | |- context [compare_exchange_weak ?sp ?e ?t ?m1 ?m2 ?d] =>
             destruct (compare_exchange_weak_cases sp e t m1 m2 d)
               as [[Hst ->] | ->]
         end; intros [= <- <- <-]; cbn;
         first [ apply proto_same
               | apply proto_timer_hold; auto
               | apply proto_timer_drop; auto ].
  - intros [= <- <- <-]. apply proto_same.
  - intros [= <- <- <-]. apply proto_timer_release; auto.
  - intros [= <- <- <-]. apply proto_same.
  - intros [= <- <- <-]. apply proto_timer_release; auto.
  - intros [= <- <- <-]. apply proto_same.
Qed.

Lemma thread_step_protocol spurious now d th d' th' acts spawned :
  thread_step spurious now d th = (d', th', acts, spawned) ->
  protocol (call_count_ d) (state_ d) (role_of th) (role_of th')
           (call_count_ d') (state_ d') /\
  Forall (fun t => role_of t = Neutral) spawned.
Proof.
  destruct th as [pc|pc|[pc|disc|disc]|pc]; cbn [thread_step].
  - destruct (IncreaseCallCount spurious d pc) as [[d1 pc1] a1] eqn:E.
    intros [= <- <- <- <-]. split; [|constructor].
    exact (IncreaseCallCount_protocol _ _ _ _ _ _ E).
  - destruct (DecreaseCallCount spurious now d pc) as [[d1 pc1] a1] eqn:E.
    intros [= <- <- <- <-]. split; [|constructor].
    exact (DecreaseCallCount_protocol _ _ _ _ _ _ _ E).
  - assert (Hinc : forall d1 pc1 a1,
               IncreaseCallCount spurious d pc = (d1, pc1, a1) ->
               protocol (call_count_ d) (state_ d) (inc_role pc)
                        (inc_role pc1) (call_count_ d1) (state_ d1))
      by (intros; eapply IncreaseCallCount_protocol; eauto).
    destruct pc;
      try (destruct (IncreaseCallCount spurious d _) as [[d1 pc1] a1] eqn:E;
           intros [= <- <- <- <-]; split; [|constructor];
           exact (Hinc _ _ _ eq_refl)).
    unfold grpc_timer_cancel. destruct (idle_timer_ d);
      intros [= <- <- <- <-]; split; try apply proto_same;
      repeat constructor.
  - intros [= <- <- <- <-]. split; [apply proto_same | constructor].
  - intros [= <- <- <- <-]. split; [apply proto_same | constructor].
  - destruct (IdleTimerCallback spurious d pc) as [[d1 pc1] a1] eqn:E.
    intros [= <- <- <- <-]. split; [|constructor].
    exact (IdleTimerCallback_protocol _ _ _ _ _ _ E).
Qed.

(** ** Executions preserve the invariant *)

Lemma Inv_neutral_app d d' clk clk' (l sp : list thread) :
  call_count_ d' = call_count_ d -> state_ d' = state_ d ->
  Forall (fun th => role_of th = Neutral) sp ->
  Inv (mkConfig d clk l) -> Inv (mkConfig d' clk' (l ++ sp)).
Proof.
  intros Hcc Hst Hsp [Hc Hr Hl Hh Hld Hb Hsa Hsp' Hp].
  cbn [chand threads] in *.
  constructor; cbn [chand threads]; rewrite ?Hcc, ?Hst, ?tally_app,
    ?(tally_neutral _ sp eq_refl Hsp), ?Z.add_0_r; assumption.
Qed.

Lemma Inv_init timeout : Inv (init timeout).
Proof.
  constructor; cbn; try lia; try (intros; lia).
  all: split; [discriminate | lia].
Qed.

Lemma step_length c ev c' acts :
  step c ev = Some (c', acts) ->
  (length (threads c) <= length (threads c') <= S (length (threads c)))%nat.
Proof.
  destruct ev as [|i|disc|dt| |i spurious]; cbn [step].
  - intros [= <- <-]. cbn. rewrite length_app. cbn. lia.
  - destruct (threads c !! i) as [[[]| | |]|]; try discriminate.
    intros [= <- <-]. cbn. rewrite length_insert. lia.
  - intros [= <- <-]. cbn. rewrite length_app. cbn. lia.
  - destruct (0 <=? dt); [|discriminate]. intros [= <- <-]. cbn. lia.
  - unfold grpc_timer_expire. destruct (idle_timer_ (chand c)); [|discriminate].
    destruct (_ <=? _); [|discriminate]. intros [= <- <-]. cbn.
    rewrite length_app. cbn. lia.
  - destruct (threads c !! i) as [th|]; [|discriminate].
    destruct (thread_step spurious (clock c) (chand c) th)
      as [[[d' th'] a] sp] eqn:E.
    intros [= <- <-]. cbn. rewrite length_app, length_insert.
    assert (length sp <= 1)%nat; [|lia].
    destruct th as [pc|pc|[[]|disc|disc]|pc]; cbn [thread_step] in E;
      try (destruct (IncreaseCallCount _ _ _) as [[? ?] ?]);
      try (destruct (DecreaseCallCount _ _ _ _) as [[? ?] ?]);
      try (destruct (IdleTimerCallback _ _ _) as [[? ?] ?]);
      try (injection E as <- <- <- <-; cbn; lia).
    unfold grpc_timer_cancel in E. destruct (idle_timer_ (chand c));
      injection E as <- <- <- <-; cbn; lia.
  Qed.

Lemma step_preserves c ev c' acts :
  step c ev = Some (c', acts) ->
  Z.of_nat (length (threads c')) <= INTPTR_MAX ->
  Inv c -> Inv c'.
Proof.
  destruct c as [d clk l].
  destruct ev as [|i|disc|dt| |i spurious]; cbn [step chand clock threads].
  - intros [= <- <-] _. apply Inv_neutral_app; auto.
  - destruct (l !! i) as [[[]| | |]|] eqn:Hlook; try discriminate.
    intros [= <- <-] Hlen HI. rewrite <- (app_nil_r (<[i:=_]> l)).
    eapply protocol_preserves; eauto.
    + apply proto_same.
    + rewrite app_nil_r. exact Hlen.
  - intros [= <- <-] _. apply Inv_neutral_app; auto.
    destruct disc; repeat constructor.
  - destruct (0 <=? dt); [|discriminate]. intros [= <- <-] _ HI.
    rewrite <- (app_nil_r l). apply (Inv_neutral_app d d clk); auto.
  - unfold grpc_timer_expire. destruct (idle_timer_ d); [|discriminate].
    destruct (_ <=? _); [|discriminate]. intros [= <- <-] _.
    apply Inv_neutral_app; auto.
  - destruct (l !! i) as [th|] eqn:Hlook; [|discriminate].
    destruct (thread_step spurious clk d th) as [[[d' th'] a] sp] eqn:E.
    intros [= <- <-] Hlen HI.
    destruct (thread_step_protocol _ _ _ _ _ _ _ _ E) as [Hproto Hsp].
    eapply protocol_preserves; eauto.
Qed.

Lemma exec_length c evs c' tr :
  exec c evs = Some (c', tr) ->
  (length (threads c) <= length (threads c')
   <= length (threads c) + length evs)%nat.
Proof.
  revert c tr. induction evs as [|ev evs IH]; intros c tr; cbn [exec].
  - intros [= <- <-]. cbn. lia.
  - destruct (step c ev) as [[c1 a]|] eqn:Hstep; [|discriminate].
    destruct (exec c1 evs) as [[c2 tr2]|] eqn:Hexec; [|discriminate].
    intros [= <- <-]. specialize (IH _ _ Hexec).
    pose proof (step_length _ _ _ _ Hstep). cbn [length]. lia.
Qed.

Lemma exec_preserves c evs c' tr :
  exec c evs = Some (c', tr) ->
  Z.of_nat (length (threads c')) <= INTPTR_MAX ->
  Inv c -> Inv c'.
Proof.
  revert c tr. induction evs as [|ev evs IH]; intros c tr; cbn [exec].
  - intros [= <- <-] _ HI. exact HI.
  - destruct (step c ev) as [[c1 a]|] eqn:Hstep; [|discriminate].
    destruct (exec c1 evs) as [[c2 tr2]|] eqn:Hexec; [|discriminate].
    intros [= <- <-] Hlen HI.
    pose proof (exec_length _ _ _ _ Hexec) as Hmono.
    eapply IH; eauto. eapply step_preserves; eauto. lia.
Qed.

(** Every configuration reached from the initial one in at most [INTPTR_MAX]
    events satisfies the invariant. *)
Lemma reachable_Inv timeout evs c tr :
  exec (init timeout) evs = Some (c, tr) ->
  Z.of_nat (length evs) <= INTPTR_MAX ->
  Inv c.
Proof.
  intros Hexec Hlen. pose proof (exec_length _ _ _ _ Hexec) as Hl.
  cbn in Hl. eapply exec_preserves; eauto using Inv_init. lia.
Qed.


(** ** The counter *)

Lemma open_calls_app l1 l2 : open_calls (l1 ++ l2) = open_calls l1 + open_calls l2.
Proof. induction l1 as [|a l1 IH]; simpl; [lia | rewrite IH; lia]. Qed.

Lemma open_calls_insert (l : list thread) i a b :
  l !! i = Some a ->
  open_calls (<[i := b]> l)
  = open_calls l - Z.b2z (open_call a) + Z.b2z (open_call b).
Proof.
  revert i. induction l as [|x l IH]; intros [|i] H; simpl in *;
    try discriminate.
  - injection H as ->. lia.
  - rewrite (IH i H). lia.
Qed.

(** A step of a thread neither makes nor matches a call of
    [IncreaseCallCount]; the closures it schedules are no calls. *)
Lemma thread_step_open_call spurious now d th d' th' acts spawned :
  thread_step spurious now d th = (d', th', acts, spawned) ->
  open_call th' = open_call th /\ open_calls spawned = 0.
Proof.
  destruct th as [pc|pc|[pc|disc|disc]|pc]; cbn [thread_step].
  - destruct (IncreaseCallCount spurious d pc) as [[? ?] ?].
    intros [= <- <- <- <-]. auto.
  - destruct (DecreaseCallCount spurious now d pc) as [[? ?] ?].
    intros [= <- <- <- <-]. auto.
  - destruct pc;
      try (destruct (IncreaseCallCount spurious d _) as [[? ?] ?];
           intros [= <- <- <- <-]; auto).
    unfold grpc_timer_cancel. destruct (idle_timer_ d);
      intros [= <- <- <- <-]; auto.
  - intros [= <- <- <- <-]. auto.
  - intros [= <- <- <- <-]. auto.
  - destruct (IdleTimerCallback spurious d pc) as [[? ?] ?].
    intros [= <- <- <- <-]. auto.
Qed.

Lemma step_open_calls c ev c' acts :
  step c ev = Some (c', acts) ->
  open_calls (threads c')
  = open_calls (threads c) + Z.b2z (starts_increase ev)
    - Z.b2z (starts_decrease ev).
Proof.
  destruct ev as [|i|disc|dt| |i spurious]; cbn [step].
  - intros [= <- <-]. cbn. rewrite open_calls_app. cbn. lia.
  - destruct (threads c !! i) as [[[]| | |]|] eqn:Hlook; try discriminate.
    intros [= <- <-]. cbn. rewrite (open_calls_insert _ _ _ _ Hlook). cbn. lia.
  - intros [= <- <-]. cbn. rewrite open_calls_app. destruct disc; cbn; lia.
  - destruct (0 <=? dt); [|discriminate]. intros [= <- <-]. cbn. lia.
  - unfold grpc_timer_expire. destruct (idle_timer_ (chand c)); [|discriminate].
    destruct (_ <=? _); [|discriminate]. intros [= <- <-]. cbn.
    rewrite open_calls_app. cbn. lia.
  - destruct (threads c !! i) as [th|] eqn:Hlook; [|discriminate].
    destruct (thread_step spurious (clock c) (chand c) th)
      as [[[d' th'] a] sp] eqn:E.
    intros [= <- <-]. cbn.
    destruct (thread_step_open_call _ _ _ _ _ _ _ _ E) as [Ho Hsp].
    rewrite open_calls_app, (open_calls_insert _ _ _ _ Hlook), Ho, Hsp. lia.
Qed.

Lemma increases_cons ev evs :
  increases (ev :: evs) = Z.b2z (starts_increase ev) + increases evs.
Proof. unfold increases. cbn. destruct (starts_increase ev); cbn; lia. Qed.

Lemma decreases_cons ev evs :
  decreases (ev :: evs) = Z.b2z (starts_decrease ev) + decreases evs.
Proof. unfold decreases. cbn. destruct (starts_decrease ev); cbn; lia. Qed.

Lemma exec_open_calls c evs c' tr :
  exec c evs = Some (c', tr) ->
  open_calls (threads c')
  = open_calls (threads c) + increases evs - decreases evs.
Proof.
  revert c tr. induction evs as [|ev evs IH]; intros c tr; cbn [exec].
  - intros [= <- <-]. unfold increases, decreases. cbn. lia.
  - destruct (step c ev) as [[c1 a]|] eqn:Hstep; [|discriminate].
    destruct (exec c1 evs) as [[c2 tr2]|] eqn:Hexec; [|discriminate].
    intros [= <- <-]. rewrite (IH _ _ Hexec), (step_open_calls _ _ _ _ Hstep),
      increases_cons, decreases_cons. lia.
Qed.

(** When no call is in flight the threads counted in [call_count_] are the
    open calls. *)
Lemma quiescent_tally_counts l :
  Forall (fun th => in_IncreaseCallCount th = false /\
                    in_DecreaseCallCount th = false) l ->
  tally counts l = open_calls l.
Proof.
  induction 1 as [|th l [Hi Hd] _ IH]; cbn; [reflexivity|]. rewrite IH.
  f_equal. destruct th as [[| |s|]|[| | |s| |]|[[| |s|]|[]|[]]|pc];
    try discriminate; try reflexivity; try (destruct s; reflexivity).
  destruct pc; reflexivity.
Qed.

(** [fetch_add] and [fetch_sub] wrap around: whatever the execution,
    [call_count_] is the number of counted threads reduced to an
    [intptr_t]. *)
Lemma wrap_intptr_step z k : wrap_intptr (wrap_intptr z + k) = wrap_intptr (z + k).
Proof.
  unfold wrap_intptr.
  replace ((z - INTPTR_MIN) mod 2 ^ INTPTR_BITS + INTPTR_MIN + k - INTPTR_MIN)
    with ((z - INTPTR_MIN) mod 2 ^ INTPTR_BITS + k) by lia.
  replace (z + k - INTPTR_MIN) with (z - INTPTR_MIN + k) by lia.
  rewrite Zplus_mod_idemp_l. reflexivity.
Qed.

Lemma protocol_count cc st ra rb cc' st' S :
  protocol cc st ra rb cc' st' -> cc = wrap_intptr S ->
  cc' = wrap_intptr (S - Z.b2z (counts ra) + Z.b2z (counts rb)).
Proof.
  intros Hp ->.
  inversion Hp; subst; cbn [counts Z.b2z];
    try match goal with
        | |- context [match ?s with _ => _ end] => destruct s
        end;
    cbn [counts Z.b2z]; rewrite <- ?Z.add_opp_r, ?wrap_intptr_step;
    f_equal; lia.
Qed.

Lemma step_count_wrapped c ev c' acts :
  step c ev = Some (c', acts) ->
  call_count_ (chand c) = wrap_intptr (tally counts (threads c)) ->
  call_count_ (chand c') = wrap_intptr (tally counts (threads c')).
Proof.
  destruct c as [d clk l].
  destruct ev as [|i|disc|dt| |i spurious]; cbn [step chand clock threads].
  - intros [= <- <-] H. cbn. rewrite tally_app. cbn. rewrite Z.add_0_r. exact H.
  - destruct (l !! i) as [[[]| | |]|] eqn:Hlook; try discriminate.
    intros [= <- <-] H. cbn. rewrite (tally_insert _ _ _ _ _ Hlook). cbn.
    rewrite H. f_equal. lia.
  - intros [= <- <-] H. cbn. rewrite tally_app. destruct disc; cbn;
      rewrite Z.add_0_r; exact H.
  - destruct (0 <=? dt); [|discriminate]. intros [= <- <-] H. exact H.
  - unfold grpc_timer_expire. destruct (idle_timer_ d); [|discriminate].
    destruct (_ <=? _); [|discriminate]. intros [= <- <-] H. cbn.
    rewrite tally_app. cbn. rewrite Z.add_0_r. exact H.
  - destruct (l !! i) as [th|] eqn:Hlook; [|discriminate].
    destruct (thread_step spurious clk d th) as [[[d' th'] a] sp] eqn:E.
    intros [= <- <-] H. cbn.
    destruct (thread_step_protocol _ _ _ _ _ _ _ _ E) as [Hproto Hsp].
    rewrite tally_app, (tally_insert _ _ _ _ _ Hlook),
      (tally_neutral counts sp eq_refl Hsp), Z.add_0_r.
    exact (protocol_count _ _ _ _ _ _ _ Hproto H).
Qed.

Lemma exec_count_wrapped c evs c' tr :
  exec c evs = Some (c', tr) ->
  call_count_ (chand c) = wrap_intptr (tally counts (threads c)) ->
  call_count_ (chand c') = wrap_intptr (tally counts (threads c')).
Proof.
  revert c tr. induction evs as [|ev evs IH]; intros c tr; cbn [exec].
  - intros [= <- <-] H. exact H.
  - destruct (step c ev) as [[c1 a]|] eqn:Hstep; [|discriminate].
    destruct (exec c1 evs) as [[c2 tr2]|] eqn:Hexec; [|discriminate].
    intros [= <- <-] H. eapply IH; eauto using step_count_wrapped.
Qed.

Lemma open_calls_nonneg l : 0 <= open_calls l.
Proof.
  induction l as [|a l IH]; cbn; [lia|]. destruct (open_call a); cbn; lia.
Qed.

(** C5.  At every quiescent point of an execution (no call of
    [IncreaseCallCount] or [DecreaseCallCount] in flight), [call_count_] is
    the number of calls of [IncreaseCallCount] minus the number of calls of
    [DecreaseCallCount] made so far, starting from 0.  The counter is an
    [intptr_t]; the difference, which is the number of open calls, is taken
    to fit into it. *)
Theorem call_count_at_quiescence timeout evs c tr :
  exec (init timeout) evs = Some (c, tr) ->
  quiescent c ->
  increases evs - decreases evs <= INTPTR_MAX ->
  call_count_ (chand c) = increases evs - decreases evs.
Proof.
  intros Hexec Hq Hfit.
  pose proof (exec_count_wrapped _ _ _ _ Hexec eq_refl) as Hc.
  pose proof (exec_open_calls _ _ _ _ Hexec) as Ho. cbn in Ho.
  pose proof (open_calls_nonneg (threads c)).
  rewrite Hc, (quiescent_tally_counts _ Hq), Ho.
  apply wrap_intptr_small. unfold INTPTR_MIN, INTPTR_BITS. lia.
Qed.

Lemma call_count_at_quiescence_witness :
  exec (init 1000) (one_call_then_timeout 1000)
  = Some (after_one_call, trace_of_one_call) /\
  quiescent after_one_call /\
  call_count_ (chand after_one_call)
  = increases (one_call_then_timeout 1000)
    - decreases (one_call_then_timeout 1000).
Proof.
  assert (Hexec : exec (init 1000) (one_call_then_timeout 1000)
                  = Some (after_one_call, trace_of_one_call))
    by (vm_compute; reflexivity).
  assert (Hq : quiescent after_one_call) by (repeat constructor).
  split; [exact Hexec | split; [exact Hq|]].
  apply (call_count_at_quiescence 1000 (one_call_then_timeout 1000)
           after_one_call trace_of_one_call Hexec Hq).
  vm_compute. discriminate.
Defined.

(** ** When [EnterIdle] is sent *)

Lemma thread_step_enter_idle spurious now d th d' th' acts spawned :
  thread_step spurious now d th = (d', th', acts, spawned) ->
  In AEnterIdle acts -> th = TimerClosure TcEnterIdle.
Proof.
  intros Hstep Hin.
  destruct th as [[| |s|]|[| | |s| |]|[[| |s|]|disc|disc]|[c|s| | | | |]];
    cbn in Hstep; try destruct s; try destruct c;
    unfold compare_exchange_weak, grpc_timer_cancel in Hstep;
    repeat match type of Hstep with
           | context [if ?b then _ else _] => destruct b
           | context [match idle_timer_ ?x with _ => _ end] =>
               destruct (idle_timer_ x)
           end;
    injection Hstep as <- <- <- <-; cbn in Hin;
    repeat (destruct Hin as [Hin|Hin]; try discriminate Hin);
    try contradiction; reflexivity.
Qed.

Lemma step_enter_idle c ev c' acts :
  step c ev = Some (c', acts) -> In AEnterIdle acts ->
  exists i spurious,
    ev = EvStep i spurious /\
    threads c !! i = Some (TimerClosure TcEnterIdle).
Proof.
  destruct ev as [|i|disc|dt| |i spurious]; cbn [step].
  - intros [= <- <-] [].
  - destruct (threads c !! i) as [[[]| | |]|]; try discriminate.
    intros [= <- <-] [].
  - intros [= <- <-] [].
  - destruct (0 <=? dt); [|discriminate]. intros [= <- <-] [].
  - destruct (grpc_timer_expire _ _) as [[? ?]|]; [|discriminate].
    intros [= <- <-] [].
  - destruct (threads c !! i) as [th|] eqn:Hlook; [|discriminate].
    destruct (thread_step spurious (clock c) (chand c) th)
      as [[[d' th'] a] sp] eqn:E.
    intros [= <- <-] Hin. exists i, spurious. split; [reflexivity|].
    rewrite (thread_step_enter_idle _ _ _ _ _ _ _ _ E Hin) in Hlook. exact Hlook.
Qed.

Lemma tally_pos_lookup p (l : list thread) :
  1 <= tally p l -> exists i th, l !! i = Some th /\ p (role_of th) = true.
Proof.
  induction l as [|a l IH]; cbn; [lia|]. intros H.
  destruct (p (role_of a)) eqn:Ha.
  - exists 0%nat, a. auto.
  - destruct IH as (i & th & Hi & Hp); [cbn in H; lia|].
    exists (S i), th. auto.
Qed.

Lemma tally_lookup_le p (l : list thread) i th :
  l !! i = Some th -> p (role_of th) = true -> 1 <= tally p l.
Proof. intros H Hp. pose proof (tally_at p _ _ _ H). rewrite Hp in *. cbn in *. lia. Qed.

Lemma raises_role_of th : raises (role_of th) = raising_from_zero th.
Proof.
  destruct th as [[| |[]|]|[| | |[]| |]|[[| |[]|]|[]|[]]|[]]; reflexivity.
Qed.

(** At the step that sends [EnterIdle], [state_] is [PROCESSING], no
    [DecreaseCallCount] is between its decrement and its move of [state_],
    and either no thread has raised the counter from 0 without having moved
    [state_] yet, and then the counter is 0, or there is such a thread. *)
Lemma Inv_enter_idle c i :
  Inv c -> threads c !! i = Some (TimerClosure TcEnterIdle) ->
  state_ (chand c) = PROCESSING /\
  (call_count_ (chand c) = 0 \/ 1 <= tally raises (threads c)).
Proof.
  intros [Hc Hr Hl Hh Hld Hb Hsa Hsp Hp] Hlook.
  pose proof (tally_at holds _ _ _ Hlook) as Hh1. cbn in Hh1.
  assert (Hst : state_ (chand c) = PROCESSING) by (apply Hp; lia).
  split; [exact Hst|]. rewrite Hst in Hb. cbn in Hb.
  pose proof (tally_counts (threads c)).
  pose proof (tally_range raises (threads c)).
  pose proof (tally_range settles (threads c)).
  destruct (Z.eq_dec (tally raises (threads c)) 0) as [E|E]; [left|right; lia].
  destruct (Z.eq_dec (tally settles (threads c)) 0) as [E'|E']; [lia|].
  exfalso. assert (false = true); [|discriminate]. apply Hb. right. lia.
Qed.

(** C1, as stated in the specification, fails: in a reachable configuration
    the timer closure sends [EnterIdle] while [call_count_] is 1.  A second
    call has incremented the counter and waits for [state_] to leave
    [PROCESSING]. *)
Lemma enter_idle_with_nonzero_counter :
  exec (init 1000) enter_idle_race
  = Some (enter_idle_race_config,
          [AFetchAdd 0; ALoad IDLE; AStore CALLS_ACTIVE memory_order_relaxed;
           AFetchSub 1; ASetLastIdleTime 0; ALoad CALLS_ACTIVE;
           ATimerInit 1000; AStore TIMER_PENDING memory_order_release;
           ALoad TIMER_PENDING;
           ACasOk TIMER_PENDING PROCESSING memory_order_acquire;
           AFetchAdd 0]) /\
  step enter_idle_race_config (EvStep 1 false)
  = Some (mkConfig (mkChannelData 1000 0 1 PROCESSING None) 1000
            [CallDestroy DecRet; TimerClosure TcStoreIdle; CallInit IncLoad],
          [AEnterIdle]) /\
  call_count_ (chand enter_idle_race_config) = 1.
Proof. split; [|split]; vm_compute; reflexivity. Qed.

(** While [state_] is [PROCESSING], a thread that raised the counter from 0
    and has not read [IDLE] stays inside [IncreaseCallCount] and writes
    nothing. *)
Lemma raising_blocked spurious now d th :
  state_ d = PROCESSING -> raises (role_of th) = true ->
  stores_active (role_of th) = false ->
  exists th' acts,
    thread_step spurious now d th = (d, th', acts, []) /\
    raising_from_zero th' = true.
Proof.
  intros Hst Hr Hsa.
  destruct th as [[| |s|]|[| | |s| |]|[[| |s|]|[]|[]]|[]]; try discriminate;
    try destruct s; try discriminate;
    cbn [thread_step IncreaseCallCount];
    rewrite ?compare_exchange_weak_failure by (rewrite Hst; discriminate);
    eexists _, _; split; try reflexivity; rewrite Hst; reflexivity.
Qed.

(** *** Executions without overtaking *)

Lemma existsb_raising l :
  existsb raising_from_zero l = true <-> 1 <= tally raises l.
Proof.
  induction l as [|th l IH]; cbn; [split; [discriminate | lia]|].
  rewrite raises_role_of. pose proof (tally_range raises l).
  destruct (raising_from_zero th); cbn; [split; [lia | reflexivity]|].
  rewrite IH. reflexivity.
Qed.

(** A thread begins to be counted in [call_count_] only at its
    [fetch_add]. *)
Lemma thread_step_counted spurious now d th d' th' acts spawned :
  thread_step spurious now d th = (d', th', acts, spawned) ->
  counts (role_of th) = false -> counts (role_of th') = true ->
  at_fetch_add th = true.
Proof.
  intros Hstep.
  destruct th as [[| |s|]|[| | |s| |]|[[| |s|]|disc|disc]|[c|s| | | | |]];
    cbn in Hstep; try destruct s; try destruct c; try destruct disc;
    unfold compare_exchange_weak, grpc_timer_cancel in Hstep;
    repeat match type of Hstep with
           | context [if ?b then _ else _] => destruct b
           | context [match idle_timer_ ?x with _ => _ end] =>
               destruct (idle_timer_ x)
           | context [match state_ ?x with _ => _ end] =>
               destruct (state_ x)
           end;
    injection Hstep as <- <- <- <-; cbn;
    repeat match goal with
           | |- context [match ?s with _ => _ end] => destruct s
           end;
    cbn; intros; congruence.
Qed.

Lemma alone_when_raising_app d d' clk clk' (l sp : list thread) :
  Forall (fun th => role_of th = Neutral) sp ->
  alone_when_raising (mkConfig d clk l) ->
  alone_when_raising (mkConfig d' clk' (l ++ sp)).
Proof.
  unfold alone_when_raising. cbn [threads]. intros Hsp H.
  rewrite !tally_app, !(tally_neutral _ sp eq_refl Hsp), !Z.add_0_r.
  exact H.
Qed.

(** How a thread comes to raise, and how it comes to be settled. *)
Lemma protocol_roles cc st ra rb cc' st' :
  protocol cc st ra rb cc' st' ->
  (raises rb = true -> raises ra = false -> ra = Neutral /\ cc = 0) /\
  (settles rb = true -> settles ra = false ->
   raises ra = true \/ (ra = Neutral /\ cc <> 0)).
Proof.
  intros Hp. inversion Hp; subst;
    try match goal with
        | |- context [match ?s with _ => _ end] => destruct s
        end;
    cbn; split; intros; try discriminate; try congruence; auto.
Qed.

Lemma step_alone_when_raising c ev c' acts :
  step c ev = Some (c', acts) ->
  overtakes c ev = false ->
  Inv c -> alone_when_raising c -> alone_when_raising c'.
Proof.
  destruct c as [d clk l].
  destruct ev as [|i|disc|dt| |i spurious];
    cbn [step overtakes chand clock threads].
  - intros [= <- <-] _ _. apply alone_when_raising_app. repeat constructor.
  - destruct (l !! i) as [[[]| | |]|] eqn:Hlook; try discriminate.
    intros [= <- <-] _ _ H. unfold alone_when_raising in *. cbn [threads] in *.
    rewrite !(tally_insert _ _ _ _ _ Hlook). cbn. rewrite !Z.sub_0_r, !Z.add_0_r.
    intros Hr. specialize (H Hr). lia.
  - intros [= <- <-] _ _. apply alone_when_raising_app.
    destruct disc; repeat constructor.
  - destruct (0 <=? dt); [|discriminate]. intros [= <- <-] _ _ H. exact H.
  - unfold grpc_timer_expire. destruct (idle_timer_ d); [|discriminate].
    destruct (_ <=? _); [|discriminate]. intros [= <- <-] _ _.
    apply alone_when_raising_app. repeat constructor.
  - destruct (l !! i) as [th|] eqn:Hlook; [|discriminate].
    destruct (thread_step spurious clk d th) as [[[d' th'] a] sp] eqn:E.
    intros [= <- <-] Hno HI H.
    destruct (thread_step_protocol _ _ _ _ _ _ _ _ E) as [Hproto Hsp].
    destruct (protocol_roles _ _ _ _ _ _ Hproto) as [F2 F1].
    pose proof (thread_step_counted _ _ _ _ _ _ _ _ E) as Hfetch.
    pose proof (inv_count _ HI) as Hc. pose proof (inv_raising _ HI) as Hr1.
    cbn [chand threads] in Hc, Hr1.
    pose proof (tally_counts l) as Hsum.
    pose proof (tally_range raises l) as Hrr.
    pose proof (tally_range settles l) as Hrs.
    pose proof (tally_at raises _ _ _ Hlook) as Har.
    pose proof (tally_at settles _ _ _ Hlook) as Has.
    unfold alone_when_raising in *. cbn [threads] in *.
    rewrite !tally_app, !(tally_insert _ _ _ _ _ Hlook),
      !(tally_neutral _ sp eq_refl Hsp), !Z.add_0_r.
    destruct (raises (role_of th')) eqn:Hrb.
    + assert (Hsb : settles (role_of th') = false)
        by (destruct (role_of th'); try discriminate; reflexivity).
      rewrite Hsb.
      destruct (raises (role_of th)) eqn:Hra.
      * assert (Hsa : settles (role_of th) = false)
          by (destruct (role_of th); try discriminate; reflexivity).
        rewrite Hsa. cbn. intros Hr. specialize (H ltac:(lia)). lia.
      * destruct (F2 eq_refl eq_refl) as [Hn Hz]. rewrite Hn. cbn.
        intros _. lia.
    + destruct (raises (role_of th)) eqn:Hra; cbn in *; [intros; lia|].
      intros Hr. rewrite Z.sub_0_r, Z.add_0_r in Hr. specialize (H Hr).
      assert (Hsa : settles (role_of th) = false).
      { destruct (settles (role_of th)); [cbn in Has; lia | reflexivity]. }
      rewrite Hsa in *. destruct (settles (role_of th')) eqn:Hsb; [|cbn; lia].
      exfalso. destruct (F1 eq_refl eq_refl) as [Hx|[Hn Hnz]];
        [discriminate|].
      assert (Hat : at_fetch_add th = true).
      { apply Hfetch; [rewrite Hn; reflexivity|].
        destruct (role_of th'); try discriminate; reflexivity. }
      rewrite Hat in Hno. cbn in Hno.
      apply andb_false_iff in Hno as [Hno|Hno].
      * apply negb_false_iff, Z.eqb_eq in Hno. contradiction.
      * assert (existsb raising_from_zero l = true)
          by (apply existsb_raising; exact Hr).
        congruence.
Qed.

Lemma exec_alone_when_raising c evs c' tr :
  exec c evs = Some (c', tr) ->
  no_overtaking c evs = true ->
  Z.of_nat (length (threads c')) <= INTPTR_MAX ->
  Inv c -> alone_when_raising c -> alone_when_raising c'.
Proof.
  revert c tr. induction evs as [|ev evs IH]; intros c tr;
    cbn [exec no_overtaking].
  - intros [= <- <-] _ _ _ H. exact H.
  - destruct (step c ev) as [[c1 a]|] eqn:Hstep; [|discriminate].
    destruct (exec c1 evs) as [[c2 tr2]|] eqn:Hexec; [|discriminate].
    intros [= <- <-] Hno Hlen HI H.
    apply andb_true_iff in Hno as [Hno1 Hno2].
    apply negb_true_iff in Hno1.
    pose proof (exec_length _ _ _ _ Hexec) as Hmono.
    eapply IH; eauto.
    + eapply step_preserves; eauto. lia.
    + eapply step_alone_when_raising; eauto.
Qed.

(** C1, amended.  In every interleaving (of at most [INTPTR_MAX] events) in
    which no increment overtakes, the step that sends [EnterIdle] is taken
    while [state_] is [PROCESSING] and no call is live; at that moment
    [call_count_] is 0, or it is 1 and the call counted is the thread that
    raised it from 0 and is still inside [IncreaseCallCount]: the next step
    of that thread leaves it there and changes nothing. *)
Theorem enter_idle_only_in_processing timeout evs c tr ev c' acts :
  exec (init timeout) evs = Some (c, tr) ->
  Z.of_nat (length evs) <= INTPTR_MAX ->
  no_overtaking (init timeout) evs = true ->
  step c ev = Some (c', acts) ->
  In AEnterIdle acts ->
  state_ (chand c) = PROCESSING /\
  (forall i th, threads c !! i = Some th -> live_call th = false) /\
  (call_count_ (chand c) = 0 \/
   (call_count_ (chand c) = 1 /\
    exists i th,
      threads c !! i = Some th /\ raising_from_zero th = true /\
      forall spurious, exists th' acts',
        thread_step spurious (clock c) (chand c) th
        = (chand c, th', acts', []) /\
        raising_from_zero th' = true)).
Proof.
  intros Hexec Hlen Hno Hstep Hin.
  pose proof (reachable_Inv _ _ _ _ Hexec Hlen) as HI.
  assert (HA : alone_when_raising c).
  { pose proof (exec_length _ _ _ _ Hexec) as Hl. cbn in Hl.
    eapply exec_alone_when_raising; eauto using Inv_init; [lia|].
    intros H. cbn in H. lia. }
  destruct (step_enter_idle _ _ _ _ Hstep Hin) as (i & sp & _ & Hlook).
  destruct (Inv_enter_idle c i HI Hlook) as [Hst Hcases].
  pose proof (inv_count _ HI) as Hc. pose proof (inv_raising _ HI) as Hr1.
  pose proof (tally_counts (threads c)) as Hsum.
  assert (Hs0 : tally settles (threads c) = 0).
  { destruct Hcases as [Hz|Hr]; [|exact (HA Hr)].
    pose proof (tally_range raises (threads c)).
    pose proof (tally_range settles (threads c)). lia. }
  split; [exact Hst|]. split.
  - intros j th Hj. destruct th as [[]| | |]; try reflexivity.
    pose proof (tally_at settles _ _ _ Hj) as Hat. cbn in Hat. lia.
  - destruct Hcases as [Hz|Hr]; [left; exact Hz|]. right.
    split; [lia|].
    destruct (tally_pos_lookup _ _ Hr) as (j & th & Hj & Hth).
    exists j, th. rewrite <- raises_role_of. repeat split; auto.
    intros spurious. apply raising_blocked; auto.
    destruct (stores_active (role_of th)) eqn:E; [|reflexivity].
    pose proof (inv_store_active _ HI (tally_lookup_le _ _ _ _ Hj E)) as Hidle.
    rewrite Hst in Hidle. discriminate.
Qed.

Lemma enter_idle_only_in_processing_witness :
  state_ (chand enter_idle_race_config) = PROCESSING /\
  (forall i th, threads enter_idle_race_config !! i = Some th ->
                live_call th = false) /\
  (call_count_ (chand enter_idle_race_config) = 0 \/
   (call_count_ (chand enter_idle_race_config) = 1 /\
    exists i th,
      threads enter_idle_race_config !! i = Some th /\
      raising_from_zero th = true /\
      forall spurious, exists th' acts',
        thread_step spurious (clock enter_idle_race_config)
          (chand enter_idle_race_config) th
        = (chand enter_idle_race_config, th', acts', []) /\
        raising_from_zero th' = true)).
Proof.
  apply (enter_idle_only_in_processing 1000 enter_idle_race
           enter_idle_race_config
           [AFetchAdd 0; ALoad IDLE; AStore CALLS_ACTIVE memory_order_relaxed;
            AFetchSub 1; ASetLastIdleTime 0; ALoad CALLS_ACTIVE;
            ATimerInit 1000; AStore TIMER_PENDING memory_order_release;
            ALoad TIMER_PENDING;
            ACasOk TIMER_PENDING PROCESSING memory_order_acquire;
            AFetchAdd 0]
           (EvStep 1 false)
           (mkConfig (mkChannelData 1000 0 1 PROCESSING None) 1000
              [CallDestroy DecRet; TimerClosure TcStoreIdle; CallInit IncLoad])
           [AEnterIdle]).
  - vm_compute. reflexivity.
  - vm_compute. discriminate.
  - vm_compute. reflexivity.
  - vm_compute. reflexivity.
  - simpl. auto.
Defined.

(** What the amended C1 leaves out: when an increment overtakes, [EnterIdle]
    is sent while a call is live.  The third call has returned from
    [IncreaseCallCount] on the previous value 1 although the second one, which
    raised the counter from 0, is still waiting for [state_] to leave
    [PROCESSING]. *)
Lemma enter_idle_with_live_call :
  fst <$> exec (init 1000) overtaking_race = Some overtaking_race_config /\
  no_overtaking (init 1000) overtaking_race = false /\
  threads overtaking_race_config !! 3%nat = Some (CallInit IncRet) /\
  step overtaking_race_config (EvStep 1 false)
  = Some (mkConfig (mkChannelData 1000 0 2 PROCESSING None) 1000
            [CallDestroy DecRet; TimerClosure TcStoreIdle; CallInit IncLoad;
             CallInit IncRet],
          [AEnterIdle]).
Proof. repeat split; vm_compute; reflexivity. Qed.

(** ** Disconnect *)

Lemma tally_zero p (l : list thread) :
  (forall i th, l !! i = Some th -> p (role_of th) = false) -> tally p l = 0.
Proof.
  induction l as [|a l IH]; intros H; cbn; [reflexivity|].
  rewrite (H 0%nat a eq_refl), IH; [reflexivity|].
  intros i th Hi. exact (H (S i) th Hi).
Qed.

(** Where disconnecting does park the tracker: once a disconnecting transport
    op has finished and no thread that raised the counter from 0 is still
    inside [IncreaseCallCount], [state_] is [CALLS_ACTIVE] or
    [TIMER_PENDING_CALLS_ACTIVE], and the next step does not send
    [EnterIdle]. *)
Lemma disconnect_parks timeout evs c tr j th :
  exec (init timeout) evs = Some (c, tr) ->
  Z.of_nat (length evs) <= INTPTR_MAX ->
  threads c !! j = Some th -> disconnected th = true ->
  (forall i th', threads c !! i = Some th' -> raising_from_zero th' = false) ->
  (state_ (chand c) = CALLS_ACTIVE \/
   state_ (chand c) = TIMER_PENDING_CALLS_ACTIVE) /\
  forall ev c' acts, step c ev = Some (c', acts) -> ~ In AEnterIdle acts.
Proof.
  intros Hexec Hlen Hj Hdisc Hnone.
  pose proof (reachable_Inv _ _ _ _ Hexec Hlen) as HI.
  assert (Hs : 1 <= tally settles (threads c)).
  { apply (tally_lookup_le _ _ _ _ Hj).
    destruct th as [| |[|[]|[]]|]; try discriminate; reflexivity. }
  assert (Hr : tally raises (threads c) = 0).
  { apply tally_zero. intros i th' Hi. rewrite raises_role_of. eauto. }
  assert (Hbusy : busy_state (state_ (chand c)) = true).
  { apply (inv_busy _ HI). right. auto. }
  split.
  - destruct (state_ (chand c)); try discriminate; auto.
  - intros ev c' acts Hstep Hin.
    destruct (step_enter_idle _ _ _ _ Hstep Hin) as (i & sp & _ & Hlook).
    destruct (Inv_enter_idle c i HI Hlook) as [Hst _].
    rewrite Hst in Hbusy. discriminate.
Qed.

(** C6 on the failing schedule.  A disconnecting transport op runs to
    completion while another call has incremented the counter from 0 and has
    not yet moved [state_], after the timer has fired.  The disconnect leaves
    [state_] at [TIMER_PENDING], and the timer closure then sends
    [EnterIdle], although no [DecreaseCallCount] follows the disconnect. *)
Theorem disconnect_race_enters_idle :
  exec (init 1000) disconnect_race_prefix
  = Some (after_disconnect_race,
          [AFetchAdd 0; ALoad IDLE; AStore CALLS_ACTIVE memory_order_relaxed;
           AFetchSub 1; ASetLastIdleTime 0; ALoad CALLS_ACTIVE;
           ATimerInit 1000; AStore TIMER_PENDING memory_order_release;
           AFetchAdd 0; AFetchAdd 1; ATimerCancel false; ANextOp true]) /\
  threads after_disconnect_race !! 3%nat = Some (TransportOp (TopRet true)) /\
  state_ (chand after_disconnect_race) = TIMER_PENDING /\
  exec after_disconnect_race disconnect_race_suffix
  = Some (mkConfig (mkChannelData 1000 0 2 PROCESSING None) 1000
            [CallDestroy DecRet; TimerClosure TcStoreIdle; CallInit IncLoad;
             TransportOp (TopRet true)],
          [ALoad TIMER_PENDING;
           ACasOk TIMER_PENDING PROCESSING memory_order_acquire;
           AEnterIdle]) /\
  decreases disconnect_race_suffix = 0.
Proof. repeat split; vm_compute; reflexivity. Qed.

(** ** The three functions run alone *)

Lemma run_alone_app f1 f2 now d th :
  run_alone (f1 ++ f2) now d th =
  let '(d1, th1, tr1) := run_alone f1 now d th in
  let '(d2, th2, tr2) := run_alone f2 now d1 th1 in
  (d2, th2, tr1 ++ tr2).
Proof.
  revert d th. induction f1 as [|b f1 IH]; intros d th; cbn [run_alone app].
  - destruct (run_alone f2 now d th) as [[d2 th2] tr2]. reflexivity.
  - destruct (thread_step b now d th) as [[[d1 th1] a1] sp].
    rewrite IH. destruct (run_alone f1 now d1 th1) as [[d2 th2] tr2].
    destruct (run_alone f2 now d2 th2) as [[d3 th3] tr3].
    rewrite app_assoc. reflexivity.
Qed.

Lemma effects_app tr1 tr2 : effects (tr1 ++ tr2) = effects tr1 ++ effects tr2.
Proof. unfold effects. apply List.filter_app. Qed.

Lemma effects_cons a tr :
  effects (a :: tr) = if is_effect a then a :: effects tr else effects tr.
Proof. reflexivity. Qed.

(** Spurious failures change nothing and have no effect. *)
Lemma run_alone_spurious k now d th :
  at_cas d th ->
  exists tr, run_alone (repeat true k) now d th = (d, th, tr) /\
             effects tr = [].
Proof.
  intros Hcas. induction k as [|k (tr & IH & Heff)]; cbn [repeat run_alone].
  - exists []. auto.
  - assert (Hstep : exists a, thread_step true now d th = (d, th, [a], []) /\
                              is_effect a = false).
    { destruct d as [tmo lit cc st tm].
      destruct th as [[| |s|]|[| | |s| |]|[[| |s|]|?|?]|[?|s| | | | |]];
        cbn in Hcas; try contradiction; destruct Hcas as [-> Hs];
        repeat match goal with H : _ \/ _ |- _ => destruct H as [H|H] end;
        subst st; cbn; eexists; split; reflexivity. }
    destruct Hstep as (a & -> & Ha). rewrite IH.
    exists (a :: tr). split; [reflexivity|].
    unfold effects in *. cbn. rewrite Ha. exact Heff.
Qed.

Lemma run_alone_cas_attempts k rest now d th :
  at_cas d th ->
  exists tr,
    run_alone (cas_attempts k ++ rest) now d th
    = (let '(d1, th1, a1, _) := thread_step false now d th in
       let '(d2, th2, tr2) := run_alone rest now d1 th1 in
       (d2, th2, tr ++ a1 ++ tr2)) /\
    effects tr = [].
Proof.
  intros Hcas. destruct (run_alone_spurious k now d th Hcas) as (tr & Hrun & Heff).
  exists tr. split; [|exact Heff].
  unfold cas_attempts. rewrite <- app_assoc, run_alone_app, Hrun.
  cbn [app run_alone].
  destruct (thread_step false now d th) as [[[d1 th1] a1] sp].
  destruct (run_alone rest now d1 th1) as [[d2 th2] tr2]. reflexivity.
Qed.

(** ** [IdleTimerCallback] *)

(** C2.  The timer closure run alone.  Fired without error, from
    [TIMER_PENDING] it exchanges [state_] for [PROCESSING], sends one
    [EnterIdle] and stores [IDLE]; from
    [TIMER_PENDING_CALLS_SEEN_SINCE_TIMER_START] it exchanges [state_] for
    [PROCESSING], arms the timer for [last_idle_time_ + client_idle_timeout_]
    (a sum of [grpc_millis], that is of 64 bits) and stores [TIMER_PENDING]; from [TIMER_PENDING_CALLS_ACTIVE] it
    exchanges [state_] for [CALLS_ACTIVE] and does nothing else.  This holds
    for any number [k] of spurious failures of the weak compare-exchange.
    Fired with a cancellation error it changes nothing and does nothing. *)
Theorem IdleTimerCallback_alone now d k b0 b1 b2 :
  (state_ d = TIMER_PENDING ->
   let '(d', th', tr) :=
     run_alone (b0 :: cas_attempts k ++ [b1; b2]) now d
       (TimerClosure (TcEntry false)) in
   d' = set_state IDLE d /\ th' = TimerClosure TcRet /\
   effects tr = [ACasOk TIMER_PENDING PROCESSING memory_order_acquire;
                 AEnterIdle; AStore IDLE memory_order_relaxed]) /\
  (state_ d = TIMER_PENDING_CALLS_SEEN_SINCE_TIMER_START ->
   let deadline := wrap_int64 (last_idle_time_ d + client_idle_timeout_ d) in
   let '(d', th', tr) :=
     run_alone (b0 :: cas_attempts k ++ [b1; b2]) now d
       (TimerClosure (TcEntry false)) in
   d' = set_state TIMER_PENDING (set_idle_timer (Some deadline) d) /\
   th' = TimerClosure TcRet /\
   effects tr = [ACasOk TIMER_PENDING_CALLS_SEEN_SINCE_TIMER_START PROCESSING
                   memory_order_acquire;
                 ATimerInit deadline;
                 AStore TIMER_PENDING memory_order_relaxed]) /\
  (state_ d = TIMER_PENDING_CALLS_ACTIVE ->
   let '(d', th', tr) :=
     run_alone (b0 :: cas_attempts k) now d (TimerClosure (TcEntry false)) in
   d' = set_state CALLS_ACTIVE d /\ th' = TimerClosure TcRet /\
   effects tr = [ACasOk TIMER_PENDING_CALLS_ACTIVE CALLS_ACTIVE
                   memory_order_relaxed]) /\
  (forall flags,
     let '(d', th', tr) :=
       run_alone flags now d (TimerClosure (TcEntry true)) in
     d' = d /\ tr = []).
Proof.
  assert (Hdone : forall flags d0,
             run_alone flags now d0 (TimerClosure TcRet)
             = (d0, TimerClosure TcRet, [])).
  { induction flags as [|b flags IH]; intros d0; cbn; [reflexivity|].
    rewrite IH. reflexivity. }
  repeat split.
  - intros Hst. cbn [run_alone thread_step IdleTimerCallback].
    destruct (run_alone_cas_attempts k [b1; b2] now d
                (TimerClosure (TcSwitch (state_ d))))
      as (tr & -> & Heff); [cbn; auto|].
    destruct d as [tmo lit cc st tm]; cbn in Hst; subst st. cbn -[effects].
    rewrite compare_exchange_weak_success by reflexivity. cbn -[effects].
    rewrite effects_cons, effects_app, Heff. auto.
  - intros Hst. cbn [run_alone thread_step IdleTimerCallback].
    destruct (run_alone_cas_attempts k [b1; b2] now d
                (TimerClosure (TcSwitch (state_ d))))
      as (tr & -> & Heff); [cbn; auto|].
    destruct d as [tmo lit cc st tm]; cbn in Hst; subst st. cbn -[effects].
    rewrite compare_exchange_weak_success by reflexivity. cbn -[effects].
    rewrite effects_cons, effects_app, Heff. auto.
  - intros Hst. cbn [run_alone thread_step IdleTimerCallback].
    pose proof (run_alone_cas_attempts k [] now d
                (TimerClosure (TcSwitch (state_ d)))) as Hrun.
    rewrite app_nil_r in Hrun.
    destruct Hrun as (tr & -> & Heff); [cbn; auto|].
    destruct d as [tmo lit cc st tm]; cbn in Hst; subst st. cbn -[effects].
    rewrite compare_exchange_weak_success by reflexivity. cbn -[effects].
    rewrite effects_cons, effects_app, Heff. auto.
  - intros [|b flags]; cbn; [auto|]. rewrite Hdone. auto.
Qed.

Lemma IdleTimerCallback_alone_witness :
  let '(d', th', tr) :=
    run_alone (false :: cas_attempts 2 ++ [false; false]) 0
      (mkChannelData 1000 5 0 TIMER_PENDING None)
      (TimerClosure (TcEntry false)) in
  d' = set_state IDLE (mkChannelData 1000 5 0 TIMER_PENDING None) /\
  th' = TimerClosure TcRet /\
  effects tr = [ACasOk TIMER_PENDING PROCESSING memory_order_acquire;
                AEnterIdle; AStore IDLE memory_order_relaxed].
Proof.
  exact (proj1 (IdleTimerCallback_alone 0
                  (mkChannelData 1000 5 0 TIMER_PENDING None)
                  2 false false false) eq_refl).
Defined.

(** ** [IncreaseCallCount] and [DecreaseCallCount] *)

Lemma run_alone_CallInit_ret flags now d :
  run_alone flags now d (CallInit IncRet) = (d, CallInit IncRet, []).
Proof. induction flags as [|b flags IH]; cbn; [|rewrite IH]; reflexivity. Qed.

Lemma run_alone_CallDestroy_ret flags now d :
  run_alone flags now d (CallDestroy DecRet) = (d, CallDestroy DecRet, []).
Proof. induction flags as [|b flags IH]; cbn; [|rewrite IH]; reflexivity. Qed.

(** While [state_] is none of the values that [IncreaseCallCount] acts on,
    the thread only reloads it. *)
Lemma IncreaseCallCount_spins flags now d pc :
  state_ d <> IDLE -> state_ d <> TIMER_PENDING ->
  state_ d <> TIMER_PENDING_CALLS_SEEN_SINCE_TIMER_START ->
  pc = IncLoad \/ pc = IncSwitch (state_ d) ->
  exists pc' tr,
    run_alone flags now d (CallInit pc) = (d, CallInit pc', tr) /\
    (pc' = IncLoad \/ pc' = IncSwitch (state_ d)) /\ effects tr = [].
Proof.
  intros H1 H2 H3. revert pc.
  induction flags as [|b flags IH]; intros pc Hpc; cbn [run_alone].
  - exists pc, []. auto.
  - assert (Hstep : thread_step b now d (CallInit pc)
                    = (d, CallInit (IncSwitch (state_ d)),
                       [ALoad (state_ d)], [])).
    { destruct Hpc as [-> | ->]; [reflexivity|].
      cbn. destruct (state_ d); try reflexivity; congruence. }
    rewrite Hstep. destruct (IH (IncSwitch (state_ d))) as (pc' & tr & -> & Hpc' & Heff);
      [auto|]. exists pc', (ALoad (state_ d) :: tr). auto.
Qed.

Lemma DecreaseCallCount_spins flags now d pc :
  state_ d <> CALLS_ACTIVE -> state_ d <> TIMER_PENDING_CALLS_ACTIVE ->
  pc = DecLoad \/ pc = DecSwitch (state_ d) ->
  exists pc' tr,
    run_alone flags now d (CallDestroy pc) = (d, CallDestroy pc', tr) /\
    (pc' = DecLoad \/ pc' = DecSwitch (state_ d)) /\ effects tr = [].
Proof.
  intros H1 H2. revert pc.
  induction flags as [|b flags IH]; intros pc Hpc; cbn [run_alone].
  - exists pc, []. auto.
  - assert (Hstep : thread_step b now d (CallDestroy pc)
                    = (d, CallDestroy (DecSwitch (state_ d)),
                       [ALoad (state_ d)], [])).
    { destruct Hpc as [-> | ->]; [reflexivity|].
      cbn. destruct (state_ d); try reflexivity; congruence. }
    rewrite Hstep. destruct (IH (DecSwitch (state_ d))) as (pc' & tr & -> & Hpc' & Heff);
      [auto|]. exists pc', (ALoad (state_ d) :: tr). auto.
Qed.

(** C4.  [IncreaseCallCount] run alone, when its increment sees the previous
    value 0.  From [IDLE] it stores [CALLS_ACTIVE] (a store, not an
    exchange); from [TIMER_PENDING] and from
    [TIMER_PENDING_CALLS_SEEN_SINCE_TIMER_START] it exchanges [state_] for
    [TIMER_PENDING_CALLS_ACTIVE] with acquire ordering on success, after any
    number [k] of spurious failures; while [state_] is [PROCESSING] it stays
    inside the function, reloading [state_] and writing nothing; and once
    [state_] has become one of the three values above, the waiting thread
    makes the transition. *)
Theorem IncreaseCallCount_alone now d k b0 b1 b2 :
  call_count_ d = 0 ->
  (state_ d = IDLE ->
   run_alone [b0; b1; b2] now d (CallInit IncFetch)
   = (set_state CALLS_ACTIVE (set_call_count 1 d), CallInit IncRet,
      [AFetchAdd 0; ALoad IDLE; AStore CALLS_ACTIVE memory_order_relaxed])) /\
  (state_ d = TIMER_PENDING \/
   state_ d = TIMER_PENDING_CALLS_SEEN_SINCE_TIMER_START ->
   let '(d', th', tr) :=
     run_alone (b0 :: b1 :: cas_attempts k) now d (CallInit IncFetch) in
   d' = set_state TIMER_PENDING_CALLS_ACTIVE (set_call_count 1 d) /\
   th' = CallInit IncRet /\
   effects tr = [AFetchAdd 0;
                 ACasOk (state_ d) TIMER_PENDING_CALLS_ACTIVE
                   memory_order_acquire]) /\
  (state_ d = PROCESSING ->
   forall flags,
     let '(d', th', tr) :=
       run_alone (b0 :: flags) now d (CallInit IncFetch) in
     d' = set_call_count 1 d /\ in_IncreaseCallCount th' = true /\
     effects tr = [AFetchAdd 0]) /\
  (forall d1 : ChannelData,
     (state_ d1 = IDLE ->
      run_alone [b0; b1] now d1 (CallInit (IncSwitch PROCESSING))
      = (set_state CALLS_ACTIVE d1, CallInit IncRet,
         [ALoad IDLE; AStore CALLS_ACTIVE memory_order_relaxed])) /\
     (state_ d1 = TIMER_PENDING \/
      state_ d1 = TIMER_PENDING_CALLS_SEEN_SINCE_TIMER_START ->
      let '(d', th', tr) :=
        run_alone (b0 :: cas_attempts k) now d1
          (CallInit (IncSwitch PROCESSING)) in
      d' = set_state TIMER_PENDING_CALLS_ACTIVE d1 /\
      th' = CallInit IncRet /\
      effects tr = [ACasOk (state_ d1) TIMER_PENDING_CALLS_ACTIVE
                      memory_order_acquire])).
Proof.
  intros Hcc.
  assert (Hfetch : forall b, thread_step b now d (CallInit IncFetch)
                   = (set_call_count 1 d, CallInit IncLoad, [AFetchAdd 0], [])).
  { intros b. cbn. rewrite Hcc. reflexivity. }
  assert (Hcas : forall d0 : ChannelData,
            state_ d0 = TIMER_PENDING \/
            state_ d0 = TIMER_PENDING_CALLS_SEEN_SINCE_TIMER_START ->
            exists tr,
              run_alone (cas_attempts k) now d0 (CallInit (IncSwitch (state_ d0)))
              = (set_state TIMER_PENDING_CALLS_ACTIVE d0, CallInit IncRet,
                 tr ++ [ACasOk (state_ d0) TIMER_PENDING_CALLS_ACTIVE
                          memory_order_acquire]) /\
              effects tr = []).
  { intros d0 Hst.
    pose proof (run_alone_cas_attempts k [] now d0
                  (CallInit (IncSwitch (state_ d0)))) as Hrun.
    rewrite app_nil_r in Hrun.
    destruct Hrun as (tr & -> & Heff); [cbn; auto|]. exists tr.
    split; [|exact Heff]. cbn [thread_step IncreaseCallCount run_alone].
    destruct Hst as [E|E]; rewrite E;
      rewrite compare_exchange_weak_success by exact E; reflexivity. }
  repeat split.
  - intros Hst. cbn [run_alone]. rewrite Hfetch.
    cbn [run_alone thread_step IncreaseCallCount state_ set_call_count].
    rewrite Hst. reflexivity.
  - intros Hst. cbn [run_alone]. rewrite Hfetch.
    cbn [run_alone thread_step IncreaseCallCount].
    destruct (Hcas (set_call_count 1 d) Hst) as (tr & -> & Heff).
    rewrite !effects_app, Heff. cbn. auto.
  - intros Hst flags. cbn [run_alone]. rewrite Hfetch.
    destruct (IncreaseCallCount_spins flags now (set_call_count 1 d) IncLoad)
      as (pc' & tr & -> & Hpc' & Heff); cbn [state_ set_call_count];
      try congruence; auto.
    rewrite effects_app, Heff.
    repeat split. destruct Hpc' as [-> | ->]; reflexivity.
  - intros Hst. cbn [run_alone thread_step IncreaseCallCount]. rewrite Hst.
    reflexivity.
  - intros Hst. cbn [run_alone thread_step IncreaseCallCount].
    destruct (Hcas d1 Hst) as (tr & -> & Heff).
    rewrite !effects_app, Heff. cbn. auto.
Qed.

Lemma IncreaseCallCount_alone_witness :
  run_alone [false; false; false] 0 (mkChannelData 1000 0 0 IDLE None)
    (CallInit IncFetch)
  = (mkChannelData 1000 0 1 CALLS_ACTIVE None, CallInit IncRet,
     [AFetchAdd 0; ALoad IDLE; AStore CALLS_ACTIVE memory_order_relaxed]).
Proof.
  exact (proj1 (IncreaseCallCount_alone 0 (mkChannelData 1000 0 0 IDLE None)
                  0 false false false eq_refl) eq_refl).
Defined.

(** C3.  [DecreaseCallCount] run alone.  When its decrement sees the previous
    value 1 it first writes [last_idle_time_ = Now()]; then from
    [CALLS_ACTIVE] it arms the timer for [now + client_idle_timeout_] (a
    sum of [grpc_millis], that is of 64 bits) and
    after that stores [TIMER_PENDING] with release ordering; from
    [TIMER_PENDING_CALLS_ACTIVE] it exchanges [state_] for
    [TIMER_PENDING_CALLS_SEEN_SINCE_TIMER_START] with release ordering, after
    any number [k] of spurious failures; in any other state it stays inside
    the function, reloading [state_] and writing nothing more.  When the
    decrement sees another previous value, the call returns at once and
    [state_] is as before. *)
Theorem DecreaseCallCount_alone now d k b0 b1 b2 b3 b4 :
  (call_count_ d = 1 ->
   (state_ d = CALLS_ACTIVE ->
    run_alone [b0; b1; b2; b3; b4] now d (CallDestroy DecFetch)
    = (mkChannelData (client_idle_timeout_ d) now 0 TIMER_PENDING
         (Some (wrap_int64 (now + client_idle_timeout_ d))),
       CallDestroy DecRet,
       [AFetchSub 1; ASetLastIdleTime now; ALoad CALLS_ACTIVE;
        ATimerInit (wrap_int64 (now + client_idle_timeout_ d));
        AStore TIMER_PENDING memory_order_release])) /\
   (state_ d = TIMER_PENDING_CALLS_ACTIVE ->
    let '(d', th', tr) :=
      run_alone (b0 :: b1 :: b2 :: cas_attempts k) now d
        (CallDestroy DecFetch) in
    d' = mkChannelData (client_idle_timeout_ d) now 0
           TIMER_PENDING_CALLS_SEEN_SINCE_TIMER_START (idle_timer_ d) /\
    th' = CallDestroy DecRet /\
    effects tr = [AFetchSub 1; ASetLastIdleTime now;
                  ACasOk TIMER_PENDING_CALLS_ACTIVE
                    TIMER_PENDING_CALLS_SEEN_SINCE_TIMER_START
                    memory_order_release]) /\
   (state_ d <> CALLS_ACTIVE -> state_ d <> TIMER_PENDING_CALLS_ACTIVE ->
    forall flags,
      let '(d', th', tr) :=
        run_alone (b0 :: b1 :: flags) now d (CallDestroy DecFetch) in
      d' = mkChannelData (client_idle_timeout_ d) now 0 (state_ d)
             (idle_timer_ d) /\
      in_DecreaseCallCount th' = true /\
      effects tr = [AFetchSub 1; ASetLastIdleTime now])) /\
  (call_count_ d <> 1 ->
   forall flags,
     let '(d', th', tr) :=
       run_alone (b0 :: flags) now d (CallDestroy DecFetch) in
     d' = set_call_count (wrap_intptr (call_count_ d - 1)) d /\
     th' = CallDestroy DecRet /\ tr = [AFetchSub (call_count_ d)] /\
     state_ d' = state_ d).
Proof.
  split.
  - intros Hcc.
    assert (Hfetch : forall b, thread_step b now d (CallDestroy DecFetch)
                     = (set_call_count 0 d, CallDestroy DecSetTime,
                        [AFetchSub 1], [])).
    { intros b. cbn. rewrite Hcc. reflexivity. }
    repeat split.
    + intros Hst. cbn [run_alone]. rewrite Hfetch.
      cbn [run_alone thread_step DecreaseCallCount state_ set_call_count
           set_last_idle_time].
      rewrite Hst. reflexivity.
    + intros Hst. cbn [run_alone]. rewrite Hfetch.
      cbn [run_alone thread_step DecreaseCallCount].
      set (d2 := set_last_idle_time now (set_call_count 0 d)).
      pose proof (run_alone_cas_attempts k [] now d2
                    (CallDestroy (DecSwitch (state_ d2)))) as Hrun.
      rewrite app_nil_r in Hrun.
      destruct Hrun as (tr & -> & Heff); [cbn; auto|].
      cbn [thread_step DecreaseCallCount run_alone].
      assert (E : state_ d2 = TIMER_PENDING_CALLS_ACTIVE) by exact Hst.
      rewrite E. rewrite compare_exchange_weak_success by exact E.
      rewrite !effects_app, Heff. cbn. auto.
    + intros Hst1 Hst2 flags. cbn [run_alone]. rewrite Hfetch.
      cbn [run_alone thread_step DecreaseCallCount].
      destruct (DecreaseCallCount_spins flags now
                  (set_last_idle_time now (set_call_count 0 d)) DecLoad)
        as (pc' & tr & -> & Hpc' & Heff); cbn [state_ set_call_count];
        auto.
      rewrite !effects_app, Heff.
      repeat split. destruct Hpc' as [-> | ->]; reflexivity.
  - intros Hcc flags. cbn [run_alone thread_step DecreaseCallCount].
    destruct (Z.eqb_spec (call_count_ d) 1) as [E|_]; [contradiction|].
    rewrite run_alone_CallDestroy_ret. auto.
Qed.

Lemma DecreaseCallCount_alone_witness :
  run_alone [false; false; false; false; false] 7
    (mkChannelData 1000 0 1 CALLS_ACTIVE None) (CallDestroy DecFetch)
  = (mkChannelData 1000 7 0 TIMER_PENDING (Some 1007), CallDestroy DecRet,
     [AFetchSub 1; ASetLastIdleTime 7; ALoad CALLS_ACTIVE; ATimerInit 1007;
      AStore TIMER_PENDING memory_order_release]).
Proof.
  exact (proj1 (proj1 (DecreaseCallCount_alone 7
                         (mkChannelData 1000 0 1 CALLS_ACTIVE None)
                         0 false false false false false) eq_refl) eq_refl).
Defined.

(** C9.  A call of [IncreaseCallCount] whose increment sees a previous value
    other than 0, and a call of [DecreaseCallCount] whose decrement sees a
    previous value other than 1, consist of that one atomic operation: the
    call returns with [call_count_] changed and with [state_],
    [last_idle_time_] and the timer exactly as they were, and no timer is
    armed. *)
Theorem only_the_counter_changes now d b flags :
  (call_count_ d <> 0 ->
   let '(d', th', tr) :=
     run_alone (b :: flags) now d (CallInit IncFetch) in
   th' = CallInit IncRet /\ tr = [AFetchAdd (call_count_ d)] /\
   call_count_ d' = wrap_intptr (call_count_ d + 1) /\
   state_ d' = state_ d /\ last_idle_time_ d' = last_idle_time_ d /\
   idle_timer_ d' = idle_timer_ d /\
   client_idle_timeout_ d' = client_idle_timeout_ d) /\
  (call_count_ d <> 1 ->
   let '(d', th', tr) :=
     run_alone (b :: flags) now d (CallDestroy DecFetch) in
   th' = CallDestroy DecRet /\ tr = [AFetchSub (call_count_ d)] /\
   call_count_ d' = wrap_intptr (call_count_ d - 1) /\
   state_ d' = state_ d /\ last_idle_time_ d' = last_idle_time_ d /\
   idle_timer_ d' = idle_timer_ d /\
   client_idle_timeout_ d' = client_idle_timeout_ d).
Proof.
  split; intros Hcc.
  - cbn [run_alone thread_step IncreaseCallCount].
    destruct (Z.eqb_spec (call_count_ d) 0) as [E|_]; [contradiction|].
    rewrite run_alone_CallInit_ret. cbn. auto 10.
  - cbn [run_alone thread_step DecreaseCallCount].
    destruct (Z.eqb_spec (call_count_ d) 1) as [E|_]; [contradiction|].
    rewrite run_alone_CallDestroy_ret. cbn. auto 10.
Qed.

Lemma only_the_counter_changes_witness :
  run_alone [false; false] 7 (mkChannelData 1000 3 2 CALLS_ACTIVE None)
    (CallInit IncFetch)
  = (mkChannelData 1000 3 3 CALLS_ACTIVE None, CallInit IncRet, [AFetchAdd 2])
  /\
  let '(d', th', tr) :=
    run_alone [false; false] 7 (mkChannelData 1000 3 2 CALLS_ACTIVE None)
      (CallInit IncFetch) in
  th' = CallInit IncRet /\ tr = [AFetchAdd 2] /\
  call_count_ d' = wrap_intptr (2 + 1) /\
  state_ d' = CALLS_ACTIVE /\ last_idle_time_ d' = 3 /\
  idle_timer_ d' = None /\ client_idle_timeout_ d' = 1000.
Proof.
  split; [reflexivity|].
  apply (proj1 (only_the_counter_changes 7
                  (mkChannelData 1000 3 2 CALLS_ACTIVE None) false [false])).
  cbn. discriminate.
Defined.

(** ** The timer of the idle tracker *)

Section InPhase.
Import IdleTimer.
Variable p : phase.

Lemma in_phase_app l1 l2 : in_phase p (l1 ++ l2) = in_phase p l1 + in_phase p l2.
Proof. induction l1 as [|a l1 IH]; simpl; [lia | rewrite IH; lia]. Qed.

Lemma in_phase_nonneg l : 0 <= in_phase p l.
Proof.
  induction l as [|a l IH]; simpl; [lia|].
  destruct (bool_decide (phase_of a = p)); simpl; lia.
Qed.

Lemma in_phase_insert (l : list thread) i a b :
  l !! i = Some a ->
  in_phase p (<[i := b]> l)
  = in_phase p l - Z.b2z (bool_decide (phase_of a = p))
    + Z.b2z (bool_decide (phase_of b = p)) /\
  Z.b2z (bool_decide (phase_of a = p)) <= in_phase p l.
Proof.
  revert i. induction l as [|x l IH]; intros [|i] H; simpl in *;
    try discriminate.
  - injection H as ->. pose proof (in_phase_nonneg l). lia.
  - destruct (IH i H) as [-> Hle].
    destruct (bool_decide (phase_of x = p)); simpl; lia.
Qed.

Lemma in_phase_away l :
  p <> Away -> Forall (fun t => phase_of t = Away) l -> in_phase p l = 0.
Proof.
  intros Hp. induction 1 as [|a l Ha _ IH]; simpl; [reflexivity|].
  rewrite Ha, IH, bool_decide_eq_false_2 by congruence. reflexivity.
Qed.

Lemma in_phase_le_tally q l :
  (forall th, phase_of th = p -> q (role_of th) = true) ->
  in_phase p l <= tally q l.
Proof.
  intros Hq. induction l as [|a l IH]; simpl; [lia|].
  destruct (bool_decide_reflect (phase_of a = p)) as [Ha|Ha]; simpl.
  - rewrite (Hq a Ha). simpl. lia.
  - destruct (q (role_of a)); simpl; lia.
Qed.

Lemma in_phase_pos_lookup (l : list thread) :
  1 <= in_phase p l -> exists i th, l !! i = Some th /\ phase_of th = p.
Proof.
  induction l as [|a l IH]; simpl; [lia|].
  destruct (bool_decide_reflect (phase_of a = p)) as [Ha|Ha]; simpl.
  - intros _. exists 0%nat, a. auto.
  - intros H. destruct (IH ltac:(lia)) as (i & th & Hi & Hth).
    exists (S i), th. auto.
Qed.
End InPhase.

Section TimerFacts.
Import IdleTimer.

Lemma armed_role th :
  phase_of th = Armed -> stores_pending (role_of th) || holds (role_of th) = true.
Proof. destruct th as [[]|[| | |[]| |]|[[]|[]|[]]|[[]|[]| | | | |]]; cbn; congruence. Qed.

Lemma entering_role th : phase_of th = Entering -> holds (role_of th) = true.
Proof. destruct th as [[]|[| | |[]| |]|[[]|[]|[]]|[[]|[]| | | | |]]; cbn; congruence. Qed.

Lemma tally_orb p q l :
  tally (fun r => p r || q r) l <= tally p l + tally q l.
Proof.
  induction l as [|a l IH]; simpl; [lia|].
  destruct (p (role_of a)), (q (role_of a)); simpl; lia.
Qed.

(** A thread that is about to arm the timer, or holds [PROCESSING], or is
    about to leave [IDLE], or has lowered the counter to 0: no other thread
    is between [StartIdleTimer] and its store. *)
Lemma Inv_exclusive c i th :
  Inv c -> threads c !! i = Some th ->
  lowers (role_of th) || holds (role_of th) || stores_active (role_of th)
  = true ->
  in_phase Armed (threads c)
  = Z.b2z (bool_decide (phase_of th = Armed)).
Proof.
  destruct c as [d clk l]. intros [Hc Hr Hl Hh Hld Hb Hsa Hsp Hp] Hi Hrole.
  cbn [chand threads] in *.
  set (l0 := <[i := CallDestroy DecRet]> l).
  destruct (in_phase_insert Armed l i th (CallDestroy DecRet) Hi) as [Hins _].
  fold l0 in Hins.
  rewrite (bool_decide_eq_false_2 (Away = Armed)) in Hins by discriminate.
  cbn [Z.b2z] in Hins.
  enough (in_phase Armed l0 = 0) by lia.
  pose proof (in_phase_nonneg Armed l0) as Hnn.
  pose proof (in_phase_le_tally Armed (fun r => stores_pending r || holds r)
                l0 armed_role) as Hle.
  pose proof (tally_orb stores_pending holds l0) as Hor.
  pose proof (tally_insert stores_pending l i th (CallDestroy DecRet) Hi) as Isp.
  pose proof (tally_insert holds l i th (CallDestroy DecRet) Hi) as Ih.
  pose proof (tally_insert lowers l i th (CallDestroy DecRet) Hi) as Il.
  pose proof (tally_le stores_pending lowers l0
                ltac:(intros []; simpl; congruence)) as Hle2.
  pose proof (tally_le stores_pending lowers l
                ltac:(intros []; simpl; congruence)) as Hle3.
  pose proof (tally_range stores_pending l0) as R1.
  pose proof (tally_range holds l0) as R2.
  pose proof (tally_at lowers l i th Hi) as Al.
  pose proof (tally_at holds l i th Hi) as Ah.
  pose proof (tally_at stores_active l i th Hi) as Asa.
  fold l0 in Isp, Ih, Il. cbn in Isp, Ih, Il.
  destruct (role_of th) eqn:Er; cbn in *; try discriminate.
  - (* RaisingStore *)
    pose proof (Hsa ltac:(lia)) as E.
    destruct (Z.le_gt_cases 1 (tally holds l)) as [Hh1|Hh0];
      [rewrite (Hp Hh1) in E; discriminate E|].
    destruct (Z.le_gt_cases 1 (tally stores_pending l)) as [Hs1|Hs0];
      [rewrite (Hsp Hs1) in E; discriminate E|].
    lia.
  - (* Lowering *)
    assert (tally stores_pending l0 = 0) by lia.
    destruct (Z.le_gt_cases 1 (tally holds l)) as [Hh1|Hh0]; [|lia].
    pose proof (Hp Hh1) as E. rewrite E in Hb. cbn in Hb.
    destruct Hb as [_ Hb]. discriminate Hb. left. lia.
  - (* LoweringStore *)
    assert (tally stores_pending l0 = 0) by lia.
    destruct (Z.le_gt_cases 1 (tally holds l)) as [Hh1|Hh0]; [|lia].
    pose proof (Hp Hh1) as E. rewrite (Hsp ltac:(lia)) in E. discriminate E.
  - (* Holding *)
    assert (tally holds l0 = 0) by lia.
    destruct (Z.le_gt_cases 1 (tally stores_pending l)) as [Hs1|Hs0]; [|lia].
    pose proof (Hsp Hs1) as E. rewrite (Hp ltac:(lia)) in E. discriminate E.
Qed.

(** What the invariant of the tracker says of [state_] at such a thread. *)
Lemma Inv_state_at c i th :
  Inv c -> threads c !! i = Some th ->
  (stores_active (role_of th) = true -> state_ (chand c) = IDLE) /\
  (stores_pending (role_of th) = true -> state_ (chand c) = CALLS_ACTIVE) /\
  (holds (role_of th) = true -> state_ (chand c) = PROCESSING) /\
  (lowers (role_of th) = true -> busy_state (state_ (chand c)) = true).
Proof.
  intros [Hc Hr Hl Hh Hld Hb Hsa Hsp Hp] Hi.
  pose proof (tally_at stores_active _ i th Hi).
  pose proof (tally_at stores_pending _ i th Hi).
  pose proof (tally_at holds _ i th Hi).
  pose proof (tally_at lowers _ i th Hi).
  repeat split; intros E; rewrite E in *; cbn in *.
  - apply Hsa. lia.
  - apply Hsp. lia.
  - apply Hp. lia.
  - apply Hb. left. lia.
Qed.

Lemma Inv_entering c :
  Inv c -> 1 <= in_phase Entering (threads c) ->
  state_ (chand c) = PROCESSING.
Proof.
  intros HI H. apply (inv_processing c HI).
  pose proof (in_phase_le_tally Entering holds (threads c) entering_role). lia.
Qed.
End TimerFacts.

Section TimerPreservation.
Import IdleTimer.

Lemma phase_decide (a b : phase) :
  bool_decide (a = b)
  = match a, b with
    | Away, Away | Fired, Fired | Armed, Armed | Entering, Entering => true
    | _, _ => false
    end.
Proof. destruct a, b; reflexivity. Qed.

Lemma timer_state_not_pending s :
  timer_state s = false -> s <> TIMER_PENDING.
Proof. destruct s; cbn; congruence. Qed.

Lemma busy_not_pending s : busy_state s = true -> s <> TIMER_PENDING.
Proof. destruct s; cbn; congruence. Qed.

Ltac phases :=
  repeat match goal with
         | H : phase_of _ = _ |- _ => rewrite H in *; clear H
         end;
  rewrite ?phase_decide in *; cbn [Z.b2z] in *.

(** A step of one of the kinds of [timer_step] keeps the invariant. *)
Lemma timer_step_preserves d clk (l : list thread) i th d' th' sp :
  l !! i = Some th ->
  client_idle_timeout_ d' = client_idle_timeout_ d ->
  timer_step d th d' th' sp ->
  Inv (mkConfig d clk l) -> TimerInv (mkConfig d clk l) ->
  TimerInv (mkConfig d' clk (<[i := th']> l ++ sp)).
Proof.
  intros Hi Hto Hstep HI [T1 T2 T3 T4 T5].
  pose proof (Inv_exclusive _ i th HI Hi) as Hex.
  destruct (Inv_state_at _ i th HI Hi) as (Ssa & Ssp & Sh & Sl).
  pose proof (Inv_entering _ HI) as Sent.
  unfold timer_current, timer_tokens, idle_deadline, timer_pending in *.
  cbn [chand threads clock] in *.
  destruct (in_phase_insert Armed l i th th' Hi) as [UA LA].
  destruct (in_phase_insert Fired l i th th' Hi) as [UF LF].
  destruct (in_phase_insert Entering l i th th' Hi) as [UE LE].
  pose proof (in_phase_nonneg Armed l) as NA.
  pose proof (in_phase_nonneg Fired l) as NF.
  pose proof (in_phase_nonneg Entering l) as NE.
  clear HI Hi.
  assert (Hsp0 : Forall (fun t => phase_of t = Away) sp ->
                 in_phase Armed sp = 0 /\ in_phase Fired sp = 0 /\
                 in_phase Entering sp = 0).
  { intros H. repeat split; apply in_phase_away; auto; discriminate. }
  assert (Hnil : Forall (fun t : thread => phase_of t = Away) [])
    by constructor.
  destruct Hstep as
    [Etm Eli Hph -> Hst
    |Etm Eli Hph Hph' -> Hrole Hst
    |Etm Hph Hph' -> Hrole Hst
    |Etm Eli Hph Hph' -> Hrole Hst
    |Etm Eli Hph Hph' -> Hst
    |Etm Eli Hph -> Hph' Hst
    |Etm Eli Hph Hph' -> Hst
    |Etm Eli Hph Hph' Hsp Hst];
    try specialize (Hsp0 Hnil); try specialize (Hsp0 Hsp);
    destruct Hsp0 as (SA & SF & SE);
    constructor;
    unfold timer_current, timer_tokens, idle_deadline, timer_pending;
    cbn [chand threads clock];
    rewrite ?in_phase_app, ?SA, ?SF, ?SE, ?Z.add_0_r, ?UA, ?UF, ?UE;
    rewrite ?Etm, ?Eli, ?Hto.
  - (* quiet *)
    rewrite Hph. lia.
  - rewrite Hph. destruct Hst as [-> | (_ & Ht & _)]; [|congruence].
    intros Hts HA. specialize (T2 Hts ltac:(lia)). lia.
  - rewrite Hph. destruct Hst as [-> | (_ & _ & Hn)].
    + intros Hc. apply T3. destruct Hc; [left; auto | right; lia].
    + intros [?|?]; [contradiction|]. apply T3. right. lia.
  - rewrite Hph. destruct Hst as [-> | (_ & _ & Hn)].
    + intros Hc HF. apply T4; [destruct Hc; [left; auto | right; lia] | lia].
    + intros [?|?] HF; [contradiction|]. apply T4; [right; lia | lia].
  - rewrite Hph. intros. apply T5. lia.
  - (* leave *)
    phases. lia.
  - assert (HA0 : in_phase Armed l = 0)
      by (rewrite Hex; [phases; reflexivity
                       | destruct (role_of th); cbn in *; congruence]).
    assert (Hns : timer_state (state_ d) = false)
      by (destruct (role_of th); cbn in Hrole; try discriminate;
          [rewrite Ssa | rewrite Sh]; auto).
    specialize (T2 Hns HA0). phases. lia.
  - assert (HA0 : in_phase Armed l = 0)
      by (rewrite Hex; [phases; reflexivity
                       | destruct (role_of th); cbn in *; congruence]).
    phases. intros [E|E]; [destruct Hst; congruence | lia].
  - assert (HA0 : in_phase Armed l = 0)
      by (rewrite Hex; [phases; reflexivity
                       | destruct (role_of th); cbn in *; congruence]).
    phases. intros [E|E]; [destruct Hst; congruence | lia].
  - phases. intros. apply T5. lia.
  - (* set_time *)
    phases. lia.
  - rewrite Hst. phases. intros Hts HA. specialize (T2 Hts ltac:(lia)). lia.
  - assert (HA0 : in_phase Armed l = 0)
      by (rewrite Hex; [phases; reflexivity | rewrite Hrole; reflexivity]).
    pose proof (busy_not_pending _ (Sl Hrole)) as Hn.
    rewrite Hst. phases. intros [E|E]; [contradiction | lia].
  - assert (HA0 : in_phase Armed l = 0)
      by (rewrite Hex; [phases; reflexivity | rewrite Hrole; reflexivity]).
    pose proof (busy_not_pending _ (Sl Hrole)) as Hn.
    rewrite Hst. phases. intros [E|E]; [contradiction | lia].
  - phases. intros HE. exfalso.
    pose proof (Sl Hrole) as Hb. rewrite (Sent ltac:(lia)) in Hb.
    discriminate Hb.
  - (* arm *)
    assert (HA0 : in_phase Armed l = 0)
      by (rewrite Hex; [phases; reflexivity
                       | destruct (role_of th); cbn in *; congruence]).
    assert (Hns : timer_state (state_ d) = false)
      by (destruct (role_of th); cbn in Hrole; try discriminate;
          [rewrite Ssp | rewrite Sh]; auto).
    specialize (T2 Hns HA0). phases.
    destruct (idle_timer_ d); lia.
  - phases. intros _ HA. lia.
  - intros _ deadline [= <-]. reflexivity.
  - assert (HA0 : in_phase Armed l = 0)
      by (rewrite Hex; [phases; reflexivity
                       | destruct (role_of th); cbn in *; congruence]).
    assert (Hns : timer_state (state_ d) = false)
      by (destruct (role_of th); cbn in Hrole; try discriminate;
          [rewrite Ssp | rewrite Sh]; auto).
    specialize (T2 Hns HA0). phases. intros _ HF. exfalso.
    destruct (idle_timer_ d); lia.
  - phases. intros. apply T5. lia.
  - (* armed store *)
    phases. lia.
  - rewrite Hst. cbn. discriminate.
  - phases. intros _. apply T3. right. lia.
  - phases. intros _ HF. apply T4; [right; lia | lia].
  - phases. intros. apply T5. lia.
  - (* commit *)
    destruct Hph' as [[Hph' _]|[Hph' _]]; phases;
      destruct (idle_timer_ d); lia.
  - destruct Hph' as [[Hph' _]|[Hph' _]]; phases;
      destruct (idle_timer_ d); lia.
  - destruct Hph' as [[Hph' _]|[Hph' _]]; phases;
      (intros [E|E]; [destruct Hst; congruence|]; apply T3; right; lia).
  - destruct Hph' as [[Hph' _]|[Hph' _]]; phases;
      (intros [E|E] HF; [destruct Hst; congruence|];
       apply T4; [right; lia | lia]).
  - destruct Hph' as [[Hph' _]|[Hph' Htp]]; phases.
    + intros. apply T5. lia.
    + intros _. apply T4; [left; exact Htp | lia].
  - (* entered *)
    phases. lia.
  - rewrite Hst. phases. intros Hts HA. specialize (T2 Hts ltac:(lia)). lia.
  - rewrite Hst. phases. intros Hc. apply T3.
    destruct Hc; [left; auto | right; lia].
  - rewrite Hst. phases. intros Hc HF.
    apply T4; [destruct Hc; [left; auto | right; lia] | lia].
  - phases. intros. apply T5. lia.
  - (* cancel *)
    phases. destruct (idle_timer_ d); lia.
  - rewrite Hst. phases. intros Hts HA. specialize (T2 Hts ltac:(lia)).
    destruct (idle_timer_ d); lia.
  - intros _ deadline [=].
  - rewrite Hst. phases. intros Hc HF.
    apply T4; [destruct Hc; [left; auto | right; lia] | lia].
  - phases. intros. apply T5. lia.
Qed.
End TimerPreservation.

Section TimerSteps.
Import IdleTimer.

Lemma state_kept_refl s : state_kept s s.
Proof. left. reflexivity. Qed.

Ltac quiet := apply ts_quiet; cbn; auto using state_kept_refl; congruence.

Lemma IncreaseCallCount_timer spurious d pc d' pc' acts th th' :
  IncreaseCallCount spurious d pc = (d', pc', acts) ->
  phase_of th = Away -> phase_of th' = Away ->
  role_of th = inc_role pc ->
  timer_step d th d' th' [] /\
  client_idle_timeout_ d' = client_idle_timeout_ d.
Proof.
  intros H Hph Hph' Hrole.
  destruct pc as [| |s|]; cbn [IncreaseCallCount] in H.
  - injection H as <- <- <-. split; [quiet | reflexivity].
  - injection H as <- <- <-. split; [quiet | reflexivity].
  - destruct s;
      try (injection H as <- <- <-; split; [quiet | reflexivity]).
    + injection H as <- <- <-. split; [|reflexivity].
      apply ts_leave; cbn; auto. rewrite Hrole. reflexivity.
    + destruct (compare_exchange_weak_cases spurious TIMER_PENDING
                  TIMER_PENDING_CALLS_ACTIVE memory_order_acquire
                  memory_order_relaxed d) as [[Hst E] | E];
        rewrite E in H; injection H as <- <- <-;
        (split; [|reflexivity]); [|quiet].
      apply ts_quiet; cbn; auto; [congruence|].
      right. rewrite Hst. cbn. repeat split; discriminate.
    + destruct (compare_exchange_weak_cases spurious
                  TIMER_PENDING_CALLS_SEEN_SINCE_TIMER_START
                  TIMER_PENDING_CALLS_ACTIVE memory_order_acquire
                  memory_order_relaxed d) as [[Hst E] | E];
        rewrite E in H; injection H as <- <- <-;
        (split; [|reflexivity]); [|quiet].
      apply ts_quiet; cbn; auto; [congruence|].
      right. rewrite Hst. cbn. repeat split; discriminate.
  - injection H as <- <- <-. split; [quiet | reflexivity].
Qed.

Lemma DecreaseCallCount_timer spurious now d pc d' pc' acts :
  DecreaseCallCount spurious now d pc = (d', pc', acts) ->
  timer_step d (CallDestroy pc) d' (CallDestroy pc') [] /\
  client_idle_timeout_ d' = client_idle_timeout_ d.
Proof.
  intros H. destruct pc as [| | |s| |]; cbn [DecreaseCallCount] in H.
  - injection H as <- <- <-. split; [|reflexivity].
    destruct (call_count_ d =? 1); quiet.
  - injection H as <- <- <-. split; [|reflexivity].
    apply ts_set_time; cbn; auto.
  - injection H as <- <- <-. split; [|reflexivity].
    destruct (state_ d); quiet.
  - destruct s;
      try (injection H as <- <- <-; split; [|reflexivity];
           destruct (state_ d); quiet).
    + injection H as <- <- <-. split; [|reflexivity].
      apply ts_arm; cbn; auto.
    + destruct (compare_exchange_weak_cases spurious
                  TIMER_PENDING_CALLS_ACTIVE
                  TIMER_PENDING_CALLS_SEEN_SINCE_TIMER_START
                  memory_order_release memory_order_relaxed d)
        as [[Hst E] | E];
        rewrite E in H; injection H as <- <- <-;
        (split; [|reflexivity]); [|destruct (state_ d); quiet].
      apply ts_quiet; cbn; auto.
      right. rewrite Hst. cbn. repeat split; discriminate.
  - injection H as <- <- <-. split; [|reflexivity].
    apply ts_armed_store; cbn; auto.
  - injection H as <- <- <-. split; [quiet | reflexivity].
Qed.

Lemma IdleTimerCallback_timer spurious d pc d' pc' acts :
  IdleTimerCallback spurious d pc = (d', pc', acts) ->
  timer_step d (TimerClosure pc) d' (TimerClosure pc') [] /\
  client_idle_timeout_ d' = client_idle_timeout_ d.
Proof.
  intros H. destruct pc as [cancelled|s| | | | |]; cbn [IdleTimerCallback] in H.
  - destruct cancelled; injection H as <- <- <-; (split; [quiet | reflexivity]).
  - destruct s;
      try (injection H as <- <- <-; split; [quiet | reflexivity]).
    + destruct (compare_exchange_weak_cases spurious TIMER_PENDING PROCESSING
                  memory_order_acquire memory_order_relaxed d)
        as [[Hst E] | E];
        rewrite E in H; injection H as <- <- <-;
        (split; [|reflexivity]); [|quiet].
      apply ts_commit; cbn; auto.
    + destruct (compare_exchange_weak_cases spurious
                  TIMER_PENDING_CALLS_ACTIVE CALLS_ACTIVE
                  memory_order_relaxed memory_order_relaxed d)
        as [[Hst E] | E];
        rewrite E in H; injection H as <- <- <-;
        (split; [|reflexivity]); [|quiet].
      apply ts_commit; cbn; auto. left. rewrite Hst. auto.
    + destruct (compare_exchange_weak_cases spurious
                  TIMER_PENDING_CALLS_SEEN_SINCE_TIMER_START PROCESSING
                  memory_order_acquire memory_order_relaxed d)
        as [[Hst E] | E];
        rewrite E in H; injection H as <- <- <-;
        (split; [|reflexivity]); [|quiet].
      apply ts_commit; cbn; auto. left. rewrite Hst. auto.
  - injection H as <- <- <-. split; [|reflexivity].
    apply ts_entered; cbn; auto.
  - injection H as <- <- <-. split; [|reflexivity].
    apply ts_leave; cbn; auto.
  - injection H as <- <- <-. split; [|reflexivity].
    apply ts_arm; cbn; auto.
  - injection H as <- <- <-. split; [|reflexivity].
    apply ts_armed_store; cbn; auto.
  - injection H as <- <- <-. split; [quiet | reflexivity].
Qed.

(** Every step of a thread is of one of the kinds of [timer_step], and none
    changes [client_idle_timeout_]. *)
Lemma thread_step_timer spurious now d th d' th' acts spawned :
  thread_step spurious now d th = (d', th', acts, spawned) ->
  timer_step d th d' th' spawned /\
  client_idle_timeout_ d' = client_idle_timeout_ d.
Proof.
  destruct th as [pc|pc|[pc|disc|disc]|pc]; cbn [thread_step].
  - destruct (IncreaseCallCount spurious d pc) as [[d1 pc1] a1] eqn:E.
    intros [= <- <- <- <-].
    eapply IncreaseCallCount_timer; eauto.
  - destruct (DecreaseCallCount spurious now d pc) as [[d1 pc1] a1] eqn:E.
    intros [= <- <- <- <-].
    eapply DecreaseCallCount_timer; eauto.
  - assert (Hinc : forall d1 pc1 a1,
               IncreaseCallCount spurious d pc = (d1, pc1, a1) ->
               timer_step d (TransportOp (TopIncrease pc)) d1
                 (TransportOp (TopIncrease pc1)) [] /\
               client_idle_timeout_ d1 = client_idle_timeout_ d)
      by (intros; eapply IncreaseCallCount_timer; eauto).
    destruct pc;
      try (destruct (IncreaseCallCount spurious d _) as [[d1 pc1] a1] eqn:E;
           intros [= <- <- <- <-]; exact (Hinc _ _ _ eq_refl)).
    unfold grpc_timer_cancel. destruct (idle_timer_ d) eqn:Etm;
      intros [= <- <- <- <-]; (split; [|reflexivity]).
    + apply ts_cancel; cbn; auto.
    + apply ts_cancel; cbn; auto.
  - intros [= <- <- <- <-]. split; [|reflexivity].
    apply ts_quiet; cbn; auto using state_kept_refl.
  - intros [= <- <- <- <-]. split; [|reflexivity].
    apply ts_quiet; cbn; auto using state_kept_refl.
  - destruct (IdleTimerCallback spurious d pc) as [[d1 pc1] a1] eqn:E.
    intros [= <- <- <- <-].
    eapply IdleTimerCallback_timer; eauto.
Qed.
End TimerSteps.

Section TimerExec.
Import IdleTimer.

Lemma TimerInv_away_app d clk (l sp : list thread) :
  Forall (fun t => phase_of t = Away) sp ->
  TimerInv (mkConfig d clk l) -> TimerInv (mkConfig d clk (l ++ sp)).
Proof.
  intros Hsp [T1 T2 T3 T4 T5].
  unfold timer_current, timer_tokens in *. cbn [chand threads clock] in *.
  assert (HA : in_phase Armed sp = 0) by (apply in_phase_away; auto; discriminate).
  assert (HF : in_phase Fired sp = 0) by (apply in_phase_away; auto; discriminate).
  assert (HE : in_phase Entering sp = 0) by (apply in_phase_away; auto; discriminate).
  constructor; unfold timer_current, timer_tokens; cbn [chand threads clock];
    rewrite ?in_phase_app, ?HA, ?HF, ?HE, ?Z.add_0_r; assumption.
Qed.

Lemma TimerInv_init timeout : TimerInv (init timeout).
Proof.
  constructor; unfold timer_current, timer_tokens; cbn; try lia.
  all: try (intros [?|?]; [discriminate | lia]).
Qed.

Lemma step_preserves_timer c ev c' acts :
  step c ev = Some (c', acts) -> Inv c -> TimerInv c -> TimerInv c'.
Proof.
  destruct c as [d clk l].
  destruct ev as [|i|disc|dt| |i spurious]; cbn [step chand clock threads].
  - intros [= <- <-] _. apply TimerInv_away_app. repeat constructor.
  - destruct (l !! i) as [[[]| | |]|] eqn:Hlook; try discriminate.
    intros [= <- <-] HI HT. rewrite <- (app_nil_r (<[i:=_]> l)).
    eapply timer_step_preserves; eauto.
    apply ts_quiet; auto. left. reflexivity.
  - intros [= <- <-] _. apply TimerInv_away_app.
    destruct disc; repeat constructor.
  - destruct (Z.leb_spec 0 dt); [|discriminate]. intros [= <- <-] _.
    intros [T1 T2 T3 T4 T5].
    unfold timer_current, timer_tokens in *. cbn [chand threads clock] in *.
    constructor; unfold timer_current, timer_tokens;
      cbn [chand threads clock]; auto.
    + intros Hc HF. specialize (T4 Hc HF). lia.
    + intros HE. specialize (T5 HE). lia.
  - unfold grpc_timer_expire. destruct (idle_timer_ d) as [deadline|] eqn:Etm;
      [|discriminate].
    destruct (Z.leb_spec deadline clk); [|discriminate]. intros [= <- <-] _.
    intros [T1 T2 T3 T4 T5].
    unfold timer_current, timer_tokens, timer_pending, idle_deadline in *.
    cbn [chand threads clock] in *. rewrite Etm in *.
    pose proof (in_phase_nonneg Fired l).
    constructor;
      unfold timer_current, timer_tokens, timer_pending, idle_deadline;
      cbn [chand threads clock idle_timer_ state_ last_idle_time_
           client_idle_timeout_ set_idle_timer];
      rewrite ?in_phase_app; cbn [in_phase fmap list_fmap phase_of];
      rewrite ?phase_decide; cbn [Z.b2z].
    + lia.
    + intros Hs HA. specialize (T2 Hs ltac:(lia)). lia.
    + discriminate.
    + intros Hc _. rewrite <- (T3 ltac:(destruct Hc; [left; auto | right; lia])
                                 deadline eq_refl). lia.
    + intros HE. apply T5. lia.
  - destruct (l !! i) as [th|] eqn:Hlook; [|discriminate].
    destruct (thread_step spurious clk d th) as [[[d' th'] a] sp] eqn:E.
    intros [= <- <-] HI HT.
    destruct (thread_step_timer _ _ _ _ _ _ _ _ E) as [Hstep Hto].
    eapply timer_step_preserves; eauto.
Qed.

Lemma exec_preserves_timer c evs c' tr :
  exec c evs = Some (c', tr) ->
  Z.of_nat (length (threads c')) <= INTPTR_MAX ->
  Inv c -> TimerInv c -> TimerInv c'.
Proof.
  revert c tr. induction evs as [|ev evs IH]; intros c tr; cbn [exec].
  - intros [= <- <-] _ _ HT. exact HT.
  - destruct (step c ev) as [[c1 a]|] eqn:Hstep; [|discriminate].
    destruct (exec c1 evs) as [[c2 tr2]|] eqn:Hexec; [|discriminate].
    intros [= <- <-] Hlen HI HT.
    pose proof (exec_length _ _ _ _ Hexec) as Hmono.
    eapply IH; eauto.
    + eapply step_preserves; eauto. lia.
    + eapply step_preserves_timer; eauto.
Qed.

(** Every configuration reached from the initial one in at most [INTPTR_MAX]
    events satisfies the invariant of the timer. *)
Lemma reachable_TimerInv timeout evs c tr :
  exec (init timeout) evs = Some (c, tr) ->
  Z.of_nat (length evs) <= INTPTR_MAX ->
  TimerInv c.
Proof.
  intros Hexec Hlen. pose proof (exec_length _ _ _ _ Hexec) as Hl.
  cbn in Hl.
  eapply exec_preserves_timer; eauto using Inv_init, TimerInv_init. lia.
Qed.

(** [client_idle_timeout_] is set by the constructor and never written. *)
Lemma step_timeout c ev c' acts :
  step c ev = Some (c', acts) ->
  client_idle_timeout_ (chand c') = client_idle_timeout_ (chand c).
Proof.
  destruct ev as [|i|disc|dt| |i spurious]; cbn [step].
  - intros [= <- <-]. reflexivity.
  - destruct (threads c !! i) as [[[]| | |]|]; try discriminate.
    intros [= <- <-]. reflexivity.
  - intros [= <- <-]. reflexivity.
  - destruct (0 <=? dt); [|discriminate]. intros [= <- <-]. reflexivity.
  - unfold grpc_timer_expire. destruct (idle_timer_ (chand c)); [|discriminate].
    destruct (_ <=? _); [|discriminate]. intros [= <- <-]. reflexivity.
  - destruct (threads c !! i) as [th|]; [|discriminate].
    destruct (thread_step spurious (clock c) (chand c) th)
      as [[[d' th'] a] sp] eqn:E.
    intros [= <- <-]. cbn.
    exact (proj2 (thread_step_timer _ _ _ _ _ _ _ _ E)).
Qed.

Lemma exec_timeout c evs c' tr :
  exec c evs = Some (c', tr) ->
  client_idle_timeout_ (chand c') = client_idle_timeout_ (chand c).
Proof.
  revert c tr. induction evs as [|ev evs IH]; intros c tr; cbn [exec].
  - intros [= <- <-]. reflexivity.
  - destruct (step c ev) as [[c1 a]|] eqn:Hstep; [|discriminate].
    destruct (exec c1 evs) as [[c2 tr2]|] eqn:Hexec; [|discriminate].
    intros [= <- <-]. rewrite (IH _ _ Hexec). eapply step_timeout; eauto.
Qed.
End TimerExec.

Section TimerTheorems.
Import IdleTimer.

Lemma step_acts_thread c ev c' acts :
  step c ev = Some (c', acts) -> acts <> [] ->
  exists i spurious th d' th' spawned,
    ev = EvStep i spurious /\
    threads c !! i = Some th /\
    thread_step spurious (clock c) (chand c) th = (d', th', acts, spawned) /\
    c' = mkConfig d' (clock c) (<[i := th']> (threads c) ++ spawned).
Proof.
  destruct ev as [|i|disc|dt| |i spurious]; cbn [step].
  - intros [= <- <-] []. reflexivity.
  - destruct (threads c !! i) as [[[]| | |]|]; try discriminate.
    intros [= <- <-] []. reflexivity.
  - intros [= <- <-] []. reflexivity.
  - destruct (0 <=? dt); [|discriminate]. intros [= <- <-] []. reflexivity.
  - destruct (grpc_timer_expire _ _) as [[? ?]|]; [|discriminate].
    intros [= <- <-] []. reflexivity.
  - destruct (threads c !! i) as [th|] eqn:Hlook; [|discriminate].
    destruct (thread_step spurious (clock c) (chand c) th)
      as [[[d' th'] a] sp] eqn:E.
    intros [= <- <-] _. exists i, spurious, th, d', th', sp. auto.
Qed.

Lemma thread_step_timer_init spurious now d th d' th' acts spawned deadline :
  thread_step spurious now d th = (d', th', acts, spawned) ->
  In (ATimerInit deadline) acts ->
  (th = CallDestroy (DecSwitch CALLS_ACTIVE) \/
   th = TimerClosure TcStartTimer) /\
  deadline = idle_deadline d /\ idle_timer_ d' = Some deadline.
Proof.
  intros Hstep Hin.
  destruct th as [[| |s|]|[| | |s| |]|[[| |s|]|disc|disc]|[c|s| | | | |]];
    cbn in Hstep; try destruct s; try destruct c;
    unfold compare_exchange_weak, grpc_timer_cancel in Hstep;
    repeat match type of Hstep with
           | context [if ?b then _ else _] => destruct b
           | context [match idle_timer_ ?x with _ => _ end] =>
               destruct (idle_timer_ x)
           end;
    injection Hstep as <- <- <- <-; cbn in Hin;
    repeat (destruct Hin as [Hin|Hin]; try discriminate Hin);
    try contradiction; injection Hin as <-; cbn; auto.
Qed.

Lemma wrap_int64_small z : INT64_MIN <= z <= INT64_MAX -> wrap_int64 z = z.
Proof.
  intros H. unfold wrap_int64, INT64_MIN, INT64_MAX in *.
  rewrite Z.mod_small; lia.
Qed.

(** The sum that [StartIdleTimer] computes when [Now()] was 10 ms before the
    largest [grpc_millis] and the timeout is 1000 ms. *)
Lemma StartIdleTimer_wraps :
  StartIdleTimer (mkChannelData 1000 (INT64_MAX - 10) 0 CALLS_ACTIVE None)
  = (mkChannelData 1000 (INT64_MAX - 10) 0 CALLS_ACTIVE
       (Some (-9223372036854774819)),
     [ATimerInit (-9223372036854774819)]).
Proof. reflexivity. Qed.

(** X1.  [grpc_timer_init] is never called on a pending timer.  In every
    execution of at most [INTPTR_MAX] events from the constructor's state,
    whenever a step calls [StartIdleTimer], [idle_timer_] is not pending at
    that moment; the deadline passed is the 64-bit sum of [last_idle_time_]
    and the timeout the channel was created with, which is their sum when
    that fits into a [grpc_millis]; and the timer is pending afterwards. *)
Theorem timer_never_armed_twice timeout evs c tr ev c' acts deadline :
  exec (init timeout) evs = Some (c, tr) ->
  Z.of_nat (length evs) <= INTPTR_MAX ->
  step c ev = Some (c', acts) ->
  In (ATimerInit deadline) acts ->
  idle_timer_ (chand c) = None /\
  deadline = wrap_int64 (last_idle_time_ (chand c) + timeout) /\
  (INT64_MIN <= last_idle_time_ (chand c) + timeout <= INT64_MAX ->
   deadline = last_idle_time_ (chand c) + timeout) /\
  idle_timer_ (chand c') = Some deadline.
Proof.
  intros Hexec Hlen Hstep Hin.
  pose proof (reachable_Inv _ _ _ _ Hexec Hlen) as HI.
  pose proof (reachable_TimerInv _ _ _ _ Hexec Hlen) as HT.
  pose proof (exec_timeout _ _ _ _ Hexec) as Hto. cbn in Hto.
  destruct (step_acts_thread _ _ _ _ Hstep) as
    (i & sp & th & d' & th' & spawned & -> & Hi & E & ->).
  { intros ->. destruct Hin. }
  destruct (thread_step_timer_init _ _ _ _ _ _ _ _ _ E Hin)
    as (Hth & -> & Htm).
  destruct (Inv_state_at _ i th HI Hi) as (_ & Ssp & Sh & _).
  assert (Hrole : lowers (role_of th) || holds (role_of th)
                  || stores_active (role_of th) = true)
    by (destruct Hth; subst th; reflexivity).
  pose proof (Inv_exclusive _ i th HI Hi Hrole) as HA.
  assert (Hph : phase_of th = Away) by (destruct Hth; subst th; reflexivity).
  rewrite Hph, phase_decide in HA. cbn in HA.
  assert (Hns : timer_state (state_ (chand c)) = false).
  { destruct Hth; subst th; [rewrite Ssp | rewrite Sh]; reflexivity. }
  pose proof (tinv_none c HT Hns HA) as H0.
  unfold timer_tokens, timer_pending in H0.
  pose proof (in_phase_nonneg Fired (threads c)).
  assert (Hd : idle_deadline (chand c)
               = wrap_int64 (last_idle_time_ (chand c) + timeout))
    by (unfold idle_deadline; rewrite Hto; reflexivity).
  split; [|split; [|split]].
  - destruct (idle_timer_ (chand c)); [lia | reflexivity].
  - exact Hd.
  - intros Hfit. rewrite Hd. apply wrap_int64_small. exact Hfit.
  - exact Htm.
Qed.

Lemma timer_never_armed_twice_witness :
  idle_timer_ (mkChannelData 1000 0 0 CALLS_ACTIVE None) = None /\
  1000 = wrap_int64
           (last_idle_time_ (mkChannelData 1000 0 0 CALLS_ACTIVE None)
            + 1000) /\
  (INT64_MIN
   <= last_idle_time_ (mkChannelData 1000 0 0 CALLS_ACTIVE None) + 1000
   <= INT64_MAX ->
   1000 = last_idle_time_ (mkChannelData 1000 0 0 CALLS_ACTIVE None) + 1000)
  /\
  idle_timer_ (mkChannelData 1000 0 0 CALLS_ACTIVE (Some 1000)) = Some 1000.
Proof.
  apply (timer_never_armed_twice 1000
           (firstn 8 (one_call_then_timeout 1000))
           (mkConfig (mkChannelData 1000 0 0 CALLS_ACTIVE None) 0
              [CallDestroy (DecSwitch CALLS_ACTIVE)])
           [AFetchAdd 0; ALoad IDLE; AStore CALLS_ACTIVE memory_order_relaxed;
            AFetchSub 1; ASetLastIdleTime 0; ALoad CALLS_ACTIVE]
           (EvStep 0 false)
           (mkConfig (mkChannelData 1000 0 0 CALLS_ACTIVE (Some 1000)) 0
              [CallDestroy DecStore])
           [ATimerInit 1000] 1000).
  - reflexivity.
  - vm_compute. discriminate.
  - reflexivity.
  - left. reflexivity.
Defined.

Lemma Inv_armed_state c :
  Inv c -> 1 <= in_phase Armed (threads c) ->
  state_ (chand c) = CALLS_ACTIVE \/ state_ (chand c) = PROCESSING.
Proof.
  intros HI H.
  destruct (in_phase_pos_lookup Armed _ H) as (i & th & Hi & Hph).
  destruct (Inv_state_at _ i th HI Hi) as (_ & Ssp & Sh & _).
  pose proof (armed_role th Hph) as Hr.
  destruct (stores_pending (role_of th)); [left; auto|].
  destruct (holds (role_of th)); [right; auto | discriminate].
Qed.

(** X2.  One timer at a time.  In every configuration reached in at most
    [INTPTR_MAX] events, the pending timer and the closures that it has
    scheduled and that have not yet moved [state_] are at most one in all;
    and while [state_] is [IDLE] there is none: no timer is pending and no
    timer closure is outstanding. *)
Theorem one_timer_at_a_time timeout evs c tr :
  exec (init timeout) evs = Some (c, tr) ->
  Z.of_nat (length evs) <= INTPTR_MAX ->
  timer_tokens c <= 1 /\
  (state_ (chand c) = IDLE ->
   idle_timer_ (chand c) = None /\ in_phase Fired (threads c) = 0).
Proof.
  intros Hexec Hlen.
  pose proof (reachable_Inv _ _ _ _ Hexec Hlen) as HI.
  pose proof (reachable_TimerInv _ _ _ _ Hexec Hlen) as HT.
  split; [exact (tinv_one c HT)|]. intros Hidle.
  assert (HA : in_phase Armed (threads c) = 0).
  { pose proof (in_phase_nonneg Armed (threads c)).
    destruct (Z.le_gt_cases 1 (in_phase Armed (threads c))) as [H1|H1]; [|lia].
    destruct (Inv_armed_state c HI H1) as [E|E]; rewrite Hidle in E;
      discriminate E. }
  assert (Hns : timer_state (state_ (chand c)) = false)
    by (rewrite Hidle; reflexivity).
  pose proof (tinv_none c HT Hns HA) as H0.
  unfold timer_tokens, timer_pending in H0.
  pose proof (in_phase_nonneg Fired (threads c)).
  destruct (idle_timer_ (chand c)); [lia|]. split; [reflexivity | lia].
Qed.

Lemma one_timer_at_a_time_witness :
  timer_tokens idle_again <= 1 /\
  (state_ (chand idle_again) = IDLE ->
   idle_timer_ (chand idle_again) = None /\
   in_phase Fired (threads idle_again) = 0).
Proof.
  apply (one_timer_at_a_time 1000 (one_call_to_idle 1000) idle_again
           (trace_of_one_call ++
            [ALoad TIMER_PENDING;
             ACasOk TIMER_PENDING PROCESSING memory_order_acquire;
             AEnterIdle; AStore IDLE memory_order_relaxed])).
  - reflexivity.
  - vm_compute. discriminate.
Defined.



(** When the sum does not fit, the deadline lies in the past: a call ends 10
    ms before the largest [grpc_millis], the timer expires at once and
    [EnterIdle] is sent although no time has passed. *)
Lemma enter_idle_early_when_deadline_wraps :
  fst <$> exec (init 1000) (call_ends_late ++ [EvTimerExpire;
                                               EvStep 1 false;
                                               EvStep 1 false])
  = Some ended_late /\
  step ended_late (EvStep 1 false)
  = Some (mkConfig (chand ended_late) (clock ended_late)
            [CallDestroy DecRet; TimerClosure TcStoreIdle],
          [AEnterIdle]) /\
  clock ended_late = last_idle_time_ (chand ended_late).
Proof. split; [|split]; vm_compute; reflexivity. Qed.
End TimerTheorems.

(** ** More that the invariant of the tracker gives *)

Section TrackerTheorems.
Import IdleTimer.

Lemma protocol_no_new_raiser cc st ra rb cc' st' :
  protocol cc st ra rb cc' st' -> cc <> 0 ->
  raises ra = false -> raises rb = false.
Proof.
  intros H Hcc Hra. inversion H; subst; cbn in *; try congruence.
  match goal with
  | |- context [match ?s with _ => _ end] => destruct s
  end; cbn in *; congruence.
Qed.

Lemma disconnected_settled th : disconnected th = true -> role_of th = Settled.
Proof.
  destruct th as [pc|pc|[pc|[]|[]]|pc]; cbn; congruence.
Qed.

Lemma disconnected_stays spurious now d th d' th' acts spawned :
  thread_step spurious now d th = (d', th', acts, spawned) ->
  disconnected th = true -> disconnected th' = true.
Proof.
  destruct th as [pc|pc|[pc|[]|[]]|pc]; cbn; try discriminate;
    intros [= <- <- <- <-]; reflexivity.
Qed.

Lemma parked_busy c :
  Inv c -> parked c ->
  busy_state (state_ (chand c)) = true /\ 1 <= call_count_ (chand c).
Proof.
  intros HI [(j & th & Hj & Hd) Hr].
  pose proof (tally_lookup_le settles _ j th Hj) as Hs.
  rewrite (disconnected_settled th Hd) in Hs. specialize (Hs eq_refl).
  split.
  - apply (inv_busy c HI). right. auto.
  - rewrite (inv_count c HI), tally_counts. lia.
Qed.

Lemma parked_step c ev c' acts :
  step c ev = Some (c', acts) ->
  Inv c -> parked c ->
  parked c' /\ ~ In AEnterIdle acts.
Proof.
  intros Hstep HI Hp. destruct (parked_busy c HI Hp) as [Hbusy Hcc].
  split.
  - destruct Hp as [(j & th & Hj & Hd) Hr].
    destruct c as [d clk l]. cbn [chand threads clock] in *.
    destruct ev as [|i|disc|dt| |i spurious]; cbn [step chand clock threads]
      in Hstep.
    + injection Hstep as <- <-. split; cbn [threads].
      * exists j, th. split; [apply lookup_app_l_Some; exact Hj | exact Hd].
      * rewrite tally_app, Hr. reflexivity.
    + destruct (l !! i) as [[[]| | |]|] eqn:Hi; try discriminate.
      injection Hstep as <- <-. split; cbn [threads].
      * exists j, th. split; [|exact Hd].
        rewrite list_lookup_insert_ne; [exact Hj|].
        intros ->. rewrite Hi in Hj. injection Hj as <-. discriminate Hd.
      * rewrite (tally_insert raises _ _ _ _ Hi). cbn. lia.
    + injection Hstep as <- <-. split; cbn [threads].
      * exists j, th. split; [apply lookup_app_l_Some; exact Hj | exact Hd].
      * rewrite tally_app, Hr. destruct disc; reflexivity.
    + destruct (0 <=? dt); [|discriminate]. injection Hstep as <- <-.
      split; cbn [threads]; [exists j, th; auto | exact Hr].
    + unfold grpc_timer_expire in Hstep.
      destruct (idle_timer_ d); [|discriminate].
      destruct (_ <=? _); [|discriminate]. injection Hstep as <- <-.
      split; cbn [threads].
      * exists j, th. split; [apply lookup_app_l_Some; exact Hj | exact Hd].
      * rewrite tally_app, Hr. reflexivity.
    + destruct (l !! i) as [th0|] eqn:Hi; [|discriminate].
      destruct (thread_step spurious clk d th0) as [[[d' th'] a] sp] eqn:E.
      injection Hstep as <- <-. split; cbn [threads].
      * destruct (decide (i = j)) as [->|Hne].
        -- rewrite Hi in Hj. injection Hj as ->.
           exists j, th'. split.
           ++ apply lookup_app_l_Some. apply list_lookup_insert_eq.
              apply lookup_lt_is_Some. eauto.
           ++ eapply disconnected_stays; eauto.
        -- exists j, th. split; [|exact Hd].
           apply lookup_app_l_Some.
           rewrite list_lookup_insert_ne; [exact Hj | exact Hne].
      * destruct (thread_step_protocol _ _ _ _ _ _ _ _ E) as [Hproto Hsp].
        pose proof (tally_at raises l i th0 Hi) as Hat.
        assert (Hra : raises (role_of th0) = false)
          by (destruct (raises (role_of th0)); [cbn in Hat; lia | reflexivity]).
        pose proof (protocol_no_new_raiser _ _ _ _ _ _ Hproto
                      ltac:(cbn in Hcc; lia) Hra) as Hrb.
        destruct (tally_update raises l i th0 th' sp _ _ Hi eq_refl eq_refl
                    eq_refl Hsp) as [-> _].
        rewrite Hra, Hrb, Hr. reflexivity.
  - intros Hin.
    destruct (step_enter_idle _ _ _ _ Hstep Hin) as (i & sp & _ & Hi).
    destruct (Inv_enter_idle c i HI Hi) as [E _].
    rewrite E in Hbusy. discriminate Hbusy.
Qed.

Lemma parked_exec c evs c' tr :
  exec c evs = Some (c', tr) ->
  Z.of_nat (length (threads c')) <= INTPTR_MAX ->
  Inv c -> parked c ->
  parked c' /\ ~ In AEnterIdle tr.
Proof.
  revert c tr. induction evs as [|ev evs IH]; intros c tr; cbn [exec].
  - intros [= <- <-] _ _ Hp. split; [exact Hp | intros []].
  - destruct (step c ev) as [[c1 a]|] eqn:Hstep; [|discriminate].
    destruct (exec c1 evs) as [[c2 tr2]|] eqn:Hexec; [|discriminate].
    intros [= <- <-] Hlen HI Hp.
    pose proof (exec_length _ _ _ _ Hexec) as Hmono.
    destruct (parked_step _ _ _ _ Hstep HI Hp) as [Hp1 Hn1].
    assert (HI1 : Inv c1) by (eapply step_preserves; eauto; lia).
    destruct (IH _ _ Hexec Hlen HI1 Hp1) as [Hp2 Hn2].
    split; [exact Hp2|]. rewrite in_app_iff. tauto.
Qed.

(** X4.  A disconnect that finds no increment from 0 in flight parks the
    channel for good.  Once a transport op has completed its disconnect
    ([IncreaseCallCount] and [grpc_timer_cancel]) and no thread that raised
    [call_count_] from 0 is still inside [IncreaseCallCount], then whatever
    happens afterwards (the executions being of at most [INTPTR_MAX] events)
    [EnterIdle] is never sent again, [state_] stays [CALLS_ACTIVE] or
    [TIMER_PENDING_CALLS_ACTIVE], and [call_count_] stays positive. *)
Theorem disconnect_parks_for_good timeout evs c tr evs' c' tr' :
  exec (init timeout) evs = Some (c, tr) ->
  parked c ->
  exec c evs' = Some (c', tr') ->
  Z.of_nat (length evs + length evs') <= INTPTR_MAX ->
  ~ In AEnterIdle tr' /\
  (state_ (chand c') = CALLS_ACTIVE \/
   state_ (chand c') = TIMER_PENDING_CALLS_ACTIVE) /\
  1 <= call_count_ (chand c').
Proof.
  intros Hexec Hp Hexec' Hlen.
  pose proof (exec_length _ _ _ _ Hexec) as L1. cbn in L1.
  pose proof (exec_length _ _ _ _ Hexec') as L2.
  assert (HI : Inv c) by (eapply reachable_Inv; eauto; lia).
  assert (HI' : Inv c') by (eapply exec_preserves; eauto; lia).
  destruct (parked_exec _ _ _ _ Hexec' ltac:(lia) HI Hp) as [Hp' Hn].
  destruct (parked_busy c' HI' Hp') as [Hb Hc].
  split; [exact Hn|]. split; [|exact Hc].
  destruct (state_ (chand c')); cbn in Hb; try discriminate; auto.
Qed.

Lemma disconnect_parks_for_good_witness :
  ~ In AEnterIdle [ANextOp true; AFetchAdd 1; AFetchSub 2] /\
  (CALLS_ACTIVE = CALLS_ACTIVE \/ CALLS_ACTIVE = TIMER_PENDING_CALLS_ACTIVE) /\
  1 <= 1.
Proof.
  apply (disconnect_parks_for_good 1000 disconnect_alone after_disconnect
           [AFetchAdd 0; ALoad IDLE; AStore CALLS_ACTIVE memory_order_relaxed;
            ATimerCancel false]
           call_after_disconnect
           (mkConfig (mkChannelData 1000 0 1 CALLS_ACTIVE None) 0
              [TransportOp (TopRet true); CallDestroy DecRet])
           [ANextOp true; AFetchAdd 1; AFetchSub 2]).
  - reflexivity.
  - split; [exists 0%nat, (TransportOp (TopNextOp true)); split; reflexivity
           | reflexivity].
  - reflexivity.
  - vm_compute. discriminate.
Defined.

(** X5.  At a quiescent point [state_] tells whether calls are open.  In
    every configuration reached in at most [INTPTR_MAX] events in which no
    call of [IncreaseCallCount] or [DecreaseCallCount] is in flight,
    [state_] is [CALLS_ACTIVE] or [TIMER_PENDING_CALLS_ACTIVE] exactly when
    [call_count_] is positive. *)
Theorem state_at_quiescence timeout evs c tr :
  exec (init timeout) evs = Some (c, tr) ->
  Z.of_nat (length evs) <= INTPTR_MAX ->
  quiescent c ->
  (busy_state (state_ (chand c)) = true <-> 0 < call_count_ (chand c)).
Proof.
  intros Hexec Hlen Hq.
  pose proof (reachable_Inv _ _ _ _ Hexec Hlen) as HI.
  assert (Hr : tally raises (threads c) = 0).
  { apply tally_zero. intros i th Hi.
    pose proof (proj1 (Forall_lookup _ _) Hq i th Hi) as [H1 _].
    destruct th as [[| |[]|]|[| | |[]| |]|[[| |[]|]|[]|[]]|[]];
      cbn in *; congruence. }
  assert (Hl : tally lowers (threads c) = 0).
  { apply tally_zero. intros i th Hi.
    pose proof (proj1 (Forall_lookup _ _) Hq i th Hi) as [_ H2].
    destruct th as [[| |[]|]|[| | |[]| |]|[[| |[]|]|[]|[]]|[]];
      cbn in *; congruence. }
  rewrite (inv_busy c HI), (inv_count c HI), tally_counts, Hr, Hl.
  split; [intros [?|[_ ?]]; lia | intros; right; split; lia].
Qed.

Lemma state_at_quiescence_witness :
  busy_state (state_ (chand after_one_call)) = true
  <-> 0 < call_count_ (chand after_one_call).
Proof.
  apply (state_at_quiescence 1000 (one_call_then_timeout 1000)
           after_one_call trace_of_one_call).
  - reflexivity.
  - vm_compute. discriminate.
  - repeat constructor.
Defined.

(** X7.  [call_count_] is never negative, and it is positive while a call is
    live: in every configuration reached in at most [INTPTR_MAX] events,
    [0 <= call_count_], and [1 <= call_count_] if some call has returned
    from [CallData::Init] and has not entered [CallData::Destroy]. *)
Theorem call_count_never_negative timeout evs c tr :
  exec (init timeout) evs = Some (c, tr) ->
  Z.of_nat (length evs) <= INTPTR_MAX ->
  0 <= call_count_ (chand c) /\
  (forall i, threads c !! i = Some (CallInit IncRet) ->
             1 <= call_count_ (chand c)).
Proof.
  intros Hexec Hlen.
  pose proof (reachable_Inv _ _ _ _ Hexec Hlen) as HI.
  rewrite (inv_count c HI). split.
  - apply tally_range.
  - intros i Hi. exact (tally_lookup_le counts _ i _ Hi eq_refl).
Qed.

Lemma call_count_never_negative_witness :
  0 <= call_count_ (chand enter_idle_race_config) /\
  (forall i, threads enter_idle_race_config !! i = Some (CallInit IncRet) ->
             1 <= call_count_ (chand enter_idle_race_config)).
Proof.
  apply (call_count_never_negative 1000 enter_idle_race
           enter_idle_race_config
           (trace_of_one_call ++
            [ALoad TIMER_PENDING;
             ACasOk TIMER_PENDING PROCESSING memory_order_acquire;
             AFetchAdd 0])).
  - reflexivity.
  - vm_compute. discriminate.
Defined.
Lemma protocol_hold (l : list thread) i a b sp cc st cc' st' :
  l !! i = Some a ->
  Forall (fun th => role_of th = Neutral) sp ->
  protocol cc st (role_of a) (role_of b) cc' st' ->
  (st = PROCESSING -> 1 <= tally holds l) ->
  st' = PROCESSING -> 1 <= tally holds (<[i := b]> l ++ sp).
Proof.
  intros Hi Hsp Hproto Hheld Hst'.
  destruct (tally_update holds l i a b sp _ _ Hi eq_refl eq_refl eq_refl Hsp)
    as [-> Hat].
  pose proof (tally_range holds l) as Hr.
  inversion Hproto; subst;
    repeat match goal with
           | H : _ = role_of _ |- _ => rewrite <- H in *; clear H
           end;
    try discriminate;
    try (specialize (Hheld eq_refl); cbn in *; lia);
    try (match goal with H : _ \/ _ |- _ => destruct H; discriminate end).
  cbn in *. lia.
Qed.

Lemma step_hold c ev c' acts :
  step c ev = Some (c', acts) ->
  (state_ (chand c) = PROCESSING -> 1 <= tally holds (threads c)) ->
  state_ (chand c') = PROCESSING -> 1 <= tally holds (threads c').
Proof.
  destruct c as [d clk l].
  destruct ev as [|i|disc|dt| |i spurious]; cbn [step chand clock threads].
  - intros [= <- <-] H E. cbn [chand threads] in *. rewrite tally_app.
    cbn. specialize (H E). lia.
  - destruct (l !! i) as [[[]| | |]|] eqn:Hi; try discriminate.
    intros [= <- <-] H E. cbn [chand threads] in *.
    rewrite (tally_insert holds _ _ _ _ Hi). cbn. specialize (H E). lia.
  - intros [= <- <-] H E. cbn [chand threads] in *. rewrite tally_app.
    specialize (H E). destruct disc; cbn; lia.
  - destruct (0 <=? dt); [|discriminate]. intros [= <- <-] H E. auto.
  - unfold grpc_timer_expire. destruct (idle_timer_ d); [|discriminate].
    destruct (_ <=? _); [|discriminate]. intros [= <- <-] H E.
    cbn [chand threads state_ set_idle_timer] in *. rewrite tally_app.
    cbn. specialize (H E). lia.
  - destruct (l !! i) as [th|] eqn:Hi; [|discriminate].
    destruct (thread_step spurious clk d th) as [[[d' th'] a] sp] eqn:E.
    intros [= <- <-] H E'. cbn [chand threads] in *.
    destruct (thread_step_protocol _ _ _ _ _ _ _ _ E) as [Hproto Hsp].
    eapply protocol_hold; eauto.
Qed.

Lemma exec_hold c evs c' tr :
  exec c evs = Some (c', tr) ->
  (state_ (chand c) = PROCESSING -> 1 <= tally holds (threads c)) ->
  state_ (chand c') = PROCESSING -> 1 <= tally holds (threads c').
Proof.
  revert c tr. induction evs as [|ev evs IH]; intros c tr; cbn [exec].
  - intros [= <- <-] H. exact H.
  - destruct (step c ev) as [[c1 a]|] eqn:Hstep; [|discriminate].
    destruct (exec c1 evs) as [[c2 tr2]|] eqn:Hexec; [|discriminate].
    intros [= <- <-] H. eapply IH; eauto. eapply step_hold; eauto.
Qed.

(** X6.  [PROCESSING] is held by one timer closure at a time.  In every
    configuration reached in at most [INTPTR_MAX] events, at most one
    closure is between its successful exchange to [PROCESSING] and the store
    that ends it, and [state_] is [PROCESSING] exactly when there is one. *)
Theorem processing_is_exclusive timeout evs c tr :
  exec (init timeout) evs = Some (c, tr) ->
  Z.of_nat (length evs) <= INTPTR_MAX ->
  tally holds (threads c) <= 1 /\
  (state_ (chand c) = PROCESSING <-> tally holds (threads c) = 1).
Proof.
  intros Hexec Hlen.
  pose proof (reachable_Inv _ _ _ _ Hexec Hlen) as HI.
  pose proof (inv_holding c HI) as Hle.
  split; [exact Hle|]. split.
  - intros E. enough (1 <= tally holds (threads c)) by lia.
    eapply exec_hold; eauto. cbn. discriminate.
  - intros E. apply (inv_processing c HI). lia.
Qed.

Lemma processing_is_exclusive_witness :
  tally holds (threads enter_idle_race_config) <= 1 /\
  (state_ (chand enter_idle_race_config) = PROCESSING
   <-> tally holds (threads enter_idle_race_config) = 1).
Proof.
  apply (processing_is_exclusive 1000 enter_idle_race
           enter_idle_race_config
           (trace_of_one_call ++
            [ALoad TIMER_PENDING;
             ACasOk TIMER_PENDING PROCESSING memory_order_acquire;
             AFetchAdd 0])).
  - reflexivity.
  - vm_compute. discriminate.
Defined.
End TrackerTheorems.

(** ** The idle timeout *)

Section GetClientIdleTimeoutFacts.
Import ClientIdleArgs.

Variable grpc_channel_args_want_minimal_stack : grpc_channel_args -> bool.
Variable grpc_channel_stack_builder : Type.
Variable grpc_channel_stack_builder_get_channel_arguments :
  grpc_channel_stack_builder -> grpc_channel_args.
Variable grpc_channel_stack_builder_prepend_filter :
  grpc_channel_stack_builder -> string -> grpc_channel_stack_builder * bool.

Let maybe_add :=
  MaybeAddClientIdleFilter grpc_channel_args_want_minimal_stack
    grpc_channel_stack_builder
    grpc_channel_stack_builder_get_channel_arguments
    grpc_channel_stack_builder_prepend_filter.

(** C7, amended.  For all channel args the timeout that
    [GetClientIdleTimeout] computes is at least 1000 ms and at most
    [INT_MAX]: a configured [client_idle_timeout_ms] from 0 to 999 is raised
    to 1000, and one from 1000 to [INT_MAX] is taken as it is.  When the key
    is absent, and also when the configured value is negative, the timeout
    is the default [INT_MAX]; and whenever the timeout is [INT_MAX],
    [MaybeAddClientIdleFilter] leaves the builder as it is and returns
    true. *)
Theorem GetClientIdleTimeout_floor_and_default
    (args : grpc_channel_args) (builder : grpc_channel_stack_builder) :
  1000 <= GetClientIdleTimeout args <= INT_MAX /\
  (forall v, args !! GRPC_ARG_CLIENT_IDLE_TIMEOUT_MS = Some (ArgInteger v) ->
             0 <= v < 1000 -> GetClientIdleTimeout args = 1000) /\
  (forall v, args !! GRPC_ARG_CLIENT_IDLE_TIMEOUT_MS = Some (ArgInteger v) ->
             1000 <= v <= INT_MAX -> GetClientIdleTimeout args = v) /\
  (forall v, args !! GRPC_ARG_CLIENT_IDLE_TIMEOUT_MS = Some (ArgInteger v) ->
             v < 0 -> GetClientIdleTimeout args = INT_MAX) /\
  (args !! GRPC_ARG_CLIENT_IDLE_TIMEOUT_MS = None ->
   GetClientIdleTimeout args = INT_MAX) /\
  (GetClientIdleTimeout
     (grpc_channel_stack_builder_get_channel_arguments builder) = INT_MAX ->
   maybe_add builder = (builder, true)).
Proof.
  unfold GetClientIdleTimeout, grpc_channel_args_find,
    grpc_channel_arg_get_integer, MIN_IDLE_TIMEOUT_MS,
    DEFAULT_IDLE_TIMEOUT_MS, INT_MAX.
  cbn [default_value min_value max_value].
  split; [|split; [|split; [|split; [|split]]]].
  - destruct (args !! GRPC_ARG_CLIENT_IDLE_TIMEOUT_MS) as [[v| |]|];
      try lia.
    destruct (Z.ltb_spec v 0); [lia|].
    destruct (Z.ltb_spec 2147483647 v); lia.
  - intros v -> Hv. destruct (Z.ltb_spec v 0); [lia|].
    destruct (Z.ltb_spec 2147483647 v); lia.
  - intros v -> Hv. destruct (Z.ltb_spec v 0); [lia|].
    destruct (Z.ltb_spec 2147483647 v); lia.
  - intros v -> Hv. destruct (Z.ltb_spec v 0); lia.
  - intros ->. reflexivity.
  - intros H. unfold maybe_add, MaybeAddClientIdleFilter.
    unfold GetClientIdleTimeout, grpc_channel_args_find,
      grpc_channel_arg_get_integer, MIN_IDLE_TIMEOUT_MS,
      DEFAULT_IDLE_TIMEOUT_MS, INT_MAX.
    cbn [default_value min_value max_value].
    rewrite H, Z.eqb_refl, andb_false_r. reflexivity.
Qed.
End GetClientIdleTimeoutFacts.

Lemma GetClientIdleTimeout_floor_and_default_witness :
  ClientIdleArgs.GetClientIdleTimeout
    {[ ClientIdleArgs.GRPC_ARG_CLIENT_IDLE_TIMEOUT_MS
       := ClientIdleArgs.ArgInteger 250 ]} = 1000 /\
  ClientIdleArgs.GetClientIdleTimeout ∅ = ClientIdleArgs.INT_MAX /\
  ClientIdleArgs.MaybeAddClientIdleFilter (fun _ => false)
    ClientIdleArgs.list_builder fst ClientIdleArgs.list_builder_prepend
    (ClientIdleArgs.negative_timeout, ["client_channel"%string])
  = ((ClientIdleArgs.negative_timeout, ["client_channel"%string]), true).
Proof.
  split; [|split].
  - apply (proj1 (proj2 (GetClientIdleTimeout_floor_and_default
                           (fun _ => false) ClientIdleArgs.list_builder fst
                           ClientIdleArgs.list_builder_prepend
                           {[ ClientIdleArgs.GRPC_ARG_CLIENT_IDLE_TIMEOUT_MS
                              := ClientIdleArgs.ArgInteger 250 ]}
                           (∅, ["client_channel"%string])))
             250); [reflexivity | lia].
  - apply (GetClientIdleTimeout_floor_and_default
             (fun _ => false) ClientIdleArgs.list_builder fst
             ClientIdleArgs.list_builder_prepend ∅
             (∅, ["client_channel"%string])).
    reflexivity.
  - apply (GetClientIdleTimeout_floor_and_default
             (fun _ => false) ClientIdleArgs.list_builder fst
             ClientIdleArgs.list_builder_prepend ∅
             (ClientIdleArgs.negative_timeout, ["client_channel"%string])).
    reflexivity.
Defined.

(** C7, as stated in the specification, fails: the configured value -5 is
    below 1000, and the timeout is not 1000 but [INT_MAX], so that the
    filter is not even added. *)
Lemma GetClientIdleTimeout_negative_not_raised :
  ClientIdleArgs.negative_timeout
    !! ClientIdleArgs.GRPC_ARG_CLIENT_IDLE_TIMEOUT_MS
  = Some (ClientIdleArgs.ArgInteger (-5)) /\
  -5 < 1000 /\
  ClientIdleArgs.GetClientIdleTimeout ClientIdleArgs.negative_timeout
  = 2147483647 /\
  ClientIdleArgs.GetClientIdleTimeout ClientIdleArgs.negative_timeout
  <> 1000 /\
  ClientIdleArgs.MaybeAddClientIdleFilter (fun _ => false)
    ClientIdleArgs.list_builder fst ClientIdleArgs.list_builder_prepend
    (ClientIdleArgs.negative_timeout, ["client_channel"%string])
  = ((ClientIdleArgs.negative_timeout, ["client_channel"%string]), true).
Proof.
  split; [reflexivity|]. split; [lia|]. split; [reflexivity|].
  split; [|reflexivity]. vm_compute. discriminate.
Qed.

(** ** The wakeup-fd factory *)

Section WakeupFdFacts.
Import WakeupFd.

(** C10, as stated, fails in one direction.  On a system without eventfd
    where pipes work, [ConfigureDefaultWakeupFdFactories] registers
    [CreatePipeWakeupFd].  If [pipe()] then fails when the first wakeup fd is
    created, [CreateWakeupFd] returns a NotFound error although a factory is
    registered. *)
Lemma CreateWakeupFd_NotFound_with_factory :
  let g_wakeup_fd_fn :=
    ConfigureDefaultWakeupFdFactories (fun _ => false) no_eventfd
      pipes_work None in
  SupportsWakeupFd g_wakeup_fd_fn = true /\
  fst (CreateWakeupFd g_wakeup_fd_fn (mkProcess no_descriptors_left None))
  = Error (NotFoundError "Pipe wakeup fd is not supported").
Proof. split; reflexivity. Qed.

(** C10, amended.  Registration is first-writer-wins: once a factory is
    registered, [SetDefaultWakeupFdFactoryIfUnset] with any argument leaves
    it in place, and so does [ConfigureDefaultWakeupFdFactories].  With no
    factory registered [CreateWakeupFd] returns the
    NotFound error of [wakeup_fd_posix.cc] and changes nothing; with a
    factory registered it returns what that factory returns. *)
Theorem wakeup_fd_factory_first_writer_wins
    (registered : factory_fn) (factory : option factory_fn) (p : process)
    (EventFdWakeupFd_IsSupported : posix -> bool)
    (CreateEventFdWakeupFd : factory_fn) (os : posix) :
  SetDefaultWakeupFdFactoryIfUnset factory (Some registered)
  = Some registered /\
  ConfigureDefaultWakeupFdFactories EventFdWakeupFd_IsSupported
    CreateEventFdWakeupFd os (Some registered)
  = Some registered /\
  SetDefaultWakeupFdFactoryIfUnset factory None = factory /\
  CreateWakeupFd None p
  = (Error (NotFoundError "Wakeup-fd is not supported on this system"), p) /\
  CreateWakeupFd (Some registered) p = registered p.
Proof.
  repeat split. unfold ConfigureDefaultWakeupFdFactories.
  destruct (EventFdWakeupFd_IsSupported os), (PipeWakeupFd_IsSupported os);
    reflexivity.
Qed.
End WakeupFdFacts.

(** ** The task and timer service *)

Section TaskServiceFacts.
Import TaskService.

Lemma count_app {A} (f : A -> bool) l1 l2 :
  length (List.filter f (l1 ++ l2))
  = (length (List.filter f l1) + length (List.filter f l2))%nat.
Proof. rewrite List.filter_app, length_app. reflexivity. Qed.

Lemma pending_insert h h' t e aba q iss now :
  pending h (mkEngine (<[h' := t]> (known_handles_ e)) aba q iss now)
  = if decide (h' = h) then 1%nat else pending h e.
Proof.
  unfold pending; cbn. destruct (decide (h' = h)) as [->|Hne].
  - rewrite lookup_insert_eq. reflexivity.
  - rewrite lookup_insert_ne by exact Hne. reflexivity.
Qed.

Lemma pending_delete h h' e aba q iss now :
  pending h (mkEngine (delete h' (known_handles_ e)) aba q iss now)
  = if decide (h' = h) then 0%nat else pending h e.
Proof.
  unfold pending; cbn. destruct (decide (h' = h)) as [->|Hne].
  - rewrite lookup_delete_eq. reflexivity.
  - rewrite lookup_delete_ne by exact Hne. reflexivity.
Qed.

Lemma is_queued_pair h h0 c : is_queued h (h0, c) = bool_decide (h0 = h).
Proof. reflexivity. Qed.

Lemma consistent_empty : consistent empty_engine [].
Proof.
  constructor; cbn; intros h.
  - intros H. inversion H.
  - intros H. inversion H.
  - intros _. reflexivity.
  - split; [intros [] | intros H; inversion H].
  - unfold refusals; cbn. lia.
Qed.

Ltac counts :=
  unfold invocations, cancellations, refusals, queued in *;
  cbn [ready_queue_ known_handles_ issued_ aba_token_ now_] in *;
  rewrite ?count_app in *; cbn [List.filter length is_invocation
    is_cancelled is_not_cancelled is_queued fst] in *.

Lemma step_consistent e history op e' obs :
  consistent e history -> step e op = Some (e', obs) ->
  consistent e' (history ++ obs).
Proof.
  intros [Hgen Honce Hnone Hret Href] Hstep.
  destruct op as [slot when c|h0|dt|h0|]; cbn [step] in Hstep.
  - (* RunAt *)
    injection Hstep as <- <-.
    assert (Hfresh : (slot, aba_token_ e) ∉ issued_ e).
    { intros Hin. apply Hgen in Hin. cbn in Hin. lia. }
    constructor; cbn [issued_ aba_token_]; intros h.
    + rewrite elem_of_cons. intros [-> | Hin]; cbn; [lia|].
      apply Hgen in Hin. lia.
    + rewrite elem_of_cons, pending_insert. counts.
      intros [-> | Hin].
      * rewrite decide_True by reflexivity.
        specialize (Hnone _ Hfresh). counts. lia.
      * rewrite decide_False by (intros <-; contradiction).
        specialize (Honce _ Hin). counts. lia.
    + rewrite elem_of_cons, pending_insert. counts. intros Hn.
      rewrite decide_False by (intros <-; apply Hn; left; reflexivity).
      specialize (Hnone h (fun H => Hn (or_intror H))). counts. lia.
    + rewrite in_app_iff, elem_of_cons, Hret. cbn. split.
      * intros [H | [[= <-] | []]]; auto.
      * intros [-> | H]; auto.
    + rewrite pending_insert. counts. intros Hr.
      destruct (decide ((slot, aba_token_ e) = h)) as [<-|Hne].
      * specialize (Hnone _ Hfresh). counts. lia.
      * rewrite ?decide_False by exact Hne. apply Href. counts. lia.
  - (* Cancel *)
    destruct (bool_decide_reflect (h0 ∈ issued_ e)) as [Hiss|]; [|discriminate].
    destruct (known_handles_ e !! h0) as [t|] eqn:Hk;
      injection Hstep as <- <-.
    + constructor; cbn [issued_ aba_token_]; intros h.
      * apply Hgen.
      * intros Hin. rewrite pending_delete. counts.
        specialize (Honce _ Hin). counts.
        destruct (decide (h0 = h)) as [->|Hne].
        -- rewrite ?decide_True, ?bool_decide_eq_true_2 by reflexivity. cbn.
           unfold pending in Honce. rewrite Hk in Honce. lia.
        -- rewrite ?decide_False, ?bool_decide_eq_false_2 by exact Hne.
           cbn. lia.
      * intros Hn. rewrite pending_delete. counts.
        specialize (Hnone _ Hn). counts.
        destruct (decide (h0 = h)) as [->|Hne]; [contradiction|].
        rewrite ?decide_False, ?bool_decide_eq_false_2 by exact Hne.
        cbn. lia.
      * rewrite in_app_iff, <- Hret. cbn. split; [|auto].
        intros [H | [[=] | []]]; auto.
      * rewrite pending_delete. counts. intros Hr.
        destruct (decide (h0 = h)) as [->|Hne].
        -- rewrite ?decide_True by reflexivity. reflexivity.
        -- rewrite ?decide_False by exact Hne.
           rewrite ?bool_decide_eq_false_2 in Hr by exact Hne. cbn in Hr.
           apply Href. counts. lia.
    + constructor; intros h.
      * apply Hgen.
      * intros Hin. counts. specialize (Honce _ Hin). counts. lia.
      * intros Hn. counts. specialize (Hnone _ Hn). counts.
        destruct (decide (h0 = h)) as [->|Hne]; [contradiction|].
        rewrite bool_decide_eq_false_2 by exact Hne. cbn. lia.
      * rewrite in_app_iff, <- Hret. cbn. split; [|auto].
        intros [H | [[=] | []]]; auto.
      * counts. intros Hr. destruct (decide (h0 = h)) as [->|Hne].
        -- unfold pending. rewrite Hk. reflexivity.
        -- rewrite ?bool_decide_eq_false_2 in Hr by exact Hne. cbn in Hr.
           apply Href. counts. lia.
  - (* Tick *)
    destruct (0 <=? dt); [|discriminate]. injection Hstep as <- <-.
    rewrite app_nil_r. constructor; auto.
  - (* Dispatch *)
    destruct (known_handles_ e !! h0) as [t|] eqn:Hk; [|discriminate].
    destruct (deadline t <=? now_ e); [|discriminate].
    injection Hstep as <- <-. rewrite app_nil_r.
    constructor; cbn [issued_ aba_token_]; intros h.
    + apply Hgen.
    + intros Hin. rewrite pending_delete. counts. rewrite is_queued_pair.
      specialize (Honce _ Hin). counts.
      destruct (decide (h0 = h)) as [->|Hne].
      * rewrite ?decide_True, ?bool_decide_eq_true_2 by reflexivity. cbn.
        unfold pending in Honce. rewrite Hk in Honce. lia.
      * rewrite ?decide_False, ?bool_decide_eq_false_2 by exact Hne.
        cbn. lia.
    + intros Hn. rewrite pending_delete. counts. rewrite is_queued_pair.
      specialize (Hnone _ Hn). counts.
      destruct (decide (h0 = h)) as [->|Hne].
      * unfold pending in Hnone. rewrite Hk in Hnone. lia.
      * rewrite ?decide_False, ?bool_decide_eq_false_2 by exact Hne.
        cbn. lia.
    + apply Hret.
    + rewrite pending_delete. intros Hr.
      destruct (decide (h0 = h)) as [->|Hne].
      * rewrite ?decide_True by reflexivity. reflexivity.
      * rewrite ?decide_False by exact Hne. apply Href. exact Hr.
  - (* Execute *)
    destruct (ready_queue_ e) as [|[h0 c] rest] eqn:Hq; [discriminate|].
    injection Hstep as <- <-.
    constructor; cbn [issued_ aba_token_]; intros h.
    + apply Hgen.
    + intros Hin. specialize (Honce _ Hin). counts. rewrite Hq in Honce.
      counts. rewrite is_queued_pair in Honce. unfold pending in *. cbn [known_handles_] in *.
      destruct (decide (h0 = h)) as [->|Hne].
      * rewrite bool_decide_eq_true_2 in * by reflexivity.
        cbn [length] in *. lia.
      * rewrite bool_decide_eq_false_2 in * by exact Hne.
        cbn [length] in *. lia.
    + intros Hn. specialize (Hnone _ Hn). counts. rewrite Hq in Hnone.
      counts. rewrite is_queued_pair in Hnone. unfold pending in *. cbn [known_handles_] in *.
      destruct (decide (h0 = h)) as [->|Hne].
      * rewrite bool_decide_eq_true_2 in * by reflexivity.
        cbn [length] in *. lia.
      * rewrite bool_decide_eq_false_2 in * by exact Hne.
        cbn [length] in *. lia.
    + rewrite in_app_iff, <- Hret. cbn. split; [|auto].
      intros [H | [[=] | []]]; auto.
    + intros Hr. unfold pending. cbn [known_handles_].
      apply Href. counts. lia.
Qed.

Lemma run_consistent ops e history e' history' :
  consistent e history -> run e history ops = Some (e', history') ->
  consistent e' history'.
Proof.
  revert e history. induction ops as [|op ops IH]; intros e history HJ;
    cbn [run].
  - intros [= <- <-]. exact HJ.
  - destruct (step e op) as [[e1 obs]|] eqn:Hstep; [|discriminate].
    apply IH. eapply step_consistent; eauto.
Qed.

(** C8.  In every run of the service, for every task scheduled with
    [RunAt]: its closure is invoked at most once and [Cancel] returns true
    for it at most once, never both; if [Cancel] returned true the closure
    has not been invoked (in no run, however long); if [Cancel] returned
    false and never true, the closure has been dispatched, so it has been
    invoked once or waits in the ready queue for its one invocation; and
    once the task is neither pending nor in the ready queue, exactly one of
    the two has happened: the closure ran, or [Cancel] returned true. *)
Theorem cancel_true_or_invoked_once ops e history h :
  run empty_engine [] ops = Some (e, history) ->
  In (Returned h) history ->
  (invocations h history + cancellations h history <= 1)%nat /\
  (In (CancelReturned h true) history -> invocations h history = 0%nat) /\
  (In (CancelReturned h false) history ->
   ~ In (CancelReturned h true) history ->
   (invocations h history + queued h e = 1)%nat) /\
  (pending h e = 0%nat -> queued h e = 0%nat ->
   (invocations h history + cancellations h history = 1)%nat).
Proof.
  intros Hrun Hret.
  destruct (run_consistent _ _ _ _ _ consistent_empty Hrun)
    as [Hgen Honce Hnone Hiss Href].
  apply Hiss in Hret. specialize (Honce _ Hret).
  assert (Hcount : forall f (o : observation) l,
             In o l -> f o = true -> (1 <= length (List.filter f l))%nat).
  { intros f o l Hin Hf. induction l as [|x l IH]; [destruct Hin|].
    cbn. destruct Hin as [-> | Hin].
    - rewrite Hf. cbn. lia.
    - specialize (IH Hin). destruct (f x); cbn; lia. }
  assert (Hnocount : forall l,
             ~ In (CancelReturned h true) l -> cancellations h l = 0%nat).
  { intros l. unfold cancellations. induction l as [|x l IH]; intros Hn;
      [reflexivity|]. cbn.
    destruct x as [h1|h1 [|]|h1 c]; cbn; try (apply IH; intros H; apply Hn; right; exact H).
    destruct (bool_decide_reflect (h1 = h)) as [->|Hne].
    - exfalso. apply Hn. left. reflexivity.
    - apply IH. intros H. apply Hn. right. exact H. }
  repeat split.
  - lia.
  - intros Hc.
    pose proof (Hcount (is_cancelled h) _ _ Hc
                  (bool_decide_eq_true_2 _ eq_refl)) as H1.
    unfold cancellations in Honce. lia.
  - intros Hf Hn.
    pose proof (Hcount (is_not_cancelled h) _ _ Hf
                  (bool_decide_eq_true_2 _ eq_refl)) as H1.
    rewrite (Href h H1), (Hnocount _ Hn) in Honce. lia.
  - intros Hp Hq. lia.
Qed.

Lemma cancel_true_or_invoked_once_witness :
  run empty_engine [] sample_run
  = Some (mkEngine ∅ 2 [] [(1, 1)%nat; (0, 0)%nat] 10, sample_history) /\
  (invocations (1, 1)%nat sample_history
   + cancellations (1, 1)%nat sample_history <= 1)%nat /\
  (In (CancelReturned (1, 1)%nat true) sample_history ->
   invocations (1, 1)%nat sample_history = 0%nat) /\
  (In (CancelReturned (1, 1)%nat false) sample_history ->
   ~ In (CancelReturned (1, 1)%nat true) sample_history ->
   (invocations (1, 1)%nat sample_history
    + queued (1, 1)%nat (mkEngine ∅ 2 [] [(1, 1)%nat; (0, 0)%nat] 10)
    = 1)%nat) /\
  (pending (1, 1)%nat (mkEngine ∅ 2 [] [(1, 1)%nat; (0, 0)%nat] 10) = 0%nat ->
   queued (1, 1)%nat (mkEngine ∅ 2 [] [(1, 1)%nat; (0, 0)%nat] 10) = 0%nat ->
   (invocations (1, 1)%nat sample_history
    + cancellations (1, 1)%nat sample_history = 1)%nat).
Proof.
  assert (Hrun : run empty_engine [] sample_run
                 = Some (mkEngine ∅ 2 [] [(1, 1)%nat; (0, 0)%nat] 10,
                         sample_history))
    by (vm_compute; reflexivity).
  split; [exact Hrun|].
  apply (cancel_true_or_invoked_once sample_run _ sample_history
           (1, 1)%nat Hrun).
  simpl. auto.
Defined.
End TaskServiceFacts.

(** ** More on the wakeup fd *)

Section PipeWakeupFdFacts.
Import WakeupFd PipeWakeupFdOps.

Variable EAGAIN : Z.
Variable EINTR : Z.
(** The two are labels of one [switch], so they differ. *)
Hypothesis EAGAIN_EINTR : EAGAIN <> EINTR.

(** X8.  [ConsumeWakeup] drains the pipe.  It keeps calling [read] as long
    as [read] returns data or is interrupted ([EINTR]), so with only such
    answers it has not returned; it returns at the first other answer: OK
    when that is end of file (0) or [EAGAIN], otherwise the Internal error
    built from [strerror]. *)
Theorem ConsumeWakeup_drains (pre : list syscall) (last : syscall)
    (rest : list syscall) :
  Forall (fun r => reads_again EINTR r = true) pre ->
  reads_again EINTR last = false ->
  ConsumeWakeup EAGAIN EINTR pre = None /\
  ConsumeWakeup EAGAIN EINTR (pre ++ last :: rest)
  = Some (if (ret last =? 0) || ((ret last <? 0) && (errno last =? EAGAIN))
          then OkStatus
          else mkStatus kInternal ("read: " ++ strerror last),
          rest).
Proof.
  intros Hpre Hlast. induction Hpre as [|r pre Hr _ IH].
  - split; [reflexivity|]. cbn [app ConsumeWakeup].
    unfold reads_again in Hlast.
    destruct (Z.ltb_spec 0 (ret last)); [discriminate Hlast|].
    destruct (Z.eqb_spec (ret last) 0); [reflexivity|].
    destruct (Z.ltb_spec (ret last) 0); [|lia]. cbn in Hlast |- *.
    rewrite Hlast. destruct (errno last =? EAGAIN); reflexivity.
  - cbn [app ConsumeWakeup]. unfold reads_again in Hr.
    destruct (Z.ltb_spec 0 (ret r)); [exact IH|].
    destruct (Z.eqb_spec (ret r) 0) as [E|E];
      [rewrite E in Hr; discriminate Hr|].
    cbn in Hr. apply andb_prop in Hr as [_ Hr]. rewrite Hr.
    apply Z.eqb_eq in Hr.
    destruct (Z.eqb_spec (errno r) EAGAIN); [congruence | exact IH].
Qed.
End PipeWakeupFdFacts.

Lemma ConsumeWakeup_drains_witness :
  PipeWakeupFdOps.ConsumeWakeup PipeWakeupFdOps.linux_EAGAIN
    PipeWakeupFdOps.linux_EINTR PipeWakeupFdOps.two_reads_then_empty = None /\
  PipeWakeupFdOps.ConsumeWakeup PipeWakeupFdOps.linux_EAGAIN
    PipeWakeupFdOps.linux_EINTR
    (PipeWakeupFdOps.two_reads_then_empty
     ++ PipeWakeupFdOps.pipe_is_empty :: [])
  = Some (WakeupFd.OkStatus, []).
Proof.
  apply (ConsumeWakeup_drains PipeWakeupFdOps.linux_EAGAIN
           PipeWakeupFdOps.linux_EINTR ltac:(discriminate)
           PipeWakeupFdOps.two_reads_then_empty
           PipeWakeupFdOps.pipe_is_empty []).
  - repeat constructor.
  - reflexivity.
Defined.

Section WakeupFacts.
Import WakeupFd PipeWakeupFdOps.
Variable EINTR : Z.

(** X9.  [Wakeup] never reports a failure.  It writes again only after a
    [write] that did not write its byte and was interrupted ([EINTR]), so
    with only such answers it has not returned; after the first other answer
    it returns OK, also when that [write] failed. *)
Theorem Wakeup_never_fails (pre : list syscall) (w : syscall)
    (rest : list syscall) :
  Forall (fun x => writes_again EINTR x = true) pre ->
  writes_again EINTR w = false ->
  Wakeup EINTR pre = None /\
  Wakeup EINTR (pre ++ w :: rest) = Some (OkStatus, rest).
Proof.
  intros Hpre Hw. induction Hpre as [|x pre Hx _ IH].
  - split; [reflexivity|]. cbn [app Wakeup]. unfold writes_again in Hw.
    rewrite Hw. reflexivity.
  - cbn [app Wakeup]. unfold writes_again in Hx. rewrite Hx. exact IH.
Qed.
End WakeupFacts.

Lemma Wakeup_never_fails_witness :
  PipeWakeupFdOps.Wakeup PipeWakeupFdOps.linux_EINTR
    [PipeWakeupFdOps.mkSyscall (-1) PipeWakeupFdOps.linux_EINTR ""] = None /\
  PipeWakeupFdOps.Wakeup PipeWakeupFdOps.linux_EINTR
    ([PipeWakeupFdOps.mkSyscall (-1) PipeWakeupFdOps.linux_EINTR ""]
     ++ PipeWakeupFdOps.pipe_is_full :: [])
  = Some (WakeupFd.OkStatus, []).
Proof.
  apply (Wakeup_never_fails PipeWakeupFdOps.linux_EINTR
           [PipeWakeupFdOps.mkSyscall (-1) PipeWakeupFdOps.linux_EINTR ""]
           PipeWakeupFdOps.pipe_is_full []).
  - repeat constructor.
  - reflexivity.
Defined.

Section DestroyFacts.
Import WakeupFd PipeWakeupFdOps.

(** X10.  [Destroy] closes each descriptor that is not 0, once, and sets
    both to 0; a second [Destroy] closes nothing.  A descriptor 0 is taken
    for no descriptor and is never closed. *)
Theorem Destroy_closes_once (w : PipeWakeupFd) :
  fst (Destroy w) = mkPipeWakeupFd 0 0 /\
  snd (Destroy w)
  = List.filter (fun fd => negb (fd =? 0)) [read_fd_ w; write_fd_ w] /\
  ~ In 0 (snd (Destroy w)) /\
  Destroy (fst (Destroy w)) = (mkPipeWakeupFd 0 0, []).
Proof.
  assert (H1 : fst (Destroy w) = mkPipeWakeupFd 0 0).
  { unfold Destroy.
    destruct (Z.eqb_spec (read_fd_ w) 0) as [->|],
             (Z.eqb_spec (write_fd_ w) 0) as [->|]; reflexivity. }
  split; [exact H1|]. split; [|split].
  - unfold Destroy. cbn [List.filter].
    destruct (read_fd_ w =? 0), (write_fd_ w =? 0); reflexivity.
  - unfold Destroy.
    destruct (Z.eqb_spec (read_fd_ w) 0), (Z.eqb_spec (write_fd_ w) 0);
      cbn; intuition congruence.
  - rewrite H1. reflexivity.
Qed.
End DestroyFacts.

Section PipeFactoryFacts.
Import WakeupFd.

(** X11.  [PipeWakeupFd::Init] gives a pipe with both ends non-blocking, or
    an Internal error.  When it returns OK, [pipe()] has given the two
    descriptors that the object now holds, and for each of them [fcntl]
    [F_GETFL] gave flags that are not negative and [F_SETFL] was accepted
    with these flags and [O_NONBLOCK] added.  When it does not return OK, the
    code is Internal and the object holds no descriptor. *)
Theorem Init_nonblocking_or_Internal (os : posix) :
  (ok (fst (PipeWakeupFd_Init os)) = true ->
   exists fd0 fd1,
     sys_pipe os = Some (fd0, fd1) /\
     snd (PipeWakeupFd_Init os) = mkPipeWakeupFd fd0 fd1 /\
     Forall (fun fd =>
               0 <= sys_fcntl_getfl os fd /\
               sys_fcntl_setfl os fd
                 (Z.lor (sys_fcntl_getfl os fd) (O_NONBLOCK os)) = 0)
            [fd0; fd1]) /\
  (ok (fst (PipeWakeupFd_Init os)) = false ->
   code (fst (PipeWakeupFd_Init os)) = kInternal /\
   snd (PipeWakeupFd_Init os) = mkPipeWakeupFd 0 0).
Proof.
  assert (Hnb : forall fd,
             (ok (SetSocketNonBlocking os fd) = true ->
              0 <= sys_fcntl_getfl os fd /\
              sys_fcntl_setfl os fd
                (Z.lor (sys_fcntl_getfl os fd) (O_NONBLOCK os)) = 0) /\
             (ok (SetSocketNonBlocking os fd) = false ->
              code (SetSocketNonBlocking os fd) = kInternal)).
  { intros fd. unfold SetSocketNonBlocking.
    destruct (Z.ltb_spec (sys_fcntl_getfl os fd) 0); cbn;
      [split; [discriminate | reflexivity]|].
    destruct (Z.eqb_spec (sys_fcntl_setfl os fd
                (Z.lor (sys_fcntl_getfl os fd) (O_NONBLOCK os))) 0); cbn;
      split; try discriminate; auto. }
  unfold PipeWakeupFd_Init.
  destruct (sys_pipe os) as [[fd0 fd1]|]; cbn;
    [|split; [discriminate | auto]].
  destruct (Hnb fd0) as [Hok0 Hbad0], (Hnb fd1) as [Hok1 Hbad1].
  destruct (ok (SetSocketNonBlocking os fd0)) eqn:E0; cbn.
  - destruct (ok (SetSocketNonBlocking os fd1)) eqn:E1; cbn.
    + split; [|discriminate]. intros _. exists fd0, fd1.
      split; [reflexivity|]. split; [reflexivity|].
      repeat constructor; tauto.
    + rewrite E1. split; [discriminate | auto].
  - rewrite E0. split; [discriminate | auto].
Qed.

(** X12.  [CreatePipeWakeupFd] probes for pipes once.  The first call
    sets the function's static [kIsPipeWakeupFdSupported] from
    [PipeWakeupFd::IsSupported()], and no call changes it afterwards.  If
    the probe failed, every later call returns the NotFound error, whatever
    the system would answer then; if it succeeded, a later call returns what
    [Init] gives then: the wakeup fd, or the Internal error of [Init]. *)
Theorem CreatePipeWakeupFd_probes_once (p : process) (os' : posix) :
  let p1 := snd (CreatePipeWakeupFd p) in
  let later :=
    CreatePipeWakeupFd (mkProcess os' (kIsPipeWakeupFdSupported p1)) in
  (kIsPipeWakeupFdSupported p = None ->
   kIsPipeWakeupFdSupported p1
   = Some (PipeWakeupFd_IsSupported (os_ p))) /\
  (forall b, kIsPipeWakeupFdSupported p = Some b ->
             kIsPipeWakeupFdSupported p1 = Some b) /\
  kIsPipeWakeupFdSupported (snd later) = kIsPipeWakeupFdSupported p1 /\
  (kIsPipeWakeupFdSupported p1 = Some false ->
   fst later = Error (NotFoundError "Pipe wakeup fd is not supported")) /\
  (kIsPipeWakeupFdSupported p1 = Some true ->
   fst later
   = if ok (fst (PipeWakeupFd_Init os'))
     then Value (snd (PipeWakeupFd_Init os'))
     else Error (fst (PipeWakeupFd_Init os'))).
Proof.
  assert (Hstatic : forall q,
             kIsPipeWakeupFdSupported (snd (CreatePipeWakeupFd q))
             = Some (match kIsPipeWakeupFdSupported q with
                     | Some b => b
                     | None => PipeWakeupFd_IsSupported (os_ q)
                     end)).
  { intros q. unfold CreatePipeWakeupFd.
    destruct (match kIsPipeWakeupFdSupported q with
              | Some b => b
              | None => PipeWakeupFd_IsSupported (os_ q)
              end); [|reflexivity].
    destruct (PipeWakeupFd_Init (os_ q)) as [s w].
    destruct (ok s); reflexivity. }
  cbv zeta. rewrite !Hstatic. cbn [kIsPipeWakeupFdSupported os_].
  repeat split.
  - intros ->. reflexivity.
  - intros b ->. reflexivity.
  - intros [= E]. unfold CreatePipeWakeupFd.
    cbn [kIsPipeWakeupFdSupported os_]. rewrite E. reflexivity.
  - intros [= E]. unfold CreatePipeWakeupFd.
    cbn [kIsPipeWakeupFdSupported os_]. rewrite E.
    destruct (PipeWakeupFd_Init os') as [s w]. cbn.
    destruct (ok s); reflexivity.
Qed.

(** X13.  What [ConfigureDefaultWakeupFdFactories] leaves registered.
    Starting with no factory, wakeup fds are supported afterwards exactly
    when eventfd or pipes are; eventfd is preferred to pipes; when neither
    is supported nothing is registered and [CreateWakeupFd] returns the
    NotFound error of [wakeup_fd_posix.cc]; and configuring a second time
    changes nothing. *)
Theorem ConfigureDefaultWakeupFdFactories_choice
    (EventFdWakeupFd_IsSupported : posix -> bool)
    (CreateEventFdWakeupFd : factory_fn) (os : posix)
    (g : option factory_fn) (p : process) :
  let configure :=
    ConfigureDefaultWakeupFdFactories EventFdWakeupFd_IsSupported
      CreateEventFdWakeupFd os in
  SupportsWakeupFd (configure None)
  = EventFdWakeupFd_IsSupported os || PipeWakeupFd_IsSupported os /\
  (EventFdWakeupFd_IsSupported os = true ->
   configure None = Some CreateEventFdWakeupFd) /\
  (EventFdWakeupFd_IsSupported os = false ->
   PipeWakeupFd_IsSupported os = true ->
   configure None = Some CreatePipeWakeupFd) /\
  (EventFdWakeupFd_IsSupported os = false ->
   PipeWakeupFd_IsSupported os = false ->
   CreateWakeupFd (configure None) p
   = (Error (NotFoundError "Wakeup-fd is not supported on this system"),
      p)) /\
  configure (configure g) = configure g.
Proof.
  cbv zeta. unfold ConfigureDefaultWakeupFdFactories.
  destruct (EventFdWakeupFd_IsSupported os), (PipeWakeupFd_IsSupported os);
    cbn; repeat split; try discriminate; auto; destruct g; reflexivity.
Qed.
End PipeFactoryFacts.

(** ** The list of [MetadataMap] *)

Section MetadataList.
Import MetadataBatch.
Context `{Metadata}.

Lemma write_Some p f (h : heap) n :
  h !! p = Some n -> write p f h = Some (<[p := f n]> h).
Proof. intros E. unfold write. rewrite E. reflexivity. Qed.

Lemma size_t_wrap_small z : 0 <= z < 2 ^ 64 -> size_t_wrap z = z.
Proof. intros Hz. unfold size_t_wrap. apply Z.mod_small. exact Hz. Qed.

Lemma linked_at (h : heap) ps i p :
  linked h ps -> ps !! i = Some p ->
  exists n, h !! p = Some n /\ next n = ps !! S i /\
            prev n = match i with O => None | S j => ps !! j end.
Proof. intros [_ Hl]. apply Hl. Qed.

Lemma linked_index (h : heap) ps i j p :
  linked h ps -> ps !! i = Some p -> ps !! j = Some p -> i = j.
Proof. intros [Hnd _]. apply NoDup_lookup. exact Hnd. Qed.

Lemma linked_nil (h : heap) : linked h [].
Proof. split; [constructor | intros i p Hi; discriminate Hi]. Qed.

(** The elements are those of the objects, whatever the links. *)
Lemma contents_ext (h h' : heap) ps :
  (forall p, p ∈ ps -> element h' p = element h p) ->
  contents h' ps = contents h ps.
Proof.
  intros Hext. unfold contents. induction ps as [|p ps IH]; [reflexivity|].
  cbn. rewrite (Hext p) by apply list_elem_of_here.
  rewrite IH; [reflexivity|].
  intros q Hq. apply Hext. apply list_elem_of_further. exact Hq.
Qed.

Lemma element_insert_same (h : heap) p n n' :
  h !! p = Some n -> md n' = md n ->
  forall q, element (<[p := n']> h) q = element h q.
Proof.
  intros Hp Hmd q. unfold element. destruct (decide (q = p)) as [->|Hne].
  - rewrite lookup_insert_eq, Hp. cbn. rewrite Hmd. reflexivity.
  - rewrite lookup_insert_ne by congruence. reflexivity.
Qed.

Lemma link_head_is_list (h : heap) (l : grpc_mdelem_list) (ps : list loc)
    (storage : loc) :
  is_list h l ps ->
  storage ∉ ps -> is_Some (h !! storage) ->
  Z.of_nat (length ps) + 1 < 2 ^ 64 ->
  exists l' h',
    link_head l storage h = Some (l', h') /\
    is_list h' l' (storage :: ps) /\
    default_count l' = default_count l /\
    (forall p, element h' p = element h p) /\
    (forall p, p <> storage -> p ∉ ps -> h' !! p = h !! p).
Proof.
  intros (Hl & Hhead & Htail & Hcount) Hfresh [s Hs] Hlen.
  unfold link_head. rewrite (write_Some _ _ _ _ Hs). cbn [mbind option_bind].
  destruct ps as [|first ps'].
  - (* the empty list *)
    cbn in Hhead, Htail. rewrite Hhead. cbn.
    eexists _, _. split; [reflexivity|]. split; [|split; [|split]].
    + split; [|repeat split; cbn].
      * split; [apply NoDup_singleton|]. intros [|i] p Hi; [|discriminate Hi].
        injection Hi as <-. eexists. rewrite lookup_insert_eq.
        split; [reflexivity|]. cbn. auto.
      * rewrite Hcount. cbn. rewrite size_t_wrap_small by lia. lia.
    + reflexivity.
    + intros p. apply (element_insert_same _ _ _ _ Hs). reflexivity.
    + intros p Hp _. rewrite lookup_insert_ne by congruence. reflexivity.
  - (* [first] is the head *)
    cbn in Hhead. rewrite Hhead.
    assert (Hne : first <> storage)
      by (intros ->; apply Hfresh; apply list_elem_of_here).
    destruct (linked_at _ _ 0%nat first Hl eq_refl) as (nf & Hf & Hnext & Hprev).
    rewrite (write_Some _ _ _ nf)
      by (rewrite lookup_insert_ne by congruence; exact Hf).
    cbn. eexists _, _. split; [reflexivity|]. split; [|split; [|split]].
    + split; [|repeat split; cbn].
      * split; [apply NoDup_cons; split; [exact Hfresh | apply Hl]|].
        intros [|[|j]] p Hi;
          [cbn in Hi | cbn in Hi
          | change ((first :: ps') !! S j = Some p) in Hi].
        -- injection Hi as <-. eexists.
           rewrite lookup_insert_ne, lookup_insert_eq by congruence.
           split; [reflexivity|]. cbn. auto.
        -- injection Hi as <-. eexists. rewrite lookup_insert_eq.
           split; [reflexivity|]. cbn. auto.
        -- assert (p <> first).
           { intros ->.
             pose proof (linked_index _ _ (S j) 0%nat first Hl Hi eq_refl).
             discriminate. }
           assert (p <> storage).
           { intros ->. apply Hfresh. eapply list_elem_of_lookup_2.
             exact Hi. }
           destruct (linked_at _ _ (S j) p Hl Hi) as (n & Hn & Hnx & Hpv).
           exists n. rewrite !lookup_insert_ne by congruence. auto.
      * rewrite Htail. destruct ps'; reflexivity.
      * rewrite Hcount. rewrite size_t_wrap_small by (cbn [length] in *; lia).
        cbn [length]. lia.
    + reflexivity.
    + intros p. rewrite (element_insert_same _ first nf) by
        (rewrite ?lookup_insert_ne by congruence; auto).
      apply (element_insert_same _ _ _ _ Hs). reflexivity.
    + intros p Hp Hnin. rewrite !lookup_insert_ne; auto.
      intros ->. apply Hnin. apply list_elem_of_here.
Qed.

(** X14.  [link_head] puts the object in front.  If [list] is the doubly
    linked list of the objects at [ps], and [storage] is an object that is
    not one of them, then [link_head] succeeds, [list] is afterwards the
    doubly linked list of [storage] followed by [ps], one longer; the
    elements stored in the objects are unchanged and no other object is
    written. *)
Theorem link_head_links (h : heap) (l : grpc_mdelem_list) (ps : list loc)
    (storage : loc) :
  is_list h l ps ->
  storage ∉ ps -> is_Some (h !! storage) ->
  Z.of_nat (length ps) + 1 < 2 ^ 64 ->
  exists l' h',
    link_head l storage h = Some (l', h') /\
    is_list h' l' (storage :: ps) /\
    default_count l' = default_count l /\
    (forall p, element h' p = element h p) /\
    (forall p, p <> storage -> p ∉ ps -> h' !! p = h !! p).
Proof. exact (link_head_is_list h l ps storage). Qed.
Lemma lookup_snoc_cases {A} (ps : list A) (x : A) i p :
  (ps ++ [x]) !! i = Some p ->
  ((i < length ps)%nat /\ ps !! i = Some p) \/ (i = length ps /\ p = x).
Proof.
  intros Hi. apply lookup_snoc_Some in Hi. intuition congruence.
Qed.

Lemma link_tail_is_list (h : heap) (l : grpc_mdelem_list) (ps : list loc)
    (storage : loc) :
  is_list h l ps ->
  storage ∉ ps -> is_Some (h !! storage) ->
  Z.of_nat (length ps) + 1 < 2 ^ 64 ->
  exists l' h',
    link_tail l storage h = Some (l', h') /\
    is_list h' l' (ps ++ [storage]) /\
    default_count l' = default_count l /\
    (forall p, element h' p = element h p) /\
    (forall p, p <> storage -> p ∉ ps -> h' !! p = h !! p).
Proof.
  intros (Hl & Hhead & Htail & Hcount) Hfresh [s Hs] Hlen.
  unfold link_tail. rewrite (write_Some _ _ _ _ Hs). cbn [mbind option_bind].
  rewrite last_lookup in Htail.
  destruct (ps !! Init.Nat.pred (length ps)) as [final|] eqn:Hfinal.
  - (* [final] is the tail *)
    rewrite Htail.
    assert (Hpos : (0 < length ps)%nat).
    { apply lookup_lt_Some in Hfinal. lia. }
    assert (Hne : final <> storage).
    { intros ->. apply Hfresh. eapply list_elem_of_lookup_2. exact Hfinal. }
    destruct (linked_at _ _ _ final Hl Hfinal) as (nf & Hf & Hnext & Hprev).
    rewrite (write_Some _ _ _ nf)
      by (rewrite lookup_insert_ne by congruence; exact Hf).
    cbn. eexists _, _. split; [reflexivity|]. split; [|split; [|split]].
    + split; [|repeat split; cbn].
      * split.
        { apply NoDup_app. split; [apply Hl|]. split; [|apply NoDup_singleton].
          intros x Hx Hx'. apply list_elem_of_singleton in Hx'. subst x.
          contradiction. }
        intros i p Hi. destruct (lookup_snoc_cases _ _ _ _ Hi)
          as [[Hlt Hp] | [-> ->]].
        -- destruct (linked_at _ _ i p Hl Hp) as (n & Hn & Hnx & Hpv).
           assert (p <> storage).
           { intros ->. apply Hfresh. eapply list_elem_of_lookup_2. exact Hp. }
           destruct (decide (p = final)) as [->|Hpf].
           ++ pose proof (linked_index _ _ _ _ _ Hl Hp Hfinal) as ->.
              rewrite Hf in Hn. injection Hn as <-.
              eexists. rewrite lookup_insert_eq. split; [reflexivity|]. cbn.
              split.
              ** replace (S (Init.Nat.pred (length ps))) with (length ps) by lia.
                 rewrite list_lookup_middle; reflexivity.
              ** rewrite Hprev. destruct (Init.Nat.pred (length ps)) eqn:E;
                   [reflexivity|].
                 rewrite lookup_app_l by lia. reflexivity.
           ++ exists n. rewrite !lookup_insert_ne by congruence.
              split; [exact Hn|]. split.
              ** rewrite Hnx.
                 assert (i <> Init.Nat.pred (length ps)).
                 { intros ->. rewrite Hfinal in Hp. congruence. }
                 rewrite lookup_app_l by lia. reflexivity.
              ** rewrite Hpv. destruct i; [reflexivity|].
                 rewrite lookup_app_l by lia. reflexivity.
        -- eexists. rewrite lookup_insert_ne, lookup_insert_eq by congruence.
           split; [reflexivity|]. cbn. split.
           ++ symmetry. apply lookup_ge_None_2. rewrite length_app. cbn. lia.
           ++ destruct (length ps) eqn:E; [lia|].
              cbn [Init.Nat.pred] in Hfinal.
              rewrite lookup_app_l by (rewrite E; lia).
              symmetry. exact Hfinal.
      * rewrite Hhead. destruct ps; [cbn in Hpos; lia | reflexivity].
      * rewrite last_snoc. reflexivity.
      * rewrite Hcount, length_app. cbn [length].
        rewrite size_t_wrap_small by lia. lia.
    + reflexivity.
    + intros p. rewrite (element_insert_same _ final nf) by
        (rewrite ?lookup_insert_ne by congruence; auto).
      apply (element_insert_same _ _ _ _ Hs). reflexivity.
    + intros p Hp Hnin. rewrite !lookup_insert_ne; auto.
      intros ->. apply Hnin. eapply list_elem_of_lookup_2. exact Hfinal.
  - (* the empty list *)
    rewrite Htail. cbn.
    assert (ps = []) as ->.
    { destruct ps as [|x ps]; [reflexivity|]. exfalso.
      apply lookup_ge_None_1 in Hfinal. cbn in Hfinal. lia. }
    eexists _, _. split; [reflexivity|]. split; [|split; [|split]].
    + split; [|repeat split; cbn].
      * split; [apply NoDup_singleton|]. intros [|i] p Hi; [|discriminate Hi].
        injection Hi as <-. eexists. rewrite lookup_insert_eq.
        split; [reflexivity|]. cbn. auto.
      * rewrite Hcount. cbn. rewrite size_t_wrap_small by lia. lia.
    + reflexivity.
    + intros p. apply (element_insert_same _ _ _ _ Hs). reflexivity.
    + intros p Hp _. rewrite lookup_insert_ne by congruence. reflexivity.
Qed.

(** X15.  [link_tail] puts the object at the end.  If [list] is the doubly
    linked list of the objects at [ps], and [storage] is an object that is
    not one of them, then [link_tail] succeeds, [list] is afterwards the
    doubly linked list of [ps] followed by [storage], one longer; the
    elements stored in the objects are unchanged and no other object is
    written. *)
Theorem link_tail_links (h : heap) (l : grpc_mdelem_list) (ps : list loc)
    (storage : loc) :
  is_list h l ps ->
  storage ∉ ps -> is_Some (h !! storage) ->
  Z.of_nat (length ps) + 1 < 2 ^ 64 ->
  exists l' h',
    link_tail l storage h = Some (l', h') /\
    is_list h' l' (ps ++ [storage]) /\
    default_count l' = default_count l /\
    (forall p, element h' p = element h p) /\
    (forall p, p <> storage -> p ∉ ps -> h' !! p = h !! p).
Proof. exact (link_tail_is_list h l ps storage). Qed.
Lemma linked_pointers (h : heap) ps :
  linked h ps <->
  NoDup ps /\
  pointers h ps (fun i => ps !! S i)
    (fun i => match i with O => None | S j => ps !! j end).
Proof. reflexivity. Qed.

(** The pointers after the object at [k] has been bypassed. *)
Lemma bypassed_linked (h : heap) ps k :
  NoDup ps -> (k < length ps)%nat ->
  pointers h ps
    (fun i => if decide (S i = k) then ps !! S k else ps !! S i)
    (fun i => if decide (i = S k)
              then match k with O => None | S j => ps !! j end
              else match i with O => None | S j => ps !! j end) ->
  linked h (delete k ps).
Proof.
  intros Hnd Hk Hp. split.
  - eapply sublist_NoDup; [exact Hnd | apply sublist_delete].
  - intros i p Hi. destruct (decide (i < k)%nat) as [Hlt|Hge].
    + rewrite list_lookup_delete_lt in Hi by lia.
      destruct (Hp i p Hi) as (n & Hn & Hnx & Hpv). exists n.
      split; [exact Hn|]. split.
      * rewrite Hnx. destruct (decide (S i = k)) as [<-|Hne].
        -- rewrite list_lookup_delete_ge by lia. reflexivity.
        -- rewrite list_lookup_delete_lt by lia. reflexivity.
      * rewrite Hpv. destruct (decide (i = S k)); [lia|].
        destruct i; [reflexivity|].
        rewrite list_lookup_delete_lt by lia. reflexivity.
    + rewrite list_lookup_delete_ge in Hi by lia.
      destruct (Hp (S i) p Hi) as (n & Hn & Hnx & Hpv). exists n.
      split; [exact Hn|]. split.
      * rewrite Hnx. destruct (decide (S (S i) = k)); [lia|].
        rewrite list_lookup_delete_ge by lia. reflexivity.
      * rewrite Hpv. destruct (decide (S i = S k)) as [E|Hne].
        -- injection E as ->. destruct k; [reflexivity|].
           rewrite list_lookup_delete_lt by lia. reflexivity.
        -- destruct i; [lia|].
           rewrite list_lookup_delete_ge by lia. reflexivity.
Qed.

(** One write to the object at [ps !! j]. *)
Lemma pointers_write (h : heap) ps j q n f nexts prevs nexts' prevs' :
  NoDup ps -> ps !! j = Some q -> h !! q = Some n ->
  pointers h ps nexts prevs ->
  next (f n) = nexts' j -> prev (f n) = prevs' j ->
  (forall i, i <> j -> nexts' i = nexts i /\ prevs' i = prevs i) ->
  pointers (<[q := f n]> h) ps nexts' prevs'.
Proof.
  intros Hnd Hj Hq Hp Hnx Hpv Hother i p Hi.
  destruct (decide (i = j)) as [->|Hne].
  - rewrite Hj in Hi. injection Hi as <-. exists (f n).
    rewrite lookup_insert_eq. auto.
  - destruct (Hp i p Hi) as (m & Hm & Hmx & Hmv). exists m.
    rewrite lookup_insert_ne.
    + destruct (Hother i Hne) as [-> ->]. auto.
    + intros ->. apply Hne. symmetry. eapply NoDup_lookup; eauto.
Qed.

Lemma pointers_ext (h : heap) ps nexts prevs nexts' prevs' :
  pointers h ps nexts prevs ->
  (forall i, (i < length ps)%nat ->
             nexts' i = nexts i /\ prevs' i = prevs i) ->
  pointers h ps nexts' prevs'.
Proof.
  intros Hp Hext i p Hi. destruct (Hp i p Hi) as (n & Hn & Hnx & Hpv).
  exists n. destruct (Hext i (lookup_lt_Some _ _ _ Hi)) as [-> ->]. auto.
Qed.
Lemma element_write (h h' : heap) q f :
  write q f h = Some h' -> (forall n, md (f n) = md n) ->
  forall p, element h' p = element h p.
Proof.
  unfold write. destruct (h !! q) as [n|] eqn:Hq; [|discriminate].
  intros [= <-] Hmd. apply (element_insert_same _ _ _ _ Hq). apply Hmd.
Qed.

(** [unlink_storage] at the object at index [k] of the list. *)
Lemma unlink_storage_at (h : heap) (l : grpc_mdelem_list) (ps : list loc)
    (storage : loc) (k : nat) :
  is_list h l ps -> ps !! k = Some storage ->
  Z.of_nat (length ps) < 2 ^ 64 ->
  exists l' h',
    unlink_storage l storage h = Some (l', h') /\
    is_list h' l' (delete k ps) /\
    default_count l' = default_count l /\
    (forall p, element h' p = element h p) /\
    (forall p, p ∉ delete k ps -> h' !! p = h !! p).
Proof.
  intros (Hl & Hhead & Htail & Hcount) Hk Hlen.
  pose proof (lookup_lt_Some _ _ _ Hk) as Hklt.
  destruct (linked_at _ _ k storage Hl Hk) as (s & Hs & Hnext & Hprev).
  pose proof (proj1 Hl) as Hnd. pose proof (proj2 Hl) as Hp.
  (* the first write *)
  assert (Hstage1 : exists l1 h1,
    match prev s with
    | Some before => h0 ← write before (set_next (next s)) h; Some (l, h0)
    | None => Some (set_head (next s) l, h)
    end = Some (l1, h1) /\
    pointers h1 ps
      (fun i => if decide (S i = k) then ps !! S k else ps !! S i)
      (fun i => match i with O => None | S j => ps !! j end) /\
    head l1 = delete k ps !! 0%nat /\ tail l1 = tail l /\
    count l1 = count l /\ default_count l1 = default_count l /\
    h1 !! storage = Some s /\
    (forall p, element h1 p = element h p) /\
    (forall p, p ∉ delete k ps -> h1 !! p = h !! p)).
  { destruct k as [|j].
    - rewrite Hprev. eexists _, _. split; [reflexivity|].
      split; [|repeat split; cbn; auto].
      + eapply pointers_ext; [exact Hp|]. intros i _.
        destruct (decide (S i = 0%nat)); [lia | auto].
      + rewrite Hnext, list_lookup_delete_ge by lia. reflexivity.
    - destruct (lookup_lt_is_Some_2 ps j ltac:(lia)) as [before Hb].
      rewrite Hprev, Hb.
      destruct (linked_at _ _ j before Hl Hb) as (nb & Hnb & Hbx & Hbv).
      assert (before <> storage).
      { intros ->. pose proof (NoDup_lookup _ _ _ _ Hnd Hb Hk). lia. }
      rewrite (write_Some _ _ _ _ Hnb). cbn.
      eexists _, _. split; [reflexivity|].
      split; [|repeat split; cbn; auto].
      + eapply (pointers_write h ps j before nb (set_next (next s))
                  _ _ _ _ Hnd Hb Hnb Hp).
        * cbn. destruct (decide (S j = S j)); [exact Hnext | congruence].
        * cbn. exact Hbv.
        * intros i Hi. destruct (decide (S i = S j)); [lia | auto].
      + rewrite Hhead, list_lookup_delete_lt by lia. reflexivity.
      + rewrite lookup_insert_ne by congruence. exact Hs.
      + intros p. apply (element_insert_same _ _ _ _ Hnb). reflexivity.
      + intros p Hpn. rewrite lookup_insert_ne; [reflexivity|].
        intros ->. apply Hpn. apply (list_elem_of_lookup_2 _ j).
        rewrite list_lookup_delete_lt by lia. exact Hb. }
  destruct Hstage1 as (l1 & h1 & E1 & Hp1 & Hhead1 & Htail1 & Hcount1 &
                       Hdc1 & Hs1 & Hel1 & Hfr1).
  unfold unlink_storage. rewrite Hs. cbn [mbind option_bind].
  rewrite E1. cbn [mbind option_bind]. rewrite Hs1. cbn [mbind option_bind].
  (* the second write *)
  assert (Hlast : last (delete k ps)
                  = match ps !! S k with
                    | Some _ => last ps
                    | None => match k with O => None | S j => ps !! j end
                    end).
  { rewrite !last_lookup, length_delete by eauto.
    destruct (ps !! S k) eqn:E.
    - apply lookup_lt_Some in E.
      rewrite list_lookup_delete_ge by lia. f_equal. lia.
    - apply lookup_ge_None_1 in E.
      assert (length ps = S k) as -> by lia. cbn.
      destruct k; [destruct ps as [|? [|? ?]]; cbn in *; try lia; reflexivity|].
      rewrite list_lookup_delete_lt by lia. reflexivity. }
  destruct (next s) as [after|] eqn:Hns.
  - assert (Ha : ps !! S k = Some after) by congruence.
    rewrite Ha in Hlast.
    destruct (Hp1 (S k) after Ha) as (na & Hna & Hax & Hav).
    rewrite (write_Some _ _ _ _ Hna). cbn.
    eexists _, _. split; [reflexivity|]. split; [|split; [|split]].
    + split; [|repeat split; cbn].
      * apply bypassed_linked; [exact Hnd | exact Hklt |].
        eapply (pointers_write h1 ps (S k) after na (set_prev (prev s))
                  _ _ _ _ Hnd Ha Hna Hp1).
        -- cbn. exact Hax.
        -- cbn. destruct (decide (S k = S k)); [exact Hprev | congruence].
        -- intros i Hi. destruct (decide (i = S k)); [congruence | auto].
      * exact Hhead1.
      * rewrite Hlast, Htail1. exact Htail.
      * rewrite Hcount1, Hcount, length_delete by eauto.
        rewrite size_t_wrap_small by lia. lia.
    + exact Hdc1.
    + intros p. rewrite (element_insert_same _ _ _ _ Hna) by reflexivity.
      apply Hel1.
    + intros p Hpn. rewrite lookup_insert_ne; [apply Hfr1; exact Hpn|].
      intros ->. apply Hpn. apply (list_elem_of_lookup_2 _ k).
      rewrite list_lookup_delete_ge by reflexivity. exact Ha.
  - assert (Ha : ps !! S k = None) by congruence.
    rewrite Ha in Hlast. cbn.
    eexists _, _. split; [reflexivity|]. split; [|split; [|split]].
    + split; [|repeat split; cbn].
      * apply bypassed_linked; [exact Hnd | exact Hklt |].
        eapply pointers_ext; [exact Hp1|]. intros i Hi.
        apply lookup_ge_None_1 in Ha.
        destruct (decide (i = S k)); [lia | auto].
      * exact Hhead1.
      * rewrite Hlast. exact Hprev.
      * rewrite Hcount1, Hcount, length_delete by eauto.
        rewrite size_t_wrap_small by lia. lia.
    + exact Hdc1.
    + exact Hel1.
    + exact Hfr1.
Qed.

Lemma unlink_storage_is_list (h : heap) (l : grpc_mdelem_list)
    (ps1 ps2 : list loc) (storage : loc) :
  is_list h l (ps1 ++ storage :: ps2) ->
  Z.of_nat (length (ps1 ++ storage :: ps2)) < 2 ^ 64 ->
  exists l' h',
    unlink_storage l storage h = Some (l', h') /\
    is_list h' l' (ps1 ++ ps2) /\
    default_count l' = default_count l /\
    (forall p, element h' p = element h p) /\
    (forall p, p ∉ ps1 ++ ps2 -> h' !! p = h !! p).
Proof.
  intros Hl Hlen.
  rewrite <- (delete_middle ps1 ps2 storage).
  apply unlink_storage_at; auto. apply list_lookup_middle. reflexivity.
Qed.

(** X16.  [unlink_storage] takes the object out.  If [list] is the doubly
    linked list of the objects at [ps1], [storage], [ps2], then
    [unlink_storage] succeeds and [list] is afterwards the doubly linked
    list of [ps1] followed by [ps2], one shorter; the elements stored in the
    objects are unchanged, and neither [storage] nor any object outside the
    list is written. *)
Theorem unlink_storage_unlinks (h : heap) (l : grpc_mdelem_list)
    (ps1 ps2 : list loc) (storage : loc) :
  is_list h l (ps1 ++ storage :: ps2) ->
  Z.of_nat (length (ps1 ++ storage :: ps2)) < 2 ^ 64 ->
  exists l' h',
    unlink_storage l storage h = Some (l', h') /\
    is_list h' l' (ps1 ++ ps2) /\
    default_count l' = default_count l /\
    (forall p, element h' p = element h p) /\
    (forall p, p ∉ ps1 ++ ps2 -> h' !! p = h !! p).
Proof. exact (unlink_storage_is_list h l ps1 ps2 storage). Qed.
End MetadataList.

(** ** The callouts of [MetadataMap] *)

Section MetadataCallouts.
Import MetadataBatch.
Context `{Metadata}.

Lemma callout_of_ext (h h' : heap) p :
  element h' p = element h p -> callout_of h' p = callout_of h p.
Proof.
  unfold element, callout_of.
  destruct (h' !! p) as [n'|], (h !! p) as [n|]; cbn; intros E;
    try discriminate; [|reflexivity].
  injection E as E. rewrite E. reflexivity.
Qed.

Lemma callouts_ext (h h' : heap) m ps :
  (forall p, element h' p = element h p) ->
  callouts h m ps -> callouts h' m ps.
Proof.
  intros Hext (Ha & Hb & Hc). split; [|split].
  - intros p idx Hp Hco. rewrite (callout_of_ext h h') in Hco by auto. auto.
  - intros idx p Hi. rewrite (callout_of_ext h h') by auto. auto.
  - exact Hc.
Qed.

(** No more callouts are recorded than there are objects. *)
Lemma callouts_size (h : heap) m ps :
  NoDup ps -> callouts h m ps -> (size (idx_ m) <= length ps)%nat.
Proof.
  intros Hnd (_ & Hb & _).
  rewrite <- length_map_to_list, <- (length_fmap snd).
  apply submseteq_length, NoDup_submseteq.
  - apply NoDup_fmap_2_strong; [|apply NoDup_map_to_list].
    intros [i p] [i' p'] Hi Hi' E. cbn in E. subst p'.
    apply elem_of_map_to_list in Hi, Hi'.
    destruct (Hb _ _ Hi) as [_ E1], (Hb _ _ Hi') as [_ E2]. congruence.
  - intros p Hp. apply list_elem_of_fmap in Hp as ([i q] & -> & Hi).
    apply elem_of_map_to_list in Hi. apply (Hb _ _ Hi).
Qed.

(** [MaybeLinkCallout] for an object that is not in the list: with a callout
    that is taken it gives the error and changes nothing; otherwise it
    records the callout of the object, if it has one. *)
Lemma MaybeLinkCallout_fresh (h : heap) m ps ps' storage s :
  NoDup ps -> callouts h m ps ->
  storage ∉ ps -> h !! storage = Some s ->
  (forall p, p ∈ ps' <-> p = storage \/ p ∈ ps) ->
  Z.of_nat (length ps) + 1 < 2 ^ 64 ->
  (exists idx first,
     callout_of h storage = Some idx /\ idx_ m !! idx = Some first /\
     MaybeLinkCallout storage m h = Some (Some (error_with_md (md s)), m)) \/
  (exists m',
     (forall idx first, callout_of h storage = Some idx ->
                        idx_ m !! idx <> Some first) /\
     MaybeLinkCallout storage m h = Some (None, m') /\
     callouts h m' ps' /\
     count (list_ m') = count (list_ m) /\ head (list_ m') = head (list_ m) /\
     tail (list_ m') = tail (list_ m) /\ deadline_ m' = deadline_ m).
Proof.
  intros Hnd Hco Hfresh Hs Hps' Hlen.
  pose proof (callouts_size h m ps Hnd Hco) as Hsize.
  destruct Hco as (Ha & Hb & Hc).
  unfold MaybeLinkCallout, callout_of. rewrite Hs. cbn [mbind option_bind].
  destruct (bool_decide_reflect
              (GRPC_BATCH_INDEX_OF (GRPC_MDKEY (md s))
               = GRPC_BATCH_CALLOUTS_COUNT)) as [E|E].
  - right. exists m. split; [discriminate|]. split; [reflexivity|].
    split; [|auto]. split; [|split].
    + intros p idx Hp Hcp. apply Hps' in Hp as [->|Hp]; [|auto].
      unfold callout_of in Hcp. rewrite Hs in Hcp. cbn in Hcp.
      rewrite bool_decide_eq_true_2 in Hcp by exact E. discriminate.
    + intros idx p Hi. destruct (Hb idx p Hi) as [Hp Hcp].
      split; [apply Hps'; auto | exact Hcp].
    + exact Hc.
  - set (idx := GRPC_BATCH_INDEX_OF (GRPC_MDKEY (md s))) in *.
    unfold LinkCallout. destruct (idx_ m !! idx) as [first|] eqn:Hidx.
    + left. exists idx, first. rewrite Hs. cbn. auto.
    + right. eexists. split; [intros ? ? [= <-]; congruence|].
      split; [reflexivity|]. split; [|cbn; auto].
      assert (Hcs : callout_of h storage = Some idx).
      { unfold callout_of. rewrite Hs. cbn. fold idx.
        rewrite bool_decide_eq_false_2 by exact E. reflexivity. }
      split; [|split]; cbn [idx_ list_ default_count set_default_count].
      * intros p i Hp Hcp. apply Hps' in Hp as [->|Hp].
        -- rewrite Hcs in Hcp. injection Hcp as <-. apply lookup_insert_eq.
        -- pose proof (Ha p i Hp Hcp) as Hi.
           rewrite lookup_insert_ne; [exact Hi | congruence].
      * intros i p Hi. apply lookup_insert_Some in Hi as [[<- <-]|[Hne Hi]].
        -- split; [apply Hps'; auto | exact Hcs].
        -- destruct (Hb _ _ Hi) as [Hp Hcp].
           split; [apply Hps'; auto | exact Hcp].
      * rewrite map_size_insert_None by exact Hidx. rewrite Hc.
        rewrite size_t_wrap_small by lia. lia.
Qed.
End MetadataCallouts.

Section MetadataLink.
Import MetadataBatch.
Context `{Metadata}.

Lemma contents_cons (h : heap) p ps e :
  element h p = Some e -> contents h (p :: ps) = e :: contents h ps.
Proof. intros E. unfold contents. cbn. rewrite E. reflexivity. Qed.

Lemma contents_app (h : heap) ps1 ps2 :
  contents h (ps1 ++ ps2) = contents h ps1 ++ contents h ps2.
Proof.
  unfold contents. induction ps1 as [|p ps1 IH]; [reflexivity|].
  cbn. rewrite IH. destruct (element h p); reflexivity.
Qed.


Lemma contents_same (h h' : heap) ps :
  (forall p, element h' p = element h p) -> contents h' ps = contents h ps.
Proof. intros E. apply contents_ext. auto. Qed.


End MetadataLink.

Section MetadataRemove.
Import MetadataBatch.
Context `{Metadata}.

Lemma NoDup_middle (ps1 ps2 : list loc) (x : loc) :
  NoDup (ps1 ++ x :: ps2) -> (x ∉ ps1 ++ ps2) /\ NoDup (ps1 ++ ps2).
Proof.
  intros Hnd. apply NoDup_app in Hnd as (H1 & H2 & H3).
  apply NoDup_cons in H3 as [H3 H4]. split.
  - rewrite elem_of_app. intros [Hx|Hx]; [|contradiction].
    apply (H2 x Hx). apply list_elem_of_here.
  - apply NoDup_app. split; [exact H1|]. split; [|exact H4].
    intros y Hy Hy'. apply (H2 y Hy). apply list_elem_of_further. exact Hy'.
Qed.

Lemma elem_of_middle (ps1 ps2 : list loc) (x p : loc) :
  p ∈ ps1 ++ x :: ps2 <-> p = x \/ p ∈ ps1 ++ ps2.
Proof. rewrite !elem_of_app, elem_of_cons. tauto. Qed.

(** [MaybeUnlinkCallout] for an object of the list. *)
Lemma MaybeUnlinkCallout_member (h : heap) m ps1 ps2 storage s :
  NoDup (ps1 ++ storage :: ps2) ->
  callouts h m (ps1 ++ storage :: ps2) ->
  h !! storage = Some s ->
  Z.of_nat (length (ps1 ++ storage :: ps2)) < 2 ^ 64 ->
  exists m',
    MaybeUnlinkCallout storage m h = Some m' /\
    callouts h m' (ps1 ++ ps2) /\
    (forall idx, callout_of h storage = Some idx -> idx_ m' !! idx = None) /\
    count (list_ m') = count (list_ m) /\ head (list_ m') = head (list_ m) /\
    tail (list_ m') = tail (list_ m) /\ deadline_ m' = deadline_ m.
Proof.
  intros Hnd Hco Hs Hlen.
  pose proof (callouts_size h m _ Hnd Hco) as Hsize.
  destruct (NoDup_middle _ _ _ Hnd) as [Hout Hnd'].
  destruct Hco as (Ha & Hb & Hc).
  unfold MaybeUnlinkCallout. rewrite Hs. cbn [mbind option_bind].
  destruct (bool_decide_reflect
              (GRPC_BATCH_INDEX_OF (GRPC_MDKEY (md s))
               = GRPC_BATCH_CALLOUTS_COUNT)) as [E|E].
  - assert (Hcs : callout_of h storage = None).
    { unfold callout_of. rewrite Hs. cbn.
      rewrite bool_decide_eq_true_2 by exact E. reflexivity. }
    exists m. split; [reflexivity|]. split; [|split; [|auto]].
    + split; [|split].
      * intros p idx Hp. apply Ha. apply elem_of_middle. auto.
      * intros idx p Hi. destruct (Hb idx p Hi) as [Hp Hcp].
        split; [|exact Hcp]. apply elem_of_middle in Hp as [->|Hp]; [|auto].
        congruence.
      * exact Hc.
    + intros idx Hx. congruence.
  - set (idx := GRPC_BATCH_INDEX_OF (GRPC_MDKEY (md s))) in *.
    assert (Hcs : callout_of h storage = Some idx).
    { unfold callout_of. rewrite Hs. cbn. fold idx.
      rewrite bool_decide_eq_false_2 by exact E. reflexivity. }
    assert (Hidx : idx_ m !! idx = Some storage).
    { apply Ha; [|exact Hcs]. apply elem_of_middle. auto. }
    eexists. split; [reflexivity|]. split; [|split; [|cbn; auto]].
    + split; [|split]; cbn [idx_ list_ default_count set_default_count].
      * intros p i Hp Hcp. rewrite lookup_delete_ne.
        -- apply Ha; [apply elem_of_middle; auto | exact Hcp].
        -- intros <-. assert (Some p = Some storage) as [= ->].
           { rewrite <- Hidx. symmetry. apply Ha; [|exact Hcp].
             apply elem_of_middle. auto. }
           contradiction.
      * intros i p Hi. apply lookup_delete_Some in Hi as [Hne Hi].
        destruct (Hb i p Hi) as [Hp Hcp]. split; [|exact Hcp].
        apply elem_of_middle in Hp as [->|Hp]; [|auto]. congruence.
      * rewrite map_size_delete_Some by eauto. rewrite Hc.
        assert (1 <= size (idx_ m))%nat.
        { destruct (size (idx_ m)) eqn:Ez; [|lia].
          apply map_size_empty_inv in Ez. rewrite Ez in Hidx.
          rewrite lookup_empty in Hidx. discriminate. }
        rewrite size_t_wrap_small by lia. lia.
    + cbn. intros i Hi. rewrite Hcs in Hi. injection Hi as <-.
      apply lookup_delete_eq.
Qed.

Lemma Remove_valid (h : heap) (m : MetadataMap) (ps1 ps2 : list loc)
    (storage : loc) (idx : nat) :
  valid_map h m (ps1 ++ storage :: ps2) ->
  Z.of_nat (length (ps1 ++ storage :: ps2)) < 2 ^ 64 ->
  (exists m' h',
     Remove storage m h = Some (m', h') /\
     valid_map h' m' (ps1 ++ ps2) /\
     contents h' (ps1 ++ ps2) = contents h ps1 ++ contents h ps2 /\
     (forall i, callout_of h storage = Some i -> idx_ m' !! i = None) /\
     deadline_ m' = deadline_ m /\
     h' !! storage = h !! storage) /\
  (idx_ m !! idx = Some storage ->
   Remove_idx idx m h = Remove storage m h) /\
  (idx_ m !! idx = None -> Remove_idx idx m h = Some (m, h)).
Proof.
  intros [Hl Hco] Hlen.
  pose proof (proj1 (proj1 Hl)) as Hnd.
  destruct (NoDup_middle _ _ _ Hnd) as [Hout Hnd'].
  destruct (linked_at h _ (length ps1) storage (proj1 Hl)
              ltac:(apply list_lookup_middle; reflexivity))
    as (s & Hs & _).
  split; [|split].
  - destruct (MaybeUnlinkCallout_member h m ps1 ps2 storage s Hnd Hco Hs Hlen)
      as (m1 & E & Hco1 & Hfree & Hcount & Hhead & Htail & Hdl).
    assert (Hl1 : is_list h (list_ m1) (ps1 ++ storage :: ps2)).
    { destruct Hl as (Hlk & H1 & H2 & H3). split; [exact Hlk|].
      rewrite Hcount, Hhead, Htail. auto. }
    destruct (unlink_storage_is_list h (list_ m1) ps1 ps2 storage Hl1 Hlen)
      as (l' & h' & El & Hl' & Hdc & Hmd & Hfr).
    unfold Remove. rewrite E. cbn [mbind option_bind]. rewrite El.
    cbn [mbind option_bind].
    eexists _, _. split; [reflexivity|]. split; [|split; [|split; [|split]]].
    + split; [exact Hl'|]. apply (callouts_ext h h'); [exact Hmd|].
      destruct Hco1 as (Ha & Hb & Hc). split; [|split]; cbn; auto.
      rewrite Hdc. exact Hc.
    + rewrite (contents_same h h') by exact Hmd. apply contents_app.
    + exact Hfree.
    + exact Hdl.
    + apply Hfr. exact Hout.
  - intros Hidx. destruct Hco as (Ha & Hb & Hc).
    destruct (Hb idx storage Hidx) as [_ Hcs].
    unfold Remove_idx, Remove, MaybeUnlinkCallout. rewrite Hidx, Hs.
    cbn [mbind option_bind].
    unfold callout_of in Hcs. rewrite Hs in Hcs. cbn in Hcs.
    destruct (bool_decide _); [discriminate|]. injection Hcs as ->.
    cbn [mbind option_bind list_ idx_ deadline_].
    destruct (unlink_storage _ storage h) as [[l' h']|]; reflexivity.
  - intros Hidx. unfold Remove_idx. rewrite Hidx. reflexivity.
Qed.

(** X18.  [Remove] takes an object out of a well-formed map.  If [m] is a
    well-formed map of the objects at [ps1], [storage], [ps2], then
    [Remove(storage)] succeeds, [m] is afterwards a well-formed map of [ps1]
    followed by [ps2], whose elements are as before; the callout of the
    removed element, if it has one, is free again, the deadline is
    unchanged and the removed object is not written.  [Remove(idx)] for a
    callout does the same to the object recorded for [idx], and nothing
    when there is none. *)
Theorem Remove_removes (h : heap) (m : MetadataMap) (ps1 ps2 : list loc)
    (storage : loc) (idx : nat) :
  valid_map h m (ps1 ++ storage :: ps2) ->
  Z.of_nat (length (ps1 ++ storage :: ps2)) < 2 ^ 64 ->
  (exists m' h',
     Remove storage m h = Some (m', h') /\
     valid_map h' m' (ps1 ++ ps2) /\
     contents h' (ps1 ++ ps2) = contents h ps1 ++ contents h ps2 /\
     (forall i, callout_of h storage = Some i -> idx_ m' !! i = None) /\
     deadline_ m' = deadline_ m /\
     h' !! storage = h !! storage) /\
  (idx_ m !! idx = Some storage ->
   Remove_idx idx m h = Remove storage m h) /\
  (idx_ m !! idx = None -> Remove_idx idx m h = Some (m, h)).
Proof. exact (Remove_valid h m ps1 ps2 storage idx). Qed.
End MetadataRemove.

(** ** Walking the list *)

Section MetadataWalk.
Import MetadataBatch.
Context `{Metadata}.

Lemma linked_chain_from (h : heap) ps :
  linked h ps ->
  forall suf pre, ps = pre ++ suf -> chain h (ps !! length pre) suf.
Proof.
  intros Hl suf. induction suf as [|p suf IH]; intros pre ->.
  - cbn. apply lookup_ge_None_2. rewrite length_app. cbn. lia.
  - cbn. rewrite list_lookup_middle by reflexivity. split; [reflexivity|].
    destruct (linked_at h _ (length pre) p Hl
                ltac:(apply list_lookup_middle; reflexivity))
      as (n & Hn & Hnx & _).
    exists n. split; [exact Hn|]. rewrite Hnx.
    specialize (IH (pre ++ [p])). rewrite length_app in IH. cbn in IH.
    replace (S (length pre)) with (length pre + 1)%nat by lia.
    apply IH. rewrite <- app_assoc. reflexivity.
Qed.

Lemma is_list_chain (h : heap) l ps :
  is_list h l ps -> chain h (head l) ps.
Proof.
  intros (Hl & Hhead & _). rewrite Hhead.
  exact (linked_chain_from h ps Hl ps [] eq_refl).
Qed.

Lemma chain_contents_cons (h : heap) p n ps :
  h !! p = Some n -> contents h (p :: ps) = md n :: contents h ps.
Proof. intros E. apply contents_cons. unfold element. rewrite E. reflexivity. Qed.

Lemma GetValue_loop_chain (h : heap) target_key :
  forall ps l fuel values,
    chain h l ps -> (length ps <= fuel)%nat ->
    GetValue_loop fuel target_key h l values
    = Some (values ++ values_for target_key (contents h ps)).
Proof.
  induction ps as [|p ps IH]; intros l fuel values Hch Hfuel.
  - cbn in Hch. subst l. destruct fuel; cbn; rewrite app_nil_r; reflexivity.
  - destruct Hch as (-> & n & Hn & Hch).
    destruct fuel as [|fuel]; [cbn in Hfuel; lia|].
    cbn [GetValue_loop]. rewrite Hn. cbn [mbind option_bind].
    rewrite (IH _ fuel _ Hch) by (cbn in Hfuel; lia).
    rewrite (chain_contents_cons h p n ps Hn).
    unfold values_for. cbn [List.filter].
    destruct (bool_decide _); cbn [fmap list_fmap].
    + rewrite <- app_assoc. reflexivity.
    + reflexivity.
Qed.

(** X19.  [GetValue] collects the values of a key in list order.  For a
    list of the objects at [ps], [GetValue] finds the values of the elements
    whose key is [target_key], in the order of the list: it returns nothing
    when there is none, the value when there is one, and otherwise the
    values joined by commas. *)
Theorem GetValue_joins (h : heap) (m : MetadataMap) (ps : list loc)
    (target_key : string) (fuel : nat) :
  is_list h (list_ m) ps -> (length ps <= fuel)%nat ->
  GetValue fuel target_key m h
  = Some (match values_for target_key (contents h ps) with
          | [] => None
          | [v] => Some v
          | vs => Some (StrJoin vs ",")
          end).
Proof.
  intros Hl Hfuel. unfold GetValue.
  rewrite (GetValue_loop_chain h target_key ps _ fuel []
             (is_list_chain _ _ _ Hl) Hfuel).
  cbn [mbind option_bind app].
  destruct (values_for target_key (contents h ps)) as [|v [|w vs]];
    reflexivity.
Qed.

Lemma size_t_wrap_add z k :
  size_t_wrap (size_t_wrap z + k) = size_t_wrap (z + k).
Proof. unfold size_t_wrap. apply Zplus_mod_idemp_l. Qed.

Lemma TransportSize_loop_chain (h : heap) :
  forall ps elem fuel size,
    chain h elem ps -> (length ps <= fuel)%nat ->
    size_t_wrap <$> TransportSize_loop fuel h elem size
    = Some (size_t_wrap (size + total_length (contents h ps))).
Proof.
  induction ps as [|p ps IH]; intros elem fuel size Hch Hfuel.
  - cbn in Hch. subst elem. destruct fuel; cbn; rewrite Z.add_0_r;
      reflexivity.
  - destruct Hch as (-> & n & Hn & Hch).
    destruct fuel as [|fuel]; [cbn in Hfuel; lia|].
    cbn [TransportSize_loop]. rewrite Hn. cbn [mbind option_bind].
    rewrite (IH _ fuel _ Hch) by (cbn in Hfuel; lia).
    rewrite (chain_contents_cons h p n ps Hn). cbn [total_length foldr].
    rewrite size_t_wrap_add. f_equal. f_equal. unfold total_length. lia.
Qed.

Lemma TransportSize_loop_wrapped (h : heap) :
  forall fuel elem size r,
    0 <= size < 2 ^ 64 ->
    TransportSize_loop fuel h elem size = Some r -> 0 <= r < 2 ^ 64.
Proof.
  induction fuel as [|fuel IH]; intros [p|] size r Hsz; cbn;
    try discriminate; try (intros [= <-]; exact Hsz).
  destruct (h !! p) as [n|]; [|discriminate]. cbn. apply IH.
  unfold size_t_wrap. apply Z.mod_pos_bound. lia.
Qed.

(** X20.  [TransportSize] is the sum of the lengths of the elements, in
    [size_t].  For a list of the objects at [ps], [TransportSize] returns
    the sum of [GRPC_MDELEM_LENGTH] over the elements, modulo 2^64. *)
Theorem TransportSize_sums (h : heap) (m : MetadataMap) (ps : list loc)
    (fuel : nat) :
  is_list h (list_ m) ps -> (length ps <= fuel)%nat ->
  TransportSize fuel m h
  = Some (size_t_wrap (total_length (contents h ps))).
Proof.
  intros Hl Hfuel. unfold TransportSize.
  pose proof (TransportSize_loop_chain h ps _ fuel 0
                (is_list_chain _ _ _ Hl) Hfuel) as E.
  destruct (TransportSize_loop fuel h (head (list_ m)) 0) as [r|] eqn:Er;
    [|discriminate E].
  cbn [fmap option_fmap option_map] in E. injection E as E.
  rewrite Z.add_0_l in E. rewrite <- E. f_equal. symmetry.
  apply size_t_wrap_small.
  apply (TransportSize_loop_wrapped h fuel (head (list_ m)) 0 r);
    [lia | exact Er].
Qed.
End MetadataWalk.

Section MetadataSearch.
Import MetadataBatch.
Context `{Metadata}.

Lemma key_absent_cons (h : heap) key p n ps :
  h !! p = Some n -> key_absent key (contents h (p :: ps)) ->
  grpc_slice_eq (GRPC_MDKEY (md n)) key = false /\
  key_absent key (contents h ps).
Proof.
  intros Hn Habs. rewrite (chain_contents_cons h p n ps Hn) in Habs.
  apply Forall_cons in Habs. exact Habs.
Qed.

Lemma Remove_key_loop_absent (h : heap) m key :
  forall ps l fuel,
    chain h l ps -> key_absent key (contents h ps) ->
    (length ps <= fuel)%nat ->
    Remove_key_loop fuel key l m h = Some (None, m, h).
Proof.
  induction ps as [|p ps IH]; intros l fuel Hch Habs Hfuel.
  - cbn in Hch. subst l. destruct fuel; reflexivity.
  - destruct Hch as (-> & n & Hn & Hch).
    destruct (key_absent_cons h key p n ps Hn Habs) as [Hk Habs'].
    destruct fuel as [|fuel]; [cbn in Hfuel; lia|].
    cbn [Remove_key_loop]. rewrite Hn. cbn [mbind option_bind]. rewrite Hk.
    apply IH; auto. cbn in Hfuel. lia.
Qed.

Lemma Remove_key_loop_found (h : heap) m key p n ps2 :
  h !! p = Some n -> grpc_slice_eq (GRPC_MDKEY (md n)) key = true ->
  forall ps1 l fuel,
    chain h l (ps1 ++ p :: ps2) -> key_absent key (contents h ps1) ->
    (length ps1 < fuel)%nat ->
    Remove_key_loop fuel key l m h
    = ('(m', h') ← Remove p m h; Some (Some (GRPC_MDVALUE (md n)), m', h')).
Proof.
  intros Hp Hkey.
  induction ps1 as [|q ps1 IH]; intros l fuel Hch Habs Hfuel.
  - destruct Hch as (-> & _). destruct fuel as [|fuel]; [lia|].
    cbn [Remove_key_loop]. rewrite Hp. cbn [mbind option_bind]. rewrite Hkey.
    reflexivity.
  - destruct Hch as (-> & n' & Hn' & Hch).
    destruct (key_absent_cons h key q n' ps1 Hn' Habs) as [Hk Habs'].
    destruct fuel as [|fuel]; [lia|].
    cbn [Remove_key_loop]. rewrite Hn'. cbn [mbind option_bind]. rewrite Hk.
    apply IH; auto. cbn in Hfuel. lia.
Qed.

(** X21.  [Remove(key)] removes the first element with that key.  Let [m]
    be a well-formed map of the objects at [ps].  If no element has the key,
    the call returns nothing and changes nothing.  If the object at [p] is
    the first whose element has the key, the call returns the value of that
    element, and [m] is afterwards a well-formed map of the other objects,
    whose elements are as before. *)
Theorem Remove_key_removes_first (h : heap) (m : MetadataMap)
    (ps : list loc) (key : grpc_slice) (fuel : nat) :
  valid_map h m ps ->
  Z.of_nat (length ps) < 2 ^ 64 -> (length ps <= fuel)%nat ->
  (key_absent key (contents h ps) ->
   Remove_key fuel key m h = Some (None, m, h)) /\
  (forall ps1 p ps2 e,
     ps = ps1 ++ p :: ps2 ->
     key_absent key (contents h ps1) ->
     element h p = Some e -> grpc_slice_eq (GRPC_MDKEY e) key = true ->
     exists m' h',
       Remove_key fuel key m h = Some (Some (GRPC_MDVALUE e), m', h') /\
       valid_map h' m' (ps1 ++ ps2) /\
       contents h' (ps1 ++ ps2) = contents h ps1 ++ contents h ps2).
Proof.
  intros Hv Hlen Hfuel. pose proof (is_list_chain _ _ _ (proj1 Hv)) as Hch.
  split.
  - intros Habs. apply (Remove_key_loop_absent h m key ps); auto.
  - intros ps1 p ps2 e -> Habs He Hkey.
    unfold element in He. destruct (h !! p) as [n|] eqn:Hn; [|discriminate].
    cbn in He. injection He as <-.
    destruct (Remove_valid h m ps1 ps2 p 0%nat Hv Hlen)
      as [(m' & h' & E & Hv' & Hc' & _) _].
    exists m', h'. split; [|auto]. unfold Remove_key.
    rewrite (Remove_key_loop_found h m key p n ps2 Hn Hkey ps1 _ fuel Hch Habs).
    + rewrite E. reflexivity.
    + rewrite length_app in Hfuel. cbn in Hfuel. lia.
Qed.

Lemma ReplaceIfExists_loop_absent (h : heap) key value :
  forall ps l fuel,
    chain h l ps -> key_absent key (contents h ps) ->
    (length ps <= fuel)%nat ->
    ReplaceIfExists_loop fuel key value l h = Some (false, h).
Proof.
  induction ps as [|p ps IH]; intros l fuel Hch Habs Hfuel.
  - cbn in Hch. subst l. destruct fuel; reflexivity.
  - destruct Hch as (-> & n & Hn & Hch).
    destruct (key_absent_cons h key p n ps Hn Habs) as [Hk Habs'].
    destruct fuel as [|fuel]; [cbn in Hfuel; lia|].
    cbn [ReplaceIfExists_loop]. rewrite Hn. cbn [mbind option_bind].
    rewrite Hk. apply IH; auto. cbn in Hfuel. lia.
Qed.

Lemma ReplaceIfExists_loop_found (h : heap) key value p n ps2 :
  h !! p = Some n -> grpc_slice_eq (GRPC_MDKEY (md n)) key = true ->
  forall ps1 l fuel,
    chain h l (ps1 ++ p :: ps2) -> key_absent key (contents h ps1) ->
    (length ps1 < fuel)%nat ->
    ReplaceIfExists_loop fuel key value l h
    = Some (true, <[p := set_md (grpc_mdelem_from_slices key value) n]> h).
Proof.
  intros Hp Hkey.
  induction ps1 as [|q ps1 IH]; intros l fuel Hch Habs Hfuel.
  - destruct Hch as (-> & _). destruct fuel as [|fuel]; [lia|].
    cbn [ReplaceIfExists_loop]. rewrite Hp. cbn [mbind option_bind].
    rewrite Hkey, (write_Some _ _ _ _ Hp). reflexivity.
  - destruct Hch as (-> & n' & Hn' & Hch).
    destruct (key_absent_cons h key q n' ps1 Hn' Habs) as [Hk Habs'].
    destruct fuel as [|fuel]; [lia|].
    cbn [ReplaceIfExists_loop]. rewrite Hn'. cbn [mbind option_bind].
    rewrite Hk. apply IH; auto. cbn in Hfuel. lia.
Qed.

Lemma contents_insert_other (h : heap) p n ps :
  p ∉ ps -> contents (<[p := n]> h) ps = contents h ps.
Proof.
  intros Hp. apply contents_ext. intros q Hq. unfold element.
  rewrite lookup_insert_ne; [reflexivity|]. intros ->. contradiction.
Qed.

(** X22.  [ReplaceIfExists] replaces the first element with that key.  For
    a list of the objects at [ps]: if no element has the key, the call
    returns false and changes nothing.  If the object at [p] is the first
    whose element has the key, the call returns true and stores
    [grpc_mdelem_from_slices(key, value)] in that object; the list is linked
    as before, the other elements are unchanged and no other object is
    written. *)
Theorem ReplaceIfExists_replaces_first (h : heap) (m : MetadataMap)
    (ps : list loc) (key value : grpc_slice) (fuel : nat) :
  is_list h (list_ m) ps -> (length ps <= fuel)%nat ->
  (key_absent key (contents h ps) ->
   ReplaceIfExists fuel key value m h = Some (false, h)) /\
  (forall ps1 p ps2 e,
     ps = ps1 ++ p :: ps2 ->
     key_absent key (contents h ps1) ->
     element h p = Some e -> grpc_slice_eq (GRPC_MDKEY e) key = true ->
     exists h',
       ReplaceIfExists fuel key value m h = Some (true, h') /\
       is_list h' (list_ m) ps /\
       contents h' ps
       = contents h ps1 ++ grpc_mdelem_from_slices key value
           :: contents h ps2 /\
       (forall q, q <> p -> h' !! q = h !! q)).
Proof.
  intros Hl Hfuel. pose proof (is_list_chain _ _ _ Hl) as Hch. split.
  - intros Habs. apply (ReplaceIfExists_loop_absent h key value ps); auto.
  - intros ps1 p ps2 e -> Habs He Hkey.
    unfold element in He. destruct (h !! p) as [n|] eqn:Hn; [|discriminate].
    cbn in He. injection He as <-.
    eexists. split; [|split; [|split]].
    + unfold ReplaceIfExists.
      apply (ReplaceIfExists_loop_found h key value p n ps2 Hn Hkey ps1
               _ fuel Hch Habs).
      rewrite length_app in Hfuel. cbn in Hfuel. lia.
    + destruct Hl as ((Hnd & Hp) & Hrest). split; [|exact Hrest].
      split; [exact Hnd|]. intros i q Hi.
      destruct (Hp i q Hi) as (nq & Hq & Hx & Hv).
      destruct (decide (q = p)) as [->|Hne].
      * rewrite Hn in Hq. injection Hq as <-. eexists.
        rewrite lookup_insert_eq. split; [reflexivity|]. cbn. auto.
      * exists nq. rewrite lookup_insert_ne by congruence. auto.
    + destruct (NoDup_middle _ _ _ (proj1 (proj1 Hl))) as [Hout _].
      rewrite elem_of_app in Hout.
      rewrite contents_app, contents_insert_other by tauto.
      rewrite (contents_cons _ p ps2 (grpc_mdelem_from_slices key value))
        by (unfold element; rewrite lookup_insert_eq; reflexivity).
      rewrite contents_insert_other by tauto. reflexivity.
    + intros q Hq. rewrite lookup_insert_ne by congruence. reflexivity.
Qed.
End MetadataSearch.

(** ** What [assert_valid_list] accepts *)

Section MetadataAssert.
Import MetadataBatch.
Context `{Metadata}.

Lemma no_null_at (h : heap) ps p n :
  no_null h ps -> p ∈ ps -> h !! p = Some n -> GRPC_MDISNULL (md n) = false.
Proof.
  intros Hnn Hp Hn. unfold no_null in Hnn.
  rewrite Forall_forall in Hnn. apply Hnn.
  unfold contents. apply list_elem_of_omap. exists p. split; [exact Hp|].
  unfold element. rewrite Hn. reflexivity.
Qed.

Lemma assert_valid_loop_accepts (h : heap) l ps :
  is_list h l ps -> no_null h ps -> Z.of_nat (length ps) < 2 ^ 64 ->
  forall suf pre fuel,
    ps = pre ++ suf -> (length suf <= fuel)%nat ->
    assert_valid_loop fuel h l (ps !! length pre) (Z.of_nat (length pre))
    = Some (true, Z.of_nat (length ps)).
Proof.
  intros (Hl & Hhead & Htail & Hcount) Hnn Hlen.
  rewrite last_lookup in Htail.
  induction suf as [|p suf IH]; intros pre fuel Hps Hfuel.
  - rewrite app_nil_r in Hps. subst pre.
    rewrite lookup_ge_None_2 by lia. destruct fuel; reflexivity.
  - destruct fuel as [|fuel]; [cbn in Hfuel; lia|].
    set (k := length pre) in *.
    assert (Hk : ps !! k = Some p)
      by (rewrite Hps; apply list_lookup_middle; reflexivity).
    assert (Hklt : (k < length ps)%nat) by (eapply lookup_lt_Some; eauto).
    destruct (linked_at h ps k p Hl Hk) as (n & Hn & Hnx & Hpv).
    rewrite Hk. cbn [assert_valid_loop]. rewrite Hn. cbn [mbind option_bind].
    rewrite (no_null_at h ps p n Hnn (list_elem_of_lookup_2 _ _ _ Hk) Hn).
    (* (l->prev == nullptr) == (l == list->head) *)
    rewrite (bool_decide_eq_true_2 (prev n = None <-> Some p = head l)).
    2:{ rewrite Hpv, Hhead. split.
        - destruct k as [|j]; [intros _; symmetry; exact Hk|].
          destruct (lookup_lt_is_Some_2 ps j ltac:(lia)) as [q Hq].
          rewrite Hq. discriminate.
        - intros E. symmetry in E.
          pose proof (linked_index h ps _ _ _ Hl Hk E) as ->. reflexivity. }
    (* (l->next == nullptr) == (l == list->tail) *)
    rewrite (bool_decide_eq_true_2 (next n = None <-> Some p = tail l)).
    2:{ rewrite Hnx, Htail. split.
        - intros E. apply lookup_ge_None_1 in E.
          replace (Init.Nat.pred (length ps)) with k by lia.
          symmetry. exact Hk.
        - intros E. symmetry in E.
          pose proof (linked_index h ps _ _ _ Hl Hk E) as Ek.
          apply lookup_ge_None_2. lia. }
    cbn [negb].
    (* l->next->prev == l *)
    assert (Hok_next :
      match next n with
      | Some q => m ← h !! q; Some (bool_decide (prev m = Some p))
      | None => Some true
      end = Some true).
    { rewrite Hnx. destruct (ps !! S k) as [q|] eqn:Hq; [|reflexivity].
      destruct (linked_at h ps (S k) q Hl Hq) as (nq & Hnq & _ & Hqv).
      rewrite Hnq. cbn. rewrite bool_decide_eq_true_2; [reflexivity|].
      rewrite Hqv. exact Hk. }
    rewrite Hok_next. cbn [mbind option_bind negb].
    (* l->prev->next == l *)
    assert (Hok_prev :
      match prev n with
      | Some q => m ← h !! q; Some (bool_decide (next m = Some p))
      | None => Some true
      end = Some true).
    { rewrite Hpv. destruct k as [|j]; [reflexivity|].
      destruct (lookup_lt_is_Some_2 ps j ltac:(lia)) as [q Hq]. rewrite Hq.
      destruct (linked_at h ps j q Hl Hq) as (nq & Hnq & Hqx & _).
      rewrite Hnq. cbn. rewrite bool_decide_eq_true_2; [reflexivity|].
      rewrite Hqx. exact Hk. }
    rewrite Hok_prev. cbn [mbind option_bind negb].
    rewrite Hnx, size_t_wrap_small by lia.
    specialize (IH (pre ++ [p]) fuel).
    rewrite length_app in IH. cbn [length] in IH.
    replace (Z.of_nat (length pre + 1)) with (Z.of_nat k + 1) in IH by lia.
    replace (length pre + 1)%nat with (S k) in IH by lia.
    apply IH; [rewrite <- app_assoc; exact Hps | cbn in Hfuel; lia].
Qed.

(** The assertions hold for a well-formed list. *)
Lemma assert_valid_list_accepts (h : heap) l ps fuel :
  is_list h l ps -> no_null h ps ->
  Z.of_nat (length ps) < 2 ^ 64 -> (length ps <= fuel)%nat ->
  assert_valid_list fuel h l = Some true.
Proof.
  intros Hil Hnn Hlen Hfuel.
  pose proof (assert_valid_loop_accepts h l ps Hil Hnn Hlen ps [] fuel
                eq_refl Hfuel) as Hloop.
  destruct Hil as (Hl & Hhead & Htail & Hcount).
  unfold assert_valid_list. rewrite last_lookup in Htail.
  destruct ps as [|first ps'].
  - cbn in Hhead, Htail. rewrite Hhead, Htail.
    rewrite bool_decide_eq_true_2 by tauto. reflexivity.
  - cbn [length Init.Nat.pred] in Htail.
    destruct (lookup_lt_is_Some_2 (first :: ps') (length ps')
                ltac:(cbn; lia)) as [final Hfinal].
    rewrite Hfinal in Htail. cbn in Hhead. rewrite Hhead, Htail.
    rewrite bool_decide_eq_true_2 by (split; discriminate). cbn [negb].
    destruct (linked_at h _ 0%nat first Hl eq_refl) as (nf & Hf & Hfx & Hfv).
    destruct (linked_at h _ _ final Hl Hfinal) as (nt & Ht & Htx & Htv).
    rewrite Hf. cbn [mbind option_bind].
    rewrite (bool_decide_eq_true_2 _ Hfv). cbn [negb]. rewrite Ht.
    cbn [mbind option_bind].
    rewrite bool_decide_eq_true_2
      by (rewrite Htx; apply lookup_ge_None_2; cbn; lia).
    cbn [negb].
    rewrite (bool_decide_eq_true_2 (Some first = Some final <-> next nf = None)).
    2:{ rewrite Hfx. split.
        - intros [= <-].
          pose proof (linked_index h _ (length ps') 0%nat first Hl Hfinal
                        eq_refl) as E.
          apply lookup_ge_None_2. cbn. lia.
        - intros E. apply lookup_ge_None_1 in E. cbn in E.
          assert (length ps' = 0%nat) as E0 by lia. rewrite E0 in Hfinal.
          cbn in Hfinal. congruence. }
    cbn [negb].
    change (assert_valid_loop fuel h l (Some first) 0
            = Some (true, Z.of_nat (length (first :: ps')))) in Hloop.
    rewrite Hloop. cbn [mbind option_bind andb].
    rewrite bool_decide_eq_true_2 by exact Hcount. reflexivity.
Qed.
End MetadataAssert.

Section MetadataAssertSound.
Import MetadataBatch.
Context `{Metadata}.

Lemma chain_lookup (h : heap) :
  forall ps l i p,
    chain h l ps -> ps !! i = Some p ->
    exists n, h !! p = Some n /\ next n = ps !! S i.
Proof.
  induction ps as [|q ps IH]; intros l i p Hch Hi; [discriminate Hi|].
  destruct Hch as (-> & n & Hn & Hch). destruct i as [|i].
  - injection Hi as <-. exists n. split; [exact Hn|].
    destruct ps as [|r ps]; [exact Hch | apply Hch].
  - apply (IH _ i p Hch Hi).
Qed.

Lemma assert_valid_loop_sound (h : heap) l :
  forall fuel l0 vc r,
    assert_valid_loop fuel h l l0 vc = Some (true, r) ->
    0 <= vc -> vc + Z.of_nat fuel < 2 ^ 64 ->
    exists ps,
      chain h l0 ps /\ (length ps <= fuel)%nat /\
      r = vc + Z.of_nat (length ps) /\ Forall (node_ok h l) ps.
Proof.
  induction fuel as [|fuel IH]; intros [p|] vc r Hrun Hvc Hbound;
    cbn [assert_valid_loop] in Hrun; try discriminate.
  - injection Hrun as <-. exists []. cbn. repeat split; auto; lia.
  - destruct (h !! p) as [n|] eqn:Hn; [|discriminate].
    cbn [mbind option_bind] in Hrun.
    destruct (GRPC_MDISNULL (md n)) eqn:Hnull; [discriminate|].
    destruct (bool_decide_reflect (prev n = None <-> Some p = head l))
      as [Hprev|]; [|discriminate].
    destruct (bool_decide_reflect (next n = None <-> Some p = tail l))
      as [Hnext|]; [|discriminate].
    cbn [negb] in Hrun.
    destruct (match next n with
              | Some q => m ← h !! q; Some (bool_decide (prev m = Some p))
              | None => Some true
              end) as [[|]|] eqn:Hok_next; try discriminate.
    cbn [mbind option_bind negb] in Hrun.
    destruct (match prev n with
              | Some q => m ← h !! q; Some (bool_decide (next m = Some p))
              | None => Some true
              end) as [[|]|] eqn:Hok_prev; try discriminate.
    cbn [mbind option_bind negb] in Hrun.
    rewrite size_t_wrap_small in Hrun by lia.
    destruct (IH _ _ _ Hrun ltac:(lia) ltac:(lia))
      as (ps & Hch & Hlen & -> & Hall).
    exists (p :: ps). split; [|split; [|split]].
    + split; [reflexivity|]. exists n. auto.
    + cbn. lia.
    + cbn [length]. lia.
    + constructor; [|exact Hall]. exists n.
      split; [exact Hn|]. split; [exact Hnull|].
      split; [exact Hprev|]. split; [exact Hnext|]. split.
      * intros q Hq. rewrite Hq in Hok_next.
        destruct (h !! q) as [m|]; [|discriminate]. cbn in Hok_next.
        injection Hok_next as E. apply bool_decide_eq_true_1 in E. eauto.
      * intros q Hq. rewrite Hq in Hok_prev.
        destruct (h !! q) as [m|]; [|discriminate]. cbn in Hok_prev.
        injection Hok_prev as E. apply bool_decide_eq_true_1 in E. eauto.
  - injection Hrun as <-. exists []. cbn. repeat split; auto; lia.
Qed.

(** The objects that the loop has walked through are a doubly linked
    list. *)
Lemma walked_linked (h : heap) l ps :
  chain h (head l) ps -> Forall (node_ok h l) ps -> linked h ps.
Proof.
  intros Hch Hall. rewrite Forall_lookup in Hall.
  assert (Hhd : head l = ps !! 0%nat).
  { destruct ps as [|p ps]; [exact Hch | apply Hch]. }
  assert (Hprev : forall i p n,
             ps !! i = Some p -> h !! p = Some n ->
             prev n = match i with O => None | S j => ps !! j end).
  { intros [|j] p n Hi Hn.
    - destruct (Hall _ _ Hi) as (n' & Hn' & _ & Hpv & _).
      rewrite Hn in Hn'. injection Hn' as <-. apply Hpv. congruence.
    - destruct (lookup_lt_is_Some_2 ps j) as [q Hq].
      { apply lookup_lt_Some in Hi. lia. }
      destruct (chain_lookup h ps _ j q Hch Hq) as (nq & Hnq & Hqx).
      destruct (Hall _ _ Hq) as (nq' & Hnq' & _ & _ & _ & Hfw & _).
      rewrite Hnq in Hnq'. injection Hnq' as <-.
      rewrite Hi in Hqx. destruct (Hfw p Hqx) as (m & Hm & Hmv).
      rewrite Hn in Hm. injection Hm as <-. rewrite Hq. exact Hmv. }
  assert (Hinj : forall i j p,
             ps !! i = Some p -> ps !! j = Some p -> i = j).
  { induction i as [|i IHi]; intros [|j] p Hi Hj; try reflexivity.
    - destruct (chain_lookup h ps _ _ p Hch Hi) as (n & Hn & _).
      pose proof (Hprev _ _ _ Hi Hn) as E0.
      pose proof (Hprev _ _ _ Hj Hn) as E1. rewrite E0 in E1.
      destruct (lookup_lt_is_Some_2 ps j) as [q Hq];
        [apply lookup_lt_Some in Hj; lia|]. congruence.
    - destruct (chain_lookup h ps _ _ p Hch Hi) as (n & Hn & _).
      pose proof (Hprev _ _ _ Hi Hn) as E0.
      pose proof (Hprev _ _ _ Hj Hn) as E1. rewrite E1 in E0.
      destruct (lookup_lt_is_Some_2 ps i) as [q Hq];
        [apply lookup_lt_Some in Hi; lia|]. congruence.
    - destruct (chain_lookup h ps _ _ p Hch Hi) as (n & Hn & _).
      pose proof (Hprev _ _ _ Hi Hn) as E0.
      pose proof (Hprev _ _ _ Hj Hn) as E1. rewrite E0 in E1.
      destruct (lookup_lt_is_Some_2 ps i) as [q Hq];
        [apply lookup_lt_Some in Hi; lia|].
      f_equal. apply (IHi j q Hq). rewrite <- E1. exact Hq. }
  split.
  - apply NoDup_alt. intros i j p. apply Hinj.
  - intros i p Hi.
    destruct (chain_lookup h ps _ i p Hch Hi) as (n & Hn & Hnx).
    exists n. split; [exact Hn|]. split; [exact Hnx|].
    apply (Hprev i p n Hi Hn).
Qed.

Lemma node_ok_no_null (h : heap) l ps :
  Forall (node_ok h l) ps -> no_null h ps.
Proof.
  intros Hall. unfold no_null. apply Forall_forall. intros e He.
  unfold contents in He. apply list_elem_of_omap in He as (p & Hp & Hel).
  rewrite Forall_forall in Hall.
  destruct (Hall p Hp) as (n & Hn & Hnull & _).
  unfold element in Hel. rewrite Hn in Hel. cbn in Hel.
  injection Hel as <-. exact Hnull.
Qed.

(** X23.  [assert_valid_list] passes exactly for the well-formed lists, and
    for every empty one.  With enough rounds for the loop (and fewer than
    2^64), every assertion of [assert_valid_list] holds if and only if either
    [head] and [tail] are both null, in which case [count] is not looked
    at, or [list] is the doubly linked list of some objects, at least one,
    none of which holds a null element. *)
Theorem assert_valid_list_exact (h : heap) (l : grpc_mdelem_list)
    (fuel : nat) :
  Z.of_nat fuel < 2 ^ 64 ->
  (assert_valid_list fuel h l = Some true <->
   (head l = None /\ tail l = None) \/
   exists ps, ps <> [] /\ is_list h l ps /\ no_null h ps /\
              (length ps <= fuel)%nat).
Proof.
  intros Hfuel. split.
  - unfold assert_valid_list. intros Hrun.
    destruct (bool_decide_reflect (head l = None <-> tail l = None))
      as [Hnone|]; [|discriminate]. cbn [negb] in Hrun.
    destruct (head l) as [first|] eqn:Hhead; [|left; tauto].
    right.
    destruct (tail l) as [final|] eqn:Htail; [|discriminate].
    destruct (h !! first) as [f|]; [|discriminate].
    cbn [mbind option_bind] in Hrun.
    destruct (bool_decide (prev f = None)); [|discriminate].
    cbn [negb] in Hrun.
    destruct (h !! final) as [t|]; [|discriminate].
    cbn [mbind option_bind] in Hrun.
    destruct (bool_decide (next t = None)); [|discriminate].
    cbn [negb] in Hrun.
    destruct (bool_decide (Some first = Some final <-> next f = None));
      [|discriminate].
    cbn [negb] in Hrun.
    destruct (assert_valid_loop fuel h l (Some first) 0)
      as [[ok vc]|] eqn:Hloop; [|discriminate].
    cbn [mbind option_bind] in Hrun. injection Hrun as Hrun.
    apply andb_prop in Hrun as [-> Hcount].
    apply bool_decide_eq_true_1 in Hcount.
    destruct (assert_valid_loop_sound h l fuel _ 0 vc Hloop ltac:(lia)
                ltac:(lia)) as (ps & Hch & Hlen & -> & Hall).
    exists ps.
    assert (Hne : ps <> []) by (intros ->; discriminate Hch).
    split; [exact Hne|]. split; [|split; [|exact Hlen]].
    + split; [|split; [|split]].
      * apply (walked_linked h l); [rewrite Hhead; exact Hch | exact Hall].
      * rewrite Hhead. destruct ps as [|p ps]; [congruence|].
        destruct Hch as [-> _]. reflexivity.
      * rewrite Htail, last_lookup.
        destruct (lookup_lt_is_Some_2 ps (Init.Nat.pred (length ps)))
          as [p Hp].
        { destruct ps; [congruence | cbn; lia]. }
        rewrite Hp.
        destruct (chain_lookup h ps _ _ p Hch Hp) as (n & Hn & Hnx).
        rewrite lookup_ge_None_2 in Hnx by lia.
        rewrite Forall_lookup in Hall.
        destruct (Hall _ _ Hp) as (n' & Hn' & _ & _ & Hlast & _).
        rewrite Hn in Hn'. injection Hn' as <-.
        rewrite Htail in Hlast. symmetry. apply Hlast. exact Hnx.
      * rewrite Hcount. lia.
    + apply (node_ok_no_null h l). exact Hall.
  - intros [[Hhead Htail] | (ps & Hne & Hl & Hnn & Hlen)].
    + unfold assert_valid_list. rewrite Hhead, Htail.
      rewrite bool_decide_eq_true_2 by tauto. reflexivity.
    + apply (assert_valid_list_accepts h l ps); auto. lia.
Qed.
End MetadataAssertSound.

(** ** [Substitute] *)

Section MetadataSubstitute.
Import MetadataBatch.
Context `{Metadata}.

(** Storing another element in an object leaves the links as they are. *)
Lemma linked_set_md (h : heap) ps p s e :
  linked h ps -> h !! p = Some s -> linked (<[p := set_md e s]> h) ps.
Proof.
  intros [Hnd Hp] Hs. split; [exact Hnd|]. intros i q Hi.
  destruct (Hp i q Hi) as (nq & Hq & Hx & Hv).
  destruct (decide (q = p)) as [->|Hne].
  - rewrite Hs in Hq. injection Hq as <-. eexists.
    rewrite lookup_insert_eq. split; [reflexivity|]. cbn. auto.
  - exists nq. rewrite lookup_insert_ne by congruence. auto.
Qed.

Lemma is_list_set_md (h : heap) l ps p s e :
  is_list h l ps -> h !! p = Some s -> is_list (<[p := set_md e s]> h) l ps.
Proof.
  intros [Hlk Hrest] Hs. split; [|exact Hrest].
  apply linked_set_md; assumption.
Qed.

Lemma callouts_same_callout (h h' : heap) m ps :
  (forall p, p ∈ ps -> callout_of h' p = callout_of h p) ->
  callouts h m ps -> callouts h' m ps.
Proof.
  intros Hext (Ha & Hb & Hc). split; [|split].
  - intros p idx Hp Hco. rewrite Hext in Hco by exact Hp. auto.
  - intros idx p Hi. destruct (Hb idx p Hi) as [Hp Hco].
    rewrite Hext by exact Hp. auto.
  - exact Hc.
Qed.

Lemma callout_of_insert_other (h : heap) p q n :
  q <> p -> callout_of (<[p := n]> h) q = callout_of h q.
Proof.
  intros Hne. unfold callout_of. rewrite lookup_insert_ne by congruence.
  reflexivity.
Qed.

(** What [MaybeUnlinkCallout] leaves in [idx_]. *)
Lemma MaybeUnlinkCallout_idx (h : heap) m m' ps storage :
  MaybeUnlinkCallout storage m h = Some m' ->
  (forall i p, idx_ m' !! i = Some p -> idx_ m !! i = Some p) /\
  (callouts h m ps -> storage ∈ ps ->
   forall i p, idx_ m !! i = Some p -> p <> storage -> idx_ m' !! i = Some p).
Proof.
  unfold MaybeUnlinkCallout. destruct (h !! storage) as [s|] eqn:Hs;
    [|discriminate]. cbn [mbind option_bind].
  destruct (bool_decide_reflect
              (GRPC_BATCH_INDEX_OF (GRPC_MDKEY (md s))
               = GRPC_BATCH_CALLOUTS_COUNT)) as [E|E]; intros [= <-].
  - auto.
  - cbn [idx_]. split.
    + intros i p Hi. apply lookup_delete_Some in Hi. tauto.
    + intros (Ha & _ & _) Hin i p Hi Hne. rewrite lookup_delete_ne; [exact Hi|].
      intros <-. apply Hne.
      assert (Hcs : callout_of h storage
                    = Some (GRPC_BATCH_INDEX_OF (GRPC_MDKEY (md s)))).
      { unfold callout_of. rewrite Hs. cbn.
        rewrite bool_decide_eq_false_2 by exact E. reflexivity. }
      pose proof (Ha storage _ Hin Hcs) as Hi'. congruence.
Qed.

Lemma contents_replaced (h : heap) ps1 ps2 p n e :
  NoDup (ps1 ++ p :: ps2) -> md n = e ->
  contents (<[p := n]> h) (ps1 ++ p :: ps2)
  = contents h ps1 ++ e :: contents h ps2.
Proof.
  intros Hnd <-. destruct (NoDup_middle _ _ _ Hnd) as [Hout _].
  rewrite elem_of_app in Hout.
  rewrite contents_app, contents_insert_other by tauto.
  rewrite (contents_cons _ p ps2 (md n))
    by (unfold element; rewrite lookup_insert_eq; reflexivity).
  rewrite contents_insert_other by tauto. reflexivity.
Qed.

(** *** The assertions *)

Lemma Forall_contents (P : grpc_mdelem -> Prop) (h : heap) ps :
  Forall P (contents h ps)
  <-> (forall p e, p ∈ ps -> element h p = Some e -> P e).
Proof.
  unfold contents. rewrite Forall_forall. split.
  - intros HP p e Hp He. apply HP. apply list_elem_of_omap. eauto.
  - intros HP e He. apply list_elem_of_omap in He as (p & Hp & He). eauto.
Qed.

Lemma Forall_contents_middle (P : grpc_mdelem -> Prop) (h : heap) ps1 p ps2 :
  Forall P (contents h (ps1 ++ p :: ps2)) ->
  Forall P (contents h (ps1 ++ ps2)).
Proof.
  rewrite !Forall_contents. intros HP q e Hq. apply HP.
  apply elem_of_app in Hq as [Hq|Hq]; apply elem_of_app;
    [left | right; apply list_elem_of_further]; exact Hq.
Qed.

Lemma AssertValidCallouts_loop_passes (h : heap) m :
  forall ps l fuel,
    chain h l ps ->
    Forall interned_key (contents h ps) ->
    (forall p idx, p ∈ ps -> callout_of h p = Some idx ->
                   idx_ m !! idx = Some p) ->
    (length ps <= fuel)%nat ->
    AssertValidCallouts_loop fuel m h l = Some true.
Proof.
  induction ps as [|p ps IH]; intros l fuel Hch Hkeys Ha Hfuel.
  - cbn in Hch. subst l. destruct fuel; reflexivity.
  - destruct Hch as (-> & n & Hn & Hch).
    destruct fuel as [|fuel]; [cbn in Hfuel; lia|].
    rewrite (chain_contents_cons h p n ps Hn) in Hkeys.
    apply List.Forall_cons_iff in Hkeys as [Hkey Hkeys].
    cbn [AssertValidCallouts_loop]. rewrite Hn. cbn [mbind option_bind].
    unfold interned_key in Hkey. rewrite Hkey.
    assert (Hrest : AssertValidCallouts_loop fuel m h (next n) = Some true).
    { apply (IH _ _ Hch Hkeys).
      - intros q idx Hq. apply Ha. apply list_elem_of_further. exact Hq.
      - cbn in Hfuel. lia. }
    destruct (bool_decide_reflect
                (GRPC_BATCH_INDEX_OF (GRPC_MDKEY (md n))
                 = GRPC_BATCH_CALLOUTS_COUNT)) as [E|E]; cbn [negb andb];
      [exact Hrest|].
    rewrite bool_decide_eq_true_2; [exact Hrest|].
    apply Ha; [apply list_elem_of_here|].
    unfold callout_of. rewrite Hn. cbn.
    rewrite bool_decide_eq_false_2 by exact E. reflexivity.
Qed.

Lemma AssertValidCallouts_loop_fails (h : heap) m p n :
  h !! p = Some n ->
  GRPC_BATCH_INDEX_OF (grpc_slice_intern (GRPC_MDKEY (md n)))
  <> GRPC_BATCH_CALLOUTS_COUNT ->
  idx_ m !! GRPC_BATCH_INDEX_OF (grpc_slice_intern (GRPC_MDKEY (md n)))
  <> Some p ->
  forall ps l fuel,
    chain h l ps -> p ∈ ps -> (length ps <= fuel)%nat ->
    AssertValidCallouts_loop fuel m h l = Some false.
Proof.
  intros Hn Hidx Hrec.
  induction ps as [|q ps IH]; intros l fuel Hch Hin Hfuel.
  - apply elem_of_nil in Hin as [].
  - destruct Hch as (-> & nq & Hnq & Hch).
    destruct fuel as [|fuel]; [cbn in Hfuel; lia|].
    cbn [AssertValidCallouts_loop]. rewrite Hnq. cbn [mbind option_bind].
    destruct (negb _ && negb _) eqn:Echk; [reflexivity|].
    apply (IH _ _ Hch); [|cbn in Hfuel; lia].
    apply elem_of_cons in Hin as [->|Hin]; [|exact Hin].
    exfalso. rewrite Hn in Hnq. injection Hnq as <-.
    rewrite !bool_decide_eq_false_2 in Echk by assumption. discriminate.
Qed.

(** On a well-formed map whose keys are interned the assertion of a debug
    build holds. *)
Lemma AssertValidCallouts_passes (NDEBUG : bool) fuel (h : heap) m ps :
  (NDEBUG = false ->
   Forall interned_key (contents h ps) /\ valid_map h m ps /\
   (length ps <= fuel)%nat) ->
  AssertValidCallouts NDEBUG fuel m h = Some true.
Proof.
  destruct NDEBUG; [reflexivity|]. intros Hd.
  destruct (Hd eq_refl) as (Hkeys & [Hl (Ha & _)] & Hfuel).
  unfold AssertValidCallouts.
  apply (AssertValidCallouts_loop_passes h m ps); auto.
  apply is_list_chain. exact Hl.
Qed.

Lemma MaybeLinkCallout_checked_ndebug fuel storage m (h : heap) :
  MaybeLinkCallout_checked true fuel storage m h
  = (r ← MaybeLinkCallout storage m h; Some (Returns r)).
Proof.
  unfold MaybeLinkCallout_checked, MaybeLinkCallout, LinkCallout_checked.
  destruct (h !! storage) as [s|]; [|reflexivity]. cbn [mbind option_bind].
  destruct (bool_decide _); [reflexivity|]. cbn.
  destruct (LinkCallout storage _ m h) as [[e m']|]; reflexivity.
Qed.

Lemma MaybeLinkCallout_no_callout (NDEBUG : bool) fuel storage m (h : heap) s :
  h !! storage = Some s ->
  GRPC_BATCH_INDEX_OF (GRPC_MDKEY (md s)) = GRPC_BATCH_CALLOUTS_COUNT ->
  MaybeLinkCallout_checked NDEBUG fuel storage m h = Some (Returns (None, m))
  /\ MaybeLinkCallout storage m h = Some (None, m).
Proof.
  intros Hs E. unfold MaybeLinkCallout_checked, MaybeLinkCallout.
  rewrite Hs. cbn [mbind option_bind].
  rewrite bool_decide_eq_true_2 by exact E. auto.
Qed.

(** *** [Substitute] on a well-formed map *)

Lemma Substitute_valid (NDEBUG : bool) (fuel : nat) (h : heap)
    (m : MetadataMap) (ps1 ps2 : list loc) (storage : loc)
    (s : grpc_linked_mdelem) (new_mdelem : grpc_mdelem) :
  valid_map h m (ps1 ++ storage :: ps2) ->
  h !! storage = Some s ->
  Z.of_nat (length (ps1 ++ storage :: ps2)) < 2 ^ 64 ->
  (length (ps1 ++ storage :: ps2) <= fuel)%nat ->
  (NDEBUG = false ->
   Forall interned_key (contents h (ps1 ++ storage :: ps2)) /\
   interned_key new_mdelem /\ keeps_callout new_mdelem (md s)) ->
  let h1 := <[storage := set_md new_mdelem s]> h in
  let ps := ps1 ++ storage :: ps2 in
  let rekeyed :=
    negb (grpc_slice_eq (GRPC_MDKEY new_mdelem) (GRPC_MDKEY (md s)))
    && negb (bool_decide (GRPC_BATCH_INDEX_OF (GRPC_MDKEY new_mdelem)
                          = GRPC_BATCH_CALLOUTS_COUNT)) in
  (NDEBUG = false -> rekeyed = true ->
   Substitute NDEBUG fuel storage new_mdelem m h = Some Aborts) /\
  (NDEBUG = true \/ rekeyed = false ->
   (grpc_slice_eq (GRPC_MDKEY new_mdelem) (GRPC_MDKEY (md s)) = true ->
    Substitute NDEBUG fuel storage new_mdelem m h
    = Some (Returns (None, m, h1)) /\
    is_list h1 (list_ m) ps /\
    (GRPC_BATCH_INDEX_OF (GRPC_MDKEY new_mdelem)
     = GRPC_BATCH_INDEX_OF (GRPC_MDKEY (md s)) -> valid_map h1 m ps)) /\
   (grpc_slice_eq (GRPC_MDKEY new_mdelem) (GRPC_MDKEY (md s)) = false ->
    (exists idx first,
       callout_of h1 storage = Some idx /\
       idx_ m !! idx = Some first /\ first <> storage /\
       exists m' h',
         Substitute NDEBUG fuel storage new_mdelem m h
         = Some (Returns (Some (error_with_md new_mdelem), m', h')) /\
         valid_map h' m' (ps1 ++ ps2) /\
         contents h' (ps1 ++ ps2) = contents h ps1 ++ contents h ps2 /\
         deadline_ m' = deadline_ m /\
         (forall p, p <> storage -> element h' p = element h p) /\
         (forall p, p ∉ ps -> h' !! p = h !! p)) \/
    ((forall idx first, callout_of h1 storage = Some idx ->
                        idx_ m !! idx = Some first -> first = storage) /\
     exists m',
       Substitute NDEBUG fuel storage new_mdelem m h
       = Some (Returns (None, m', h1)) /\
       valid_map h1 m' ps /\ deadline_ m' = deadline_ m))) /\
  contents h1 ps = contents h ps1 ++ new_mdelem :: contents h ps2.
Proof.
  intros Hv Hs Hlen Hfuel Hlaws h1 ps rekeyed.
  pose proof Hv as [Hl Hco].
  pose proof (proj1 (proj1 Hl)) as Hnd.
  destruct (NoDup_middle _ _ _ Hnd) as [Hout Hnd'].
  assert (Hin : storage ∈ ps) by (apply elem_of_middle; auto).
  assert (Hl1 : is_list h1 (list_ m) ps) by (apply is_list_set_md; assumption).
  assert (Hw : write storage (set_md new_mdelem) h = Some h1)
    by (apply write_Some; exact Hs).
  assert (Hs1 : h1 !! storage = Some (set_md new_mdelem s))
    by apply lookup_insert_eq.
  assert (Hcont : contents h1 ps
                  = contents h ps1 ++ new_mdelem :: contents h ps2)
    by (apply contents_replaced; [exact Hnd | reflexivity]).
  assert (A0 : AssertValidCallouts NDEBUG fuel m h = Some true).
  { apply (AssertValidCallouts_passes NDEBUG fuel h m ps).
    intros Hd. destruct (Hlaws Hd) as [Hi _]. auto. }
  assert (Hkeys1 : NDEBUG = false -> Forall interned_key (contents h1 ps)).
  { intros Hd. destruct (Hlaws Hd) as (Hi & Hnew & _). rewrite Hcont.
    rewrite contents_app, (chain_contents_cons h storage s ps2 Hs) in Hi.
    apply Forall_app in Hi as [Hi1 Hi2].
    apply List.Forall_cons_iff in Hi2 as [_ Hi2].
    apply Forall_app. split; [exact Hi1|]. constructor; assumption. }
  assert (Hsame : GRPC_BATCH_INDEX_OF (GRPC_MDKEY new_mdelem)
                  = GRPC_BATCH_INDEX_OF (GRPC_MDKEY (md s)) ->
                  valid_map h1 m ps).
  { intros Hidx. split; [exact Hl1|].
    apply (callouts_same_callout h h1); [|exact Hco].
    intros p _. destruct (decide (p = storage)) as [->|Hne].
    - unfold callout_of. rewrite Hs1, Hs. cbn. rewrite Hidx. reflexivity.
    - apply callout_of_insert_other. exact Hne. }
  destruct (MaybeUnlinkCallout_member h m ps1 ps2 storage s Hnd Hco Hs Hlen)
    as (m1 & E1 & Hco1 & _ & Hcount & Hhead & Htail & Hdl).
  destruct (MaybeUnlinkCallout_idx h m m1 ps storage E1) as [Hsub Hkeep].
  specialize (Hkeep Hco Hin).
  assert (Hco1' : callouts h1 m1 (ps1 ++ ps2)).
  { apply (callouts_same_callout h h1); [|exact Hco1].
    intros p Hp. apply callout_of_insert_other. intros ->. contradiction. }
  assert (Hl1' : is_list h1 (list_ m1) ps).
  { destruct Hl1 as (Hlk & H1 & H2 & H3). split; [exact Hlk|].
    rewrite Hcount, Hhead, Htail. auto. }
  assert (Hlen' : Z.of_nat (length (ps1 ++ ps2)) + 1 < 2 ^ 64).
  { rewrite length_app in *. cbn in Hlen. lia. }
  assert (Hunfold :
            grpc_slice_eq (GRPC_MDKEY new_mdelem) (GRPC_MDKEY (md s)) = false ->
            Substitute NDEBUG fuel storage new_mdelem m h
            = (r ← MaybeLinkCallout_checked NDEBUG fuel storage m1 h1;
               match r with
               | Aborts => Some Aborts
               | Returns (error, m0) =>
                   '(m2, h2) ← match error with
                               | Some _ =>
                                   '(list, h0) ←
                                     unlink_storage (list_ m0) storage h1;
                                   Some (mk_map list (idx_ m0) (deadline_ m0),
                                         h0)
                               | None => Some (m0, h1)
                               end;
                   asserting (AssertValidCallouts NDEBUG fuel m2 h2)
                     (Some (Returns (error, m2, h2)))
               end)).
  { intros Hneq. unfold Substitute. rewrite A0. cbn [asserting mbind option_bind].
    rewrite Hs. cbn [mbind option_bind]. rewrite Hneq. cbn [negb].
    rewrite E1. cbn [mbind option_bind]. rewrite Hw. reflexivity. }
  split; [|split].
  - (* a debug build aborts *)
    intros Hd Hre. unfold rekeyed in Hre.
    apply andb_true_iff in Hre as [Hneq Hidx].
    apply negb_true_iff in Hneq. apply negb_true_iff in Hidx.
    apply bool_decide_eq_false in Hidx.
    destruct (Hlaws Hd) as (_ & Hint & _). unfold interned_key in Hint.
    rewrite (Hunfold Hneq). subst NDEBUG.
    assert (Hfail : AssertValidCallouts_loop fuel m1 h1 (head (list_ m1))
                    = Some false).
    { apply (AssertValidCallouts_loop_fails h1 m1 storage
               (set_md new_mdelem s) Hs1) with (ps := ps).
      - cbn [md set_md]. rewrite Hint. exact Hidx.
      - cbn [md set_md]. rewrite Hint. intros Hrec.
        destruct Hco1' as (_ & Hb & _). destruct (Hb _ _ Hrec) as [Hf _].
        contradiction.
      - apply is_list_chain. exact Hl1'.
      - exact Hin.
      - exact Hfuel. }
    unfold MaybeLinkCallout_checked. rewrite Hs1.
    cbn [mbind option_bind md set_md].
    rewrite bool_decide_eq_false_2 by exact Hidx.
    unfold LinkCallout_checked, AssertValidCallouts.
    rewrite Hfail. reflexivity.
  - intros Hbuild. split.
    + (* the same key *)
      intros Heq. split; [|split; [exact Hl1 | exact Hsame]].
      unfold Substitute. rewrite A0. cbn [asserting mbind option_bind].
      rewrite Hs. cbn [mbind option_bind]. rewrite Heq. cbn [negb].
      rewrite Hw. cbn [mbind option_bind].
      rewrite (AssertValidCallouts_passes NDEBUG fuel h1 m ps); [reflexivity|].
      intros Hd. destruct (Hlaws Hd) as (_ & _ & Hcallout).
      split; [exact (Hkeys1 Hd)|]. split; [|exact Hfuel].
      apply Hsame. apply Hcallout. exact Heq.
    + (* another key *)
      intros Hneq. rewrite (Hunfold Hneq).
      destruct (MaybeLinkCallout_fresh h1 m1 (ps1 ++ ps2) ps storage
                  (set_md new_mdelem s) Hnd' Hco1' Hout Hs1
                  ltac:(intros p; apply elem_of_middle) Hlen')
        as [(idx & first & Hc1 & Hc2 & E2)
           | (m2 & Hfree & E2 & Hco2 & Hcount2 & Hhead2 & Htail2 & Hdl2)].
      * (* the callout is taken: only a release build gets here *)
        assert (Hnd_build : NDEBUG = true).
        { destruct Hbuild as [Hb|Hb]; [exact Hb|]. exfalso.
          unfold rekeyed in Hb. rewrite Hneq in Hb. cbn in Hb.
          apply negb_false_iff, bool_decide_eq_true in Hb.
          unfold callout_of in Hc1. rewrite Hs1 in Hc1. cbn in Hc1.
          rewrite bool_decide_eq_true_2 in Hc1 by exact Hb. discriminate. }
        subst NDEBUG. left. exists idx, first. split; [exact Hc1|].
        split; [apply Hsub; exact Hc2|]. split.
        { destruct Hco1' as (_ & Hb & _). destruct (Hb _ _ Hc2) as [Hf _].
          intros ->. contradiction. }
        destruct (unlink_storage_is_list h1 (list_ m1) ps1 ps2 storage
                    Hl1' Hlen)
          as (l' & h' & El & Hl' & Hdc & Hmd & Hfr).
        exists (mk_map l' (idx_ m1) (deadline_ m1)), h'.
        split; [|split; [|split; [|split; [|split]]]].
        -- rewrite MaybeLinkCallout_checked_ndebug, E2.
           cbn [mbind option_bind md set_md]. rewrite El. reflexivity.
        -- split; [exact Hl'|]. apply (callouts_ext h1 h'); [exact Hmd|].
           destruct Hco1' as (Ha & Hb & Hc). split; [|split]; cbn; auto.
           rewrite Hdc. exact Hc.
        -- rewrite (contents_same h1 h') by exact Hmd.
           unfold h1. rewrite contents_insert_other by exact Hout.
           apply contents_app.
        -- exact Hdl.
        -- intros p Hp. rewrite Hmd. unfold element, h1.
           rewrite lookup_insert_ne by congruence. reflexivity.
        -- intros p Hp. rewrite Hfr.
           ++ unfold h1. apply lookup_insert_ne. intros <-. contradiction.
           ++ intros Hp'. apply Hp. apply elem_of_middle. auto.
      * (* the callout is free, or there is none *)
        right. split.
        { intros idx first Hc Hi.
          destruct (decide (first = storage)) as [E|Hne]; [exact E|].
          exfalso. apply (Hfree idx first Hc). apply Hkeep; assumption. }
        assert (Hv2 : valid_map h1 m2 ps).
        { split; [|exact Hco2].
          destruct Hl1' as (Hlk & H1 & H2 & H3). split; [exact Hlk|].
          rewrite Hcount2, Hhead2, Htail2. auto. }
        exists m2. split; [|split; [exact Hv2 | congruence]].
        assert (Hchecked : MaybeLinkCallout_checked NDEBUG fuel storage m1 h1
                           = Some (Returns (None, m2))).
        { destruct NDEBUG.
          - rewrite MaybeLinkCallout_checked_ndebug, E2. reflexivity.
          - destruct Hbuild as [Hb|Hb]; [discriminate|].
            unfold rekeyed in Hb. rewrite Hneq in Hb. cbn in Hb.
            apply negb_false_iff, bool_decide_eq_true in Hb.
            destruct (MaybeLinkCallout_no_callout false fuel storage m1 h1
                        (set_md new_mdelem s) Hs1 Hb) as [Ec Er].
            rewrite Er in E2. injection E2 as <-. exact Ec. }
        rewrite Hchecked. cbn [mbind option_bind].
        rewrite (AssertValidCallouts_passes NDEBUG fuel h1 m2 ps);
          [reflexivity|].
        intros Hd. auto.
  - exact Hcont.
Qed.

(** X24.  [Substitute] stores the new element; it drops the object when
    the callout of the new key is taken, and in a debug build it aborts
    whenever the new key differs from the old one and has a callout.  Let
    [m] be a well-formed map of the objects at [ps1], [storage], [ps2]; for
    a debug build let interning change the callout of no key in the map nor
    of the new key, and let the new key have the callout of the old one if
    the two are equal as slices.  In a debug build, if the new
    key differs from the old one and has a callout, the assertion at the
    entry of [LinkCallout] fails, because [storage] is still in the list and
    already holds the new key.  Otherwise: if the new key equals the old one
    as a slice, the new element is stored and nothing else changes.  If the
    keys differ and the callout of the new key is recorded for another
    object, the call returns the error "Unallowed duplicate metadata" with
    the new element attached and [storage] is taken out of the list: [m] is
    afterwards a well-formed map of [ps1] followed by [ps2], whose elements
    are as before.  If the keys differ and the callout is free or there is
    none, the new element is stored, no error is returned and [m] is a
    well-formed map of the same objects. *)
Theorem Substitute_substitutes (NDEBUG : bool) (fuel : nat) (h : heap)
    (m : MetadataMap) (ps1 ps2 : list loc) (storage : loc)
    (s : grpc_linked_mdelem) (new_mdelem : grpc_mdelem) :
  valid_map h m (ps1 ++ storage :: ps2) ->
  h !! storage = Some s ->
  Z.of_nat (length (ps1 ++ storage :: ps2)) < 2 ^ 64 ->
  (length (ps1 ++ storage :: ps2) <= fuel)%nat ->
  (NDEBUG = false ->
   Forall interned_key (contents h (ps1 ++ storage :: ps2)) /\
   interned_key new_mdelem /\ keeps_callout new_mdelem (md s)) ->
  let h1 := <[storage := set_md new_mdelem s]> h in
  let ps := ps1 ++ storage :: ps2 in
  let rekeyed :=
    negb (grpc_slice_eq (GRPC_MDKEY new_mdelem) (GRPC_MDKEY (md s)))
    && negb (bool_decide (GRPC_BATCH_INDEX_OF (GRPC_MDKEY new_mdelem)
                          = GRPC_BATCH_CALLOUTS_COUNT)) in
  (NDEBUG = false -> rekeyed = true ->
   Substitute NDEBUG fuel storage new_mdelem m h = Some Aborts) /\
  (NDEBUG = true \/ rekeyed = false ->
   (grpc_slice_eq (GRPC_MDKEY new_mdelem) (GRPC_MDKEY (md s)) = true ->
    Substitute NDEBUG fuel storage new_mdelem m h
    = Some (Returns (None, m, h1)) /\
    is_list h1 (list_ m) ps /\
    (GRPC_BATCH_INDEX_OF (GRPC_MDKEY new_mdelem)
     = GRPC_BATCH_INDEX_OF (GRPC_MDKEY (md s)) -> valid_map h1 m ps)) /\
   (grpc_slice_eq (GRPC_MDKEY new_mdelem) (GRPC_MDKEY (md s)) = false ->
    (exists idx first,
       callout_of h1 storage = Some idx /\
       idx_ m !! idx = Some first /\ first <> storage /\
       exists m' h',
         Substitute NDEBUG fuel storage new_mdelem m h
         = Some (Returns (Some (error_with_md new_mdelem), m', h')) /\
         valid_map h' m' (ps1 ++ ps2) /\
         contents h' (ps1 ++ ps2) = contents h ps1 ++ contents h ps2 /\
         deadline_ m' = deadline_ m /\
         (forall p, p <> storage -> element h' p = element h p) /\
         (forall p, p ∉ ps -> h' !! p = h !! p)) \/
    ((forall idx first, callout_of h1 storage = Some idx ->
                        idx_ m !! idx = Some first -> first = storage) /\
     exists m',
       Substitute NDEBUG fuel storage new_mdelem m h
       = Some (Returns (None, m', h1)) /\
       valid_map h1 m' ps /\ deadline_ m' = deadline_ m))) /\
  contents h1 ps = contents h ps1 ++ new_mdelem :: contents h ps2.
Proof.
  exact (Substitute_valid NDEBUG fuel h m ps1 ps2 storage s new_mdelem).
Qed.
End MetadataSubstitute.

(** ** [Filter] *)

Section MetadataFilter.
Import MetadataBatch.
Context `{Metadata}.

(** [Remove] for an object of a well-formed map, with what it leaves
    alone. *)
Lemma Remove_member (h : heap) (m : MetadataMap) (ps1 ps2 : list loc)
    (storage : loc) :
  valid_map h m (ps1 ++ storage :: ps2) ->
  Z.of_nat (length (ps1 ++ storage :: ps2)) < 2 ^ 64 ->
  exists m' h',
    Remove storage m h = Some (m', h') /\
    valid_map h' m' (ps1 ++ ps2) /\
    (forall p, element h' p = element h p) /\
    (forall p, p ∉ ps1 ++ ps2 -> h' !! p = h !! p) /\
    deadline_ m' = deadline_ m.
Proof.
  intros [Hl Hco] Hlen.
  pose proof (proj1 (proj1 Hl)) as Hnd.
  destruct (linked_at h _ (length ps1) storage (proj1 Hl)
              ltac:(apply list_lookup_middle; reflexivity))
    as (s & Hs & _).
  destruct (MaybeUnlinkCallout_member h m ps1 ps2 storage s Hnd Hco Hs Hlen)
    as (m1 & E & Hco1 & Hfree & Hcount & Hhead & Htail & Hdl).
  assert (Hl1 : is_list h (list_ m1) (ps1 ++ storage :: ps2)).
  { destruct Hl as (Hlk & H1 & H2 & H3). split; [exact Hlk|].
    rewrite Hcount, Hhead, Htail. auto. }
  destruct (unlink_storage_is_list h (list_ m1) ps1 ps2 storage Hl1 Hlen)
    as (l' & h' & El & Hl' & Hdc & Hmd & Hfr).
  unfold Remove. rewrite E. cbn [mbind option_bind]. rewrite El.
  cbn [mbind option_bind].
  eexists _, _. split; [reflexivity|]. split; [|auto].
  split; [exact Hl'|]. apply (callouts_ext h h'); [exact Hmd|].
  destruct Hco1 as (Ha & Hb & Hc). split; [|split]; cbn; auto.
  rewrite Hdc. exact Hc.
Qed.

Lemma add_error_None str error new_error :
  add_error str error new_error = None -> error = None /\ new_error = None.
Proof. destruct new_error; [discriminate | auto]. Qed.

Lemma omap_filtered_cons (f : grpc_mdelem -> grpc_filtered_mdelem) e es :
  omap (filtered f) (e :: es)
  = match filtered f e with
    | Some y => y :: omap (filtered f) es
    | None => omap (filtered f) es
    end.
Proof. reflexivity. Qed.

(** [Remove(storage)] with its assertions, for an object of a well-formed
    map: both assertions hold. *)
Lemma Remove_checked_member (NDEBUG : bool) (afuel : nat) (h : heap)
    (m : MetadataMap) (ps1 ps2 : list loc) (storage : loc) :
  valid_map h m (ps1 ++ storage :: ps2) ->
  Z.of_nat (length (ps1 ++ storage :: ps2)) < 2 ^ 64 ->
  (length (ps1 ++ storage :: ps2) <= afuel)%nat ->
  (NDEBUG = false ->
   Forall interned_key (contents h (ps1 ++ storage :: ps2))) ->
  exists m' h',
    Remove_checked NDEBUG afuel storage m h = Some (Returns (m', h')) /\
    valid_map h' m' (ps1 ++ ps2) /\
    (forall p, element h' p = element h p) /\
    (forall p, p ∉ ps1 ++ ps2 -> h' !! p = h !! p) /\
    deadline_ m' = deadline_ m.
Proof.
  intros Hv Hlen Hfuel Hint.
  destruct (Remove_member h m ps1 ps2 storage Hv Hlen)
    as (m' & h' & E & Hv' & Hrest).
  exists m', h'. split; [|split; [exact Hv' | exact Hrest]].
  unfold Remove_checked.
  rewrite (AssertValidCallouts_passes NDEBUG afuel h m
             (ps1 ++ storage :: ps2)) by auto.
  cbn [asserting mbind option_bind]. rewrite E. cbn [mbind option_bind].
  rewrite (AssertValidCallouts_passes NDEBUG afuel h' m' (ps1 ++ ps2));
    [reflexivity|].
  intros Hd. split; [|split; [exact Hv'|]].
  - destruct Hrest as (Hmd & _).
    rewrite (contents_same h h') by exact Hmd.
    apply (Forall_contents_middle _ h ps1 storage ps2). exact (Hint Hd).
  - rewrite length_app in *. cbn in Hfuel. lia.
Qed.

(** What [Filter] needs to know of the elements that are still to come, in
    a debug build: what [f] makes of them has an interned key. *)
Lemma interned_after (NDEBUG : bool)
    (f : grpc_mdelem -> grpc_filtered_mdelem) (h h' : heap)
    (done rest : list loc) (es : list grpc_mdelem) :
  contents h' done = es ->
  contents h' rest = contents h rest ->
  (NDEBUG = false ->
   Forall interned_key es /\ Forall interned_key (contents h rest) /\
   Forall (fun e => forall e', filtered f e = Some e' -> interned_key e')
     (contents h rest)) ->
  NDEBUG = false ->
  Forall interned_key (contents h' (done ++ rest)) /\
  Forall (fun e => forall e', filtered f e = Some e' -> interned_key e')
    (contents h' rest).
Proof.
  intros E1 E2 Hk Hd. destruct (Hk Hd) as (A & B & C).
  rewrite contents_app, E1, E2. split; [|exact C].
  apply Forall_app. auto.
Qed.

Lemma rekeys_to_callout_removed (f : grpc_mdelem -> grpc_filtered_mdelem) e :
  GRPC_MDISNULL (filtered_md (f e)) = true -> rekeys_to_callout f e = false.
Proof. intros E. unfold rekeys_to_callout. rewrite E. reflexivity. Qed.

Lemma rekeys_to_callout_same (f : grpc_mdelem -> grpc_filtered_mdelem) e :
  same_payload (filtered_md (f e)) e = true -> rekeys_to_callout f e = false.
Proof.
  intros E. unfold rekeys_to_callout. rewrite E.
  destruct (GRPC_MDISNULL _); reflexivity.
Qed.

Lemma rekeys_to_callout_substituted
    (f : grpc_mdelem -> grpc_filtered_mdelem) e :
  GRPC_MDISNULL (filtered_md (f e)) = false ->
  same_payload (filtered_md (f e)) e = false ->
  rekeys_to_callout f e
  = negb (grpc_slice_eq (GRPC_MDKEY (filtered_md (f e))) (GRPC_MDKEY e))
    && negb (bool_decide (GRPC_BATCH_INDEX_OF (GRPC_MDKEY (filtered_md (f e)))
                          = GRPC_BATCH_CALLOUTS_COUNT)).
Proof.
  intros E1 E2. unfold rekeys_to_callout. rewrite E1, E2. cbn [negb andb].
  destruct (grpc_slice_eq _ _); reflexivity.
Qed.

(** The loop of [Filter] when the objects at [done] have been visited and
    those at [rest] are still to come. *)
Lemma Filter_loop_valid (NDEBUG : bool) (afuel : nat)
    (f : grpc_mdelem -> grpc_filtered_mdelem) (str : string) :
  forall rest done h m l error fuel,
    valid_map h m (done ++ rest) ->
    l = rest !! 0%nat ->
    Z.of_nat (length (done ++ rest)) < 2 ^ 64 ->
    (length rest <= fuel)%nat ->
    (length (done ++ rest) <= afuel)%nat ->
    Forall (fun e => forall e', filtered f e = Some e' -> keeps_callout e' e)
      (contents h rest) ->
    (NDEBUG = false ->
     Forall interned_key (contents h (done ++ rest)) /\
     Forall (fun e => forall e', filtered f e = Some e' -> interned_key e')
       (contents h rest)) ->
    exists out,
      Filter_loop NDEBUG afuel fuel f str l error m h = Some out /\
      match out with
      | Aborts =>
          NDEBUG = false /\
          existsb (rekeys_to_callout f) (contents h (rest)) = true
      | Returns (err, m', h') =>
          (NDEBUG = false ->
           existsb (rekeys_to_callout f) (contents h (rest)) = false) /\
          exists kept,
            valid_map h' m' (done ++ kept) /\
            sublist kept (rest) /\
            deadline_ m' = deadline_ m /\
            (forall q, q ∈ done -> element h' q = element h q) /\
            (forall q, q ∈ kept ->
               exists e, element h q = Some e /\
                         element h' q = filtered f e) /\
            (forall q, q ∉ done ++ rest -> h' !! q = h !! q) /\
            (err = None ->
             error = None /\
             contents h' kept = omap (filtered f) (contents h (rest)) /\
             Forall (fun e => filtered_error (f e) = None)
               (contents h (rest)))
      end.
Proof.
  induction rest as [|p rest IH];
    intros done h m l error fuel Hv -> Hlen Hfuel Hafuel Hcallout Hkeys.
  - exists (Returns (error, m, h)).
    split; [destruct fuel; reflexivity|]. split; [reflexivity|].
    exists []. split; [exact Hv|]. split; [constructor|].
    split; [reflexivity|]. split; [reflexivity|].
    split; [intros p Hp; apply elem_of_nil in Hp as []|].
    split; [reflexivity|]. intros ->. cbn. auto.
  - destruct fuel as [|fuel]; [cbn in Hfuel; lia|].
    pose proof (proj1 (proj1 (proj1 Hv))) as Hnd.
    destruct (NoDup_middle _ _ _ Hnd) as [Hout Hnd'].
    destruct (linked_at h _ (length done) p (proj1 (proj1 Hv))
                ltac:(apply list_lookup_middle; reflexivity))
      as (n & Hn & Hnext & _).
    assert (Hnx : next n = rest !! 0%nat).
    { rewrite Hnext. rewrite lookup_app_r by lia.
      replace (S (length done) - length done)%nat with 1%nat by lia.
      reflexivity. }
    assert (Hel : element h p = Some (md n))
      by (unfold element; rewrite Hn; reflexivity).
    assert (Hcp : contents h (p :: rest) = md n :: contents h rest)
      by (apply contents_cons; exact Hel).
    assert (Hlen1 : Z.of_nat (length (done ++ rest)) < 2 ^ 64).
    { rewrite length_app in *. cbn in Hlen. lia. }
    assert (Hlen2 : Z.of_nat (length ((done ++ [p]) ++ rest)) < 2 ^ 64).
    { rewrite <- app_assoc. exact Hlen. }
    assert (Hafuel1 : (length (done ++ rest) <= afuel)%nat).
    { rewrite length_app in *. cbn in Hafuel. lia. }
    assert (Hafuel2 : (length ((done ++ [p]) ++ rest) <= afuel)%nat).
    { rewrite <- app_assoc. exact Hafuel. }
    assert (Hfuel' : (length rest <= fuel)%nat) by (cbn in Hfuel; lia).
    assert (Hprest : p ∉ rest).
    { intros Hp. apply Hout. apply elem_of_app. auto. }
    assert (Hpdone : p ∉ done).
    { intros Hp. apply Hout. apply elem_of_app. auto. }
    assert (Hpkeys : NDEBUG = false ->
              Forall interned_key (contents h (done ++ p :: rest)))
      by (intros Hd; apply (Hkeys Hd)).
    rewrite Hcp in Hcallout.
    apply List.Forall_cons_iff in Hcallout as [Hcallout_p Hcallout].
    assert (Hparts : NDEBUG = false ->
              Forall interned_key (contents h done) /\
              interned_key (md n) /\
              (forall e', filtered f (md n) = Some e' -> interned_key e') /\
              Forall interned_key (contents h rest) /\
              Forall (fun e => forall e', filtered f e = Some e' ->
                                          interned_key e')
                (contents h rest)).
    { intros Hd. destruct (Hkeys Hd) as [K1 K2].
      rewrite contents_app, Hcp in K1. apply Forall_app in K1 as [K1 K1'].
      apply List.Forall_cons_iff in K1' as [K1p K1'].
      rewrite Hcp in K2. apply List.Forall_cons_iff in K2 as [K2p K2].
      auto 6. }
    clear Hkeys.
    cbn [Filter_loop lookup list_lookup]. rewrite Hn. cbn [mbind option_bind].
    set (error1 := add_error str error (filtered_error (f (md n)))).
    rewrite Hcp. cbn [existsb].
    destruct (GRPC_MDISNULL (filtered_md (f (md n)))) eqn:Hnull.
    + (* the element is removed *)
      destruct (Remove_checked_member NDEBUG afuel h m done rest p Hv Hlen
                  Hafuel Hpkeys)
        as (m1 & h1 & E & Hv1 & Hmd1 & Hfr1 & Hdl1).
      rewrite E. cbn [mbind option_bind].
      rewrite (rekeys_to_callout_removed f (md n) Hnull). cbn [orb].
      assert (Hc1 : contents h1 rest = contents h rest)
        by (apply contents_same; exact Hmd1).
      destruct (IH done h1 m1 (next n) error1 fuel Hv1 Hnx Hlen1 Hfuel'
                  Hafuel1 ltac:(rewrite Hc1; exact Hcallout)
                  (interned_after NDEBUG f h h1 done rest (contents h done)
                     (contents_same h h1 done Hmd1) Hc1
                     ltac:(intros Hd; destruct (Hparts Hd)
                             as (? & ? & ? & ? & ?); auto)))
        as (out & EL & Hpost).
      rewrite Hc1 in Hpost.
      exists out. split; [exact EL|].
      destruct out as [[[err m'] h']|]; [|exact Hpost].
      destruct Hpost
        as (Hno & kept & Hv' & Hsub & Hdl & Hd & Hk & Hfr & He).
      split; [exact Hno|]. exists kept. split; [exact Hv'|].
      split; [apply sublist_cons; exact Hsub|].
      split; [congruence|]. split; [|split; [|split]].
      * intros q Hq. rewrite Hd by exact Hq. apply Hmd1.
      * intros q Hq. destruct (Hk q Hq) as (e & He1 & He2).
        exists e. rewrite <- Hmd1. auto.
      * intros q Hq. rewrite Hfr, Hfr1; [reflexivity| |];
          intros Hq'; apply Hq; apply elem_of_middle; auto.
      * intros ->. destruct (He eq_refl) as (He1 & He2 & He3).
        apply add_error_None in He1 as [-> Hf]. split; [reflexivity|].
        assert (Hfil : filtered f (md n) = None)
          by (unfold filtered; rewrite Hnull; reflexivity).
        rewrite omap_filtered_cons. rewrite Hfil.
        split; [exact He2|]. constructor; [exact Hf | exact He3].
    + destruct (same_payload (filtered_md (f (md n))) (md n)) eqn:Hsame;
        cbn [negb].
      * (* the element stays *)
        assert (Hv1 : valid_map h m ((done ++ [p]) ++ rest))
          by (rewrite <- app_assoc; exact Hv).
        rewrite (rekeys_to_callout_same f (md n) Hsame). cbn [orb].
        assert (Hcd : contents h (done ++ [p]) = contents h done ++ [md n]).
        { rewrite contents_app, (contents_cons h p [] (md n) Hel).
          reflexivity. }
        destruct (IH (done ++ [p]) h m (next n) error1 fuel Hv1 Hnx Hlen2
                    Hfuel' Hafuel2 Hcallout
                    (interned_after NDEBUG f h h (done ++ [p]) rest
                       (contents h done ++ [md n]) Hcd eq_refl
                       ltac:(intros Hd; destruct (Hparts Hd)
                               as (? & ? & ? & ? & ?);
                             split; [apply Forall_app; split;
                                     [assumption | constructor;
                                      [assumption | constructor]]
                                    | auto])))
          as (out & EL & Hpost).
        exists out. split; [exact EL|].
        destruct out as [[[err m'] h']|]; [|exact Hpost].
        destruct Hpost
          as (Hno & kept & Hv' & Hsub & Hdl & Hd & Hk & Hfr & He).
        split; [exact Hno|]. exists (p :: kept).
        split; [rewrite <- app_assoc in Hv'; exact Hv'|].
        split; [apply sublist_skip; exact Hsub|].
        split; [exact Hdl|].
        assert (Hp' : element h' p = filtered f (md n)).
        { rewrite Hd by (apply elem_of_app; right; apply list_elem_of_here).
          rewrite Hel. unfold filtered. rewrite Hnull, Hsame. reflexivity. }
        split; [|split; [|split]].
        -- intros q Hq. apply Hd. apply elem_of_app. auto.
        -- intros q Hq. apply elem_of_cons in Hq as [->|Hq]; [|auto].
           exists (md n). auto.
        -- intros q Hq. apply Hfr. rewrite <- app_assoc. exact Hq.
        -- intros ->. destruct (He eq_refl) as (He1 & He2 & He3).
           apply add_error_None in He1 as [-> Hf]. split; [reflexivity|].
           assert (Hfil : filtered f (md n) = Some (md n))
             by (unfold filtered; rewrite Hnull, Hsame; reflexivity).
           rewrite Hfil in Hp'.
           rewrite omap_filtered_cons, Hfil.
           rewrite (contents_cons h' p kept (md n) Hp'), He2.
           split; [reflexivity|]. constructor; assumption.
      * (* the element is substituted *)
        rewrite (rekeys_to_callout_substituted f (md n) Hnull Hsame).
        set (new_mdelem := filtered_md (f (md n))) in *.
        assert (Hfil : filtered f (md n) = Some new_mdelem).
        { unfold filtered. fold new_mdelem. rewrite Hnull, Hsame.
          reflexivity. }
        destruct (Substitute_valid NDEBUG afuel h m done rest p n new_mdelem
                    Hv Hn Hlen Hafuel
                    ltac:(intros Hd; destruct (Hparts Hd)
                            as (_ & _ & Hnew & _);
                          split; [exact (Hpkeys Hd)|]; split;
                          [exact (Hnew _ Hfil) | exact (Hcallout_p _ Hfil)]))
          as (Habort & Hreturns & Hcont).
        cbv zeta in Habort, Hreturns.
        set (rekeyed :=
               negb (grpc_slice_eq (GRPC_MDKEY new_mdelem) (GRPC_MDKEY (md n)))
               && negb (bool_decide (GRPC_BATCH_INDEX_OF
                                       (GRPC_MDKEY new_mdelem)
                                     = GRPC_BATCH_CALLOUTS_COUNT))) in *.
        destruct (negb NDEBUG && rekeyed) eqn:Hab.
        { (* a debug build stops here *)
          apply andb_true_iff in Hab as [Hd Hre].
          apply negb_true_iff in Hd.
          rewrite (Habort Hd Hre). cbn [mbind option_bind].
          exists Aborts. split; [reflexivity|]. split; [exact Hd|].
          rewrite Hre. reflexivity. }
        assert (Hbuild : NDEBUG = true \/ rekeyed = false).
        { destruct NDEBUG; [auto|]. right. exact Hab. }
        assert (Hre : NDEBUG = false -> rekeyed = false).
        { intros ->. exact Hab. }
        destruct (Hreturns Hbuild) as [Hsame_key Hother_key].
        clear Habort Hreturns.
        assert (Hok : forall m1,
          Substitute NDEBUG afuel p new_mdelem m h
          = Some (Returns (None, m1, <[p := set_md new_mdelem n]> h)) ->
          valid_map (<[p := set_md new_mdelem n]> h) m1 (done ++ p :: rest) ->
          deadline_ m1 = deadline_ m ->
          exists out,
            (r ← Substitute NDEBUG afuel p new_mdelem m h;
             match r with
             | Aborts => Some Aborts
             | Returns (err0, m0, h0) =>
                 Filter_loop NDEBUG afuel fuel f str (next n)
                   (add_error str error1 err0) m0 h0
             end) = Some out /\
            match out with
            | Aborts =>
                NDEBUG = false /\
                rekeyed || existsb (rekeys_to_callout f) (contents h rest)
                = true
            | Returns (err, m', h') =>
                (NDEBUG = false ->
                 rekeyed || existsb (rekeys_to_callout f) (contents h rest)
                 = false) /\
                exists kept,
                  valid_map h' m' (done ++ kept) /\
                  sublist kept (p :: rest) /\
                  deadline_ m' = deadline_ m /\
                  (forall q, q ∈ done -> element h' q = element h q) /\
                  (forall q, q ∈ kept ->
                     exists e, element h q = Some e /\
                               element h' q = filtered f e) /\
                  (forall q, q ∉ done ++ p :: rest -> h' !! q = h !! q) /\
                  (err = None ->
                   error = None /\
                   contents h' kept
                   = omap (filtered f) (md n :: contents h rest) /\
                   Forall (fun e => filtered_error (f e) = None)
                     (md n :: contents h rest))
            end).
        { intros m1 E Hv1 Hdl1. rewrite E. cbn [mbind option_bind add_error].
          set (h1 := <[p := set_md new_mdelem n]> h) in *.
          assert (Hv1' : valid_map h1 m1 ((done ++ [p]) ++ rest))
            by (rewrite <- app_assoc; exact Hv1).
          assert (Hel1 : forall q, q <> p -> element h1 q = element h q).
          { intros q Hq. unfold element, h1.
            rewrite lookup_insert_ne by congruence. reflexivity. }
          assert (Hp1 : element h1 p = Some new_mdelem).
          { unfold element, h1. rewrite lookup_insert_eq. reflexivity. }
          assert (Hc1 : contents h1 rest = contents h rest).
          { unfold h1. apply contents_insert_other. exact Hprest. }
          assert (Hcd : contents h1 (done ++ [p])
                        = contents h done ++ [new_mdelem]).
          { rewrite contents_app, (contents_cons h1 p [] new_mdelem Hp1).
            unfold h1. rewrite contents_insert_other by exact Hpdone.
            reflexivity. }
          destruct (IH (done ++ [p]) h1 m1 (next n) error1 fuel Hv1' Hnx
                      Hlen2 Hfuel' Hafuel2
                      ltac:(rewrite Hc1; exact Hcallout)
                      (interned_after NDEBUG f h h1 (done ++ [p]) rest
                         (contents h done ++ [new_mdelem]) Hcd Hc1
                         ltac:(intros Hd; destruct (Hparts Hd)
                                 as (? & ? & Hnew & ? & ?);
                               split; [apply Forall_app; split;
                                       [assumption | constructor;
                                        [exact (Hnew _ Hfil) | constructor]]
                                      | auto])))
            as (out & EL & Hpost).
          rewrite Hc1 in Hpost.
          exists out. split; [exact EL|].
          destruct out as [[[err m'] h']|].
          2:{ destruct Hpost as [Hd Hex]. split; [exact Hd|].
              rewrite Hex. apply orb_true_r. }
          destruct Hpost
            as (Hno & kept & Hv' & Hsub & Hdl & Hd & Hk & Hfr & He).
          split; [intros Hdb; rewrite (Hre Hdb), (Hno Hdb); reflexivity|].
          exists (p :: kept).
          split; [rewrite <- app_assoc in Hv'; exact Hv'|].
          split; [apply sublist_skip; exact Hsub|].
          split; [congruence|].
          assert (Hp' : element h' p = Some new_mdelem).
          { rewrite Hd by (apply elem_of_app; right; apply list_elem_of_here).
            exact Hp1. }
          split; [|split; [|split]].
          - intros q Hq. rewrite Hd by (apply elem_of_app; auto).
            apply Hel1. intros ->. contradiction.
          - intros q Hq. apply elem_of_cons in Hq as [->|Hq].
            + exists (md n). rewrite Hfil. auto.
            + destruct (Hk q Hq) as (e & He1 & He2). exists e.
              rewrite <- Hel1; [auto|]. intros ->.
              apply Hprest. eapply elem_of_sublist; eassumption.
          - intros q Hq. rewrite Hfr by (rewrite <- app_assoc; exact Hq).
            unfold h1. apply lookup_insert_ne. intros <-. apply Hq.
            apply elem_of_middle. auto.
          - intros ->. destruct (He eq_refl) as (He1 & He2 & He3).
            apply add_error_None in He1 as [-> Hf]. split; [reflexivity|].
            rewrite omap_filtered_cons. rewrite Hfil.
            rewrite (contents_cons h' p kept new_mdelem Hp').
            rewrite He2. split; [reflexivity|].
            constructor; [exact Hf | exact He3]. }
        destruct (grpc_slice_eq (GRPC_MDKEY new_mdelem) (GRPC_MDKEY (md n)))
          eqn:Hkey.
        -- destruct (Hsame_key eq_refl) as (E & _ & Hv1).
           apply (Hok m E); [|reflexivity].
           apply Hv1. apply (Hcallout_p _ Hfil). exact Hkey.
        -- destruct (Hother_key eq_refl)
             as [(idx & first & _ & _ & _ & m1 & h1 & E & Hv1 & _ & Hdl1
                  & Hmd1 & Hfr1)
                | (_ & m1 & E & Hv1 & Hdl1)]; [|apply (Hok m1 E Hv1 Hdl1)].
           rewrite E. cbn [mbind option_bind].
           assert (Hc1 : contents h1 rest = contents h rest).
           { apply contents_ext. intros q Hq. apply Hmd1.
             intros ->. contradiction. }
           assert (Hcd : contents h1 done = contents h done).
           { apply contents_ext. intros q Hq. apply Hmd1.
             intros ->. contradiction. }
           destruct (IH done h1 m1 (next n)
                       (add_error str error1
                          (Some (error_with_md new_mdelem)))
                       fuel Hv1 Hnx Hlen1 Hfuel' Hafuel1
                       ltac:(rewrite Hc1; exact Hcallout)
                       (interned_after NDEBUG f h h1 done rest
                          (contents h done) Hcd Hc1
                          ltac:(intros Hd; destruct (Hparts Hd)
                                  as (? & ? & ? & ? & ?); auto)))
             as (out & EL & Hpost).
           rewrite Hc1 in Hpost.
           exists out. split; [exact EL|].
           destruct out as [[[err m'] h']|].
           2:{ destruct Hpost as [Hd Hex]. split; [exact Hd|].
               rewrite Hex. apply orb_true_r. }
           destruct Hpost
             as (Hno & kept & Hv' & Hsub & Hdl & Hd & Hk & Hfr & He).
           split; [intros Hdb; rewrite (Hre Hdb), (Hno Hdb); reflexivity|].
           exists kept. split; [exact Hv'|].
           split; [apply sublist_cons; exact Hsub|].
           split; [congruence|]. split; [|split; [|split]].
           ++ intros q Hq. rewrite Hd by exact Hq. apply Hmd1.
              intros ->. contradiction.
           ++ intros q Hq. destruct (Hk q Hq) as (e & He1 & He2).
              exists e. rewrite <- Hmd1; [auto|]. intros ->.
              apply Hprest. eapply elem_of_sublist; eassumption.
           ++ intros q Hq. rewrite Hfr, Hfr1; [reflexivity|exact Hq|].
              intros Hq'; apply Hq; apply elem_of_middle; auto.
           ++ intros ->. destruct (He eq_refl) as (He1 & _).
              apply add_error_None in He1 as [_ He1]. discriminate.
Qed.

(** X25.  [Filter] keeps the map well-formed, whatever [f] returns; in a
    debug build it aborts when [f] gives an element a different key that
    has a callout.  Let [m] be a well-formed map of the objects at [ps];
    where [f] gives an element a key that is equal to the old one as a
    slice, let it have the same callout; and for a debug build let interning
    change the callout of no key in the map nor of a key that [f] gives.  In
    a debug build, if
    for some element of the list [f] returns an element that is not null,
    has another payload, and has a key that differs from the old one and
    has a callout, then [Filter] aborts: it calls [Substitute], and the
    assertion at the entry of [LinkCallout] fails.  Otherwise [Filter]
    ends, and [m] is afterwards a well-formed map of a sublist [kept] of
    [ps] with the same deadline.  Every object that is kept holds what [f]
    made of its element, or its old element when the payload is the same,
    and no kept element is one for which [f] returned null.  No object
    outside [ps] is written.  When no error is returned, [f] returned no
    error, and the elements are those of the whole list on which [f] did
    not return null. *)
Theorem Filter_filters (NDEBUG : bool) (h : heap) (m : MetadataMap)
    (ps : list loc) (f : grpc_mdelem -> grpc_filtered_mdelem)
    (composite_error_string : string) (fuel : nat) :
  Forall (fun e => forall e', filtered f e = Some e' -> keeps_callout e' e)
    (contents h ps) ->
  (NDEBUG = false ->
   Forall (fun e => interned_key e /\
                    forall e', filtered f e = Some e' -> interned_key e')
     (contents h ps)) ->
  valid_map h m ps ->
  Z.of_nat (length ps) < 2 ^ 64 -> (length ps <= fuel)%nat ->
  let aborts :=
    negb NDEBUG && existsb (rekeys_to_callout f) (contents h ps) in
  (aborts = true ->
   Filter NDEBUG fuel f composite_error_string m h = Some Aborts) /\
  (aborts = false ->
   exists err m' h' kept,
     Filter NDEBUG fuel f composite_error_string m h
     = Some (Returns (err, m', h')) /\
     valid_map h' m' kept /\
     sublist kept ps /\
     deadline_ m' = deadline_ m /\
     (forall p, p ∈ kept ->
        exists e, element h p = Some e /\ element h' p = filtered f e) /\
     (forall p, p ∉ ps -> h' !! p = h !! p) /\
     (err = None ->
      contents h' kept = omap (filtered f) (contents h ps) /\
      Forall (fun e => filtered_error (f e) = None) (contents h ps))).
Proof.
  intros Hcallout Hkeys Hv Hlen Hfuel aborts.
  destruct (Filter_loop_valid NDEBUG fuel f composite_error_string
              ps [] h m (head (list_ m)) None fuel Hv
              (proj1 (proj2 (proj1 Hv))) Hlen Hfuel Hfuel Hcallout
              ltac:(intros Hd; specialize (Hkeys Hd); cbn [app];
                    split; eapply Forall_impl; try exact Hkeys;
                    cbn; intros e [? ?]; assumption))
    as (out & EL & Hpost).
  unfold Filter. rewrite EL. subst aborts.
  destruct out as [[[err m'] h']|].
  - destruct Hpost as (Hno & kept & Hv' & Hsub & Hdl & _ & Hk & Hfr & He).
    split.
    + intros Hab. apply andb_true_iff in Hab as [Hd Hex].
      apply negb_true_iff in Hd. rewrite (Hno Hd) in Hex. discriminate.
    + intros _. exists err, m', h', kept. split; [reflexivity|].
      split; [exact Hv'|]. split; [exact Hsub|]. split; [exact Hdl|].
      split; [exact Hk|]. split; [exact Hfr|].
      intros E. destruct (He E) as (_ & He2 & He3). auto.
  - destruct Hpost as [Hd Hex]. split; [reflexivity|].
    intros Hab. rewrite Hd, Hex in Hab. discriminate.
Qed.
End MetadataFilter.

(** ** [AddHead], [AddTail] and the counts *)

Section MetadataAdd.
Import MetadataBatch.
Context `{Metadata}.



(** X27.  The deadline counts as an element.  For a list of the objects at
    [ps], [non_deadline_count] is their number, [count] is one more when a
    deadline is set, and [empty] holds exactly when there is no object and
    no deadline. *)
Theorem empty_no_element_no_deadline (h : heap) (m : MetadataMap)
    (ps : list loc) :
  is_list h (list_ m) ps ->
  Z.of_nat (length ps) + 1 < 2 ^ 64 ->
  non_deadline_count m = Z.of_nat (length ps) /\
  MetadataMap_count (SetDeadline GRPC_MILLIS_INF_FUTURE m)
  = Z.of_nat (length ps) /\
  (deadline_ m <> GRPC_MILLIS_INF_FUTURE ->
   MetadataMap_count m = Z.of_nat (length ps) + 1) /\
  (empty m = true <-> ps = [] /\ deadline_ m = GRPC_MILLIS_INF_FUTURE) /\
  empty (ClearDeadline m) = bool_decide (ps = []).
Proof.
  intros (_ & _ & _ & Hcount) Hlen.
  unfold empty, ClearDeadline, MetadataMap_count, non_deadline_count,
    SetDeadline.
  cbn [list_ deadline_]. rewrite Hcount.
  rewrite (bool_decide_eq_true_2 (_ = _)) by reflexivity.
  rewrite Z.add_0_r, size_t_wrap_small by lia.
  split; [reflexivity|]. split; [reflexivity|]. split; [|split].
  - intros Hd. rewrite bool_decide_eq_false_2 by exact Hd.
    apply size_t_wrap_small. lia.
  - rewrite bool_decide_eq_true.
    destruct (bool_decide_reflect (deadline_ m = GRPC_MILLIS_INF_FUTURE))
      as [Hd|Hd]; rewrite size_t_wrap_small by lia.
    + rewrite Z.add_0_r. split.
      * intros E. split; [|exact Hd]. destruct ps; [reflexivity|].
        cbn in E. lia.
      * intros [-> _]. reflexivity.
    + split; [lia | tauto].
  - destruct ps; [reflexivity|].
    rewrite (bool_decide_eq_false_2 (_ :: _ = [])) by discriminate.
    apply bool_decide_eq_false_2. cbn. lia.
Qed.
End MetadataAdd.

(** ** The theorems on a map of two elements *)

Section MetadataSample.
Import MetadataBatch.
#[local] Existing Instance sample_metadata.

Lemma sample_linked : linked sample_heap [1%positive; 2%positive].
Proof.
  split.
  - apply NoDup_cons. split; [|apply NoDup_singleton].
    rewrite list_elem_of_singleton. discriminate.
  - intros [|[|i]] p Hi; cbn in Hi; try discriminate; injection Hi as <-;
      eexists; (split; [reflexivity|]); split; reflexivity.
Qed.

Lemma sample_is_list :
  is_list sample_heap (list_ sample_map) [1%positive; 2%positive].
Proof. split; [exact sample_linked|]. repeat split. Qed.

Lemma sample_valid : valid_map sample_heap sample_map [1%positive; 2%positive].
Proof.
  split; [exact sample_is_list|]. split; [|split].
  - intros p idx Hp Hc. rewrite !elem_of_cons, elem_of_nil in Hp.
    destruct Hp as [->|[->|[]]]; vm_compute in Hc; [|discriminate].
    injection Hc as <-. reflexivity.
  - intros idx p Hi. unfold sample_map in Hi. cbn [idx_] in Hi.
    apply lookup_singleton_Some in Hi as [<- <-].
    split; [apply list_elem_of_here | reflexivity].
  - reflexivity.
Qed.

Lemma sample_fresh : (3%positive : loc) ∉ [1%positive; 2%positive].
Proof. rewrite !elem_of_cons, elem_of_nil. intros [E|[E|[]]]; discriminate. Qed.

Lemma link_head_links_witness :
  exists l' h',
    link_head (list_ sample_map) 3%positive sample_heap = Some (l', h') /\
    is_list h' l' [3%positive; 1%positive; 2%positive] /\
    default_count l' = default_count (list_ sample_map) /\
    (forall p, element h' p = element sample_heap p) /\
    (forall p, p <> 3%positive -> p ∉ [1%positive; 2%positive] ->
               h' !! p = sample_heap !! p).
Proof.
  apply (link_head_links sample_heap (list_ sample_map)
           [1%positive; 2%positive] 3%positive).
  - exact sample_is_list.
  - exact sample_fresh.
  - eexists. reflexivity.
  - reflexivity.
Defined.

Lemma link_tail_links_witness :
  exists l' h',
    link_tail (list_ sample_map) 3%positive sample_heap = Some (l', h') /\
    is_list h' l' ([1%positive; 2%positive] ++ [3%positive]) /\
    default_count l' = default_count (list_ sample_map) /\
    (forall p, element h' p = element sample_heap p) /\
    (forall p, p <> 3%positive -> p ∉ [1%positive; 2%positive] ->
               h' !! p = sample_heap !! p).
Proof.
  apply (link_tail_links sample_heap (list_ sample_map)
           [1%positive; 2%positive] 3%positive).
  - exact sample_is_list.
  - exact sample_fresh.
  - eexists. reflexivity.
  - reflexivity.
Defined.

Lemma unlink_storage_unlinks_witness :
  exists l' h',
    unlink_storage (list_ sample_map) 1%positive sample_heap
    = Some (l', h') /\
    is_list h' l' ([] ++ [2%positive]) /\
    default_count l' = default_count (list_ sample_map) /\
    (forall p, element h' p = element sample_heap p) /\
    (forall p, p ∉ [] ++ [2%positive] -> h' !! p = sample_heap !! p).
Proof.
  apply (unlink_storage_unlinks sample_heap (list_ sample_map)
           [] [2%positive] 1%positive).
  - exact sample_is_list.
  - reflexivity.
Defined.


Lemma Remove_removes_witness :
  (exists m' h',
     Remove 1%positive sample_map sample_heap = Some (m', h') /\
     valid_map h' m' ([] ++ [2%positive]) /\
     contents h' ([] ++ [2%positive])
     = contents sample_heap [] ++ contents sample_heap [2%positive] /\
     (forall i, callout_of sample_heap 1%positive = Some i ->
                idx_ m' !! i = None) /\
     deadline_ m' = deadline_ sample_map /\
     h' !! 1%positive = sample_heap !! 1%positive) /\
  (idx_ sample_map !! 0%nat = Some 1%positive ->
   Remove_idx 0 sample_map sample_heap
   = Remove 1%positive sample_map sample_heap) /\
  (idx_ sample_map !! 0%nat = None ->
   Remove_idx 0 sample_map sample_heap = Some (sample_map, sample_heap)).
Proof.
  apply (Remove_removes sample_heap sample_map [] [2%positive] 1%positive 0).
  - exact sample_valid.
  - reflexivity.
Defined.

Lemma GetValue_joins_witness :
  GetValue 2 "te" sample_map sample_heap = Some (Some "trailers").
Proof.
  exact (GetValue_joins sample_heap sample_map [1%positive; 2%positive]
           "te" 2 sample_is_list (le_n 2)).
Defined.

Lemma TransportSize_sums_witness :
  TransportSize 2 sample_map sample_heap = Some 81.
Proof.
  exact (TransportSize_sums sample_heap sample_map [1%positive; 2%positive]
           2 sample_is_list (le_n 2)).
Defined.

Lemma Remove_key_removes_first_witness :
  exists m' h',
    Remove_key 2 "te" sample_map sample_heap
    = Some (Some "trailers", m', h') /\
    valid_map h' m' ([1%positive] ++ []) /\
    contents h' ([1%positive] ++ [])
    = contents sample_heap [1%positive] ++ contents sample_heap [].
Proof.
  apply (proj2 (Remove_key_removes_first sample_heap sample_map
                  [1%positive; 2%positive] "te" 2 sample_valid
                  eq_refl (le_n 2))
           [1%positive] 2%positive [] ("te", "trailers")).
  - reflexivity.
  - repeat constructor.
  - reflexivity.
  - reflexivity.
Defined.

Lemma ReplaceIfExists_replaces_first_witness :
  exists h',
    ReplaceIfExists 2 ":path" "/b" sample_map sample_heap = Some (true, h') /\
    is_list h' (list_ sample_map) [1%positive; 2%positive] /\
    contents h' [1%positive; 2%positive]
    = contents sample_heap [] ++ (":path", "/b")
        :: contents sample_heap [2%positive] /\
    (forall q, q <> 1%positive -> h' !! q = sample_heap !! q).
Proof.
  apply (proj2 (ReplaceIfExists_replaces_first sample_heap sample_map
                  [1%positive; 2%positive] ":path" "/b" 2 sample_is_list
                  (le_n 2))
           [] 1%positive [2%positive] (":path", "/a")).
  - reflexivity.
  - constructor.
  - reflexivity.
  - reflexivity.
Defined.

Lemma assert_valid_list_exact_witness :
  assert_valid_list 2 sample_heap (list_ sample_map) = Some true <->
  (head (list_ sample_map) = None /\ tail (list_ sample_map) = None) \/
  exists ps, ps <> [] /\ is_list sample_heap (list_ sample_map) ps /\
             no_null sample_heap ps /\ (length ps <= 2)%nat.
Proof.
  apply (assert_valid_list_exact sample_heap (list_ sample_map) 2).
  reflexivity.
Defined.

Lemma sample_keeps_callout (new_mdelem old_mdelem : grpc_mdelem) :
  keeps_callout new_mdelem old_mdelem.
Proof.
  intros E. apply bool_decide_eq_true in E. congruence.
Qed.

Lemma sample_interned (e : grpc_mdelem) : interned_key e.
Proof. reflexivity. Qed.

Lemma Substitute_substitutes_witness :
  Substitute false 2 2%positive (":path", "/b") sample_map sample_heap
  = Some Aborts /\
  exists m' h',
    Substitute true 2 2%positive (":path", "/b") sample_map sample_heap
    = Some (Returns (Some (error_with_md (":path", "/b")), m', h')) /\
    valid_map h' m' ([1%positive] ++ []).
Proof.
  assert (Hkeys : Forall interned_key
                    (contents sample_heap ([1%positive] ++ 2%positive :: [])))
    by (apply Forall_forall; intros e _; apply sample_interned).
  split.
  - pose proof (Substitute_substitutes false 2 sample_heap sample_map
                  [1%positive] [] 2%positive
                  (@mk_linked sample_metadata ("te", "trailers") None
                     (Some 1%positive) None)
                  (":path", "/b") sample_valid eq_refl eq_refl (le_n 2)
                  (fun _ => conj Hkeys
                              (conj (sample_interned _)
                                 (sample_keeps_callout _ _)))) as W.
    cbv zeta in W. destruct W as (W & _). exact (W eq_refl eq_refl).
  - pose proof (Substitute_substitutes true 2 sample_heap sample_map
                  [1%positive] [] 2%positive
                  (@mk_linked sample_metadata ("te", "trailers") None
                     (Some 1%positive) None)
                  (":path", "/b") sample_valid eq_refl eq_refl (le_n 2)
                  (fun _ => conj Hkeys
                              (conj (sample_interned _)
                                 (sample_keeps_callout _ _)))) as W.
    cbv zeta in W. destruct W as (_ & W & _).
    destruct (W (or_introl eq_refl)) as [_ W'].
    destruct (W' eq_refl)
      as [(idx & first & _ & _ & _ & m' & h' & E & Hv & _) | (Hfree & _)].
    + exists m', h'. auto.
    + specialize (Hfree 0%nat 1%positive eq_refl eq_refl). discriminate.
Defined.

Lemma Filter_filters_witness :
  Filter false 2 te_to_method "filter" sample_map sample_heap = Some Aborts /\
  exists err m' h' kept,
    Filter false 2 rename_te "filter" sample_map sample_heap
    = Some (Returns (err, m', h')) /\
    valid_map h' m' kept /\
    sublist kept [1%positive; 2%positive] /\
    deadline_ m' = deadline_ sample_map /\
    (forall p, p ∈ kept ->
       exists e, element sample_heap p = Some e /\
                 element h' p = filtered rename_te e) /\
    (forall p, p ∉ [1%positive; 2%positive] -> h' !! p = sample_heap !! p) /\
    (err = None ->
     contents h' kept
     = omap (filtered rename_te)
         (contents sample_heap [1%positive; 2%positive]) /\
     Forall (fun e => filtered_error (rename_te e) = None)
       (contents sample_heap [1%positive; 2%positive])).
Proof.
  split.
  - pose proof (Filter_filters false sample_heap sample_map
                  [1%positive; 2%positive] te_to_method "filter" 2) as W.
    cbv zeta in W. destruct W as [W _].
    + apply Forall_forall. intros e _ e' _. apply sample_keeps_callout.
    + intros _. apply Forall_forall. intros e _.
      split; [|intros e' _]; apply sample_interned.
    + exact sample_valid.
    + reflexivity.
    + apply le_n.
    + exact (W eq_refl).
  - pose proof (Filter_filters false sample_heap sample_map
                  [1%positive; 2%positive] rename_te "filter" 2) as W.
    cbv zeta in W. destruct W as [_ W].
    + apply Forall_forall. intros e _ e' _. apply sample_keeps_callout.
    + intros _. apply Forall_forall. intros e _.
      split; [|intros e' _]; apply sample_interned.
    + exact sample_valid.
    + reflexivity.
    + apply le_n.
    + exact (W eq_refl).
Defined.


Lemma empty_no_element_no_deadline_witness :
  non_deadline_count deadline_only = 0 /\
  MetadataMap_count (SetDeadline GRPC_MILLIS_INF_FUTURE deadline_only) = 0 /\
  (deadline_ deadline_only <> GRPC_MILLIS_INF_FUTURE ->
   MetadataMap_count deadline_only = 0 + 1) /\
  (empty deadline_only = true <->
   @nil loc = [] /\ deadline_ deadline_only = GRPC_MILLIS_INF_FUTURE) /\
  empty (ClearDeadline deadline_only) = bool_decide (@nil loc = []).
Proof.
  apply (empty_no_element_no_deadline sample_heap deadline_only []).
  - split; [apply linked_nil|]. repeat split.
  - reflexivity.
Defined.
End MetadataSample.
